(** * Pourr-cursor: the gameplay simulation core

    A shallow embedding of the three classes that decide the arena
    shooter's gameplay:

    - [Enemy]            (src/entities/Enemy.js),
    - [EnemyManager]     (src/systems/EnemyManager.js),
    - [ProjectileSystem] (src/systems/ProjectileSystem.js),

    and of what drives them and reports on them:

    - [Game]                (src/core/Game.js): score, health, weapon and
      the order of a frame,
    - [HUDController]       (src/ui/HUDController.js),
    - [InputManager]        (src/core/InputManager.js),
    - [FloatingTextManager] (src/ui/FloatingTextManager.js),
    - [formatTime]          (src/main.js),

    followed by the properties of the design document that concern them
    and by further properties of the code.

    ** Modelling conventions

    - A JavaScript number that holds a measure (seconds, distances, health
      points) is an exact rational [Q]; NaN and the infinities of IEEE
      doubles are outside the model.  The wave number and the cap on
      concurrent enemies only ever hold integers and are [Z].
    - Rounding matters where a sum that is built up frame after frame is
      compared with a threshold: the range and the lifetime of a
      projectile, and the cooldown of the weapon.  The flight of one
      projectile and the cooldown are therefore modelled a second time,
      in [Rounded] and [RoundedWeapon], with every operation followed by
      a rounding; [Binary64.round] is the rounding of the doubles, and
      the properties that set an accumulated tick time against the
      range, the lifetime or the cooldown are stated for it.
    - [Math.sqrt], [Math.cos], [Math.sin], [Math.random], the comparator
      driven [Array.prototype.sort] and the asset loader are not part of the
      repository.  They are fields of a [Host] record that every operation
      receives; random draws are indexed by a counter kept in the state.
    - Meshes, animation mixers, materials and the scene graph are owned by
      the render layer and are left out; so is the orientation of an enemy.
    - Projectiles are JavaScript objects that travel between the active
      list and the pool by reference.  They live in a store indexed by
      references; the two arrays hold references.
    - An [async] call that has started and not yet resumed after its
      [await] is an element of [pendingSpawns]; [settleSpawn] is the
      resumption. *)

From Stdlib Require Import QArith Qminmax Qround Qabs Qpower Lqa ZArith Lia
  Ascii.
From stdpp Require Import base list gmap strings sorting pretty.

Set Default Proof Using "Type".

Local Open Scope Q_scope.

(** ** Numbers *)

Definition Qleb (a b : Q) : bool := Qle_bool a b.
Definition Qltb (a b : Q) : bool := negb (Qle_bool b a).

(** [for (let i = n - 1; i >= 0; i -= 1) body(i)] *)
Fixpoint forDown {S : Type} (n : nat) (body : nat → S → S) (s : S) : S :=
  match n with
  | O => s
  | Datatypes.S i => forDown i body (body i s)
  end.

(** ** The host environment *)

Record Host := {
  Math_sqrt : Q → Q;
  Math_cos : Q → Q;
  Math_sin : Q → Q;
  Math_PI : Q;
  (** the n-th value returned by [Math.random()] *)
  Math_random : nat → Q;
  (** [array.sort(() => Math.random() - 0.5)], started at the n-th draw *)
  sort_random : nat → list string → list string;
  (** how many draws that call consumes *)
  sort_draws : nat → list string → nat;
}.

(** What ECMAScript promises of [sort] whatever the comparator answers:
    the array keeps its elements. *)
Definition HostOk (h : Host) : Prop :=
  ∀ n l, sort_random h n l ≡ₚ l.

(** ** THREE.Vector3 *)

Module Vector3.

Record t := mk { x : Q; y : Q; z : Q }.

Definition zero : t := mk 0 0 0.

Definition add (a b : t) : t :=
  mk (x a + x b) (y a + y b) (z a + z b).

Definition subVectors (a b : t) : t :=
  mk (x a - x b) (y a - y b) (z a - z b).

Definition addScaledVector (a v : t) (s : Q) : t :=
  mk (x a + x v * s) (y a + y v * s) (z a + z v * s).

Definition distanceToSquared (a v : t) : Q :=
  let dx := x a - x v in
  let dy := y a - y v in
  let dz := z a - z v in
  dx * dx + dy * dy + dz * dz.

Definition length (h : Host) (a : t) : Q :=
  Math_sqrt h (x a * x a + y a * y a + z a * z a).

Definition divideScalar (a : t) (s : Q) : t :=
  mk (x a / s) (y a / s) (z a / s).

(** [this.divideScalar(this.length() || 1)] *)
Definition normalize (h : Host) (a : t) : t :=
  let l := length h a in
  divideScalar a (if Qeq_bool l 0 then 1 else l).

End Vector3.

(** ** Enemy *)

Module Enemy.

Definition DEFAULT_ATTACK_COOLDOWN : Q := 12 # 10.
Definition DEFAULT_ATTACK_RANGE : Q := 18 # 10.

Record Config := {
  id : string;
  maxHealth : Q;
  speed : Q;
  damage : Q;
  attackRange : Q;
  attackCooldown : Q;
  reward : Q;
  scale : Q;
  spawnPosition : option Vector3.t;
}.

Record t := {
  config : Config;
  position : Vector3.t;       (* this.group.position *)
  health : Q;
  isAlive : bool;
  timeSinceLastAttack : Q;
  boundingRadius : Q;
  height : Q;
}.

Definition constructor (c : Config) : t := {|
  config := c;
  position := default Vector3.zero (spawnPosition c);
  health := maxHealth c;
  isAlive := true;
  timeSinceLastAttack := 0;
  boundingRadius := (12 # 10) * scale c;
  height := (26 # 10) * scale c;
|}.

(** The part of [init] that follows the [await]: a loaded model gives
    its measured extent ([Some (size_x, size_y, size_z)]), a failed load
    is caught and keeps the constructor's values. *)
Definition init (loaded : option Vector3.t) (e : t) : t :=
  match loaded with
  | Some size =>
      {| config := config e;
         position := position e;
         health := health e;
         isAlive := isAlive e;
         timeSinceLastAttack := timeSinceLastAttack e;
         boundingRadius :=
           Qmax (Vector3.x size) (Vector3.z size) * (35 # 100);
         height := Vector3.y size |}
  | None => e
  end.

(** [update(delta, { playerPosition, onAttack })]; the boolean tells
    whether [onAttack(this)] was called. *)
Definition update (h : Host) (delta : Q)
    (playerPosition : option Vector3.t) (e : t) : t * bool :=
  if negb (isAlive e) then (e, false) else
  match playerPosition with
  | None => (e, false)
  | Some player =>
      let tsla := timeSinceLastAttack e + delta in
      let direction0 := Vector3.subVectors player (position e) in
      let distance := Vector3.length h direction0 in
      let direction :=
        if Qltb (1 # 10000) distance
        then Vector3.normalize h direction0 else direction0 in
      if Qltb (attackRange (config e)) distance then
        let moveDistance := speed (config e) * delta in
        ({| config := config e;
            position :=
              Vector3.addScaledVector (position e) direction moveDistance;
            health := health e;
            isAlive := isAlive e;
            timeSinceLastAttack := tsla;
            boundingRadius := boundingRadius e;
            height := height e |}, false)
      else
        let attacks := Qleb (attackCooldown (config e)) tsla in
        ({| config := config e;
            position := position e;
            health := health e;
            isAlive := isAlive e;
            timeSinceLastAttack := if attacks then 0 else tsla;
            boundingRadius := boundingRadius e;
            height := height e |}, attacks)
  end.

Definition set_health (e : t) (hp : Q) (alive : bool) : t := {|
  config := config e;
  position := position e;
  health := hp;
  isAlive := alive;
  timeSinceLastAttack := timeSinceLastAttack e;
  boundingRadius := boundingRadius e;
  height := height e;
|}.

(** [takeDamage(amount)]: the enemy afterwards and the returned flag. *)
Definition takeDamage (amount : Q) (e : t) : t * bool :=
  if negb (isAlive e) then (e, false) else
  let hp := health e - amount in
  if Qleb hp 0 then (set_health e 0 false, true)
  else (set_health e hp (isAlive e), false).

End Enemy.

(** ** EnemyManager *)

(** What [handleProjectileImpact] returns when it is not [null].  The
    enemy object is named by its index in the roster at the time of the
    call. *)
Module Impact.

Record t := {
  enemy : nat;
  wasFatal : bool;
  reward : Q;
  damage : Q;
}.

End Impact.

Module EnemyManager.

Definition DEFAULT_SPAWN_INTERVAL : Q := 32 # 10.
Definition DEFAULT_MAX_ACTIVE : Z := 8.
Definition DEATH_CLEANUP_DELAY : Q := 18 # 10.

Record Entry := { enemy : Enemy.t; deathTimer : Q }.

Definition definition (name : string)
    (maxHealth speed damage reward attackRange attackCooldown scale : Q)
    : Enemy.Config := {|
  Enemy.id := name;
  Enemy.maxHealth := maxHealth;
  Enemy.speed := speed;
  Enemy.damage := damage;
  Enemy.attackRange := attackRange;
  Enemy.attackCooldown := attackCooldown;
  Enemy.reward := reward;
  Enemy.scale := scale;
  Enemy.spawnPosition := None;
|}.

Definition enemyDefinitions : gmap string Enemy.Config :=
  <["grunt" := definition "grunt" 60 (55 # 10) 10 60 (19 # 10) (14 # 10) (105 # 100)]>
  (<["runner" := definition "runner" 40 (85 # 10) 8 80 (16 # 10) 1 (95 # 100)]>
  (<["brute" := definition "brute" 140 (36 # 10) 18 150 (26 # 10) (22 # 10) (135 # 100)]>
   ∅)).

Record t := {
  enemyEntries : list Entry;
  elapsed : Q;
  spawnTimer : Q;
  wave : Z;
  spawnInterval : Q;
  maxActive : Z;
  spawnRadius : Q;
  spawnQueue : list string;
  waveInProgress : bool;
  (** enemies built by [spawnEnemy] whose [await enemy.init()] has not
      resumed yet *)
  pendingSpawns : list Enemy.t;
  (** number of [Math.random()] draws made so far *)
  randomDraws : nat;
}.

Definition constructor : t := {|
  enemyEntries := [];
  elapsed := 0;
  spawnTimer := 0;
  wave := 1;
  spawnInterval := DEFAULT_SPAWN_INTERVAL;
  maxActive := DEFAULT_MAX_ACTIVE;
  spawnRadius := 28;
  spawnQueue := [];
  waveInProgress := false;
  pendingSpawns := [];
  randomDraws := 0;
|}.

Definition set_enemyEntries (v : list Entry) (s : t) : t := {|
  enemyEntries := v; elapsed := elapsed s; spawnTimer := spawnTimer s;
  wave := wave s; spawnInterval := spawnInterval s;
  maxActive := maxActive s; spawnRadius := spawnRadius s;
  spawnQueue := spawnQueue s; waveInProgress := waveInProgress s;
  pendingSpawns := pendingSpawns s; randomDraws := randomDraws s |}.

Definition set_spawnTimer (v : Q) (s : t) : t := {|
  enemyEntries := enemyEntries s; elapsed := elapsed s; spawnTimer := v;
  wave := wave s; spawnInterval := spawnInterval s;
  maxActive := maxActive s; spawnRadius := spawnRadius s;
  spawnQueue := spawnQueue s; waveInProgress := waveInProgress s;
  pendingSpawns := pendingSpawns s; randomDraws := randomDraws s |}.

Definition set_spawnQueue (v : list string) (s : t) : t := {|
  enemyEntries := enemyEntries s; elapsed := elapsed s;
  spawnTimer := spawnTimer s; wave := wave s;
  spawnInterval := spawnInterval s; maxActive := maxActive s;
  spawnRadius := spawnRadius s; spawnQueue := v;
  waveInProgress := waveInProgress s; pendingSpawns := pendingSpawns s;
  randomDraws := randomDraws s |}.

Definition set_waveInProgress (v : bool) (s : t) : t := {|
  enemyEntries := enemyEntries s; elapsed := elapsed s;
  spawnTimer := spawnTimer s; wave := wave s;
  spawnInterval := spawnInterval s; maxActive := maxActive s;
  spawnRadius := spawnRadius s; spawnQueue := spawnQueue s;
  waveInProgress := v; pendingSpawns := pendingSpawns s;
  randomDraws := randomDraws s |}.

Definition set_pendingSpawns (v : list Enemy.t) (s : t) : t := {|
  enemyEntries := enemyEntries s; elapsed := elapsed s;
  spawnTimer := spawnTimer s; wave := wave s;
  spawnInterval := spawnInterval s; maxActive := maxActive s;
  spawnRadius := spawnRadius s; spawnQueue := spawnQueue s;
  waveInProgress := waveInProgress s; pendingSpawns := v;
  randomDraws := randomDraws s |}.

Definition set_randomDraws (v : nat) (s : t) : t := {|
  enemyEntries := enemyEntries s; elapsed := elapsed s;
  spawnTimer := spawnTimer s; wave := wave s;
  spawnInterval := spawnInterval s; maxActive := maxActive s;
  spawnRadius := spawnRadius s; spawnQueue := spawnQueue s;
  waveInProgress := waveInProgress s; pendingSpawns := pendingSpawns s;
  randomDraws := v |}.

(** [_countActiveEnemies()] *)
Definition _countActiveEnemies (s : t) : nat :=
  foldl (λ count entry,
           (count + (if Enemy.isAlive (enemy entry) then 1 else 0))%nat)
        0%nat (enemyEntries s).

(** [_getRandomSpawnPosition()] *)
Definition _getRandomSpawnPosition (h : Host) (s : t) : Vector3.t * t :=
  let n := randomDraws s in
  let angle := Math_random h n * Math_PI h * 2 in
  let distance := spawnRadius s + Math_random h (S n) * 12 in
  (Vector3.mk (Math_cos h angle * distance) 0 (Math_sin h angle * distance),
   set_randomDraws (S (S n)) s).

(** [_getSpawnPositionRelativeTo(playerPosition)] *)
Definition _getSpawnPositionRelativeTo (h : Host)
    (playerPosition : option Vector3.t) (s : t) : Vector3.t * t :=
  match playerPosition with
  | None => _getRandomSpawnPosition h s
  | Some player =>
      let n := randomDraws s in
      let angle := Math_random h n * Math_PI h * 2 in
      let distance := spawnRadius s + Math_random h (S n) * 10 in
      (Vector3.add
         (Vector3.mk (Math_cos h angle * distance) 0
                     (Math_sin h angle * distance))
         player,
       set_randomDraws (S (S n)) s)
  end.

(** [{ ...definition, spawnPosition: pos }] *)
Definition withSpawnPosition (def : Enemy.Config) (pos : Vector3.t)
    : Enemy.Config := {|
  Enemy.id := Enemy.id def;
  Enemy.maxHealth := Enemy.maxHealth def;
  Enemy.speed := Enemy.speed def;
  Enemy.damage := Enemy.damage def;
  Enemy.attackRange := Enemy.attackRange def;
  Enemy.attackCooldown := Enemy.attackCooldown def;
  Enemy.reward := Enemy.reward def;
  Enemy.scale := Enemy.scale def;
  Enemy.spawnPosition := Some pos;
|}.

(** [spawnEnemy(type, spawnPosition)] up to its [await]: a type without
    a definition is logged and nothing else happens; otherwise the enemy
    is built and waits in [pendingSpawns].  The lookup is that of the
    finite map, which is the lookup [this.enemyDefinitions[type]] of the
    source for the three types and for every name that [Object.prototype]
    does not define; the game only ever passes one of the three types. *)
Definition spawnEnemy (h : Host) (type : string)
    (spawnPosition : option Vector3.t) (s : t) : t :=
  match enemyDefinitions !! type with
  | None => s
  | Some def =>
      let '(pos, s1) :=
        match spawnPosition with
        | Some p => (p, s)
        | None => _getRandomSpawnPosition h s
        end in
      let e := Enemy.constructor (withSpawnPosition def pos) in
      set_pendingSpawns (pendingSpawns s1 ++ [e]) s1
  end.

(** The rest of [spawnEnemy], run when the [k]-th pending [init]
    settles: [this.enemyEntries.push({ enemy, deathTimer: 0 })]. *)
Definition settleSpawn (k : nat) (loaded : option Vector3.t) (s : t) : t :=
  match pendingSpawns s !! k with
  | None => s
  | Some e =>
      set_enemyEntries
        (enemyEntries s ++ [{| enemy := Enemy.init loaded e; deathTimer := 0 |}])
        (set_pendingSpawns (delete k (pendingSpawns s)) s)
  end.

(** One call of the [forEach] callback of [handleProjectileImpact].  The
    accumulator is the pair of the closure's variables [hitEnemy] and
    [minDistance]; [None] stands for [null] and for [Infinity]. *)
Definition impactVisit (point : Vector3.t)
    (acc : option nat * option Q) (i : nat) (entry : Entry)
    : option nat * option Q :=
  let e := enemy entry in
  if negb (Enemy.isAlive e) then acc else
  let distance := Vector3.distanceToSquared (Enemy.position e) point in
  if Qleb distance (Enemy.boundingRadius e * Enemy.boundingRadius e) then
    if match snd acc with
       | None => true
       | Some minDistance => Qltb distance minDistance
       end
    then (Some i, Some distance)
    else acc
  else acc.

(** [array.forEach((x, i) => ...)] threading the closure's variables *)
Fixpoint forEachFrom {A S : Type} (f : S → nat → A → S)
    (i : nat) (l : list A) (s : S) : S :=
  match l with
  | [] => s
  | a :: l' => forEachFrom f (Datatypes.S i) l' (f s i a)
  end.

(** [handleProjectileImpact(projectile, damage)]; only
    [projectile.position] is read. *)
Definition handleProjectileImpact (point : Vector3.t) (damage : Q)
    (s : t) : t * option Impact.t :=
  let '(hitEnemy, _) :=
    forEachFrom (impactVisit point) 0%nat (enemyEntries s) (None, None) in
  match hitEnemy with
  | None => (s, None)
  | Some i =>
      match enemyEntries s !! i with
      | None => (s, None)
      | Some entry =>
          let '(e', wasFatal) := Enemy.takeDamage damage (enemy entry) in
          (set_enemyEntries
             (<[i := {| enemy := e'; deathTimer := deathTimer entry |}]>
                (enemyEntries s)) s,
           Some {| Impact.enemy := i;
                   Impact.wasFatal := wasFatal;
                   Impact.reward :=
                     if wasFatal then Enemy.reward (Enemy.config e') else 0;
                   Impact.damage := damage |})
      end
  end.

(** [getAliveEnemies()] *)
Definition getAliveEnemies (s : t) : list Enemy.t :=
  enemy <$> filter (λ entry, Enemy.isAlive (enemy entry) = true)
                   (enemyEntries s).

(** [reset()] *)
Definition reset (s : t) : t := {|
  enemyEntries := [];
  elapsed := elapsed s;
  spawnTimer := 0;
  wave := 1;
  spawnInterval := spawnInterval s;
  maxActive := maxActive s;
  spawnRadius := spawnRadius s;
  spawnQueue := [];
  waveInProgress := false;
  pendingSpawns := pendingSpawns s;
  randomDraws := randomDraws s;
|}.

(** The array built by [_enqueueWaveComposition] before it is shuffled. *)
Definition composition (w : Z) : list string :=
  let baseCount := (5 + w * 2)%Z in
  replicate (Z.to_nat baseCount) "grunt"
  ++ (if (3 <=? w)%Z
      then replicate (Z.to_nat (w / 2)%Z) "runner" else [])
  ++ (if (Z.rem w 4 =? 0)%Z
      then replicate (Z.to_nat (1 + w / 6)%Z) "brute" else []).

(** [_enqueueWaveComposition()] *)
Definition _enqueueWaveComposition (h : Host) (s : t) : t :=
  let n := randomDraws s in
  let c := composition (wave s) in
  set_spawnQueue (spawnQueue s ++ sort_random h n c)
    (set_randomDraws (n + sort_draws h n c)%nat s).

(** [_maybeScheduleNewWave()] *)
Definition _maybeScheduleNewWave (h : Host) (s : t) : t :=
  if waveInProgress s then s else
  if (Nat.eqb (length (enemyEntries s)) 0
      && Nat.eqb (length (spawnQueue s)) 0)%bool
  then
    let s1 := _enqueueWaveComposition h (set_waveInProgress true s) in
    set_spawnTimer (spawnInterval s1) s1
  else s.

(** The escalation at the end of [_handleSpawning]. *)
Definition escalate (s : t) : t := {|
  enemyEntries := enemyEntries s;
  elapsed := elapsed s;
  spawnTimer := spawnTimer s;
  wave := (wave s + 1)%Z;
  spawnInterval := Qmax (9 # 10) (spawnInterval s * (92 # 100));
  maxActive := Z.min 24 (maxActive s + 1);
  spawnRadius := spawnRadius s;
  spawnQueue := spawnQueue s;
  waveInProgress := false;
  pendingSpawns := pendingSpawns s;
  randomDraws := randomDraws s;
|}.

(** [_handleSpawning(playerPosition)] *)
Definition _handleSpawning (h : Host)
    (playerPosition : option Vector3.t) (s : t) : t :=
  if (negb (waveInProgress s)
      || Nat.eqb (length (spawnQueue s)) 0)%bool then s else
  if Qltb (spawnTimer s) (spawnInterval s) then s else
  if (maxActive s <=? Z.of_nat (_countActiveEnemies s))%Z then s else
  match spawnQueue s with
  | [] => s
  | nextType :: rest =>
      let s1 := set_spawnQueue rest (set_spawnTimer 0 s) in
      let '(pos, s2) := _getSpawnPositionRelativeTo h playerPosition s1 in
      let s3 := spawnEnemy h nextType (Some pos) s2 in
      if Nat.eqb (length (spawnQueue s3)) 0 then escalate s3 else s3
  end.

(** One turn of the loop of [update]; the second component collects the
    calls [onPlayerDamaged(damage, enemy)], the enemy being named by its
    index. *)
Definition updateEntry (h : Host) (delta : Q)
    (playerPosition : option Vector3.t) (i : nat)
    (st : t * list (Q * nat)) : t * list (Q * nat) :=
  let '(s, calls) := st in
  match enemyEntries s !! i with
  | None => st
  | Some entry =>
      let e := enemy entry in
      if Enemy.isAlive e then
        let '(e', attacked) := Enemy.update h delta playerPosition e in
        (set_enemyEntries
           (<[i := {| enemy := e'; deathTimer := deathTimer entry |}]>
              (enemyEntries s)) s,
         if attacked
         then calls ++ [(Enemy.damage (Enemy.config e'), i)] else calls)
      else
        let timer := deathTimer entry + delta in
        if Qleb DEATH_CLEANUP_DELAY timer then
          (set_enemyEntries (delete i (enemyEntries s)) s, calls)
        else
          (set_enemyEntries
             (<[i := {| enemy := e; deathTimer := timer |}]>
                (enemyEntries s)) s,
           calls)
  end.

(** [this.elapsed += delta; this.spawnTimer += delta;] *)
Definition advanceClocks (delta : Q) (s : t) : t := {|
  enemyEntries := enemyEntries s;
  elapsed := elapsed s + delta;
  spawnTimer := spawnTimer s + delta;
  wave := wave s;
  spawnInterval := spawnInterval s;
  maxActive := maxActive s;
  spawnRadius := spawnRadius s;
  spawnQueue := spawnQueue s;
  waveInProgress := waveInProgress s;
  pendingSpawns := pendingSpawns s;
  randomDraws := randomDraws s;
|}.

(** [update(delta, { playerPosition, onPlayerDamaged })] *)
Definition update (h : Host) (delta : Q)
    (playerPosition : option Vector3.t) (s : t) : t * list (Q * nat) :=
  let s0 := advanceClocks delta s in
  let s1 := _maybeScheduleNewWave h s0 in
  let s2 := _handleSpawning h playerPosition s1 in
  forDown (length (enemyEntries s2))
          (updateEntry h delta playerPosition) (s2, []).

(** The calls that reach an [EnemyManager] during a session: the frame
    loop's [update], the projectile system's impact query, a direct
    [spawnEnemy], the resumption of a pending spawn, and [reset]. *)
Inductive Call :=
  | CallUpdate (delta : Q) (playerPosition : option Vector3.t)
  | CallImpact (point : Vector3.t) (damage : Q)
  | CallSpawn (type : string) (spawnPosition : option Vector3.t)
  | CallSettle (k : nat) (loaded : option Vector3.t)
  | CallReset.

Definition call (h : Host) (c : Call) (s : t) : t :=
  match c with
  | CallUpdate delta playerPosition => (update h delta playerPosition s).1
  | CallImpact point damage => (handleProjectileImpact point damage s).1
  | CallSpawn type spawnPosition => spawnEnemy h type spawnPosition s
  | CallSettle k loaded => settleSpawn k loaded s
  | CallReset => reset s
  end.

(** The manager after a session that started with [new EnemyManager]. *)
Definition run (h : Host) (calls : list Call) : t :=
  foldl (λ s c, call h c s) constructor calls.

End EnemyManager.

(** ** ProjectileSystem *)

Module Projectile.

Record t := {
  position : Vector3.t;
  direction : Vector3.t;
  speed : Q;
  damage : Q;
  maxDistance : Q;
  distanceTravelled : Q;
  timeToLive : Q;
  active : bool;
}.

End Projectile.

Module ProjectileSystem.

Import Projectile.

Definition DEFAULT_PROJECTILE_LIFETIME : Q := 25 # 10.

(** References to projectile objects are natural numbers; [nextRef] is
    the first one that no object has received yet. *)
Record t := {
  store : gmap nat Projectile.t;
  projectiles : list nat;
  pool : list nat;
  nextRef : nat;
}.

Definition constructor : t :=
  {| store := ∅; projectiles := []; pool := []; nextRef := 0 |}.

(** The object literal returned by [_getProjectile] when the pool is
    empty. *)
Definition freshProjectile : Projectile.t := {|
  position := Vector3.zero;
  direction := Vector3.mk 0 0 1;
  speed := 40;
  damage := 10;
  maxDistance := 50;
  distanceTravelled := 0;
  timeToLive := DEFAULT_PROJECTILE_LIFETIME;
  active := false;
|}.

(** The fields of the object [r] are assigned in place. *)
Definition write (r : nat) (p : Projectile.t) (s : t) : t :=
  {| store := <[r := p]> (store s); projectiles := projectiles s;
     pool := pool s; nextRef := nextRef s |}.

(** [_getProjectile()] *)
Definition _getProjectile (s : t) : nat * t :=
  match last (pool s) with
  | Some r =>
      (r, {| store := store s; projectiles := projectiles s;
             pool := removelast (pool s); nextRef := nextRef s |})
  | None =>
      let r := nextRef s in
      (r, {| store := <[r := freshProjectile]> (store s);
             projectiles := projectiles s;
             pool := pool s; nextRef := S r |})
  end.

(** The argument object of [spawnProjectile], without its colour. *)
Record SpawnArgs := {
  arg_position : Vector3.t;
  arg_direction : Vector3.t;
  arg_speed : Q;
  arg_damage : Q;
  arg_maxDistance : option Q;
}.

(** [spawnProjectile({ position, direction, speed, damage,
    maxDistance = 60, color })] *)
Definition spawnProjectile (h : Host) (a : SpawnArgs) (s : t) : nat * t :=
  let '(r, s1) := _getProjectile s in
  let p := {|
    position := arg_position a;
    direction := Vector3.normalize h (arg_direction a);
    speed := arg_speed a;
    damage := arg_damage a;
    maxDistance := default 60 (arg_maxDistance a);
    distanceTravelled := 0;
    timeToLive := DEFAULT_PROJECTILE_LIFETIME;
    active := true |} in
  let s2 := write r p s1 in
  (r, {| store := store s2;
         projectiles := projectiles s2 ++ [r];
         pool := pool s2; nextRef := nextRef s2 |}).

Definition deactivated (p : Projectile.t) : Projectile.t := {|
  position := position p;
  direction := direction p;
  speed := speed p;
  damage := damage p;
  maxDistance := maxDistance p;
  distanceTravelled := 0;
  timeToLive := 0;
  active := false;
|}.

(** [_deactivateProjectileAtIndex(index)] *)
Definition _deactivateProjectileAtIndex (index : nat) (s : t) : t :=
  match projectiles s !! index with
  | None => s
  | Some r =>
      {| store := alter deactivated r (store s);
         projectiles := delete index (projectiles s);
         pool := pool s ++ [r];
         nextRef := nextRef s |}
  end.

(** [reset()]: the loop runs once for each active projectile, each time
    on the last index. *)
Fixpoint resetLoop (fuel : nat) (s : t) : t :=
  match fuel with
  | O => s
  | S fuel' =>
      if Nat.ltb 0 (length (projectiles s))
      then resetLoop fuel'
             (_deactivateProjectileAtIndex (length (projectiles s) - 1) s)
      else s
  end.

Definition reset (s : t) : t := resetLoop (length (projectiles s)) s.

(** Why a projectile left the active list during [update]: the three
    call sites of [_deactivateProjectileAtIndex]. *)
Inductive Reason := Inactive | Expiry | Hit.

(** What one [update] does besides changing the two arrays. *)
Inductive Event :=
  | Deactivated (r : nat) (why : Reason)
  | ImpactQuery (r : nat)          (* enemyManager.handleProjectileImpact *)
  | EnemyHit (r : nat) (impact : Impact.t).   (* callbacks.onEnemyHit *)

(** The projectile system, the enemy manager handed to [update] (absent
    when the argument is [undefined]) and the events so far. *)
Record World := {
  system : t;
  enemies : option EnemyManager.t;
  trace : list Event;
}.

Definition advanced (delta : Q) (p : Projectile.t) : Projectile.t :=
  let travelDistance := speed p * delta in {|
  position :=
    Vector3.addScaledVector (position p) (direction p) travelDistance;
  direction := direction p;
  speed := speed p;
  damage := damage p;
  maxDistance := maxDistance p;
  distanceTravelled := distanceTravelled p + travelDistance;
  timeToLive := timeToLive p - delta;
  active := active p;
|}.

(** The test of line 66 on the advanced projectile. *)
Definition expired (p : Projectile.t) : bool :=
  (Qleb (maxDistance p) (distanceTravelled p)
   || Qleb (timeToLive p) 0)%bool.

(** [enemyManager?.handleProjectileImpact(projectile, projectile.damage)] *)
Definition queryImpact (p : Projectile.t) (em : option EnemyManager.t)
    : option EnemyManager.t * option Impact.t :=
  match em with
  | None => (None, None)
  | Some m =>
      let '(m', impact) :=
        EnemyManager.handleProjectileImpact (position p) (damage p) m in
      (Some m', impact)
  end.

(** One turn of the loop of [update]. *)
Definition updateProjectile (delta : Q) (i : nat) (w : World) : World :=
  let s := system w in
  match projectiles s !! i with
  | None => w
  | Some r =>
      match store s !! r with
      | None => w
      | Some p =>
          if negb (active p) then
            {| system := _deactivateProjectileAtIndex i s;
               enemies := enemies w;
               trace := trace w ++ [Deactivated r Inactive] |}
          else
            let p' := advanced delta p in
            let s1 := write r p' s in
            if expired p' then
              {| system := _deactivateProjectileAtIndex i s1;
                 enemies := enemies w;
                 trace := trace w ++ [Deactivated r Expiry] |}
            else
              let '(em', impact) := queryImpact p' (enemies w) in
              let queried :=
                match enemies w with
                | Some _ => [ImpactQuery r]
                | None => []
                end in
              match impact with
              | Some im =>
                  {| system := _deactivateProjectileAtIndex i s1;
                     enemies := em';
                     trace := trace w ++ queried
                              ++ [EnemyHit r im; Deactivated r Hit] |}
              | None =>
                  {| system := s1; enemies := em';
                     trace := trace w ++ queried |}
              end
      end
  end.

(** [update(delta, enemyManager, callbacks)]: the system and the enemy
    manager afterwards, and what happened. *)
Definition update (delta : Q) (em : option EnemyManager.t) (s : t) : World :=
  forDown (length (projectiles s)) (updateProjectile delta)
          {| system := s; enemies := em; trace := [] |}.

(** The calls that reach a [ProjectileSystem] during a session.  The
    enemy manager is an argument of [update]: whatever happened to it
    between two frames comes with the call. *)
Inductive Call :=
  | CallSpawn (a : SpawnArgs)
  | CallUpdate (delta : Q) (em : option EnemyManager.t)
  | CallReset.

Definition call (h : Host) (c : Call) (s : t) : t :=
  match c with
  | CallSpawn a => (spawnProjectile h a s).2
  | CallUpdate delta em => system (update delta em s)
  | CallReset => reset s
  end.

(** The system after a session that started with [new ProjectileSystem]. *)
Definition run (h : Host) (calls : list Call) : t :=
  foldl (λ s c, call h c s) constructor calls.

End ProjectileSystem.

(** ** Doubles *)

(** A JavaScript number is an IEEE 754 binary64 value, and [+], [-],
    [*] and [/] return the double that is nearest to the exact result, a
    tie going to the even significand.  [Binary64.round] is that rounding on
    the rationals, and a double is a rational that it leaves alone.
    Beyond the largest double the source computes [Infinity], where
    [round] returns a rational of that size. *)
Module Binary64.

(** The exponent [e] of a non-zero [x]: [2^e <= |x| < 2^(e+1)]. *)
Definition binade (x : Q) : Z :=
  let e := (Z.log2 (Z.abs (Qnum x)) - Z.log2 (Z.pos (Qden x)))%Z in
  if Qle_bool (2 ^ e) (Qabs x) then e else (e - 1)%Z.

(** The nearest integer, a tie going to the even one. *)
Definition nearest (x : Q) : Z :=
  let f := Qfloor x in
  match Qcompare (x - inject_Z f) (1 # 2) with
  | Lt => f
  | Gt => (f + 1)%Z
  | Eq => if Z.even f then f else (f + 1)%Z
  end.

(** The distance between the doubles around [x]: a significand has 53
    bits, and the subnormal doubles are [2^(-1074)] apart. *)
Definition ulp (x : Q) : Q := 2 ^ Z.max (binade x - 52) (-1074).

Definition round (x : Q) : Q :=
  if Qeq_bool x 0 then 0
  else Qred (inject_Z (nearest (x / ulp x)) * ulp x).

(** Half the distance between the doubles of [[1, 2)], and half the
    distance between the subnormal ones. *)
Definition unitRoundoff : Q := 2 ^ (-53).
Definition tiny : Q := 2 ^ (-1075).

End Binary64.

(** ** ProjectileSystem.update, one projectile, with a rounding *)

(** What [update] does to one active projectile in the frames in which
    no enemy is hit, every arithmetic operation followed by the rounding
    [rnd].  With [rnd] the identity these are the operations of
    [ProjectileSystem.advanced]; with [Binary64.round] they are those of
    the source. *)
Module Rounded.

Import Projectile.

Section Rounding.

Variable rnd : Q → Q.

(** [this.x += v.x * s; this.y += v.y * s; this.z += v.z * s] *)
Definition addScaledVector (a v : Vector3.t) (s : Q) : Vector3.t :=
  Vector3.mk (rnd (Vector3.x a + rnd (Vector3.x v * s)))
             (rnd (Vector3.y a + rnd (Vector3.y v * s)))
             (rnd (Vector3.z a + rnd (Vector3.z v * s))).

(** Lines 59 to 64 of [update]. *)
Definition advanced (delta : Q) (p : Projectile.t) : Projectile.t :=
  let travelDistance := rnd (speed p * delta) in {|
  position := addScaledVector (position p) (direction p) travelDistance;
  direction := direction p;
  speed := speed p;
  damage := damage p;
  maxDistance := maxDistance p;
  distanceTravelled := rnd (distanceTravelled p + travelDistance);
  timeToLive := rnd (timeToLive p - delta);
  active := active p;
|}.

(** The projectile over successive frames, one delta a frame: [None]
    once the test of line 66 has deactivated it, and otherwise the
    projectile as the last frame leaves it. *)
Fixpoint flight (ticks : list Q) (p : Projectile.t) : option Projectile.t :=
  match ticks with
  | [] => Some p
  | delta :: rest =>
      let p' := advanced delta p in
      if ProjectileSystem.expired p' then None else flight rest p'
  end.

End Rounding.

End Rounded.

(** ** Vocabulary of the properties *)

(** How many entries of a queue carry a given enemy type. *)
Definition tokens (name : string) (q : list string) : Z :=
  Z.of_nat (length (filter (λ t, t = name) q)).

(** The composition the design document gives for wave [w]. *)
Definition documented_composition (w : Z) : list string :=
  replicate (Z.to_nat (5 + 2 * w)) "grunt"
  ++ (if decide (3 ≤ w)%Z then replicate (Z.to_nat (w `div` 2)) "runner"
      else [])
  ++ (if decide (w `mod` 4 = 0)%Z
      then replicate (Z.to_nat (1 + w `div` 6)) "brute" else []).

(** Everything the wave scheduler keeps but the roster and the clock. *)
Definition scheduling (s : EnemyManager.t) :=
  (EnemyManager.spawnTimer s, EnemyManager.wave s,
   EnemyManager.spawnInterval s, EnemyManager.maxActive s,
   EnemyManager.spawnQueue s, EnemyManager.waveInProgress s,
   EnemyManager.pendingSpawns s, EnemyManager.randomDraws s).

(** The pacing invariant of every session. *)
Definition paced (s : EnemyManager.t) : Prop :=
  9 # 10 <= EnemyManager.spawnInterval s
  ∧ (EnemyManager.maxActive s ≤ 24)%Z.

(** What one frame of [EnemyManager.update] makes of a roster entry:
    an alive enemy is updated, a dead one waits or leaves the roster. *)
Definition entryAfter (h : Host) (delta : Q)
    (playerPosition : option Vector3.t) (entry : EnemyManager.Entry)
    : option EnemyManager.Entry :=
  let e := EnemyManager.enemy entry in
  if Enemy.isAlive e then
    Some {| EnemyManager.enemy := (Enemy.update h delta playerPosition e).1;
            EnemyManager.deathTimer := EnemyManager.deathTimer entry |}
  else
    let timer := EnemyManager.deathTimer entry + delta in
    if Qleb EnemyManager.DEATH_CLEANUP_DELAY timer then None
    else Some {| EnemyManager.enemy := e;
                 EnemyManager.deathTimer := timer |}.

(** The squared distance from an enemy's centre to a point. *)
Definition distanceSq (point : Vector3.t) (entry : EnemyManager.Entry) : Q :=
  Vector3.distanceToSquared
    (Enemy.position (EnemyManager.enemy entry)) point.

(** An alive enemy whose hit-sphere contains the point. *)
Definition hittable (point : Vector3.t) (entry : EnemyManager.Entry)
    : Prop :=
  Enemy.isAlive (EnemyManager.enemy entry) = true
  ∧ distanceSq point entry
    <= Enemy.boundingRadius (EnemyManager.enemy entry)
       * Enemy.boundingRadius (EnemyManager.enemy entry).

(** The entry at index [i] is a nearest hittable enemy, and the first of
    the roster among the nearest ones. *)
Definition nearestHit (point : Vector3.t) (es : list EnemyManager.Entry)
    (i : nat) (entry : EnemyManager.Entry) : Prop :=
  es !! i = Some entry ∧ hittable point entry
  ∧ ∀ j other, es !! j = Some other → hittable point other →
      distanceSq point entry <= distanceSq point other
      ∧ ((j < i)%nat → distanceSq point entry < distanceSq point other).

(** What the closure's variables hold once the first [n] entries have
    been visited. *)
Definition scanned (point : Vector3.t) (es : list EnemyManager.Entry) (n : nat)
    (acc : option nat * option Q) : Prop :=
  match acc with
  | (None, None) =>
      ∀ j other, (j < n)%nat → es !! j = Some other → ¬ hittable point other
  | (Some i, Some d) =>
      (i < n)%nat
      ∧ ∃ entry, es !! i = Some entry ∧ hittable point entry
          ∧ d = distanceSq point entry
          ∧ ∀ j other, (j < n)%nat → es !! j = Some other →
              hittable point other →
              d <= distanceSq point other
              ∧ ((j < i)%nat → d < distanceSq point other)
  | _ => False
  end.

(** The projectile which an event is about. *)
Definition subject (ev : ProjectileSystem.Event) : nat :=
  match ev with
  | ProjectileSystem.Deactivated r _ => r
  | ProjectileSystem.ImpactQuery r => r
  | ProjectileSystem.EnemyHit r _ => r
  end.

(** The events of a trace that are about projectile [r], in order. *)
Definition about (r : nat) (T : list ProjectileSystem.Event)
    : list ProjectileSystem.Event :=
  filter (λ ev, subject ev = r) T.

(** A pooled projectile as the design document wants it. *)
Definition pooled (p : Projectile.t) : Prop :=
  Projectile.active p = false ∧ Projectile.distanceTravelled p = 0.

(** The shape of the projectile system: each projectile object is in one
    of the two arrays, once; the references handed out so far are below
    [nextRef]; the active list holds active projectiles and the pool
    holds deactivated ones. *)
Definition wellFormed (s : ProjectileSystem.t) : Prop :=
  NoDup (ProjectileSystem.projectiles s ++ ProjectileSystem.pool s)
  ∧ (∀ r, r ∈ ProjectileSystem.projectiles s ++ ProjectileSystem.pool s →
          (r < ProjectileSystem.nextRef s)%nat)
  ∧ (∀ r, r ∈ ProjectileSystem.projectiles s →
          ∃ p, ProjectileSystem.store s !! r = Some p
               ∧ Projectile.active p = true)
  ∧ (∀ r, r ∈ ProjectileSystem.pool s →
          ∃ p, ProjectileSystem.store s !! r = Some p ∧ pooled p).

(** An active projectile as the design document wants it; it does not
    fly backwards either. *)
Definition inRange (p : Projectile.t) : Prop :=
  0 <= Projectile.distanceTravelled p
  ∧ Projectile.distanceTravelled p <= Projectile.maxDistance p
  ∧ 0 <= Projectile.speed p.

(** The range invariant of the projectile system. *)
Definition ranged (s : ProjectileSystem.t) : Prop :=
  ∀ r p, r ∈ ProjectileSystem.projectiles s →
         ProjectileSystem.store s !! r = Some p → inRange p.

(** Calls with non-negative deltas and non-negative speeds. *)
Definition forward (c : ProjectileSystem.Call) : Prop :=
  match c with
  | ProjectileSystem.CallSpawn a => 0 <= ProjectileSystem.arg_speed a
  | ProjectileSystem.CallUpdate delta _ => 0 <= delta
  | ProjectileSystem.CallReset => True
  end.

(** Calls that, moreover, give projectiles a non-negative range. *)
Definition admissible (c : ProjectileSystem.Call) : Prop :=
  forward c
  ∧ match c with
    | ProjectileSystem.CallSpawn a =>
        0 <= default 60 (ProjectileSystem.arg_maxDistance a)
    | _ => True
    end.

(** No enemy is present: [update] received no manager, or one with an
    empty roster. *)
Definition noEnemies (em : option EnemyManager.t) : Prop :=
  match em with
  | None => True
  | Some m => EnemyManager.enemyEntries m = []
  end.

(** The query event of a projectile that reaches line 71, when a manager
    was passed. *)
Definition queryEvents (em : option EnemyManager.t) (r : nat)
    : list ProjectileSystem.Event :=
  match em with
  | Some _ => [ProjectileSystem.ImpactQuery r]
  | None => []
  end.

(** Out of the active list and back in the pool, motion fields reset. *)
Definition retired (r : nat) (p : Projectile.t) (s : ProjectileSystem.t)
    : Prop :=
  r ∈ ProjectileSystem.pool s ∧ (r ∉ ProjectileSystem.projectiles s)
  ∧ ProjectileSystem.store s !! r = Some (ProjectileSystem.deactivated p).

(** What one [update] with delta [delta] and manager [em] does to the
    projectile [r] that was active in state [p]: the events about it and
    where it ends.  Expiry is decided first, on the advanced projectile;
    only a projectile that did not expire is tested against the enemies. *)
Definition fate (delta : Q) (em : option EnemyManager.t) (r : nat)
    (p : Projectile.t) (w : ProjectileSystem.World) : Prop :=
  let p' := ProjectileSystem.advanced delta p in
  let s := ProjectileSystem.system w in
  let T := about r (ProjectileSystem.trace w) in
  if ProjectileSystem.expired p' then
    T = [ProjectileSystem.Deactivated r ProjectileSystem.Expiry]
    ∧ retired r p' s
  else
    (T = queryEvents em r
     ∧ r ∈ ProjectileSystem.projectiles s
     ∧ ProjectileSystem.store s !! r = Some p')
    ∨ (¬ noEnemies em
       ∧ (∃ im, T = queryEvents em r
                    ++ [ProjectileSystem.EnemyHit r im;
                        ProjectileSystem.Deactivated r ProjectileSystem.Hit])
       ∧ retired r p' s).

(** Two worlds agree on everything that concerns the object [r]. *)
Definition sameAt (r : nat) (w w' : ProjectileSystem.World) : Prop :=
  about r (ProjectileSystem.trace w') = about r (ProjectileSystem.trace w)
  ∧ (r ∈ ProjectileSystem.pool (ProjectileSystem.system w)
     → r ∈ ProjectileSystem.pool (ProjectileSystem.system w'))
  ∧ (r ∈ ProjectileSystem.projectiles (ProjectileSystem.system w)
     ↔ r ∈ ProjectileSystem.projectiles (ProjectileSystem.system w'))
  ∧ ProjectileSystem.store (ProjectileSystem.system w') !! r
    = ProjectileSystem.store (ProjectileSystem.system w) !! r.

(** The frames of a session without enemies: each comes with its delta
    and the manager passed to [update]. *)
Definition frames (ticks : list (Q * option EnemyManager.t))
    (s : ProjectileSystem.t) : ProjectileSystem.t :=
  foldl (λ s tick,
           ProjectileSystem.system (ProjectileSystem.update tick.1 tick.2 s))
        s ticks.

(** Accumulated tick time. *)
Definition accumulated (ticks : list (Q * option EnemyManager.t)) : Q :=
  foldl (λ t tick, t + tick.1) 0 ticks.

(** Where the loop of [update] stands when the turns of the indices
    [k] and above are over; [s0] is the system and [em] the manager that
    [update] received. *)
Definition turnsDone (delta : Q) (em : option EnemyManager.t)
    (s0 : ProjectileSystem.t) (k : nat) (w : ProjectileSystem.World)
    : Prop :=
  let L := ProjectileSystem.projectiles s0 in
  let s := ProjectileSystem.system w in
  wellFormed s
  ∧ (∀ r, queryEvents (ProjectileSystem.enemies w) r = queryEvents em r)
  ∧ (noEnemies em → ProjectileSystem.enemies w = em)
  ∧ take k (ProjectileSystem.projectiles s) = take k L
  ∧ (∀ ev, ev ∈ ProjectileSystem.trace w → subject ev ∈ drop k L)
  ∧ (∀ r, r ∈ take k L →
          ProjectileSystem.store s !! r = ProjectileSystem.store s0 !! r)
  ∧ (∀ r, r ∈ ProjectileSystem.pool s0 →
          r ∈ ProjectileSystem.pool s
          ∧ ProjectileSystem.store s !! r = ProjectileSystem.store s0 !! r)
  ∧ (∀ r p, r ∈ drop k L → ProjectileSystem.store s0 !! r = Some p →
            fate delta em r p w).

(** The events that record a call of [_deactivateProjectileAtIndex]. *)
Definition isDeactivation (ev : ProjectileSystem.Event) : bool :=
  match ev with
  | ProjectileSystem.Deactivated _ _ => true
  | _ => false
  end.

(** How many times [r] was deactivated in a trace. *)
Definition deactivations (r : nat) (T : list ProjectileSystem.Event) : nat :=
  length (filter (λ ev, isDeactivation ev = true) (about r T)).

(** The tick time that a list of deltas adds up to, in exact
    arithmetic, and a number of ticks as a rational. *)
Definition tickTime (ticks : list Q) : Q := foldr Qplus 0 ticks.

Definition ticksOf (n : nat) : Q := inject_Z (Z.of_nat n).

(** ** Concrete scenarios *)

(** The grunt that [spawnEnemy("grunt", p)] builds. *)
Definition grunt_at (p : Vector3.t) : Enemy.t :=
  Enemy.constructor
    (EnemyManager.withSpawnPosition
       (EnemyManager.definition "grunt" 60 (55 # 10) 10 60 (19 # 10)
          (14 # 10) (105 # 100)) p).

(** A host whose [sort] reverses the array and which draws [1/2]. *)
Definition reversing_host : Host := {|
  Math_sqrt := λ q, q;
  Math_cos := λ _, 1;
  Math_sin := λ _, 0;
  Math_PI := 355 # 113;
  Math_random := λ _, 1 # 2;
  sort_random := λ _ l, reverse l;
  sort_draws := λ _ l, length l;
|}.

(** Seven frames of 3.2 s each, without a player: the whole first wave
    is handed to [spawnEnemy]. *)
Definition first_wave_session : list EnemyManager.Call :=
  replicate 7 (EnemyManager.CallUpdate (32 # 10) None).

(** A shot with a negative range. *)
Definition backward_shot : ProjectileSystem.SpawnArgs := {|
  ProjectileSystem.arg_position := Vector3.zero;
  ProjectileSystem.arg_direction := Vector3.mk 0 0 1;
  ProjectileSystem.arg_speed := 62;
  ProjectileSystem.arg_damage := 22;
  ProjectileSystem.arg_maxDistance := Some (-1);
|}.

(** The pistol's shot: speed 62, damage 22, range 70. *)
Definition pistol_shot : ProjectileSystem.SpawnArgs := {|
  ProjectileSystem.arg_position := Vector3.zero;
  ProjectileSystem.arg_direction := Vector3.mk 0 0 1;
  ProjectileSystem.arg_speed := 62;
  ProjectileSystem.arg_damage := 22;
  ProjectileSystem.arg_maxDistance := Some 70;
|}.

(** A shot with speed 10 and range 10. *)
Definition slow_shot : ProjectileSystem.SpawnArgs := {|
  ProjectileSystem.arg_position := Vector3.zero;
  ProjectileSystem.arg_direction := Vector3.mk 0 0 1;
  ProjectileSystem.arg_speed := 10;
  ProjectileSystem.arg_damage := 22;
  ProjectileSystem.arg_maxDistance := Some 10;
|}.

(** A shot with speed 1 and the default range of 60. *)
Definition crawling_shot : ProjectileSystem.SpawnArgs := {|
  ProjectileSystem.arg_position := Vector3.zero;
  ProjectileSystem.arg_direction := Vector3.mk 0 0 1;
  ProjectileSystem.arg_speed := 1;
  ProjectileSystem.arg_damage := 22;
  ProjectileSystem.arg_maxDistance := None;
|}.

(** The double that a decimal literal denotes. *)
Definition double (x : Q) : Q := Binary64.round x.

(** Five deltas, the doubles 0.0172, 0.07880000000000001, 0.0522, 0.017
    and 0.8348, that add up to 1 s. *)
Definition ticks_to_one_second : list Q :=
  [double (172 # 10000); double (7880000000000001 # 100000000000000000);
   double (522 # 10000); double (17 # 1000); double (8348 # 10000)].

(** Three deltas, the doubles 0.9, 0.9 and 0.7, that add up to 2.5 s. *)
Definition ticks_to_lifetime : list Q :=
  [double (9 # 10); double (9 # 10); double (7 # 10)].

(** Two grunts one unit apart. *)
Definition two_grunts : EnemyManager.t :=
  EnemyManager.set_enemyEntries
    [{| EnemyManager.enemy := grunt_at Vector3.zero;
        EnemyManager.deathTimer := 0 |};
     {| EnemyManager.enemy := grunt_at (Vector3.mk 1 0 0);
        EnemyManager.deathTimer := 0 |}]
    EnemyManager.constructor.

(** A roster that holds one grunt, killed just now. *)
Definition one_dead_grunt : EnemyManager.t :=
  EnemyManager.set_enemyEntries
    [{| EnemyManager.enemy :=
          (Enemy.takeDamage 60 (grunt_at Vector3.zero)).1;
        EnemyManager.deathTimer := 0 |}]
    EnemyManager.constructor.

(** * Further vocabulary *)

(** The wave scheduler is in order: waves are numbered from 1, the queue
    is non-empty exactly while a wave is in progress, and it holds only
    types that [enemyDefinitions] knows. *)
Definition orderly (s : EnemyManager.t) : Prop :=
  (1 ≤ EnemyManager.wave s)%Z
  ∧ (EnemyManager.waveInProgress s = true ↔ EnemyManager.spawnQueue s ≠ [])
  ∧ Forall (λ type, is_Some (EnemyManager.enemyDefinitions !! type))
           (EnemyManager.spawnQueue s).

(** An enemy built by [spawnEnemy] from one of the definitions. *)
Definition defined (e : Enemy.t) : Prop :=
  ∃ type def pos,
    EnemyManager.enemyDefinitions !! type = Some def
    ∧ Enemy.config e = EnemyManager.withSpawnPosition def pos.

(** A roster entry as the design document wants it: an alive enemy has
    health in [(0, maxHealth]] and its death timer has not started; a dead
    one has health 0 and has waited less than the cleanup delay. *)
Definition soundEntry (entry : EnemyManager.Entry) : Prop :=
  let e := EnemyManager.enemy entry in
  defined e
  ∧ if Enemy.isAlive e
    then 0 < Enemy.health e
         ∧ Enemy.health e <= Enemy.maxHealth (Enemy.config e)
         ∧ EnemyManager.deathTimer entry = 0
    else Enemy.health e = 0
         ∧ 0 <= EnemyManager.deathTimer entry
         ∧ EnemyManager.deathTimer entry < EnemyManager.DEATH_CLEANUP_DELAY.

(** An enemy that waits for its model: alive, at full health. *)
Definition soundPending (e : Enemy.t) : Prop :=
  defined e ∧ Enemy.isAlive e = true
  ∧ Enemy.health e = Enemy.maxHealth (Enemy.config e).

(** Calls with non-negative deltas and non-negative damage. *)
Definition gentle (c : EnemyManager.Call) : Prop :=
  match c with
  | EnemyManager.CallUpdate delta _ => 0 <= delta
  | EnemyManager.CallImpact _ damage => 0 <= damage
  | _ => True
  end.

(** Calls of [spawnEnemy] that name one of the three enemy types. *)
Definition known (c : EnemyManager.Call) : Prop :=
  match c with
  | EnemyManager.CallSpawn type _ =>
      is_Some (EnemyManager.enemyDefinitions !! type)
  | _ => True
  end.

(** The calls [onPlayerDamaged(damage, enemy)] that a frame makes for the
    entries of a roster whose first index is [i]: the loop runs from the
    last entry to the first. *)
Fixpoint attackCalls (h : Host) (delta : Q)
    (playerPosition : option Vector3.t) (i : nat)
    (entries : list EnemyManager.Entry) : list (Q * nat) :=
  match entries with
  | [] => []
  | entry :: rest =>
      attackCalls h delta playerPosition (S i) rest
      ++ (let e := EnemyManager.enemy entry in
          if (Enemy.isAlive e
              && (Enemy.update h delta playerPosition e).2)%bool
          then [(Enemy.damage (Enemy.config e), i)] else [])
  end.



(** A dead roster entry whose cleanup delay is over once [delta] more
    seconds have passed. *)
Definition cleanedUp (delta : Q) (entry : EnemyManager.Entry) : bool :=
  negb (Enemy.isAlive (EnemyManager.enemy entry))
  && Qleb EnemyManager.DEATH_CLEANUP_DELAY
          (EnemyManager.deathTimer entry + delta).

(** The distance from an enemy to the player as [Enemy.update] computes
    it. *)
Definition distanceToPlayer (h : Host) (player : Vector3.t) (e : Enemy.t)
    : Q :=
  Vector3.length h (Vector3.subVectors player (Enemy.position e)).

(** * Further scenarios *)

(** The first frame of a game lasts 3.2 s and the model of the first
    grunt fails to load. *)
Definition first_grunt_session : list EnemyManager.Call :=
  [EnemyManager.CallUpdate (32 # 10) None; EnemyManager.CallSettle 0 None].

(** The same, and then a runner is asked for at the origin. *)
Definition grunt_and_runner : list EnemyManager.Call :=
  first_grunt_session
  ++ [EnemyManager.CallSpawn "runner" (Some Vector3.zero);
      EnemyManager.CallSettle 0 None].

(** * The game loop *)

(** ** HUDController: the values kept beside the DOM elements *)

Module HUDController.

(** What the ammunition counter shows: the sign of infinity or the
    number of rounds. *)
Inductive AmmoDisplay :=
  | Unlimited
  | Rounds (n : Q).

Record t := {
  currentScore : Z;
  maxHealth : Q;
  currentHealth : Q;
  weaponName : string;
  ammoDisplay : AmmoDisplay;
}.

Definition constructor : t := {|
  currentScore := 0;
  maxHealth := 100;
  currentHealth := 100;
  weaponName := "Pistolet";
  ammoDisplay := Unlimited;
|}.

(** [setScore(score)] *)
Definition setScore (score : Q) (s : t) : t := {|
  currentScore := Z.max 0 (Qfloor score);
  maxHealth := maxHealth s;
  currentHealth := currentHealth s;
  weaponName := weaponName s;
  ammoDisplay := ammoDisplay s;
|}.

(** [setHealth(current, max)] *)
Definition setHealth (current max : Q) (s : t) : t := {|
  currentScore := currentScore s;
  maxHealth := Qmax 1 max;
  currentHealth := Qmax 0 current;
  weaponName := weaponName s;
  ammoDisplay := ammoDisplay s;
|}.

(** The fill ratio of the health bar that [setHealth] computes. *)
Definition ratio (s : t) : Q := Qmin 1 (currentHealth s / maxHealth s).

(** The three gradients of the health bar. *)
Inductive Tint := Violet | Orange | Red.

Definition tint (s : t) : Tint :=
  if Qltb (6 # 10) (ratio s) then Violet
  else if Qltb (3 # 10) (ratio s) then Orange
  else Red.

(** [setWeapon({ name, ammoDisplay })]: an empty name is falsy, an
    absent [ammoDisplay] is [undefined]. *)
Definition setWeapon (name : string) (ammo : option AmmoDisplay) (s : t)
    : t := {|
  currentScore := currentScore s;
  maxHealth := maxHealth s;
  currentHealth := currentHealth s;
  weaponName := if decide (name = EmptyString) then weaponName s else name;
  ammoDisplay := default (ammoDisplay s) ammo;
|}.

End HUDController.

(** ** Game: score, health, weapon and the frame *)

Module Game.

(** A weapon definition; [ammo = None] stands for [Infinity]. *)
Record Weapon := {
  name : string;
  fireRate : Q;
  damage : Q;
  projectileSpeed : Q;
  spread : Q;
  maxDistance : Q;
  ammo : option Q;
}.

Definition pistol : Weapon := {|
  name := "Pistolet";
  fireRate := 55 # 10;
  damage := 22;
  projectileSpeed := 62;
  spread := 12 # 1000;
  maxDistance := 70;
  ammo := None;
|}.

Record PlayerStats := {
  maxHealth : Q;
  health : Q;
  armor : Q;
}.

(** The detail of a [game:over] event. *)
Record Detail := {
  detail_score : Q;
  wavesCleared : Z;
  timeSurvived : Q;
}.

(** The part of a [Game] that scoring, health and shooting depend on.
    [player] tells whether [this.player] is set; [currentWeapon] is the
    one object [weaponDefinitions.pistol], the only value the field ever
    receives; [dispatched] lists the [game:over] events sent to the
    window and [shots] the value of [elapsedTime] at each call of
    [spawnProjectile], both in order.  Rendering, the camera and the
    floating texts are left out. *)
Record t := {
  isRunning : bool;
  player : bool;
  enemyManager : option EnemyManager.t;
  projectileSystem : option ProjectileSystem.t;
  hud : HUDController.t;
  score : Q;
  isGameOver : bool;
  elapsedTime : Q;
  playerStats : PlayerStats;
  currentWeapon : Weapon;
  weaponCooldown : Q;
  dispatched : list Detail;
  shots : list Q;
}.

(** What a frame reads from the input manager, the player and the
    scene graph. *)
Record Frame := {
  delta : Q;                       (* clock.getDelta() *)
  shootingPrimary : bool;          (* inputManager.isShootingPrimary() *)
  playerPosition : Vector3.t;      (* player.group.position, after
                                      player.update *)
  aimPoint : Vector3.t;            (* after _updateAimPoint *)
  muzzle : Vector3.t;              (* weaponMount.getWorldPosition *)
  facing : Vector3.t;              (* player.group.getWorldDirection *)
  spreadTurn : Vector3.t → Vector3.t;
                                   (* applyQuaternion(spreadQuaternion) *)
}.

Definition constructor : t := {|
  isRunning := false;
  player := false;
  enemyManager := None;
  projectileSystem := None;
  hud := HUDController.constructor;
  score := 0;
  isGameOver := false;
  elapsedTime := 0;
  playerStats := {| maxHealth := 140; health := 140; armor := 0 |};
  currentWeapon := pistol;
  weaponCooldown := 0;
  dispatched := [];
  shots := [];
|}.

Definition set_isRunning (b : bool) (g : t) : t := {|
  isRunning := b; player := player g; enemyManager := enemyManager g;
  projectileSystem := projectileSystem g; hud := hud g; score := score g;
  isGameOver := isGameOver g; elapsedTime := elapsedTime g;
  playerStats := playerStats g; currentWeapon := currentWeapon g;
  weaponCooldown := weaponCooldown g; dispatched := dispatched g;
  shots := shots g |}.

Definition set_player (b : bool) (g : t) : t := {|
  isRunning := isRunning g; player := b; enemyManager := enemyManager g;
  projectileSystem := projectileSystem g; hud := hud g; score := score g;
  isGameOver := isGameOver g; elapsedTime := elapsedTime g;
  playerStats := playerStats g; currentWeapon := currentWeapon g;
  weaponCooldown := weaponCooldown g; dispatched := dispatched g;
  shots := shots g |}.

Definition set_enemyManager (em : option EnemyManager.t) (g : t) : t := {|
  isRunning := isRunning g; player := player g; enemyManager := em;
  projectileSystem := projectileSystem g; hud := hud g; score := score g;
  isGameOver := isGameOver g; elapsedTime := elapsedTime g;
  playerStats := playerStats g; currentWeapon := currentWeapon g;
  weaponCooldown := weaponCooldown g; dispatched := dispatched g;
  shots := shots g |}.

Definition set_projectileSystem (ps : option ProjectileSystem.t) (g : t)
    : t := {|
  isRunning := isRunning g; player := player g;
  enemyManager := enemyManager g;
  projectileSystem := ps; hud := hud g; score := score g;
  isGameOver := isGameOver g; elapsedTime := elapsedTime g;
  playerStats := playerStats g; currentWeapon := currentWeapon g;
  weaponCooldown := weaponCooldown g; dispatched := dispatched g;
  shots := shots g |}.

Definition set_hud (hd : HUDController.t) (g : t) : t := {|
  isRunning := isRunning g; player := player g;
  enemyManager := enemyManager g;
  projectileSystem := projectileSystem g; hud := hd; score := score g;
  isGameOver := isGameOver g; elapsedTime := elapsedTime g;
  playerStats := playerStats g; currentWeapon := currentWeapon g;
  weaponCooldown := weaponCooldown g; dispatched := dispatched g;
  shots := shots g |}.

Definition set_score (sc : Q) (g : t) : t := {|
  isRunning := isRunning g; player := player g;
  enemyManager := enemyManager g;
  projectileSystem := projectileSystem g; hud := hud g; score := sc;
  isGameOver := isGameOver g; elapsedTime := elapsedTime g;
  playerStats := playerStats g; currentWeapon := currentWeapon g;
  weaponCooldown := weaponCooldown g; dispatched := dispatched g;
  shots := shots g |}.

Definition set_isGameOver (b : bool) (g : t) : t := {|
  isRunning := isRunning g; player := player g;
  enemyManager := enemyManager g;
  projectileSystem := projectileSystem g; hud := hud g; score := score g;
  isGameOver := b; elapsedTime := elapsedTime g;
  playerStats := playerStats g; currentWeapon := currentWeapon g;
  weaponCooldown := weaponCooldown g; dispatched := dispatched g;
  shots := shots g |}.

Definition set_elapsedTime (time : Q) (g : t) : t := {|
  isRunning := isRunning g; player := player g;
  enemyManager := enemyManager g;
  projectileSystem := projectileSystem g; hud := hud g; score := score g;
  isGameOver := isGameOver g; elapsedTime := time;
  playerStats := playerStats g; currentWeapon := currentWeapon g;
  weaponCooldown := weaponCooldown g; dispatched := dispatched g;
  shots := shots g |}.

Definition set_health (hp : Q) (g : t) : t := {|
  isRunning := isRunning g; player := player g;
  enemyManager := enemyManager g;
  projectileSystem := projectileSystem g; hud := hud g; score := score g;
  isGameOver := isGameOver g; elapsedTime := elapsedTime g;
  playerStats := {| maxHealth := maxHealth (playerStats g); health := hp;
                    armor := armor (playerStats g) |};
  currentWeapon := currentWeapon g;
  weaponCooldown := weaponCooldown g; dispatched := dispatched g;
  shots := shots g |}.

Definition set_currentWeapon (w : Weapon) (g : t) : t := {|
  isRunning := isRunning g; player := player g;
  enemyManager := enemyManager g;
  projectileSystem := projectileSystem g; hud := hud g; score := score g;
  isGameOver := isGameOver g; elapsedTime := elapsedTime g;
  playerStats := playerStats g; currentWeapon := w;
  weaponCooldown := weaponCooldown g; dispatched := dispatched g;
  shots := shots g |}.

Definition set_weaponCooldown (c : Q) (g : t) : t := {|
  isRunning := isRunning g; player := player g;
  enemyManager := enemyManager g;
  projectileSystem := projectileSystem g; hud := hud g; score := score g;
  isGameOver := isGameOver g; elapsedTime := elapsedTime g;
  playerStats := playerStats g; currentWeapon := currentWeapon g;
  weaponCooldown := c; dispatched := dispatched g;
  shots := shots g |}.

Definition set_dispatched (l : list Detail) (g : t) : t := {|
  isRunning := isRunning g; player := player g;
  enemyManager := enemyManager g;
  projectileSystem := projectileSystem g; hud := hud g; score := score g;
  isGameOver := isGameOver g; elapsedTime := elapsedTime g;
  playerStats := playerStats g; currentWeapon := currentWeapon g;
  weaponCooldown := weaponCooldown g; dispatched := l;
  shots := shots g |}.

Definition set_shots (l : list Q) (g : t) : t := {|
  isRunning := isRunning g; player := player g;
  enemyManager := enemyManager g;
  projectileSystem := projectileSystem g; hud := hud g; score := score g;
  isGameOver := isGameOver g; elapsedTime := elapsedTime g;
  playerStats := playerStats g; currentWeapon := currentWeapon g;
  weaponCooldown := weaponCooldown g; dispatched := dispatched g;
  shots := l |}.

(** [_getAmmoDisplay(weapon)] for a weapon that is set. *)
Definition _getAmmoDisplay (weapon : Weapon) : HUDController.AmmoDisplay :=
  match ammo weapon with
  | None => HUDController.Unlimited
  | Some n => HUDController.Rounds n
  end.

(** [_refreshHUD()] *)
Definition _refreshHUD (g : t) : t :=
  set_hud
    (HUDController.setWeapon (name (currentWeapon g))
       (Some (_getAmmoDisplay (currentWeapon g)))
       (HUDController.setHealth (health (playerStats g))
          (maxHealth (playerStats g))
          (HUDController.setScore (score g) (hud g))))
    g.

(** [init()]: the player, then [_setupSystems()] and [_refreshHUD()]. *)
Definition init (g : t) : t :=
  _refreshHUD
    (set_enemyManager (Some EnemyManager.constructor)
       (set_projectileSystem (Some ProjectileSystem.constructor)
          (set_player true g))).

(** [_resetGameState()].  The assignment of [weaponDefinitions.pistol]
    to [currentWeapon] stores the object that is already there. *)
Definition _resetGameState (g : t) : t :=
  let g1 := set_weaponCooldown 0
              (set_elapsedTime 0 (set_isGameOver false (set_score 0 g))) in
  let g2 := set_health (maxHealth (playerStats g1)) g1 in
  let g3 := set_enemyManager
              (EnemyManager.reset <$> enemyManager g2) g2 in
  let g4 := set_projectileSystem
              (ProjectileSystem.reset <$> projectileSystem g3) g3 in
  _refreshHUD g4.

(** [start()] *)
Definition start (g : t) : t :=
  if (isRunning g && negb (isGameOver g))%bool then g
  else set_isRunning true (_resetGameState g).

(** [stop()] *)
Definition stop (g : t) : t :=
  if negb (isRunning g) then g else set_isRunning false g.

(** [v.lengthSq()] *)
Definition lengthSq (v : Vector3.t) : Q :=
  Vector3.x v * Vector3.x v + Vector3.y v * Vector3.y v
  + Vector3.z v * Vector3.z v.

(** [v.y = 0] *)
Definition flat (v : Vector3.t) : Vector3.t :=
  Vector3.mk (Vector3.x v) 0 (Vector3.z v).

(** The direction that [_fireCurrentWeapon] hands to the projectile
    system (lines 478 to 496). *)
Definition shotDirection (h : Host) (weapon : Weapon) (f : Frame)
    : Vector3.t :=
  let d0 := flat (Vector3.subVectors (aimPoint f) (muzzle f)) in
  let d1 := if Qltb (lengthSq d0) (1 # 10000) then flat (facing f)
            else d0 in
  let d2 := if Qltb (lengthSq d1) (1 # 10000) then Vector3.mk 0 0 1
            else d1 in
  let d3 := Vector3.normalize h d2 in
  if Qltb 0 (spread weapon)
  then Vector3.normalize h (spreadTurn f d3) else d3.

(** The argument object that [_fireCurrentWeapon] builds (lines 498 to
    505), without its colour. *)
Definition round (h : Host) (weapon : Weapon) (f : Frame)
    : ProjectileSystem.SpawnArgs := {|
  ProjectileSystem.arg_position := muzzle f;
  ProjectileSystem.arg_direction := shotDirection h weapon f;
  ProjectileSystem.arg_speed := projectileSpeed weapon;
  ProjectileSystem.arg_damage := damage weapon;
  ProjectileSystem.arg_maxDistance := Some (maxDistance weapon);
|}.

(** [_fireCurrentWeapon()]; its only caller has checked that the
    projectile system is there.  The quotient [1 / fireRate] is the one
    of the rationals, which is JavaScript's up to the rounding of the
    quotient, for every fire rate but 0. *)
Definition _fireCurrentWeapon (h : Host) (f : Frame) (g : t) : t :=
  if negb (player g) then g else
  match projectileSystem g with
  | None => g
  | Some ps =>
      let weapon := currentWeapon g in
      let '(_, ps') :=
        ProjectileSystem.spawnProjectile h (round h weapon f) ps in
      let g1 := set_shots (shots g ++ [elapsedTime g])
                  (set_projectileSystem (Some ps') g) in
      let g2 := set_weaponCooldown (1 / fireRate weapon) g1 in
      match ammo weapon with
      | None => g2
      | Some n =>
          let weapon' := {|
            name := name weapon; fireRate := fireRate weapon;
            damage := damage weapon;
            projectileSpeed := projectileSpeed weapon;
            spread := spread weapon; maxDistance := maxDistance weapon;
            ammo := Some (Qmax 0 (n - 1)) |} in
          set_hud
            (HUDController.setWeapon (name weapon')
               (Some (_getAmmoDisplay weapon')) (hud g2))
            (set_currentWeapon weapon' g2)
      end
  end.

(** [_handleWeapons(delta)] *)
Definition _handleWeapons (h : Host) (f : Frame) (g : t) : t :=
  match projectileSystem g with
  | None => g
  | Some _ =>
      let g1 := set_weaponCooldown
                  (Qmax 0 (weaponCooldown g - delta f)) g in
      if (shootingPrimary f && Qleb (weaponCooldown g1) 0)%bool
      then _fireCurrentWeapon h f g1 else g1
  end.

(** [_handleEnemyHit(impact)] for an impact that names an enemy. *)
Definition _handleEnemyHit (impact : Impact.t) (g : t) : t :=
  if (Impact.wasFatal impact && Qltb 0 (Impact.reward impact))%bool then
    let g1 := set_score (score g + Impact.reward impact) g in
    set_hud (HUDController.setScore (score g1) (hud g1)) g1
  else g.

(** [_onPlayerDeath()] *)
Definition _onPlayerDeath (g : t) : t :=
  if isGameOver g then g else
  let g1 := set_projectileSystem
              (ProjectileSystem.reset <$> projectileSystem g)
              (set_isGameOver true g) in
  let g2 := set_hud
              (HUDController.setHealth 0 (maxHealth (playerStats g1))
                 (hud g1)) g1 in
  let wave := match enemyManager g2 with
              | Some em => EnemyManager.wave em
              | None => 1%Z
              end in
  set_dispatched
    (dispatched g2
     ++ [{| detail_score := score g2;
            wavesCleared := Z.max 0 (wave - 1);
            timeSurvived := elapsedTime g2 |}])
    g2.

(** [_handlePlayerDamage(damage, enemy)] *)
Definition _handlePlayerDamage (amount : Q) (g : t) : t :=
  if isGameOver g then g else
  let mitigatedDamage := Qmax 1 (amount - armor (playerStats g)) in
  let g1 := set_health
              (Qmax 0 (health (playerStats g) - mitigatedDamage)) g in
  let g2 := set_hud
              (HUDController.setHealth (health (playerStats g1))
                 (maxHealth (playerStats g1)) (hud g1)) g1 in
  if Qleb (health (playerStats g2)) 0 then _onPlayerDeath g2 else g2.

(** The impacts that [onEnemyHit] received, in order. *)
Definition enemyHits (T : list ProjectileSystem.Event) : list Impact.t :=
  omap (λ ev, match ev with
              | ProjectileSystem.EnemyHit _ impact => Some impact
              | _ => None
              end) T.

(** The three systems of a frame, in the order of [update(delta)].
    The enemy manager calls [onPlayerDamaged] while it loops over its
    roster and the projectile system calls [onEnemyHit] while it loops
    over its projectiles; neither callback touches what the loop that
    calls it works on, so the calls are replayed, in order, when the
    loop has returned. *)

(** Lines 337 to 339. *)
Definition weaponStep (h : Host) (f : Frame) (g : t) : t :=
  if isGameOver g then g else _handleWeapons h f g.

(** Lines 341 to 348: [onPlayerDamaged] is [undefined] when the game is
    over at the time of the call. *)
Definition enemyStep (h : Host) (f : Frame) (g : t) : t :=
  match enemyManager g with
  | None => g
  | Some em =>
      let '(em', calls) :=
        EnemyManager.update h (delta f)
          (if player g then Some (playerPosition f) else None) em in
      let g' := set_enemyManager (Some em') g in
      if isGameOver g then g'
      else foldl (λ g call, _handlePlayerDamage call.1 g) g' calls
  end.

(** Lines 350 to 354. *)
Definition projectileStep (f : Frame) (g : t) : t :=
  match projectileSystem g with
  | None => g
  | Some ps =>
      let w := ProjectileSystem.update (delta f) (enemyManager g) ps in
      foldl (λ g impact, _handleEnemyHit impact g)
            (set_enemyManager (ProjectileSystem.enemies w)
               (set_projectileSystem (Some (ProjectileSystem.system w)) g))
            (enemyHits (ProjectileSystem.trace w))
  end.

(** [update(delta)] *)
Definition update (h : Host) (f : Frame) (g : t) : t :=
  projectileStep f
    (enemyStep h f
       (weaponStep h f (set_elapsedTime (elapsedTime g + delta f) g))).

(** What happens to a game between its construction and now: the start
    button, the stop call, the frames of the animation loop, which runs
    only while the game is running, and the pending enemy models that
    settle between two frames. *)
Inductive Call :=
  | CallStart
  | CallStop
  | CallFrame (f : Frame)
  | CallSettle (k : nat) (loaded : option Vector3.t).

Definition call (h : Host) (c : Call) (g : t) : t :=
  match c with
  | CallStart => start g
  | CallStop => stop g
  | CallFrame f => if isRunning g then update h f g else g
  | CallSettle k loaded =>
      set_enemyManager (EnemyManager.settleSpawn k loaded <$> enemyManager g)
                       g
  end.

(** The game after [new Game], [init()] and the calls. *)
Definition run (h : Host) (calls : list Call) : t :=
  foldl (λ g c, call h c g) (init constructor) calls.

End Game.

(** ** Game._handleWeapons, the cooldown alone, with a rounding *)

(** What [_handleWeapons] and [_fireCurrentWeapon] do to the cooldown of
    a game that has its player and its projectile system, every
    arithmetic operation followed by the rounding [rnd]; the boolean
    tells whether [spawnProjectile] was called. *)
Module RoundedWeapon.

Section Rounding.

Variable rnd : Q → Q.

Definition _handleWeapons (weapon : Game.Weapon) (delta : Q)
    (shootingPrimary : bool) (weaponCooldown : Q) : Q * bool :=
  let cooldown := Qmax 0 (rnd (weaponCooldown - delta)) in
  if (shootingPrimary && Qleb cooldown 0)%bool
  then (rnd (1 / Game.fireRate weapon), true)
  else (cooldown, false).

(** Successive frames of a game that is running and not over, each with
    its delta and the state of the trigger: which of them fire. *)
Fixpoint volley (weapon : Game.Weapon) (frames : list (Q * bool))
    (weaponCooldown : Q) : list bool :=
  match frames with
  | [] => []
  | (delta, shootingPrimary) :: rest =>
      let '(cooldown, fired) :=
        _handleWeapons weapon delta shootingPrimary weaponCooldown in
      fired :: volley weapon rest cooldown
  end.

End Rounding.

End RoundedWeapon.

(** ** Vocabulary of the game's properties *)

(** Every projectile in flight was fired by the pistol. *)
Definition stocked (ps : ProjectileSystem.t) : Prop :=
  ∀ r p, r ∈ ProjectileSystem.projectiles ps →
         ProjectileSystem.store ps !! r = Some p →
         Projectile.speed p = Game.projectileSpeed Game.pistol
         ∧ Projectile.damage p = Game.damage Game.pistol
         ∧ Projectile.maxDistance p = Game.maxDistance Game.pistol.

(** A projectile between two frames: short of its range, and with some
    of its 2.5 s left. *)
Definition inFlight (p : Projectile.t) : Prop :=
  Projectile.active p = true
  ∧ 0 <= Projectile.distanceTravelled p
  ∧ Projectile.distanceTravelled p < Projectile.maxDistance p
  ∧ 0 < Projectile.timeToLive p
  ∧ Projectile.timeToLive p <= ProjectileSystem.DEFAULT_PROJECTILE_LIFETIME.

Definition cruising (ps : ProjectileSystem.t) : Prop :=
  ∀ r p, r ∈ ProjectileSystem.projectiles ps →
         ProjectileSystem.store ps !! r = Some p → inFlight p.

(** A pistol round, wherever it is: it has the pistol's speed, damage
    and range, and it has travelled its speed times its age. *)
Definition pistolRound (p : Projectile.t) : Prop :=
  Projectile.speed p = Game.projectileSpeed Game.pistol
  ∧ Projectile.damage p = Game.damage Game.pistol
  ∧ Projectile.maxDistance p = Game.maxDistance Game.pistol
  ∧ Projectile.distanceTravelled p
    == Projectile.speed p
       * (ProjectileSystem.DEFAULT_PROJECTILE_LIFETIME
          - Projectile.timeToLive p).

(** Every active record of the store is a pistol round. *)
Definition armed (ps : ProjectileSystem.t) : Prop :=
  ∀ r p, ProjectileSystem.store ps !! r = Some p →
         Projectile.active p = true → pistolRound p.

(** The HUD shows the score and the health of the game. *)
Definition mirrored (g : Game.t) : Prop :=
  HUDController.currentScore (Game.hud g)
  = Z.max 0 (Qfloor (Game.score g))
  ∧ HUDController.currentHealth (Game.hud g)
    == Game.health (Game.playerStats g)
  ∧ HUDController.maxHealth (Game.hud g)
    = Game.maxHealth (Game.playerStats g)
  ∧ HUDController.weaponName (Game.hud g) = Game.name (Game.currentWeapon g)
  ∧ HUDController.ammoDisplay (Game.hud g)
    = Game._getAmmoDisplay (Game.currentWeapon g).

(** What every game keeps once [init] is over. *)
Definition steady (g : Game.t) : Prop :=
  Game.player g = true
  ∧ is_Some (Game.enemyManager g)
  ∧ (∃ ps, Game.projectileSystem g = Some ps
       ∧ wellFormed ps ∧ stocked ps
       ∧ (Game.isGameOver g = true → ProjectileSystem.projectiles ps = []))
  ∧ Game.maxHealth (Game.playerStats g) = 140
  ∧ Game.armor (Game.playerStats g) = 0
  ∧ 0 <= Game.health (Game.playerStats g)
  ∧ Game.health (Game.playerStats g) <= 140
  ∧ (Game.isGameOver g = true ↔ Game.health (Game.playerStats g) <= 0)
  ∧ Game.currentWeapon g = Game.pistol
  ∧ 0 <= Game.weaponCooldown g
  ∧ mirrored g.

(** Calls whose frames have non-negative deltas. *)
Definition calm (c : Game.Call) : Prop :=
  match c with
  | Game.CallFrame f => 0 <= Game.delta f
  | _ => True
  end.

(** Successive frames of the animation loop. *)
Definition play (h : Host) (fs : list Game.Frame) (g : Game.t) : Game.t :=
  foldl (λ g f, Game.call h (Game.CallFrame f) g) g fs.

(** Every enemy of the roster and every enemy that waits for its model
    was built from one of the definitions. *)
Definition listed (em : EnemyManager.t) : Prop :=
  Forall (λ entry, defined (EnemyManager.enemy entry))
         (EnemyManager.enemyEntries em)
  ∧ Forall defined (EnemyManager.pendingSpawns em).

(** The enemies alive in a game. *)
Definition aliveEnemies (g : Game.t) : nat :=
  match Game.enemyManager g with
  | Some em => EnemyManager._countActiveEnemies em
  | None => 0
  end.

(** What a game does not change while it handles the weapon. *)
Definition besidesWeapons (g : Game.t) :=
  (Game.isRunning g, Game.player g, Game.enemyManager g, Game.hud g,
   Game.score g, Game.isGameOver g, Game.elapsedTime g,
   Game.playerStats g, Game.currentWeapon g, Game.dispatched g).

(** What a game does not change while it handles the player's damage. *)
Definition besidesDamage (g : Game.t) :=
  (Game.isRunning g, Game.player g, Game.enemyManager g, Game.score g,
   Game.elapsedTime g, Game.currentWeapon g, Game.weaponCooldown g,
   Game.shots g, Game.maxHealth (Game.playerStats g),
   Game.armor (Game.playerStats g)).

(** What a game does not change while it handles the enemies' hits. *)
Definition besidesScore (g : Game.t) :=
  (Game.isRunning g, Game.player g, Game.enemyManager g,
   Game.projectileSystem g, Game.isGameOver g,
   Game.elapsedTime g, Game.currentWeapon g, Game.weaponCooldown g,
   Game.shots g, Game.playerStats g, Game.dispatched g).

(** What the impacts of a frame add to the score: the rewards of the
    fatal ones, when positive. *)
Definition bounty (impacts : list Impact.t) : Q :=
  foldr (λ impact total,
           (if (Impact.wasFatal impact && Qltb 0 (Impact.reward impact))%bool
            then Impact.reward impact else 0)
           + total)
        0 impacts.

(** A fatal impact carries the reward of one of the three enemy types,
    another impact carries none. *)
Definition rewarded (impact : Impact.t) : Prop :=
  if Impact.wasFatal impact
  then 60 <= Impact.reward impact ∧ Impact.reward impact <= 150
  else Impact.reward impact = 0.

(** The damage of the strikes of a frame, added up. *)
Definition toll (strikes : list (Q * nat)) : Q :=
  foldr (λ strike total, strike.1 + total) 0 strikes.

(** How many of the impacts of a frame were fatal. *)
Definition kills (impacts : list Impact.t) : nat :=
  length (filter (λ impact, Impact.wasFatal impact = true) impacts).

(** A host whose sine and cosine vanish: enemies spawn where the player
    stands. *)
Definition still_host : Host := {|
  Math_sqrt := λ q, q;
  Math_cos := λ _, 0;
  Math_sin := λ _, 0;
  Math_PI := 355 # 113;
  Math_random := λ _, 1 # 2;
  sort_random := λ _ l, l;
  sort_draws := λ _ l, length l;
|}.

(** A frame of [delta] seconds with the player at the origin, aiming
    along the x axis. *)
Definition frame_of (delta : Q) (shooting : bool) : Game.Frame := {|
  Game.delta := delta;
  Game.shootingPrimary := shooting;
  Game.playerPosition := Vector3.zero;
  Game.aimPoint := Vector3.mk 10 0 0;
  Game.muzzle := Vector3.mk 0 (12 # 10) (6 # 10);
  Game.facing := Vector3.mk 0 0 1;
  Game.spreadTurn := λ v, v;
|}.

(** A game that is lost: the first grunt spawns on the player, who
    stands still for fourteen frames of 1.4 s. *)
Definition lost_game : list Game.Call :=
  [Game.CallStart; Game.CallFrame (frame_of (32 # 10) false);
   Game.CallSettle 0 None]
  ++ replicate 14 (Game.CallFrame (frame_of (14 # 10) false)).

(** Two frames with the trigger held whose deltas, the doubles
    0.13415355745874388 and 0.04766462435943794, add up to the cooldown
    of the pistol. *)
Definition reload_ticks : list (Q * bool) :=
  [(double (13415355745874388 # 100000000000000000), true);
   (double (4766462435943794 # 100000000000000000), true)].

(** Two shorter frames with the trigger held. *)
Definition quick_ticks : list (Q * bool) :=
  [(double (1 # 10), true); (double (5 # 100), true)].

(** A game that is stopped while its first grunt is still loading. *)
Definition stopped_game : list Game.Call :=
  [Game.CallStart; Game.CallFrame (frame_of (32 # 10) false); Game.CallStop].

(** * Input, the status overlay and the floating texts *)

(** ** InputManager *)

Module InputManager.

(** [MOVEMENT_KEYS]: from [KeyboardEvent.code] to the name of a field of
    [movementState]. *)
Definition MOVEMENT_KEYS : gmap string string :=
  list_to_map
    [("KeyW", "forward"); ("KeyS", "backward"); ("KeyA", "left");
     ("KeyD", "right"); ("ArrowUp", "forward"); ("ArrowDown", "backward");
     ("ArrowLeft", "left"); ("ArrowRight", "right")].

Record Mouse := {
  x : Q;
  y : Q;
  normalizedX : Q;
  normalizedY : Q;
  buttons_left : bool;
  buttons_right : bool;
  wheelDeltaY : Q;
}.

(** The events that the constructor subscribes to, with what the
    handlers read from them and from the window. *)
Inductive DomEvent :=
  | keydown (code : string)
  | keyup (code : string)
  | pointermove (clientX clientY innerWidth innerHeight : Q)
  | pointerdown (button : Z)
  | pointerup (button : Z)
  | wheel (deltaY : Q).

(** The [type] of the payload that a handler passes to [_notify]. *)
Definition payloadType (ev : DomEvent) : string :=
  match ev with
  | keydown _ => "keydown"
  | keyup _ => "keyup"
  | pointermove _ _ _ _ => "pointermove"
  | pointerdown _ => "pointerdown"
  | pointerup _ => "pointerup"
  | wheel _ => "wheel"
  end.

(** [movementState] is the object that the handlers index by name;
    listeners are callbacks, told apart by a number; [attached] tells
    whether the window still delivers events to the handlers; [notified]
    lists the calls of listeners so far, each with the type of its
    payload. *)
Record t := {
  movementState : gmap string bool;
  mouse : Mouse;
  listeners : list nat;
  attached : bool;
  notified : list (nat * string);
}.

Definition constructor : t := {|
  movementState :=
    list_to_map [("forward", false); ("backward", false);
                 ("left", false); ("right", false)];
  mouse := {| x := 0; y := 0; normalizedX := 0; normalizedY := 0;
              buttons_left := false; buttons_right := false;
              wheelDeltaY := 0 |};
  listeners := [];
  attached := true;
  notified := [];
|}.

Definition set_movementState (m : gmap string bool) (s : t) : t := {|
  movementState := m; mouse := mouse s; listeners := listeners s;
  attached := attached s; notified := notified s |}.

Definition set_mouse (m : Mouse) (s : t) : t := {|
  movementState := movementState s; mouse := m; listeners := listeners s;
  attached := attached s; notified := notified s |}.

(** [destroy()] *)
Definition destroy (s : t) : t := {|
  movementState := movementState s; mouse := mouse s; listeners := [];
  attached := false; notified := notified s |}.

(** A field of [movementState] read as a condition. *)
Definition moving (name : string) (s : t) : bool :=
  default false (movementState s !! name).

(** [getAxis()] *)
Definition getAxis (s : t) : Z * Z :=
  ((if moving "right" s then 1 else 0) - (if moving "left" s then 1 else 0),
   (if moving "forward" s then 1 else 0)
   - (if moving "backward" s then 1 else 0))%Z.

(** [isShootingPrimary()] *)
Definition isShootingPrimary (s : t) : bool := buttons_left (mouse s).

(** [isShootingSecondary()] *)
Definition isShootingSecondary (s : t) : bool := buttons_right (mouse s).

(** [addListener(callback)]; [None] is an argument that is not a
    function. *)
Definition addListener (callback : option nat) (s : t) : t :=
  match callback with
  | Some l => {|
      movementState := movementState s; mouse := mouse s;
      listeners := listeners s ++ [l];
      attached := attached s; notified := notified s |}
  | None => s
  end.

(** [clearWheelDelta()] *)
Definition clearWheelDelta (s : t) : t :=
  set_mouse {| x := x (mouse s); y := y (mouse s);
               normalizedX := normalizedX (mouse s);
               normalizedY := normalizedY (mouse s);
               buttons_left := buttons_left (mouse s);
               buttons_right := buttons_right (mouse s);
               wheelDeltaY := 0 |} s.

(** [_notify(payload)] *)
Definition _notify (type : string) (s : t) : t := {|
  movementState := movementState s; mouse := mouse s;
  listeners := listeners s; attached := attached s;
  notified := notified s ++ ((λ l, (l, type)) <$> listeners s) |}.

(** [_handleKeyDown(event)] and [_handleKeyUp(event)]: [held] is what is
    written to the field. *)
Definition _handleKey (held : bool) (code : string) (s : t) : t :=
  match MOVEMENT_KEYS !! code with
  | Some action => set_movementState (<[action := held]> (movementState s)) s
  | None => s
  end.

(** [_handlePointerMove(event)]; the quotients are JavaScript's as long
    as the window has a width and a height. *)
Definition _handlePointerMove (clientX clientY innerWidth innerHeight : Q)
    (s : t) : t :=
  set_mouse {| x := clientX; y := clientY;
               normalizedX := clientX / innerWidth * 2 - 1;
               normalizedY := - (clientY / innerHeight) * 2 + 1;
               buttons_left := buttons_left (mouse s);
               buttons_right := buttons_right (mouse s);
               wheelDeltaY := wheelDeltaY (mouse s) |} s.

(** [_handlePointerDown(event)] and [_handlePointerUp(event)] *)
Definition _handlePointer (down : bool) (button : Z) (s : t) : t :=
  set_mouse {| x := x (mouse s); y := y (mouse s);
               normalizedX := normalizedX (mouse s);
               normalizedY := normalizedY (mouse s);
               buttons_left :=
                 if decide (button = 0%Z) then down
                 else buttons_left (mouse s);
               buttons_right :=
                 if decide (button = 2%Z) then down
                 else buttons_right (mouse s);
               wheelDeltaY := wheelDeltaY (mouse s) |} s.

(** [_handleWheel(event)] *)
Definition _handleWheel (deltaY : Q) (s : t) : t :=
  set_mouse {| x := x (mouse s); y := y (mouse s);
               normalizedX := normalizedX (mouse s);
               normalizedY := normalizedY (mouse s);
               buttons_left := buttons_left (mouse s);
               buttons_right := buttons_right (mouse s);
               wheelDeltaY := deltaY |} s.

(** The window delivers an event: the handler runs if it is still
    subscribed, and ends with [_notify]. *)
Definition dispatch (ev : DomEvent) (s : t) : t :=
  if negb (attached s) then s else
  _notify (payloadType ev)
    match ev with
    | keydown code => _handleKey true code s
    | keyup code => _handleKey false code s
    | pointermove cx cy w hgt => _handlePointerMove cx cy w hgt s
    | pointerdown button => _handlePointer true button s
    | pointerup button => _handlePointer false button s
    | wheel deltaY => _handleWheel deltaY s
    end.

(** The input manager after [new InputManager()] and the events. *)
Definition run (events : list DomEvent) : t :=
  foldl (λ s ev, dispatch ev s) constructor events.

End InputManager.

(** Whether an event presses or releases a key bound to the movement
    [name]. *)
Definition keyFor (name : string) (ev : InputManager.DomEvent)
    : option bool :=
  match ev with
  | InputManager.keydown code =>
      if decide (InputManager.MOVEMENT_KEYS !! code = Some name)
      then Some true else None
  | InputManager.keyup code =>
      if decide (InputManager.MOVEMENT_KEYS !! code = Some name)
      then Some false else None
  | _ => None
  end.

(** Whether an event presses or releases the mouse button [button]. *)
Definition buttonFor (button : Z) (ev : InputManager.DomEvent)
    : option bool :=
  match ev with
  | InputManager.pointerdown b =>
      if decide (b = button) then Some true else None
  | InputManager.pointerup b =>
      if decide (b = button) then Some false else None
  | _ => None
  end.

(** What the last event of its kind said, [false] when there was none. *)
Definition latest (pick : InputManager.DomEvent → option bool)
    (events : list InputManager.DomEvent) : bool :=
  default false (last (omap pick events)).

(** The four movements. *)
Definition movements : list string :=
  ["forward"; "backward"; "left"; "right"].

(** ** The status overlay of main.js *)

Module Main.

(** [s.padStart(targetLength, c)] for a one-character pad string. *)
Definition padStart (targetLength : nat) (c : Ascii.ascii) (s : string)
    : string :=
  String.string_of_list_ascii
    (replicate (targetLength - String.length s) c) +:+ s.

(** [formatTime(seconds)].  [pretty] writes an integer in decimal, as
    [toString()] does for the integers below 10^21. *)
Definition formatTime (seconds : Q) : string :=
  let totalSeconds := Z.max 0 (Qfloor seconds) in
  let minutes := padStart 2 "0"%char (pretty (totalSeconds `div` 60)%Z) in
  let secs := padStart 2 "0"%char (pretty (totalSeconds `mod` 60)%Z) in
  minutes +:+ ":" +:+ secs.

End Main.

(** The whole seconds that [formatTime] shows. *)
Definition shownSeconds (seconds : Q) : Z := Z.max 0 (Qfloor seconds).

(** ** FloatingTextManager: the pool of text elements *)

Module FloatingTextManager.

(** What the manager writes on a [div]: its text and colour, its
    position, whether it carries the class [floating-text] and whether
    it is a child of the container. *)
Record Element := {
  textContent : string;
  color : string;
  left : Q;
  top : Q;
  floating : bool;
  attached : bool;
}.

(** [document.createElement('div')] *)
Definition createElement : Element := {|
  textContent := EmptyString; color := EmptyString; left := 0; top := 0;
  floating := false; attached := false |}.

(** Elements are told apart by a number and live in [elements];
    [active] is the [Map] from an element to its timeout, in insertion
    order; [timers] holds the timeouts of the window that are still
    pending, each with the element that its callback recycles.
    [window.setTimeout] hands out the identifiers 1, 2, 3, ... *)
Record t := {
  container : bool;
  elements : gmap nat Element;
  pool : list nat;
  active : list (nat * nat);
  timers : gmap nat nat;
  nextElement : nat;
  nextTimer : nat;
}.

(** [new FloatingTextManager()]; [container] tells whether the page has
    the element [floating-text-container]. *)
Definition constructor (container : bool) : t := {|
  container := container; elements := ∅; pool := []; active := [];
  timers := ∅; nextElement := 0; nextTimer := 1 |}.

(** [map.get(key)] *)
Fixpoint get (key : nat) (m : list (nat * nat)) : option nat :=
  match m with
  | [] => None
  | (k, v) :: rest => if decide (k = key) then Some v else get key rest
  end.

(** [map.set(key, value)]: a key that is present keeps its place. *)
Fixpoint set (key value : nat) (m : list (nat * nat)) : list (nat * nat) :=
  match m with
  | [] => [(key, value)]
  | (k, v) :: rest =>
      if decide (k = key) then (k, value) :: rest
      else (k, v) :: set key value rest
  end.

(** [map.delete(key)] *)
Definition remove (key : nat) (m : list (nat * nat)) : list (nat * nat) :=
  filter (λ entry, entry.1 ≠ key) m.

(** [_getElement()] *)
Definition _getElement (s : t) : nat * t :=
  match last (pool s) with
  | Some e =>
      (e, {| container := container s; elements := elements s;
             pool := removelast (pool s); active := active s;
             timers := timers s; nextElement := nextElement s;
             nextTimer := nextTimer s |})
  | None =>
      let e := nextElement s in
      (e, {| container := container s;
             elements := <[e := createElement]> (elements s);
             pool := pool s; active := active s; timers := timers s;
             nextElement := S e; nextTimer := nextTimer s |})
  end.

(** [_recycleElement(element)] *)
Definition _recycleElement (e : nat) (s : t) : t :=
  let '(timers', active') :=
    match get e (active s) with
    | Some timeout =>
        if decide (timeout = 0%nat) then (timers s, active s)
        else (delete timeout (timers s), remove e (active s))
    | None => (timers s, active s)
    end in
  {| container := container s;
     elements :=
       alter (λ el, {| textContent := textContent el; color := color el;
                       left := left el; top := top el;
                       floating := false; attached := false |})
             e (elements s);
     pool := pool s ++ [e];
     active := active';
     timers := timers';
     nextElement := nextElement s;
     nextTimer := nextTimer s |}.

(** The arguments of [spawnFromWorldPosition]: whether a position and a
    camera were given, the text, the colour if any, and the two screen
    coordinates that follow from the projection. *)
Record SpawnArgs := {
  arg_given : bool;
  arg_text : string;
  arg_color : option string;
  arg_x : Q;
  arg_y : Q;
}.

(** [spawnFromWorldPosition(worldPosition, camera, { text, color,
    duration })] *)
Definition spawnFromWorldPosition (a : SpawnArgs) (s : t) : t :=
  if (negb (container s) || negb (arg_given a))%bool then s else
  let '(e, s1) := _getElement s in
  let timeout := nextTimer s1 in
  {| container := container s1;
     elements :=
       alter (λ el, {| textContent := arg_text a;
                       color := default "#ffffff" (arg_color a);
                       left := arg_x a; top := arg_y a;
                       floating := true; attached := true |})
             e (elements s1);
     pool := pool s1;
     active := set e timeout (active s1);
     timers := <[timeout := e]> (timers s1);
     nextElement := nextElement s1;
     nextTimer := S timeout |}.

(** The callback of a timeout runs: [_recycleElement(element)]. *)
Definition timeout (id : nat) (s : t) : t :=
  match timers s !! id with
  | None => s
  | Some e =>
      _recycleElement e
        {| container := container s; elements := elements s;
           pool := pool s; active := active s;
           timers := delete id (timers s);
           nextElement := nextElement s; nextTimer := nextTimer s |}
  end.

(** One call of the callback of [clear()]. *)
Definition clearEntry (s : t) (entry : nat * nat) : t :=
  _recycleElement entry.1
    {| container := container s; elements := elements s;
       pool := pool s; active := active s;
       timers := delete entry.2 (timers s);
       nextElement := nextElement s; nextTimer := nextTimer s |}.

(** [clear()]: [forEach] visits the entries in order; the callback
    deletes only the entry that it is called with. *)
Definition clear (s : t) : t :=
  let s1 := foldl clearEntry s (active s) in
  {| container := container s1; elements := elements s1;
     pool := pool s1; active := [];
     timers := timers s1;
     nextElement := nextElement s1; nextTimer := nextTimer s1 |}.

Inductive Call :=
  | CallSpawn (a : SpawnArgs)
  | CallTimeout (id : nat)
  | CallClear.

Definition call (c : Call) (s : t) : t :=
  match c with
  | CallSpawn a => spawnFromWorldPosition a s
  | CallTimeout id => timeout id s
  | CallClear => clear s
  end.

(** The manager after [new FloatingTextManager()] and the calls. *)
Definition run (container : bool) (calls : list Call) : t :=
  foldl (λ s c, call c s) (constructor container) calls.

End FloatingTextManager.

(** The shape of the pool of text elements: no element is twice in the
    pool and the map, every element was created, the pending timeouts
    are those of the map, pooled elements are out of the page and active
    ones are on it. *)
Definition tidy (s : FloatingTextManager.t) : Prop :=
  NoDup (FloatingTextManager.pool s ++ (FloatingTextManager.active s).*1)
  ∧ (length (FloatingTextManager.pool s)
     + length (FloatingTextManager.active s))%nat
    = FloatingTextManager.nextElement s
  ∧ (∀ e, e ∈ FloatingTextManager.pool s
              ++ (FloatingTextManager.active s).*1 →
          (e < FloatingTextManager.nextElement s)%nat)
  ∧ (∀ id e, FloatingTextManager.timers s !! id = Some e
             ↔ (e, id) ∈ FloatingTextManager.active s)
  ∧ (∀ e id, (e, id) ∈ FloatingTextManager.active s →
             (1 ≤ id < FloatingTextManager.nextTimer s)%nat)
  ∧ (∀ e, e ∈ FloatingTextManager.pool s →
          ∃ el, FloatingTextManager.elements s !! e = Some el
            ∧ FloatingTextManager.attached el = false)
  ∧ (∀ e, e ∈ (FloatingTextManager.active s).*1 →
          ∃ el, FloatingTextManager.elements s !! e = Some el
            ∧ FloatingTextManager.attached el = true)
  ∧ (1 ≤ FloatingTextManager.nextTimer s)%nat.

(** * Properties *)

(** ** Comparisons *)

Lemma Qleb_true a b : Qleb a b = true ↔ (a <= b)%Q.
Proof. apply Qle_bool_iff. Qed.

Lemma Qleb_false a b : Qleb a b = false ↔ (b < a)%Q.
Proof.
  unfold Qleb. rewrite <- not_true_iff_false, Qle_bool_iff.
  split; [apply Qnot_le_lt | apply Qlt_not_le].
Qed.

Lemma Qltb_true a b : Qltb a b = true ↔ (a < b)%Q.
Proof. unfold Qltb. rewrite negb_true_iff. apply Qleb_false. Qed.

Lemma Qltb_false a b : Qltb a b = false ↔ (b <= a)%Q.
Proof. unfold Qltb. rewrite negb_false_iff. apply Qleb_true. Qed.

(** Case analysis on the comparisons met in a goal or a hypothesis. *)
Ltac case_cmp :=
  match goal with
  | |- context [Qleb ?a ?b] =>
      let E := fresh "Hcmp" in
      destruct (Qleb a b) eqn:E;
      [apply Qleb_true in E | apply Qleb_false in E]
  | |- context [Qltb ?a ?b] =>
      let E := fresh "Hcmp" in
      destruct (Qltb a b) eqn:E;
      [apply Qltb_true in E | apply Qltb_false in E]
  end.

(** ** The model at work *)

Example composition_wave_4 :
  EnemyManager.composition 4
  = replicate 13 "grunt" ++ replicate 2 "runner" ++ replicate 1 "brute".
Proof. reflexivity. Qed.

Example first_wave_spawned :
  let s := EnemyManager.run reversing_host first_wave_session in
  EnemyManager.wave s = 2%Z
  ∧ length (EnemyManager.pendingSpawns s) = 7%nat
  ∧ EnemyManager.spawnQueue s = []
  ∧ EnemyManager.waveInProgress s = false.
Proof. vm_compute. done. Qed.

Example nearer_grunt_is_hit :
  (EnemyManager.handleProjectileImpact (Vector3.mk (8 # 10) 0 0) 22
     two_grunts).2
  = Some {| Impact.enemy := 1; Impact.wasFatal := false;
            Impact.reward := 0; Impact.damage := 22 |}.
Proof. vm_compute. reflexivity. Qed.

Example third_hit_is_fatal :
  let hit point s := EnemyManager.handleProjectileImpact point 22 s in
  let point := Vector3.mk (8 # 10) 0 0 in
  (hit point (hit point (hit point two_grunts).1).1).2
  = Some {| Impact.enemy := 1; Impact.wasFatal := true;
            Impact.reward := 60; Impact.damage := 22 |}.
Proof. vm_compute. reflexivity. Qed.

Example shot_hits_in_first_frame :
  let fire := ProjectileSystem.spawnProjectile reversing_host pistol_shot
                ProjectileSystem.constructor in
  let w := ProjectileSystem.update (1 # 62) (Some two_grunts) fire.2 in
  ProjectileSystem.trace w
  = [ProjectileSystem.ImpactQuery 0;
     ProjectileSystem.EnemyHit 0
       {| Impact.enemy := 0; Impact.wasFatal := false;
          Impact.reward := 0; Impact.damage := 22 |};
     ProjectileSystem.Deactivated 0 ProjectileSystem.Hit]
  ∧ ProjectileSystem.projectiles (ProjectileSystem.system w) = []
  ∧ ProjectileSystem.pool (ProjectileSystem.system w) = [0%nat].
Proof. vm_compute. done. Qed.

Example pooled_object_is_reused :
  let s := ProjectileSystem.run reversing_host
             [ProjectileSystem.CallSpawn pistol_shot;
              ProjectileSystem.CallUpdate 2 None;
              ProjectileSystem.CallSpawn slow_shot] in
  ProjectileSystem.projectiles s = [0%nat]
  ∧ ProjectileSystem.pool s = []
  ∧ ProjectileSystem.nextRef s = 1%nat.
Proof. vm_compute. done. Qed.

(** ** Enemy.takeDamage *)

Section TakeDamage.

Import Enemy.

Lemma takeDamage_dead amount e :
  isAlive e = false → takeDamage amount e = (e, false).
Proof. intros Hd. unfold takeDamage. by rewrite Hd. Qed.

Lemma takeDamage_survive amount e :
  isAlive e = true → amount < health e →
  takeDamage amount e = (set_health e (health e - amount) true, false).
Proof.
  intros Ha Hlt. unfold takeDamage. rewrite Ha. simpl.
  case_cmp; [lra | done].
Qed.

Lemma takeDamage_fatal amount e :
  isAlive e = true → health e <= amount →
  takeDamage amount e = (set_health e 0 false, true).
Proof.
  intros Ha Hle. unfold takeDamage. rewrite Ha. simpl.
  case_cmp; [done | lra].
Qed.

(** Whatever happens, only [health] and [isAlive] can change. *)
Lemma takeDamage_frame amount e :
  let e' := (takeDamage amount e).1 in
  config e' = config e ∧ position e' = position e
  ∧ boundingRadius e' = boundingRadius e
  ∧ timeSinceLastAttack e' = timeSinceLastAttack e
  ∧ height e' = height e.
Proof.
  unfold takeDamage. destruct (isAlive e); simpl; [|done].
  case_cmp; done.
Qed.

(** C2.  An alive enemy hit for less than its health loses exactly that
    amount, stays alive and [takeDamage] returns [false]; an alive enemy
    hit for its health or more ends with health 0, is marked dead and
    [takeDamage] returns [true]; on a dead enemy [takeDamage] changes
    nothing and returns [false]. *)
Theorem takeDamage_cases (e : Enemy.t) (amount : Q) :
  (isAlive e = true → amount < health e →
     health (takeDamage amount e).1 = health e - amount
     ∧ isAlive (takeDamage amount e).1 = true
     ∧ (takeDamage amount e).2 = false)
  ∧ (isAlive e = true → health e <= amount →
     health (takeDamage amount e).1 = 0
     ∧ isAlive (takeDamage amount e).1 = false
     ∧ (takeDamage amount e).2 = true)
  ∧ (isAlive e = false →
     takeDamage amount e = (e, false)).
Proof.
  split_and!.
  - intros Ha Hlt. by rewrite takeDamage_survive.
  - intros Ha Hle. by rewrite takeDamage_fatal.
  - apply takeDamage_dead.
Qed.

End TakeDamage.

(** A grunt (60 health) hit three times for 22. *)
Lemma takeDamage_cases_witness :
  let e0 := grunt_at Vector3.zero in
  let e1 := (Enemy.takeDamage 22 e0).1 in
  let e2 := (Enemy.takeDamage 22 e1).1 in
  let e3 := (Enemy.takeDamage 22 e2).1 in
  (Enemy.health e1 = 60 - 22 ∧ Enemy.isAlive e1 = true)
  ∧ (Enemy.health e3 = 0 ∧ Enemy.isAlive e3 = false
     ∧ (Enemy.takeDamage 22 e2).2 = true)
  ∧ Enemy.takeDamage 22 e3 = (e3, false).
Proof.
  intros e0 e1 e2 e3. split_and!.
  - by apply (takeDamage_cases e0 22).
  - by apply (takeDamage_cases e0 22).
  - by apply (takeDamage_cases e2 22).
  - by apply (takeDamage_cases e2 22).
  - by apply (takeDamage_cases e2 22).
  - by apply (takeDamage_cases e3 22).
Defined.

(** ** Wave composition *)

Lemma tokens_app name q1 q2 :
  tokens name (q1 ++ q2) = (tokens name q1 + tokens name q2)%Z.
Proof. unfold tokens. rewrite filter_app, length_app. lia. Qed.

Lemma tokens_replicate_same name n :
  tokens name (replicate n name) = Z.of_nat n.
Proof.
  unfold tokens. f_equal. induction n as [|n IH]; [done|].
  simpl. rewrite filter_cons_True by done. simpl. by rewrite IH.
Qed.

Lemma tokens_replicate_other name other n :
  other ≠ name → tokens name (replicate n other) = 0%Z.
Proof.
  intros Hne. unfold tokens. induction n as [|n IH]; [done|].
  simpl. by rewrite filter_cons_False.
Qed.

Lemma tokens_perm name q1 q2 : q1 ≡ₚ q2 → tokens name q1 = tokens name q2.
Proof. intros Hp. unfold tokens. by rewrite Hp. Qed.

Section WaveComposition.

Import EnemyManager.

Lemma composition_documented w :
  (1 ≤ w)%Z → composition w = documented_composition w.
Proof.
  intros Hw. unfold composition, documented_composition.
  replace (5 + w * 2)%Z with (5 + 2 * w)%Z by lia.
  f_equal. f_equal.
  - destruct (Z.leb_spec 3 w); case_decide; done || lia.
  - rewrite Z.rem_mod_nonneg by lia.
    destruct (Z.eqb_spec (w `mod` 4) 0); case_decide; done || lia.
Qed.

Lemma enqueue_spawnQueue h s :
  spawnQueue (_enqueueWaveComposition h s)
  = spawnQueue s ++ sort_random h (randomDraws s) (composition (wave s)).
Proof. done. Qed.

Lemma tokens_documented w :
  (1 ≤ w)%Z →
  tokens "grunt" (documented_composition w) = (5 + 2 * w)%Z
  ∧ tokens "runner" (documented_composition w)
    = (if decide (3 ≤ w)%Z then w `div` 2 else 0)%Z
  ∧ tokens "brute" (documented_composition w)
    = (if decide (w `mod` 4 = 0)%Z then 1 + w `div` 6 else 0)%Z.
Proof.
  intros Hw. unfold documented_composition.
  assert (0 ≤ w `div` 2)%Z by (apply Z.div_pos; lia).
  assert (0 ≤ w `div` 6)%Z by (apply Z.div_pos; lia).
  rewrite !tokens_app.
  repeat case_decide;
    rewrite ?tokens_replicate_same, ?tokens_replicate_other by done;
    unfold tokens; simpl; lia.
Qed.

(** C3.  For a wave number [w >= 1], what [_enqueueWaveComposition]
    appends to the spawn queue is a permutation of [5 + 2w] grunt tokens,
    followed by [floor(w/2)] runner tokens exactly when [w >= 3] and by
    [1 + floor(w/6)] brute tokens exactly when [w mod 4 = 0]; so the
    number of tokens of each type is given by these formulas.  Wave 1
    queues exactly seven grunts and nothing else, and wave 4 queues
    exactly one brute. *)
Theorem wave_composition (h : Host) (s : EnemyManager.t) :
  HostOk h → (1 ≤ wave s)%Z →
  ∃ c : list string,
    spawnQueue (_enqueueWaveComposition h s) = spawnQueue s ++ c
    ∧ c ≡ₚ documented_composition (wave s)
    ∧ tokens "grunt" c = (5 + 2 * wave s)%Z
    ∧ tokens "runner" c
      = (if decide (3 ≤ wave s)%Z then wave s `div` 2 else 0)%Z
    ∧ tokens "brute" c
      = (if decide (wave s `mod` 4 = 0)%Z then 1 + wave s `div` 6 else 0)%Z
    ∧ (wave s = 1%Z → c = replicate 7 "grunt")
    ∧ (wave s = 4%Z → tokens "brute" c = 1%Z).
Proof.
  intros Hh Hw.
  exists (sort_random h (randomDraws s) (composition (wave s))).
  assert (Hp : sort_random h (randomDraws s) (composition (wave s))
               ≡ₚ documented_composition (wave s)).
  { rewrite (Hh _ _). by rewrite composition_documented. }
  destruct (tokens_documented (wave s) Hw) as (Hg & Hr & Hb).
  split_and!.
  - apply enqueue_spawnQueue.
  - done.
  - by rewrite (tokens_perm _ _ _ Hp).
  - by rewrite (tokens_perm _ _ _ Hp).
  - by rewrite (tokens_perm _ _ _ Hp).
  - intros E. rewrite E in Hp |- *. symmetry.
    apply replicate_Permutation. symmetry. exact Hp.
  - intros E. rewrite (tokens_perm _ _ _ Hp), Hb, E. done.
Qed.

End WaveComposition.

Lemma reversing_host_ok : HostOk reversing_host.
Proof. intros n l. simpl. apply reverse_Permutation. Qed.

Lemma wave_composition_witness :
  ∃ c : list string,
    EnemyManager.spawnQueue
      (EnemyManager._enqueueWaveComposition reversing_host
         EnemyManager.constructor) = [] ++ c
    ∧ c = replicate 7 "grunt".
Proof.
  destruct (wave_composition reversing_host EnemyManager.constructor
              reversing_host_ok) as (c & Hq & _ & _ & _ & _ & H1 & _).
  - simpl. lia.
  - exists c. split; [exact Hq | by apply H1].
Defined.

(** ** The reverse loop *)

Lemma forDown_S {S : Type} (body : nat → S → S) n s :
  forDown (Datatypes.S n) body s = forDown n body (body n s).
Proof. done. Qed.

Lemma forDown_ind {S : Type} (P : S → Prop) (body : nat → S → S) n s :
  P s → (∀ i s, (i < n)%nat → P s → P (body i s)) → P (forDown n body s).
Proof.
  revert s. induction n as [|n IH]; intros s Hs Hstep; [done|].
  simpl. apply IH; [apply Hstep; [lia | done]|].
  intros i s' Hi. apply Hstep. lia.
Qed.

(** ** The wave scheduler: what each operation leaves alone *)

Section Scheduler.

Import EnemyManager.

Context (h : Host).

Lemma countActive_filter s :
  _countActiveEnemies s
  = length (filter (λ entry, Enemy.isAlive (enemy entry) = true)
                   (enemyEntries s)).
Proof.
  unfold _countActiveEnemies.
  assert (G : ∀ l n,
    foldl (λ count entry,
             (count + (if Enemy.isAlive (enemy entry) then 1 else 0))%nat)
          n l
    = (n + length (filter (λ entry, Enemy.isAlive (enemy entry) = true) l))%nat).
  { induction l as [|a l IH]; intros n; simpl; [lia|].
    rewrite IH. destruct (Enemy.isAlive (enemy a)) eqn:E.
    - rewrite filter_cons_True by done. simpl. lia.
    - rewrite filter_cons_False by (rewrite E; done). lia. }
  by rewrite G.
Qed.

Lemma updateEntry_scheduling delta pp i st :
  scheduling (updateEntry h delta pp i st).1 = scheduling st.1.
Proof.
  destruct st as [s calls]. unfold updateEntry.
  destruct (enemyEntries s !! i) as [entry|]; [|done].
  destruct (Enemy.isAlive (enemy entry)).
  - by destruct (Enemy.update h delta pp (enemy entry)).
  - by case_cmp.
Qed.

Lemma updateLoop_scheduling delta pp n st :
  scheduling (forDown n (updateEntry h delta pp) st).1 = scheduling st.1.
Proof.
  apply (forDown_ind (λ st', scheduling st'.1 = scheduling st.1)); [done|].
  intros i st' _ <-. apply updateEntry_scheduling.
Qed.

Lemma getSpawnPosition_frame pp s :
  let s' := (_getSpawnPositionRelativeTo h pp s).2 in
  enemyEntries s' = enemyEntries s ∧ spawnTimer s' = spawnTimer s
  ∧ wave s' = wave s ∧ spawnInterval s' = spawnInterval s
  ∧ maxActive s' = maxActive s ∧ spawnQueue s' = spawnQueue s
  ∧ waveInProgress s' = waveInProgress s
  ∧ pendingSpawns s' = pendingSpawns s.
Proof. by destruct pp. Qed.

Lemma spawnEnemy_frame type pos s :
  let s' := spawnEnemy h type pos s in
  enemyEntries s' = enemyEntries s ∧ spawnTimer s' = spawnTimer s
  ∧ wave s' = wave s ∧ spawnInterval s' = spawnInterval s
  ∧ maxActive s' = maxActive s ∧ spawnQueue s' = spawnQueue s
  ∧ waveInProgress s' = waveInProgress s.
Proof.
  unfold spawnEnemy. destruct (enemyDefinitions !! type); [|done].
  by destruct pos.
Qed.

Lemma spawnEnemy_pending type pos s def :
  enemyDefinitions !! type = Some def →
  pendingSpawns (spawnEnemy h type (Some pos) s)
  = pendingSpawns s ++ [Enemy.constructor (withSpawnPosition def pos)].
Proof. intros E. unfold spawnEnemy. by rewrite E. Qed.

(** The spawn gate of [_handleSpawning] is closed: nothing happens. *)
Lemma handleSpawning_closed pp s :
  waveInProgress s = false ∨ spawnQueue s = []
  ∨ spawnTimer s < spawnInterval s
  ∨ (maxActive s ≤ Z.of_nat (_countActiveEnemies s))%Z →
  _handleSpawning h pp s = s.
Proof.
  intros Hc. unfold _handleSpawning.
  destruct (waveInProgress s) eqn:Hw; simpl; [|done].
  destruct (spawnQueue s) as [|t rest] eqn:Hq; simpl; [done|].
  case_cmp; [done|].
  destruct (Z.leb_spec (maxActive s) (Z.of_nat (_countActiveEnemies s)));
    [done|].
  destruct Hc as [?|[?|[?|?]]]; done || lra || lia.
Qed.

(** The spawn gate is open: the head of the queue goes to [spawnEnemy],
    and the difficulty escalates when it was the last entry. *)
Lemma handleSpawning_open pp s t rest :
  waveInProgress s = true → spawnQueue s = t :: rest →
  spawnInterval s <= spawnTimer s →
  (Z.of_nat (_countActiveEnemies s) < maxActive s)%Z →
  let s1 := set_spawnQueue rest (set_spawnTimer 0 s) in
  let ps := _getSpawnPositionRelativeTo h pp s1 in
  let s3 := spawnEnemy h t (Some ps.1) ps.2 in
  _handleSpawning h pp s = match rest with [] => escalate s3 | _ => s3 end.
Proof.
  intros Hw Hq Ht Hn. unfold _handleSpawning.
  rewrite Hw, Hq. simpl.
  case_cmp; [lra|].
  destruct (Z.leb_spec (maxActive s) (Z.of_nat (_countActiveEnemies s)));
    [lia|].
  destruct (_getSpawnPositionRelativeTo h pp _) as [pos s2] eqn:E. simpl.
  pose proof (getSpawnPosition_frame pp
                (set_spawnQueue rest (set_spawnTimer 0 s))) as F.
  rewrite E in F. simpl in F. destruct F as (_ & _ & _ & _ & _ & Fq & _).
  pose proof (spawnEnemy_frame t (Some pos) s2) as G. simpl in G.
  destruct G as (_ & _ & _ & _ & _ & Gq & _).
  rewrite Gq, Fq. by destruct rest.
Qed.

Lemma handleSpawning_cases pp s :
  _handleSpawning h pp s = s
  ∨ ∃ t rest, waveInProgress s = true ∧ spawnQueue s = t :: rest
      ∧ spawnInterval s <= spawnTimer s
      ∧ (Z.of_nat (_countActiveEnemies s) < maxActive s)%Z.
Proof.
  destruct (waveInProgress s) eqn:Hw;
    [|left; apply handleSpawning_closed; auto].
  destruct (spawnQueue s) as [|t rest] eqn:Hq;
    [left; apply handleSpawning_closed; auto|].
  destruct (Qlt_le_dec (spawnTimer s) (spawnInterval s));
    [left; apply handleSpawning_closed; auto|].
  destruct (Z_le_gt_dec (maxActive s) (Z.of_nat (_countActiveEnemies s)));
    [left; apply handleSpawning_closed; auto 6|].
  right. exists t, rest. split_and!; done || lia.
Qed.

End Scheduler.

(** ** Difficulty escalation *)

Section Escalation.

Import EnemyManager.

Context (h : Host).

Lemma escalate_pacing s :
  paced s →
  paced (escalate s)
  ∧ spawnInterval (escalate s) <= spawnInterval s
  ∧ (maxActive s ≤ maxActive (escalate s))%Z.
Proof.
  intros [Hi Hm]. unfold paced. simpl.
  destruct (Q.max_spec (9 # 10) (spawnInterval s * (92 # 100)))
    as [[? ->]|[? ->]]; split_and!; lra || lia.
Qed.

Lemma maybeSchedule_frame s :
  let s' := _maybeScheduleNewWave h s in
  enemyEntries s' = enemyEntries s ∧ wave s' = wave s
  ∧ spawnInterval s' = spawnInterval s ∧ maxActive s' = maxActive s
  ∧ pendingSpawns s' = pendingSpawns s.
Proof.
  unfold _maybeScheduleNewWave. destruct (waveInProgress s); [done|].
  by destruct (_ && _).
Qed.

Lemma handleSpawning_pacing pp s :
  let s' := _handleSpawning h pp s in
  (spawnInterval s' = spawnInterval s ∧ maxActive s' = maxActive s)
  ∨ (spawnInterval s' = spawnInterval (escalate s)
     ∧ maxActive s' = maxActive (escalate s)).
Proof.
  destruct (handleSpawning_cases h pp s)
    as [->|(t & rest & Hw & Hq & Ht & Hn)]; [by left|].
  rewrite (handleSpawning_open h pp s t rest) by done.
  set (s1 := set_spawnQueue rest (set_spawnTimer 0 s)).
  destruct (getSpawnPosition_frame h pp s1) as (_ & _ & _ & Fi & Fm & _).
  destruct (spawnEnemy_frame h t
              (Some (_getSpawnPositionRelativeTo h pp s1).1)
              (_getSpawnPositionRelativeTo h pp s1).2)
    as (_ & _ & _ & Gi & Gm & _).
  destruct rest; [right | left]; simpl; by rewrite Gi, Gm, Fi, Fm.
Qed.

Lemma update_pacing delta pp s :
  let s' := (update h delta pp s).1 in
  (spawnInterval s' = spawnInterval s ∧ maxActive s' = maxActive s)
  ∨ (spawnInterval s' = spawnInterval (escalate s)
     ∧ maxActive s' = maxActive (escalate s)).
Proof.
  unfold update.
  set (s0 := advanceClocks delta s).
  set (s1 := _maybeScheduleNewWave h s0).
  set (s2 := _handleSpawning h pp s1). cbv zeta.
  pose proof (updateLoop_scheduling h delta pp
                (length (enemyEntries s2)) (s2, [])) as L.
  injection L as _ _ Li Lm _ _ _ _. rewrite Li, Lm.
  destruct (maybeSchedule_frame s0) as (_ & _ & Mi & Mm & _).
  fold s1 in Mi, Mm.
  destruct (handleSpawning_pacing pp s1) as [[Ei Em]|[Ei Em]];
    fold s2 in Ei, Em; rewrite Ei, Em; [left | right]; simpl;
    by rewrite Mi, Mm.
Qed.

Lemma impact_scheduling point damage s :
  scheduling (handleProjectileImpact point damage s).1 = scheduling s.
Proof.
  unfold handleProjectileImpact.
  destruct (forEachFrom _ _ _ _) as [[i|] ?]; [|done].
  destruct (enemyEntries s !! i) as [entry|]; [|done].
  by destruct (Enemy.takeDamage damage (enemy entry)).
Qed.

Lemma call_pacing c s :
  paced s →
  paced (call h c s)
  ∧ spawnInterval (call h c s) <= spawnInterval s
  ∧ (maxActive s ≤ maxActive (call h c s))%Z.
Proof.
  intros Hp.
  assert (Same : ∀ s', spawnInterval s' = spawnInterval s →
                       maxActive s' = maxActive s →
            paced s' ∧ spawnInterval s' <= spawnInterval s
            ∧ (maxActive s ≤ maxActive s')%Z).
  { intros s' Ei Em. unfold paced. rewrite Ei, Em.
    destruct Hp. split_and!; done || lra || lia. }
  destruct c as [delta pp|point damage|type pos|k loaded|]; simpl.
  - destruct (update_pacing delta pp s) as [[Ei Em]|[Ei Em]].
    + by apply Same.
    + destruct (escalate_pacing s Hp) as ([? ?] & ? & ?).
      unfold paced. rewrite Ei, Em. done.
  - pose proof (impact_scheduling point damage s) as E.
    injection E as _ _ Ei Em _ _ _ _. by apply Same.
  - destruct (spawnEnemy_frame h type pos s) as (_ & _ & _ & Ei & Em & _).
    by apply Same.
  - apply Same; unfold settleSpawn; by destruct (pendingSpawns s !! k).
  - by apply (Same (reset s)).
Qed.

Lemma run_snoc calls c : run h (calls ++ [c]) = call h c (run h calls).
Proof. unfold run. by rewrite foldl_app. Qed.

Lemma run_paced calls : paced (run h calls).
Proof.
  induction calls as [|c calls IH] using rev_ind.
  - unfold paced, run. simpl. split; [|done].
    unfold DEFAULT_SPAWN_INTERVAL. lra.
  - rewrite run_snoc. by apply call_pacing.
Qed.

Lemma run_monotone calls more :
  spawnInterval (run h (calls ++ more)) <= spawnInterval (run h calls)
  ∧ (maxActive (run h calls) ≤ maxActive (run h (calls ++ more)))%Z.
Proof.
  induction more as [|c more IH] using rev_ind.
  - rewrite app_nil_r. split; [lra | lia].
  - rewrite app_assoc, run_snoc.
    destruct (call_pacing c (run h (calls ++ more)) (run_paced _))
      as (_ & Hi & Hm).
    destruct IH. split; [lra | lia].
Qed.

(** C6.  When the spawn gate is open and the queue holds its last entry,
    [_handleSpawning] hands that entry to [spawnEnemy], adds 1 to the
    wave number, replaces the spawn interval by
    [max(0.9, 0.92 * interval)] and the cap on active enemies by
    [min(24, cap + 1)].  Hence, in every session that starts from a new
    manager, the spawn interval never grows and never drops below 0.9 s,
    and the cap never shrinks and never exceeds 24. *)
Theorem difficulty_escalation :
  (∀ pp s t def,
     waveInProgress s = true → spawnQueue s = [t] →
     enemyDefinitions !! t = Some def →
     spawnInterval s <= spawnTimer s →
     (Z.of_nat (_countActiveEnemies s) < maxActive s)%Z →
     let s' := _handleSpawning h pp s in
     length (pendingSpawns s') = S (length (pendingSpawns s))
     ∧ spawnQueue s' = []
     ∧ wave s' = (wave s + 1)%Z
     ∧ spawnInterval s' = Qmax (9 # 10) (spawnInterval s * (92 # 100))
     ∧ maxActive s' = Z.min 24 (maxActive s + 1))
  ∧ (∀ calls more,
       9 # 10 <= spawnInterval (run h calls)
       ∧ (maxActive (run h calls) ≤ 24)%Z
       ∧ spawnInterval (run h (calls ++ more)) <= spawnInterval (run h calls)
       ∧ (maxActive (run h calls) ≤ maxActive (run h (calls ++ more)))%Z).
Proof.
  split.
  - intros pp s t def Hw Hq Hd Ht Hn.
    cbv zeta. rewrite (handleSpawning_open h pp s t []) by done.
    set (s1 := set_spawnQueue [] (set_spawnTimer 0 s)).
    destruct (getSpawnPosition_frame h pp s1)
      as (_ & _ & Fw & Fi & Fm & Fq & _ & Fp).
    set (ps := _getSpawnPositionRelativeTo h pp s1) in *.
    destruct (spawnEnemy_frame h t (Some ps.1) ps.2)
      as (_ & _ & Gw & Gi & Gm & Gq & _).
    simpl. rewrite (spawnEnemy_pending h t ps.1 ps.2 def Hd).
    rewrite length_app, Fp, Gq, Fq, Gw, Fw, Gi, Fi, Gm, Fm. simpl.
    split_and!; done || lia.
  - intros calls more.
    destruct (run_paced calls). destruct (run_monotone calls more).
    done.
Qed.

End Escalation.

(** The last grunt of the first wave, with the timer and the roster
    ready: wave 2 starts with a 2.944 s interval and a cap of 9. *)
Lemma difficulty_escalation_witness :
  let s := EnemyManager.set_spawnTimer (32 # 10)
             (EnemyManager.set_spawnQueue ["grunt"]
                (EnemyManager.set_waveInProgress true
                   EnemyManager.constructor)) in
  let s' := EnemyManager._handleSpawning reversing_host None s in
  EnemyManager.wave s' = (1 + 1)%Z
  ∧ EnemyManager.spawnInterval s'
    = Qmax (9 # 10) ((32 # 10) * (92 # 100))
  ∧ EnemyManager.maxActive s' = Z.min 24 (8 + 1).
Proof.
  intros s s'.
  refine (proj2 (proj2
    (proj1 (difficulty_escalation reversing_host) None s "grunt"
       (EnemyManager.definition "grunt" 60 (55 # 10) 10 60 (19 # 10)
          (14 # 10) (105 # 100)) eq_refl eq_refl eq_refl _ _))).
  - vm_compute. discriminate.
  - vm_compute. reflexivity.
Defined.

(** ** The roster during one frame *)

Section Roster.

Import EnemyManager.

Context (h : Host).

Lemma updateEntry_at delta pp s calls l entry suffix :
  enemyEntries s = l ++ entry :: suffix →
  enemyEntries (updateEntry h delta pp (length l) (s, calls)).1
  = l ++ from_option (λ x, [x]) [] (entryAfter h delta pp entry) ++ suffix.
Proof.
  intros E. unfold updateEntry, entryAfter.
  rewrite E, list_lookup_middle by done.
  destruct (Enemy.isAlive (enemy entry)).
  - destruct (Enemy.update h delta pp (enemy entry)) as [e' att]. simpl.
    replace (length l) with (length l + 0)%nat at 1 by lia.
    by rewrite insert_app_r.
  - case_cmp; simpl.
    + by rewrite delete_middle.
    + replace (length l) with (length l + 0)%nat at 1 by lia.
      by rewrite insert_app_r.
Qed.

Lemma updateLoop_entries delta pp l : ∀ suffix s calls,
  enemyEntries s = l ++ suffix →
  enemyEntries (forDown (length l) (updateEntry h delta pp) (s, calls)).1
  = omap (entryAfter h delta pp) l ++ suffix.
Proof.
  induction l as [|entry l IH] using rev_ind; intros suffix s calls E.
  - done.
  - rewrite length_app, Nat.add_comm.
    change (1 + length l)%nat with (S (length l)). rewrite forDown_S.
    rewrite <- app_assoc in E. simpl in E.
    pose proof (updateEntry_at delta pp s calls l entry suffix E) as Hstep.
    destruct (updateEntry h delta pp (length l) (s, calls)) as [s' calls'].
    simpl in Hstep. rewrite (IH _ _ _ Hstep).
    rewrite omap_app, <- app_assoc. simpl.
    by destruct (entryAfter h delta pp entry).
Qed.

Lemma handleSpawning_entries pp s :
  enemyEntries (_handleSpawning h pp s) = enemyEntries s.
Proof.
  destruct (handleSpawning_cases h pp s)
    as [->|(t & rest & Hw & Hq & Ht & Hn)]; [done|].
  rewrite (handleSpawning_open h pp s t rest) by done.
  set (s1 := set_spawnQueue rest (set_spawnTimer 0 s)).
  destruct (getSpawnPosition_frame h pp s1) as (Fe & _).
  destruct (spawnEnemy_frame h t
              (Some (_getSpawnPositionRelativeTo h pp s1).1)
              (_getSpawnPositionRelativeTo h pp s1).2) as (Ge & _).
  destruct rest; simpl; by rewrite Ge, Fe.
Qed.

(** The roster after a frame: every entry of the roster before it,
    advanced by [entryAfter], in the same order. *)
Lemma update_entries delta pp s :
  enemyEntries (update h delta pp s).1
  = omap (entryAfter h delta pp) (enemyEntries s).
Proof.
  unfold update.
  set (s0 := advanceClocks delta s).
  set (s1 := _maybeScheduleNewWave h s0).
  set (s2 := _handleSpawning h pp s1). cbv zeta.
  assert (E : enemyEntries s2 = enemyEntries s).
  { unfold s2. rewrite handleSpawning_entries.
    by destruct (maybeSchedule_frame h s0) as (M & _). }
  rewrite E.
  rewrite (updateLoop_entries delta pp (enemyEntries s) [] s2 []).
  - by rewrite app_nil_r.
  - by rewrite app_nil_r.
Qed.

Lemma update_scheduling delta pp s :
  scheduling (update h delta pp s).1
  = scheduling (_handleSpawning h pp
                  (_maybeScheduleNewWave h (advanceClocks delta s))).
Proof. unfold update. cbv zeta. apply updateLoop_scheduling. Qed.

Lemma length_omap_le {A B} (f : A → option B) l :
  (length (omap f l) ≤ length l)%nat.
Proof.
  induction l as [|a l IH]; csimpl; [done|].
  destruct (f a); csimpl; lia.
Qed.

Lemma maybeSchedule_idle s :
  waveInProgress s = true ∨ enemyEntries s ≠ [] ∨ spawnQueue s ≠ [] →
  _maybeScheduleNewWave h s = s.
Proof.
  intros Hc. unfold _maybeScheduleNewWave.
  destruct (waveInProgress s); [done|].
  destruct (enemyEntries s), (spawnQueue s); simpl; try done.
  destruct Hc as [?|[?|?]]; done.
Qed.

End Roster.

(** ** The spawn gate *)

Section SpawnGate.

Import EnemyManager.

Context (h : Host).

Lemma handleSpawning_dequeue pp s :
  spawnQueue (_handleSpawning h pp s) ≠ spawnQueue s →
  spawnInterval s <= spawnTimer s
  ∧ (Z.of_nat (_countActiveEnemies s) < maxActive s)%Z
  ∧ ∃ t, spawnQueue s = t :: spawnQueue (_handleSpawning h pp s).
Proof.
  intros Hne.
  destruct (handleSpawning_cases h pp s)
    as [E|(t & rest & Hw & Hq & Ht & Hn)]; [by rewrite E in Hne|].
  split_and!; [done..|]. exists t. rewrite Hq. f_equal.
  rewrite (handleSpawning_open h pp s t rest) by done.
  set (s1 := set_spawnQueue rest (set_spawnTimer 0 s)).
  destruct (getSpawnPosition_frame h pp s1) as (_ & _ & _ & _ & _ & Fq & _).
  destruct (spawnEnemy_frame h t
              (Some (_getSpawnPositionRelativeTo h pp s1).1)
              (_getSpawnPositionRelativeTo h pp s1).2)
    as (_ & _ & _ & _ & _ & Gq & _).
  destruct rest; simpl; by rewrite Gq, Fq.
Qed.

Lemma handleSpawning_spawns pp s :
  pendingSpawns (_handleSpawning h pp s) ≠ pendingSpawns s →
  spawnInterval s <= spawnTimer s
  ∧ (Z.of_nat (_countActiveEnemies s) < maxActive s)%Z
  ∧ spawnQueue s ≠ [].
Proof.
  intros Hne.
  destruct (handleSpawning_cases h pp s)
    as [E|(t & rest & Hw & Hq & Ht & Hn)]; [by rewrite E in Hne|].
  by rewrite Hq.
Qed.

(** C7.  In a frame that starts with a non-empty spawn queue and a
    closed gate (the spawn timer, once advanced by the frame's delta, is
    still below the spawn interval, or the number of alive enemies has
    reached the cap), [update] spawns nothing and leaves the queue as it
    was: no enemy is handed to [spawnEnemy], the roster gains no entry, no
    random position is drawn.  And whenever [_handleSpawning] takes an
    entry off the queue or hands an enemy to [spawnEnemy], the interval has
    elapsed and the number of alive enemies is strictly below the cap. *)
Theorem closed_gate_defers :
  (∀ delta pp s,
     spawnQueue s ≠ [] →
     spawnTimer s + delta < spawnInterval s
     ∨ (maxActive s ≤ Z.of_nat (_countActiveEnemies s))%Z →
     let s' := (update h delta pp s).1 in
     spawnQueue s' = spawnQueue s
     ∧ pendingSpawns s' = pendingSpawns s
     ∧ (length (enemyEntries s') ≤ length (enemyEntries s))%nat
     ∧ randomDraws s' = randomDraws s
     ∧ wave s' = wave s)
  ∧ (∀ pp s,
       spawnQueue (_handleSpawning h pp s) ≠ spawnQueue s
       ∨ pendingSpawns (_handleSpawning h pp s) ≠ pendingSpawns s →
       spawnInterval s <= spawnTimer s
       ∧ (Z.of_nat (_countActiveEnemies s) < maxActive s)%Z
       ∧ ∃ t rest, spawnQueue s = t :: rest).
Proof.
  split.
  - intros delta pp s Hq Hgate. cbv zeta.
    pose proof (update_scheduling h delta pp s) as E.
    rewrite (maybeSchedule_idle h (advanceClocks delta s)) in E by auto.
    rewrite (handleSpawning_closed h pp (advanceClocks delta s)) in E.
    + injection E as _ Ew _ _ Eq _ Ep Er.
      rewrite update_entries. split_and!; try done.
      apply length_omap_le.
    + right. right. exact Hgate.
  - intros pp s [Hne|Hne].
    + destruct (handleSpawning_dequeue pp s Hne) as (? & ? & t & ?).
      split_and!; eauto.
    + destruct (handleSpawning_spawns pp s Hne) as (? & ? & Hq).
      split_and!; [done..|]. destruct (spawnQueue s); [done|eauto].
Qed.

End SpawnGate.

(** Two grunts are queued and the timer was restarted 1 s ago: a frame
    of 16 ms spawns nothing. *)
Lemma closed_gate_defers_witness :
  let s := EnemyManager.set_spawnTimer 1
             (EnemyManager.set_spawnQueue ["grunt"; "grunt"]
                (EnemyManager.set_waveInProgress true
                   EnemyManager.constructor)) in
  let s' := (EnemyManager.update reversing_host (16 # 1000) None s).1 in
  EnemyManager.spawnQueue s' = ["grunt"; "grunt"]
  ∧ EnemyManager.pendingSpawns s' = [].
Proof.
  intros s s'.
  destruct (proj1 (closed_gate_defers reversing_host) (16 # 1000) None s)
    as (Hq & Hp & _).
  - done.
  - left. vm_compute. reflexivity.
  - split; [exact Hq | exact Hp].
Defined.

(** ** The impact query *)

Section ImpactQuery.

Import EnemyManager.

Lemma forEachFrom_inv {A S : Type} (P : nat → S → Prop)
    (f : S → nat → A → S) (es : list A) :
  (∀ n a acc, es !! n = Some a → P n acc → P (Datatypes.S n) (f acc n a)) →
  ∀ l pre acc, es = pre ++ l → P (length pre) acc →
  P (length es) (forEachFrom f (length pre) l acc).
Proof.
  intros Hstep. induction l as [|a l IH]; intros pre acc E HP.
  - simpl. by rewrite E, app_nil_r.
  - simpl.
    replace (Datatypes.S (length pre)) with (length (pre ++ [a]))
      by (rewrite length_app; simpl; lia).
    apply IH.
    + by rewrite <- app_assoc.
    + rewrite length_app, Nat.add_comm. simpl. apply Hstep; [|done].
      rewrite E. by apply list_lookup_middle.
Qed.

Lemma impactVisit_scanned point es n a acc :
  es !! n = Some a → scanned point es n acc →
  scanned point es (S n) (impactVisit point acc n a).
Proof.
  intros Ha Hs. unfold impactVisit.
  fold (distanceSq point a).
  assert (Hskip : ¬ hittable point a → scanned point es (S n) acc).
  { intros Hno. destruct acc as [[i|] [d|]]; try done.
    - destruct Hs as (Hi & entry & He & Hh & Hd & Hmin).
      split; [lia|]. exists entry. split_and!; try done.
      intros j other Hj Ho Hc.
      destruct (decide (j = n)) as [->|]; [|apply Hmin; [lia|done..]].
      rewrite Ha in Ho. by simplify_eq.
    - intros j other Hj Ho.
      destruct (decide (j = n)) as [->|]; [|apply (Hs j other); [lia|done]].
      rewrite Ha in Ho. by simplify_eq. }
  destruct (Enemy.isAlive (enemy a)) eqn:Halive; simpl;
    [|apply Hskip; intros [? _]; congruence].
  case_cmp; [|apply Hskip; intros [_ ?]; lra].
  assert (Hc : hittable point a) by done.
  destruct acc as [[i|] [d|]]; try done; simpl.
  - destruct Hs as (Hi & entry & He & Hh & Hd & Hmin).
    case_cmp.
    + split; [lia|]. exists a. split_and!; try done.
      intros j other Hj Ho Hco.
      destruct (decide (j = n)) as [->|].
      * rewrite Ha in Ho. simplify_eq. split; [lra | lia].
      * destruct (Hmin j other) as [Hle _]; [lia|done..|].
        split; [lra|]. intros _. lra.
    + split; [lia|]. exists entry. split_and!; try done.
      intros j other Hj Ho Hco.
      destruct (decide (j = n)) as [->|]; [|apply Hmin; [lia|done..]].
      rewrite Ha in Ho. simplify_eq. split; [lra | lia].
  - split; [lia|]. exists a. split_and!; try done.
    intros j other Hj Ho Hco.
    destruct (decide (j = n)) as [->|].
    + rewrite Ha in Ho. simplify_eq. split; [lra | lia].
    + destruct (Hs j other); [lia|done..].
Qed.

Lemma scan_scanned point es :
  scanned point es (length es)
    (forEachFrom (impactVisit point) 0%nat es (None, None)).
Proof.
  apply (forEachFrom_inv (scanned point es) (impactVisit point) es
           (impactVisit_scanned point es) es [] (None, None)); [done|].
  simpl. intros j other Hj. lia.
Qed.

Lemma impact_miss point damage s :
  (∀ entry, entry ∈ enemyEntries s → ¬ hittable point entry) →
  handleProjectileImpact point damage s = (s, None).
Proof.
  intros Hno. unfold handleProjectileImpact.
  pose proof (scan_scanned point (enemyEntries s)) as Hs.
  destruct (forEachFrom _ _ _ _) as [[i|] [d|]]; try done.
  destruct Hs as (_ & entry & He & Hh & _).
  destruct (Hno entry); [|done]. eapply list_elem_of_lookup_2. done.
Qed.

Lemma impact_hit point damage s entry0 :
  entry0 ∈ enemyEntries s → hittable point entry0 →
  ∃ i entry,
    nearestHit point (enemyEntries s) i entry
    ∧ handleProjectileImpact point damage s
      = (set_enemyEntries
           (<[i := {| enemy := (Enemy.takeDamage damage (enemy entry)).1;
                      deathTimer := deathTimer entry |}]> (enemyEntries s))
           s,
         Some {| Impact.enemy := i;
                 Impact.wasFatal := (Enemy.takeDamage damage (enemy entry)).2;
                 Impact.reward :=
                   if (Enemy.takeDamage damage (enemy entry)).2
                   then Enemy.reward (Enemy.config (enemy entry)) else 0;
                 Impact.damage := damage |}).
Proof.
  intros Hin Hh0. unfold handleProjectileImpact.
  pose proof (scan_scanned point (enemyEntries s)) as Hs.
  apply list_elem_of_lookup_1 in Hin as [j0 Hj0].
  destruct (forEachFrom _ _ _ _) as [[i|] [d|]]; try done.
  - destruct Hs as (Hi & entry & He & Hh & -> & Hmin).
    exists i, entry. split.
    + split_and!; [done..|]. intros j other Ho Hc.
      apply Hmin; [|done..]. by eapply lookup_lt_Some.
    + rewrite He.
      destruct (takeDamage_frame damage (enemy entry)) as (Hcfg & _).
      destruct (Enemy.takeDamage damage (enemy entry)) as [e' fatal].
      simpl in *. by rewrite Hcfg.
  - destruct (Hs j0 entry0); [by eapply lookup_lt_Some|done..].
Qed.

Lemma impact_roster_length point damage s :
  length (enemyEntries (handleProjectileImpact point damage s).1)
  = length (enemyEntries s).
Proof.
  unfold handleProjectileImpact.
  destruct (forEachFrom _ _ _ _) as [[i|] ?]; [|done].
  destruct (enemyEntries s !! i) as [entry|]; [|done].
  destruct (Enemy.takeDamage damage (enemy entry)). simpl.
  apply length_insert.
Qed.

Lemma takeDamage_fatal_dead amount e :
  (Enemy.takeDamage amount e).2 = true →
  Enemy.isAlive (Enemy.takeDamage amount e).1 = false.
Proof.
  unfold Enemy.takeDamage. destruct (Enemy.isAlive e); simpl; [|done].
  by case_cmp.
Qed.

Lemma impact_fatal_stays point damage s s' im :
  handleProjectileImpact point damage s = (s', Some im) →
  Impact.wasFatal im = true →
  length (enemyEntries s') = length (enemyEntries s)
  ∧ ∃ entry, enemyEntries s' !! Impact.enemy im = Some entry
      ∧ Enemy.isAlive (enemy entry) = false.
Proof.
  intros E Hfatal.
  pose proof (impact_roster_length point damage s) as Hlen.
  rewrite E in Hlen. simpl in Hlen. split; [done|].
  revert E. unfold handleProjectileImpact.
  destruct (forEachFrom _ _ _ _) as [[i|] ?]; [|done].
  destruct (enemyEntries s !! i) as [entry|] eqn:Hi; [|done].
  pose proof (takeDamage_fatal_dead damage (enemy entry)) as Hdead.
  destruct (Enemy.takeDamage damage (enemy entry)) as [e' fatal].
  intros [= <- <-]. simpl in *. eexists. split.
  - apply list_lookup_insert_eq. by eapply lookup_lt_Some.
  - simpl. auto.
Qed.

(** C1.  [handleProjectileImpact] returns [null] and changes nothing when
    no alive enemy's hit-sphere contains the point.  Otherwise it picks an
    alive enemy whose hit-sphere contains the point, at the least squared
    distance and the first of the roster among those at that distance; it
    replaces that enemy, and no other entry, by the result of [takeDamage]
    with the given damage; and it returns an impact that names this
    enemy, tells whether the hit was fatal, carries the damage, and
    whose reward is the enemy's configured reward after a fatal hit and 0
    otherwise. *)
Theorem impact_query (point : Vector3.t) (damage : Q) (s : EnemyManager.t) :
  ((∀ entry, entry ∈ enemyEntries s → ¬ hittable point entry) →
   handleProjectileImpact point damage s = (s, None))
  ∧ ((∃ entry, entry ∈ enemyEntries s ∧ hittable point entry) →
     ∃ i entry,
       nearestHit point (enemyEntries s) i entry
       ∧ let hit := Enemy.takeDamage damage (enemy entry) in
         handleProjectileImpact point damage s
         = (set_enemyEntries
              (<[i := {| enemy := hit.1; deathTimer := deathTimer entry |}]>
                 (enemyEntries s)) s,
            Some {| Impact.enemy := i;
                    Impact.wasFatal := hit.2;
                    Impact.reward :=
                      if hit.2
                      then Enemy.reward (Enemy.config (enemy entry)) else 0;
                    Impact.damage := damage |})).
Proof.
  split.
  - apply impact_miss.
  - intros (entry0 & Hin & Hh). by apply (impact_hit point damage s entry0).
Qed.

End ImpactQuery.

(** Two grunts one unit apart and a point 0.8 away from the first: both
    hit-spheres contain it, and the second grunt is the nearer. *)
Lemma impact_query_witness :
  ∃ i entry,
    nearestHit (Vector3.mk (8 # 10) 0 0)
      (EnemyManager.enemyEntries two_grunts) i entry
    ∧ let hit := Enemy.takeDamage 22 (EnemyManager.enemy entry) in
      EnemyManager.handleProjectileImpact (Vector3.mk (8 # 10) 0 0) 22
        two_grunts
      = (EnemyManager.set_enemyEntries
           (<[i := {| EnemyManager.enemy := hit.1;
                      EnemyManager.deathTimer :=
                        EnemyManager.deathTimer entry |}]>
              (EnemyManager.enemyEntries two_grunts)) two_grunts,
         Some {| Impact.enemy := i;
                 Impact.wasFatal := hit.2;
                 Impact.reward :=
                   if hit.2
                   then Enemy.reward
                          (Enemy.config (EnemyManager.enemy entry))
                   else 0;
                 Impact.damage := 22 |}).
Proof.
  apply (proj2 (impact_query (Vector3.mk (8 # 10) 0 0) 22 two_grunts)).
  eexists. split; [left|]. split; [reflexivity|].
  vm_compute. discriminate.
Defined.

(** ** Waves and the cleanup delay *)

Section Cleanup.

Import EnemyManager.

Context (h : Host).

Lemma countActive_alive s :
  _countActiveEnemies s = length (getAliveEnemies s).
Proof.
  unfold getAliveEnemies. rewrite length_fmap. apply countActive_filter.
Qed.

Lemma handleSpawning_suffix pp s :
  spawnQueue (_handleSpawning h pp s) `suffix_of` spawnQueue s.
Proof.
  destruct (decide (spawnQueue (_handleSpawning h pp s) = spawnQueue s))
    as [->|Hne]; [done|].
  destruct (handleSpawning_dequeue h pp s Hne) as (_ & _ & t & ->).
  apply suffix_cons_r. done.
Qed.

(** C9.  [_maybeScheduleNewWave] changes the state only when the roster
    is empty (and the queue is empty and no wave is in progress).  A dead
    enemy whose cleanup delay of 1.8 s has not elapsed is still in the
    roster after the frame; while the roster holds an entry, dead or
    alive, [update] composes no wave: the queue only loses entries.  Yet
    the spawn gate counts alive enemies only: [_countActiveEnemies] is the
    length of [getAliveEnemies], and it is 0 on a roster of dead
    enemies.  Such entries exist: a fatal hit leaves the enemy in the
    roster, at its index, marked dead. *)
Theorem wave_waits_for_cleanup :
  (∀ s, _maybeScheduleNewWave h s ≠ s →
        enemyEntries s = [] ∧ spawnQueue s = []
        ∧ waveInProgress s = false)
  ∧ (∀ delta pp s entry,
       entry ∈ enemyEntries s →
       Enemy.isAlive (enemy entry) = false →
       deathTimer entry + delta < DEATH_CLEANUP_DELAY →
       let s' := (update h delta pp s).1 in
       {| enemy := enemy entry; deathTimer := deathTimer entry + delta |}
         ∈ enemyEntries s'
       ∧ _maybeScheduleNewWave h (advanceClocks delta s)
         = advanceClocks delta s
       ∧ spawnQueue s' `suffix_of` spawnQueue s)
  ∧ (∀ s, _countActiveEnemies s = length (getAliveEnemies s))
  ∧ (∀ s, Forall (λ entry, Enemy.isAlive (enemy entry) = false)
               (enemyEntries s) →
          _countActiveEnemies s = 0%nat)
  ∧ (∀ point damage s s' im,
       handleProjectileImpact point damage s = (s', Some im) →
       Impact.wasFatal im = true →
       length (enemyEntries s') = length (enemyEntries s)
       ∧ ∃ entry, enemyEntries s' !! Impact.enemy im = Some entry
           ∧ Enemy.isAlive (enemy entry) = false).
Proof.
  split_and!; [| | | |apply impact_fatal_stays].
  - intros s Hne.
    destruct (waveInProgress s) eqn:Hw;
      [destruct Hne; apply maybeSchedule_idle; auto|].
    destruct (enemyEntries s) eqn:He;
      [|destruct Hne; apply maybeSchedule_idle; rewrite He; auto].
    destruct (spawnQueue s) eqn:Hq;
      [|destruct Hne; apply maybeSchedule_idle; rewrite Hq; auto].
    done.
  - intros delta pp s entry Hin Hdead Hwait. cbv zeta.
    assert (Hidle : _maybeScheduleNewWave h (advanceClocks delta s)
                    = advanceClocks delta s).
    { apply maybeSchedule_idle. right. left. simpl.
      intros E. rewrite E in Hin. by apply elem_of_nil in Hin. }
    split_and!.
    + rewrite update_entries. apply list_elem_of_omap.
      exists entry. split; [done|].
      unfold entryAfter. rewrite Hdead. case_cmp; [lra | done].
    + done.
    + pose proof (update_scheduling h delta pp s) as E.
      rewrite Hidle in E. injection E as _ _ _ _ Eq _ _ _. rewrite Eq.
      apply (handleSpawning_suffix pp (advanceClocks delta s)).
  - apply countActive_alive.
  - intros s Hall. rewrite countActive_filter.
    induction Hall as [|entry l Hd _ IH]; [done|].
    rewrite filter_cons_False by (by rewrite Hd). done.
Qed.

End Cleanup.

(** A grunt killed just now: one frame of 16 ms later it is still in the
    roster, its timer at 16 ms, and no wave was composed. *)
Lemma wave_waits_for_cleanup_witness :
  let s := one_dead_grunt in
  let s' := (EnemyManager.update reversing_host (16 # 1000) None s).1 in
  EnemyManager.enemyEntries s'
  = [{| EnemyManager.enemy := (Enemy.takeDamage 60 (grunt_at Vector3.zero)).1;
        EnemyManager.deathTimer := 0 + (16 # 1000) |}]
  ∧ EnemyManager.spawnQueue s' = [].
Proof.
  intros s s'.
  destruct (wave_waits_for_cleanup reversing_host) as (_ & H & _).
  destruct (H (16 # 1000) None s
              {| EnemyManager.enemy :=
                   (Enemy.takeDamage 60 (grunt_at Vector3.zero)).1;
                 EnemyManager.deathTimer := 0 |})
    as (Hin & _ & Hq).
  - left.
  - reflexivity.
  - vm_compute. reflexivity.
  - split.
    + fold s' in Hin. revert Hin. vm_compute. intros _. reflexivity.
    + fold s' in Hq. apply suffix_nil_inv in Hq. exact Hq.
Defined.

(** ** Restart *)

Section Restart.

Import EnemyManager.

(** C10.  [reset] empties the roster and the spawn queue, sets the wave
    number to 1, the spawn timer to 0 and [waveInProgress] to [false], and
    keeps [spawnInterval] and [maxActive].  They do not return to their
    defaults of 3.2 s and 8: after the session that spawns the whole first
    wave, a restart leaves an interval of 2.944 s and a cap of 9. *)
Theorem reset_keeps_pacing :
  (∀ s,
     enemyEntries (reset s) = [] ∧ spawnQueue (reset s) = []
     ∧ wave (reset s) = 1%Z ∧ spawnTimer (reset s) = 0
     ∧ waveInProgress (reset s) = false
     ∧ spawnInterval (reset s) = spawnInterval s
     ∧ maxActive (reset s) = maxActive s)
  ∧ (let s := reset (run reversing_host first_wave_session) in
     spawnInterval s == 2944 # 1000 ∧ maxActive s = 9%Z
     ∧ spawnInterval s < DEFAULT_SPAWN_INTERVAL
     ∧ (DEFAULT_MAX_ACTIVE < maxActive s)%Z).
Proof.
  split; [done|]. vm_compute. split_and!; done.
Qed.

End Restart.

(** ** The projectile store *)

Section Store.

Import Projectile ProjectileSystem.

Lemma write_same r p s : store s !! r = Some p → write r p s = s.
Proof.
  intros E. destruct s; unfold write; simpl in *. f_equal.
  by apply insert_id.
Qed.

Lemma deactivate_at i s r :
  projectiles s !! i = Some r →
  _deactivateProjectileAtIndex i s
  = {| store := alter deactivated r (store s);
       projectiles := delete i (projectiles s);
       pool := pool s ++ [r]; nextRef := nextRef s |}.
Proof. intros E. unfold _deactivateProjectileAtIndex. by rewrite E. Qed.

Lemma deactivate_none i s :
  projectiles s !! i = None → _deactivateProjectileAtIndex i s = s.
Proof. intros E. unfold _deactivateProjectileAtIndex. by rewrite E. Qed.

Lemma elem_of_delete_NoDup (l : list nat) i r x :
  NoDup l → l !! i = Some r → x ∈ delete i l ↔ x ∈ l ∧ x ≠ r.
Proof.
  intros Hnd Hi. pose proof (delete_Permutation l i r Hi) as Hp.
  rewrite Hp in Hnd. apply NoDup_cons in Hnd as [Hnot _].
  assert (Hiff : x ∈ l ↔ x ∈ r :: delete i l).
  { split; intros Hx; [by rewrite <- Hp | by rewrite Hp]. }
  rewrite Hiff, elem_of_cons. split.
  - intros Hx. split; [by right|]. by intros ->.
  - intros [[->|Hx] Hne]; done.
Qed.

Lemma wellFormed_active_NoDup s : wellFormed s → NoDup (projectiles s).
Proof. intros (Hnd & _). by apply NoDup_app in Hnd as [? _]. Qed.

Lemma wellFormed_disjoint s r :
  wellFormed s → r ∈ projectiles s → r ∉ pool s.
Proof.
  intros (Hnd & _) Hr. apply NoDup_app in Hnd as (_ & Hdis & _).
  by apply Hdis.
Qed.

(** Whatever was written to an active object just before, deactivating
    it restores the shape. *)
Lemma deactivate_written_wf i s r p' :
  wellFormed s → projectiles s !! i = Some r →
  wellFormed (_deactivateProjectileAtIndex i (write r p' s)).
Proof.
  intros Hwf Hi.
  pose proof (wellFormed_active_NoDup s Hwf) as Hnd'.
  assert (Hr : r ∈ projectiles s) by (by eapply list_elem_of_lookup_2).
  pose proof (wellFormed_disjoint s r Hwf Hr) as Hrp.
  destruct Hwf as (Hnd & Hlt & Hact & Hpool).
  rewrite (deactivate_at i _ r) by done. simpl.
  pose proof (delete_Permutation _ i r Hi) as Hp.
  split_and!; simpl.
  - rewrite app_assoc, (Permutation_app_comm _ [r]). simpl.
    by rewrite Hp in Hnd.
  - intros x Hx. apply Hlt.
    rewrite !elem_of_app in Hx. rewrite elem_of_app.
    destruct Hx as [Hx|[Hx|Hx]].
    + left. by apply (elem_of_delete_NoDup _ i r x Hnd' Hi).
    + by right.
    + apply list_elem_of_singleton in Hx as ->. by left.
  - intros x Hx.
    apply (elem_of_delete_NoDup _ i r x Hnd' Hi) in Hx as [Hx Hne].
    rewrite lookup_alter_ne, lookup_insert_ne by done. eauto.
  - intros x Hx. apply elem_of_app in Hx as [Hx|Hx].
    + assert (x ≠ r) by (by intros ->).
      rewrite lookup_alter_ne, lookup_insert_ne by done. eauto.
    + apply list_elem_of_singleton in Hx as ->.
      exists (deactivated p'). split; [|done].
      by rewrite lookup_alter_eq, lookup_insert_eq.
Qed.

Lemma deactivate_written_ranged i s r p' :
  wellFormed s → ranged s → projectiles s !! i = Some r →
  ranged (_deactivateProjectileAtIndex i (write r p' s)).
Proof.
  intros Hwf Hr Hi. rewrite (deactivate_at i _ r) by done.
  intros x p Hx Hs. simpl in *.
  apply (elem_of_delete_NoDup _ i r x (wellFormed_active_NoDup s Hwf) Hi)
    in Hx as [Hx Hne].
  rewrite lookup_alter_ne, lookup_insert_ne in Hs by done. eauto.
Qed.

Lemma deactivate_wf i s :
  wellFormed s → wellFormed (_deactivateProjectileAtIndex i s).
Proof.
  intros Hwf. destruct (projectiles s !! i) as [r|] eqn:Hi;
    [|by rewrite deactivate_none].
  destruct Hwf as (Hnd & Hlt & Hact & Hpool).
  destruct (Hact r) as (p & Hs & _); [by eapply list_elem_of_lookup_2|].
  rewrite <- (write_same r p s Hs) at 1. by apply deactivate_written_wf.
Qed.

Lemma deactivate_ranged i s :
  wellFormed s → ranged s → ranged (_deactivateProjectileAtIndex i s).
Proof.
  intros Hwf Hr. destruct (projectiles s !! i) as [r|] eqn:Hi;
    [|by rewrite deactivate_none].
  destruct Hwf as (Hnd & Hlt & Hact & Hpool).
  destruct (Hact r) as (p & Hs & _); [by eapply list_elem_of_lookup_2|].
  rewrite <- (write_same r p s Hs) at 1. by apply deactivate_written_ranged.
Qed.

(** An active object is overwritten and stays active. *)
Lemma write_wf r p' s :
  wellFormed s → r ∈ projectiles s → active p' = true →
  wellFormed (write r p' s).
Proof.
  intros Hwf Hr Ha.
  pose proof (wellFormed_disjoint s r Hwf Hr) as Hrp.
  destruct Hwf as (Hnd & Hlt & Hact & Hpool).
  split_and!; simpl; try done.
  - intros x Hx. destruct (decide (x = r)) as [->|Hne].
    + rewrite lookup_insert_eq. eauto.
    + rewrite lookup_insert_ne by done. eauto.
  - intros x Hx. assert (x ≠ r) by (by intros ->).
    rewrite lookup_insert_ne by done. eauto.
Qed.

Lemma write_ranged r p' s :
  ranged s → inRange p' → ranged (write r p' s).
Proof.
  intros Hr Hp x p Hx Hl. simpl in *.
  destruct (decide (x = r)) as [->|Hne].
  - rewrite lookup_insert_eq in Hl. by simplify_eq.
  - rewrite lookup_insert_ne in Hl by done. eauto.
Qed.

Lemma getProjectile_cases s :
  (∃ rest, pool s = rest ++ [(_getProjectile s).1]
     ∧ (_getProjectile s).2
       = {| store := store s; projectiles := projectiles s;
            pool := rest; nextRef := nextRef s |})
  ∨ (pool s = [] ∧ (_getProjectile s).1 = nextRef s
     ∧ (_getProjectile s).2
       = {| store := <[nextRef s := freshProjectile]> (store s);
            projectiles := projectiles s;
            pool := []; nextRef := S (nextRef s) |}).
Proof.
  unfold _getProjectile. destruct (last (pool s)) as [r|] eqn:E.
  - left. apply last_Some in E as [rest E]. exists rest. simpl.
    split; [done|]. by rewrite E, removelast_last.
  - right. apply last_None in E. simpl. by rewrite E.
Qed.

(** The projectile that [spawnProjectile] initialises. *)
Lemma spawn_store h a s :
  let r := (spawnProjectile h a s).1 in
  let s' := (spawnProjectile h a s).2 in
  (∃ front, projectiles s' = front ++ [r])
  ∧ ∃ p, store s' !! r = Some p
      ∧ active p = true ∧ speed p = arg_speed a
      ∧ maxDistance p = default 60 (arg_maxDistance a)
      ∧ distanceTravelled p = 0
      ∧ timeToLive p = DEFAULT_PROJECTILE_LIFETIME.
Proof.
  unfold spawnProjectile. destruct (_getProjectile s) as [r s1]. simpl.
  split; [eauto|]. rewrite lookup_insert_eq. eauto 10.
Qed.

Lemma spawn_wf h a s :
  wellFormed s → wellFormed (spawnProjectile h a s).2.
Proof.
  intros (Hnd & Hlt & Hact & Hpool). unfold spawnProjectile.
  destruct (getProjectile_cases s) as [(rest & Ep & Es)|(Ep & Er & Es)];
    destruct (_getProjectile s) as [r s1]; simpl in *; subst s1; simpl.
  - rewrite Ep in Hnd, Hlt, Hpool.
    assert (Hperm : (projectiles s ++ [r]) ++ rest
                    ≡ₚ projectiles s ++ rest ++ [r]).
    { rewrite <- app_assoc. apply Permutation_app_head, Permutation_app_comm. }
    assert (Hfresh : (r ∉ projectiles s) ∧ (r ∉ rest)).
    { rewrite <- Hperm in Hnd. rewrite <- app_assoc in Hnd.
      apply NoDup_app in Hnd as (_ & Hd1 & Hnd2).
      apply NoDup_app in Hnd2 as (_ & Hd2 & _).
      split.
      - intros Hx. apply (Hd1 r Hx). set_solver.
      - intros Hx. apply (Hd2 r); set_solver. }
    destruct Hfresh as [Hf1 Hf2].
    split_and!; simpl.
    + by rewrite Hperm.
    + intros x Hx. apply Hlt. by rewrite <- Hperm.
    + intros x Hx. apply elem_of_app in Hx as [Hx|Hx].
      * rewrite lookup_insert_ne by (by intros ->). eauto.
      * apply list_elem_of_singleton in Hx as ->.
        rewrite lookup_insert_eq. eauto.
    + intros x Hx. rewrite lookup_insert_ne by (by intros ->).
      apply Hpool. set_solver.
  - subst r. rewrite Ep in Hnd, Hlt, Hpool. rewrite app_nil_r in *.
    assert (Hfresh : nextRef s ∉ projectiles s).
    { intros Hx. apply Hlt in Hx. lia. }
    split_and!; simpl.
    + rewrite app_nil_r. apply NoDup_app.
      split_and!; [done| |apply NoDup_singleton].
      intros x Hx Hx'. apply list_elem_of_singleton in Hx' as ->. done.
    + rewrite app_nil_r. intros x Hx. apply elem_of_app in Hx as [Hx|Hx].
      * apply Hlt in Hx. lia.
      * apply list_elem_of_singleton in Hx as ->. lia.
    + intros x Hx. apply elem_of_app in Hx as [Hx|Hx].
      * assert (nextRef s ≠ x) by (intros E; by rewrite <- E in Hx).
        rewrite !lookup_insert_ne by done. eauto.
      * apply list_elem_of_singleton in Hx as ->.
        rewrite lookup_insert_eq. eauto.
    + intros x Hx. by apply elem_of_nil in Hx.
Qed.

Lemma spawn_ranged h a s :
  wellFormed s → ranged s →
  0 <= arg_speed a → 0 <= default 60 (arg_maxDistance a) →
  ranged (spawnProjectile h a s).2.
Proof.
  intros Hwf Hr Hspeed Hmax.
  destruct (spawn_store h a s) as (_ & p0 & Hs0 & _ & Hsp & Hmd & Hd0 & _).
  revert Hs0. unfold spawnProjectile.
  assert (Hold : ∀ x p, x ∈ projectiles (_getProjectile s).2 →
            store (_getProjectile s).2 !! x = Some p → inRange p).
  { destruct (getProjectile_cases s) as [(rest & _ & ->)|(_ & _ & ->)];
      simpl; [done|].
    intros x p Hx Hl. rewrite lookup_insert_ne in Hl; [eauto|].
    intros E. rewrite <- E in Hx.
    destruct Hwf as (_ & Hlt & _). specialize (Hlt (nextRef s)).
    rewrite elem_of_app in Hlt. specialize (Hlt (or_introl Hx)). lia. }
  destruct (_getProjectile s) as [r s1]. simpl in *.
  intros Hs0 x p Hx Hl. simpl in *.
  destruct (decide (x = r)) as [->|Hne].
  - rewrite Hs0 in Hl. simplify_eq.
    unfold inRange. rewrite Hd0, Hmd, Hsp. split_and!; done || lra.
  - rewrite lookup_insert_ne in Hl by done.
    apply elem_of_app in Hx as [Hx|Hx]; [eauto|].
    by apply list_elem_of_singleton in Hx.
Qed.

End Store.

(** ** One turn of the projectile loop *)

Section Turn.

Import Projectile ProjectileSystem.

Lemma expired_true p :
  expired p = true ↔ maxDistance p <= distanceTravelled p ∨ timeToLive p <= 0.
Proof.
  unfold expired. rewrite orb_true_iff, !Qleb_true. done.
Qed.

Lemma expired_false p :
  expired p = false ↔ distanceTravelled p < maxDistance p ∧ 0 < timeToLive p.
Proof.
  unfold expired. rewrite orb_false_iff, !Qleb_false. done.
Qed.

Lemma queryImpact_noEnemies p em :
  noEnemies em → queryImpact p em = (em, None).
Proof.
  destruct em as [m|]; [|done]. simpl. intros E.
  rewrite impact_miss; [done|].
  intros entry Hin. rewrite E in Hin. by apply elem_of_nil in Hin.
Qed.

Lemma queryEvents_queryImpact p em r :
  queryEvents (queryImpact p em).1 r = queryEvents em r.
Proof.
  destruct em as [m|]; [|done]. simpl.
  by destruct (EnemyManager.handleProjectileImpact _ _ m).
Qed.

(** The three ways through the body of the loop for a projectile that is
    active when its turn comes. *)
Lemma updateProjectile_cases delta i w r p :
  projectiles (system w) !! i = Some r →
  store (system w) !! r = Some p → active p = true →
  let p' := advanced delta p in
  let s1 := write r p' (system w) in
  let q := queryImpact p' (enemies w) in
  (expired p' = true
   ∧ updateProjectile delta i w
     = {| system := _deactivateProjectileAtIndex i s1;
          enemies := enemies w;
          trace := trace w ++ [Deactivated r Expiry] |})
  ∨ (expired p' = false ∧ q.2 = None
     ∧ updateProjectile delta i w
       = {| system := s1; enemies := q.1;
            trace := trace w ++ queryEvents (enemies w) r |})
  ∨ (expired p' = false
     ∧ ∃ im, q.2 = Some im
       ∧ updateProjectile delta i w
         = {| system := _deactivateProjectileAtIndex i s1; enemies := q.1;
              trace := trace w ++ queryEvents (enemies w) r
                       ++ [EnemyHit r im; Deactivated r Hit] |}).
Proof.
  intros Hi Hs Ha. cbv zeta. unfold updateProjectile.
  rewrite Hi, Hs, Ha. simpl negb. cbv iota.
  destruct (expired (advanced delta p)); [by left|right].
  destruct (queryImpact (advanced delta p) (enemies w)) as [em' [im|]].
  - right. split; [done|]. exists im. split; [done|].
    by destruct (enemies w).
  - left. by split_and!.
Qed.

Lemma updateProjectile_wf delta i w :
  wellFormed (system w) → wellFormed (system (updateProjectile delta i w)).
Proof.
  intros Hwf.
  destruct (projectiles (system w) !! i) as [r|] eqn:Hi;
    [|unfold updateProjectile; by rewrite Hi].
  assert (Hin : r ∈ projectiles (system w))
    by (by eapply list_elem_of_lookup_2).
  destruct Hwf as (Hnd & Hlt & Hact & Hpool).
  destruct (Hact r Hin) as (p & Hs & Ha).
  assert (Hwf : wellFormed (system w)) by done.
  destruct (updateProjectile_cases delta i w r p Hi Hs Ha)
    as [[_ ->]|[(He & _ & ->)|(He & im & _ & ->)]]; simpl.
  - by apply deactivate_written_wf.
  - by apply write_wf.
  - by apply deactivate_written_wf.
Qed.

Lemma advanced_inRange delta p :
  0 <= delta → inRange p → expired (advanced delta p) = false →
  inRange (advanced delta p).
Proof.
  intros Hd (H0 & _ & Hs) [Hlt _]%expired_false. simpl in *.
  pose proof (Qmult_le_0_compat _ _ Hs Hd).
  unfold inRange. simpl. split_and!; lra.
Qed.

Lemma updateProjectile_ranged delta i w :
  0 <= delta → wellFormed (system w) → ranged (system w) →
  ranged (system (updateProjectile delta i w)).
Proof.
  intros Hd Hwf Hr.
  destruct (projectiles (system w) !! i) as [r|] eqn:Hi;
    [|unfold updateProjectile; by rewrite Hi].
  assert (Hin : r ∈ projectiles (system w))
    by (by eapply list_elem_of_lookup_2).
  destruct (proj1 (proj2 (proj2 Hwf)) r Hin) as (p & Hs & Ha).
  destruct (updateProjectile_cases delta i w r p Hi Hs Ha)
    as [[_ ->]|[(He & _ & ->)|(He & im & _ & ->)]]; simpl.
  - by apply deactivate_written_ranged.
  - apply write_ranged; [done|]. apply advanced_inRange; eauto.
  - by apply deactivate_written_ranged.
Qed.

Lemma update_wf delta em s :
  wellFormed s → wellFormed (system (update delta em s)).
Proof.
  intros Hwf. unfold update.
  apply (forDown_ind (λ w, wellFormed (system w))); [done|].
  intros i w _ ?. by apply updateProjectile_wf.
Qed.

Lemma update_ranged delta em s :
  0 <= delta → wellFormed s → ranged s →
  ranged (system (update delta em s)).
Proof.
  intros Hd Hwf Hr. unfold update.
  apply (forDown_ind
           (λ w, wellFormed (system w) ∧ ranged (system w))); [done|].
  intros i w _ [? ?].
  split; [by apply updateProjectile_wf | by apply updateProjectile_ranged].
Qed.

Lemma reset_keeps s :
  wellFormed s → (ranged s → ranged (reset s)) ∧ wellFormed (reset s).
Proof.
  unfold reset. generalize (length (projectiles s)) as fuel.
  intros fuel. revert s. induction fuel as [|fuel IH]; intros s Hwf.
  - done.
  - simpl. destruct (length (projectiles s)); simpl; [done|].
    pose proof (deactivate_wf (n - 0) s Hwf) as Hwf'.
    destruct (IH _ Hwf') as [IHr IHw]. split; [|done].
    intros Hr. apply IHr. by apply deactivate_ranged.
Qed.

Lemma constructor_wf : wellFormed constructor.
Proof.
  split_and!; simpl.
  - apply NoDup_nil_2.
  - intros r Hr. by apply elem_of_nil in Hr.
  - intros r Hr. by apply elem_of_nil in Hr.
  - intros r Hr. by apply elem_of_nil in Hr.
Qed.

Lemma run_snoc_projectiles h calls c :
  run h (calls ++ [c]) = call h c (run h calls).
Proof. unfold run. by rewrite foldl_app. Qed.

(** The shape is kept by every call, whatever its arguments. *)
Lemma run_wf h calls : wellFormed (run h calls).
Proof.
  induction calls as [|c calls IH] using rev_ind.
  - apply constructor_wf.
  - rewrite run_snoc_projectiles. destruct c as [a|delta em|]; simpl.
    + by apply spawn_wf.
    + by apply update_wf.
    + by apply reset_keeps.
Qed.

Lemma run_ranged h calls : Forall admissible calls → ranged (run h calls).
Proof.
  induction calls as [|c calls IH] using rev_ind; intros Hall.
  - intros r p Hr. by apply elem_of_nil in Hr.
  - apply Forall_app in Hall as [Hall Hc]. apply Forall_inv in Hc.
    rewrite run_snoc_projectiles. specialize (IH Hall).
    pose proof (run_wf h calls) as Hwf.
    destruct Hc as [Hf Hm]. destruct c as [a|delta em|]; simpl in *.
    + by apply spawn_ranged.
    + by apply update_ranged.
    + by apply reset_keeps.
Qed.

(** C4, amended.  After any sequence of [spawnProjectile], [update] and
    [reset] calls with non-negative deltas, non-negative speeds and
    non-negative ranges, every projectile of the active list is active
    with [0 <= distanceTravelled <= maxDistance], every projectile of the
    pool is inactive with [distanceTravelled = 0], and no projectile is in
    both arrays or twice in one. *)
Theorem range_invariant (h : Host) (calls : list Call) :
  Forall admissible calls →
  let s := run h calls in
  (∀ r, r ∈ projectiles s →
        ∃ p, store s !! r = Some p ∧ active p = true
             ∧ 0 <= distanceTravelled p
             ∧ distanceTravelled p <= maxDistance p)
  ∧ (∀ r, r ∈ pool s →
          ∃ p, store s !! r = Some p ∧ active p = false
               ∧ distanceTravelled p = 0)
  ∧ NoDup (projectiles s ++ pool s).
Proof.
  intros Hall. pose proof (run_ranged h calls Hall) as Hr.
  destruct (run_wf h calls) as (Hnd & _ & Hact & Hpool).
  cbv zeta. split_and!; [|done..].
  intros r Hin. destruct (Hact r Hin) as (p & Hs & Ha).
  destruct (Hr r p Hin Hs) as (? & ? & _). eauto 10.
Qed.

End Turn.

(** Two pistol shots, a frame of 16 ms, a third shot, a frame of 2 s. *)
Lemma range_invariant_witness :
  let s := ProjectileSystem.run reversing_host
             [ProjectileSystem.CallSpawn pistol_shot;
              ProjectileSystem.CallSpawn pistol_shot;
              ProjectileSystem.CallUpdate (16 # 1000) None;
              ProjectileSystem.CallSpawn pistol_shot;
              ProjectileSystem.CallUpdate 2 None] in
  NoDup (ProjectileSystem.projectiles s ++ ProjectileSystem.pool s).
Proof.
  intros s. apply (range_invariant reversing_host).
  repeat constructor; simpl; lra.
Defined.

(** C4 as stated fails: nothing keeps a caller from asking for a
    negative range, and the projectile then sits in the active list with
    [distanceTravelled = 0 > maxDistance] until the next frame. *)
Lemma range_invariant_needs_range :
  let calls := [ProjectileSystem.CallSpawn backward_shot] in
  let s := ProjectileSystem.run reversing_host calls in
  Forall forward calls
  ∧ ∃ r p, r ∈ ProjectileSystem.projectiles s
      ∧ ProjectileSystem.store s !! r = Some p
      ∧ Projectile.active p = true
      ∧ ¬ (Projectile.distanceTravelled p <= Projectile.maxDistance p).
Proof.
  split.
  - repeat constructor. simpl. lra.
  - exists 0%nat. eexists. split_and!.
    + vm_compute. apply list_elem_of_here.
    + vm_compute. reflexivity.
    + done.
    + simpl. lra.
Qed.

(** ** The projectile loop, turn after turn *)

Section Frame.

Import Projectile ProjectileSystem.

Lemma forDown_down {S : Type} (P : nat → S → Prop) (body : nat → S → S) n s :
  P n s → (∀ i s, (i < n)%nat → P (Datatypes.S i) s → P i (body i s)) →
  P 0%nat (forDown n body s).
Proof.
  revert s. induction n as [|n IH]; intros s Hs Hstep; [done|].
  rewrite forDown_S. apply IH; [apply Hstep; [lia | done]|].
  intros i s' Hi. apply Hstep. lia.
Qed.

Lemma about_app r T1 T2 : about r (T1 ++ T2) = about r T1 ++ about r T2.
Proof. apply filter_app. Qed.

Lemma about_none r (T : list Event) :
  (∀ ev, ev ∈ T → subject ev ≠ r) → about r T = [].
Proof.
  intros Hno. unfold about. induction T as [|ev T IH]; [done|].
  rewrite filter_cons_False by (apply Hno; left).
  apply IH. intros ev' Hin. apply Hno. by right.
Qed.

Lemma about_all r (T : list Event) :
  Forall (λ ev, subject ev = r) T → about r T = T.
Proof.
  intros Hall. unfold about. induction Hall as [|ev T Hev _ IH]; [done|].
  rewrite filter_cons_True by done. by rewrite IH.
Qed.

Lemma queryEvents_subject em r :
  Forall (λ ev, subject ev = r) (queryEvents em r).
Proof. destruct em; repeat constructor. Qed.

Lemma take_delete (l : list nat) i : take i (delete i l) = take i l.
Proof.
  revert l. induction i as [|i IH]; intros [|x l]; simpl; try done.
  by rewrite IH.
Qed.

Lemma fate_manager delta em1 em2 r p w :
  (∀ r', queryEvents em1 r' = queryEvents em2 r') →
  (noEnemies em2 → noEnemies em1) →
  fate delta em1 r p w → fate delta em2 r p w.
Proof.
  intros Hq Hn. unfold fate. rewrite !Hq.
  destruct (expired (advanced delta p)); [done|].
  intros [?|(? & ? & ?)]; [by left|right]. split_and!; auto.
Qed.

Lemma retired_sameAt r p w w' :
  sameAt r w w' → retired r p (system w) → retired r p (system w').
Proof.
  intros (Ha & Hp & Hl & Hs) (? & Hn & ?). unfold retired.
  rewrite Hs. split_and!; auto. intros Hin. by apply Hn, Hl.
Qed.

Lemma fate_sameAt delta em r p w w' :
  sameAt r w w' → fate delta em r p w → fate delta em r p w'.
Proof.
  intros Hsame. pose proof Hsame as (Ha & Hp & Hl & Hs).
  unfold fate. rewrite Ha, Hs.
  destruct (expired (advanced delta p)).
  - intros (? & ?). split; [done|]. by eapply retired_sameAt.
  - intros [(? & ? & ?)|(? & ? & ?)]; [left|right].
    + split_and!; [done| |done]. by apply Hl.
    + split_and!; [done..|]. by eapply retired_sameAt.
Qed.

(** The turn of the active projectile [r], at index [i]. *)
Context (delta : Q) (i : nat) (w : World) (r : nat) (p : Projectile.t).
Context (Hwf : wellFormed (system w)).
Context (Hi : projectiles (system w) !! i = Some r).
Context (Hs : store (system w) !! r = Some p).
Context (Ha : active p = true).

Lemma turn_prefix :
  take i (projectiles (system (updateProjectile delta i w)))
  = take i (projectiles (system w)).
Proof using Hi Hs Ha.
  destruct (updateProjectile_cases delta i w r p Hi Hs Ha)
    as [[_ ->]|[(He & _ & ->)|(He & im & _ & ->)]]; simpl; try done;
    rewrite (deactivate_at i _ r) by done; simpl; apply take_delete.
Qed.

Lemma turn_trace ev :
  ev ∈ trace (updateProjectile delta i w) →
  ev ∈ trace w ∨ subject ev = r.
Proof using Hi Hs Ha.
  destruct (updateProjectile_cases delta i w r p Hi Hs Ha)
    as [[_ ->]|[(He & _ & ->)|(He & im & _ & ->)]]; simpl;
    rewrite ?elem_of_app; intros Hin.
  - destruct Hin as [?|Hin]; [by left|right].
    by apply list_elem_of_singleton in Hin as ->.
  - destruct Hin as [?|Hin]; [by left|right].
    pose proof (queryEvents_subject (enemies w) r) as Hq.
    rewrite Forall_forall in Hq. by apply Hq.
  - destruct Hin as [?|[Hin|Hin]]; [by left|right..].
    + pose proof (queryEvents_subject (enemies w) r) as Hq.
      rewrite Forall_forall in Hq. by apply Hq.
    + apply elem_of_cons in Hin as [->|Hin]; [done|].
      by apply list_elem_of_singleton in Hin as ->.
Qed.

Lemma turn_enemies :
  (∀ r', queryEvents (enemies (updateProjectile delta i w)) r'
         = queryEvents (enemies w) r')
  ∧ (noEnemies (enemies w) → enemies (updateProjectile delta i w) = enemies w).
Proof using Hi Hs Ha.
  destruct (updateProjectile_cases delta i w r p Hi Hs Ha)
    as [[_ ->]|[(He & _ & ->)|(He & im & _ & ->)]]; simpl; [done|..];
    (split; [intros r'; apply queryEvents_queryImpact|]);
    intros Hq; by rewrite queryImpact_noEnemies.
Qed.

Lemma turn_elsewhere r2 :
  r2 ≠ r → sameAt r2 w (updateProjectile delta i w).
Proof using Hwf Hi Hs Ha.
  intros Hne.
  pose proof (wellFormed_active_NoDup _ Hwf) as Hnd.
  assert (Hev : ∀ T, Forall (λ ev, subject ev = r) T →
                     about r2 (trace w ++ T) = about r2 (trace w)).
  { intros T HT. rewrite about_app, (about_none r2 T), app_nil_r; [done|].
    rewrite Forall_forall in HT. intros ev Hin. rewrite (HT ev Hin).
    congruence. }
  assert (Hdel : r2 ∈ projectiles (system w)
                 ↔ r2 ∈ delete i (projectiles (system w))).
  { rewrite (elem_of_delete_NoDup _ i r r2 Hnd Hi). tauto. }
  assert (Hpl : r2 ∈ pool (system w) → r2 ∈ pool (system w) ++ [r]).
  { intros Hin. apply elem_of_app. by left. }
  destruct (updateProjectile_cases delta i w r p Hi Hs Ha)
    as [[_ ->]|[(He & _ & ->)|(He & im & _ & ->)]];
    unfold sameAt; simpl; rewrite ?(deactivate_at i _ r) by done; simpl.
  - split_and!; [apply Hev; by repeat constructor|done|done|].
    by rewrite lookup_alter_ne, lookup_insert_ne.
  - split_and!; [apply Hev, queryEvents_subject|done|done|].
    by rewrite lookup_insert_ne.
  - split_and!; [|done|done|].
    + apply Hev. apply Forall_app. split; [apply queryEvents_subject|].
      by repeat constructor.
    + by rewrite lookup_alter_ne, lookup_insert_ne.
Qed.

Lemma turn_here :
  about r (trace w) = [] →
  fate delta (enemies w) r p (updateProjectile delta i w).
Proof using Hwf Hi Hs Ha.
  intros Hnone.
  pose proof (wellFormed_active_NoDup _ Hwf) as Hnd.
  assert (Hret : retired r (advanced delta p)
                   (_deactivateProjectileAtIndex i
                      (write r (advanced delta p) (system w)))).
  { rewrite (deactivate_at i _ r) by done. unfold retired. simpl.
    split_and!.
    - apply elem_of_app. right. apply list_elem_of_here.
    - rewrite (elem_of_delete_NoDup _ i r r Hnd Hi). tauto.
    - by rewrite lookup_alter_eq, lookup_insert_eq. }
  unfold fate.
  destruct (updateProjectile_cases delta i w r p Hi Hs Ha)
    as [[He ->]|[(He & _ & ->)|(He & im & Him & ->)]];
    cbv zeta; rewrite He; simpl; rewrite about_app, Hnone; simpl.
  - split; [|done]. by apply about_all; repeat constructor.
  - left. split_and!.
    + apply about_all, queryEvents_subject.
    + by eapply list_elem_of_lookup_2.
    + by rewrite lookup_insert_eq.
  - right. split_and!; [|exists im|done].
    + intros Hq. by rewrite queryImpact_noEnemies in Him.
    + apply about_all. apply Forall_app.
      split; [apply queryEvents_subject|by repeat constructor].
Qed.

End Frame.

Section Loop.

Import Projectile ProjectileSystem.

Lemma turns_step delta em s0 i w :
  wellFormed s0 → (i < length (projectiles s0))%nat →
  turnsDone delta em s0 (S i) w →
  turnsDone delta em s0 i (updateProjectile delta i w).
Proof.
  intros Hwf0 Hlen (Hwf & Hq & Hquiet & Htake & Htr & Hst & Hpool & Hfate).
  destruct (lookup_lt_is_Some_2 (projectiles s0) i Hlen) as [r Hr].
  pose proof (wellFormed_active_NoDup s0 Hwf0) as Hnd0.
  pose proof (take_drop_middle (projectiles s0) i r Hr) as Hsplit.
  pose proof (drop_S (projectiles s0) r i Hr) as Hdrop.
  pose proof (take_S_r (projectiles s0) i r Hr) as Htk.
  assert (Hrin : r ∈ (projectiles s0)) by (by eapply list_elem_of_lookup_2).
  assert (Hbefore : (r ∉ take i (projectiles s0)) ∧ (r ∉ drop (S i) (projectiles s0))).
  { rewrite <- Hsplit in Hnd0. apply NoDup_app in Hnd0 as (_ & Hdis & Hnd1).
    apply NoDup_cons in Hnd1 as [Hnot _]. split; [|done].
    intros Hin. apply (Hdis r Hin). left. }
  destruct Hbefore as [Hbefore Hafter].
  assert (Hi : projectiles (system w) !! i = Some r).
  { rewrite <- (lookup_take_lt _ (S i)) by lia. rewrite Htake.
    by rewrite lookup_take_lt by lia. }
  destruct (proj1 (proj2 (proj2 Hwf0)) r Hrin) as (p & Hs0 & Ha).
  assert (Hs : store (system w) !! r = Some p).
  { rewrite Hst; [done|]. rewrite Htk. apply elem_of_app. right. left. }
  assert (Hnone : about r (trace w) = []).
  { apply about_none. intros ev Hin E. apply Hafter. rewrite <- E. auto. }
  pose proof (turn_elsewhere delta i w r p Hwf Hi Hs Ha) as Helse.
  destruct (turn_enemies delta i w r p Hi Hs Ha) as [Hq' Hquiet'].
  split_and!.
  - by apply updateProjectile_wf.
  - intros r'. by rewrite Hq'.
  - intros Hn. rewrite Hquiet'; rewrite (Hquiet Hn); done.
  - rewrite (turn_prefix delta i w r p Hi Hs Ha).
    assert (E : take i (take (S i) (projectiles (system w)))
                = take i (take (S i) (projectiles s0))) by (by rewrite Htake).
    rewrite !take_take in E.
    by replace (i `min` S i)%nat with i in E by lia.
  - intros ev Hin. rewrite Hdrop.
    destruct (turn_trace delta i w r p Hi Hs Ha ev Hin) as [Hold| ->].
    + right. by apply Htr.
    + left.
  - intros r2 Hin. destruct (Helse r2) as (_ & _ & _ & ->).
    + intros ->. done.
    + apply Hst. rewrite Htk. apply elem_of_app. by left.
  - intros r2 Hin. destruct (Hpool r2 Hin) as [Hp2 Hs2].
    assert (r2 ≠ r).
    { intros ->. destruct Hwf0 as (Hnd & _).
      apply NoDup_app in Hnd as (_ & Hdis & _). by apply (Hdis r). }
    destruct (Helse r2) as (_ & Hpl & _ & ->); [done|]. auto.
  - intros r2 p2 Hin Hs2. rewrite Hdrop in Hin.
    apply elem_of_cons in Hin as [->|Hin].
    + rewrite Hs2 in Hs0. simplify_eq.
      apply (fate_manager delta (enemies w) em); [done| |].
      * intros Hn. by rewrite (Hquiet Hn).
      * by apply turn_here.
    + apply (fate_sameAt delta em r2 p2 w); [|by apply Hfate].
      apply Helse. by intros ->.
Qed.

(** What [update] did when it returns. *)
Lemma update_turns delta em s :
  wellFormed s → turnsDone delta em s 0 (update delta em s).
Proof.
  intros Hwf. unfold update.
  apply (forDown_down (turnsDone delta em s)).
  - unfold turnsDone. simpl. rewrite drop_all. split_and!; try done.
    + intros ev Hin. by apply elem_of_nil in Hin.
    + intros r p Hin. by apply elem_of_nil in Hin.
  - intros i w Hi. by apply turns_step.
Qed.

Lemma update_fate delta em s r p :
  wellFormed s → r ∈ projectiles s → store s !! r = Some p →
  fate delta em r p (update delta em s).
Proof.
  intros Hwf Hin Hs.
  destruct (update_turns delta em s Hwf)
    as (_ & _ & _ & _ & _ & _ & _ & Hfate).
  by apply Hfate.
Qed.

Lemma update_pool delta em s r :
  wellFormed s → r ∈ pool s →
  r ∈ pool (system (update delta em s))
  ∧ store (system (update delta em s)) !! r = store s !! r.
Proof.
  intros Hwf Hin.
  destruct (update_turns delta em s Hwf)
    as (_ & _ & _ & _ & _ & _ & Hpool & _).
  by apply Hpool.
Qed.

Lemma elem_of_about r ev (T : list Event) :
  ev ∈ about r T ↔ subject ev = r ∧ ev ∈ T.
Proof. unfold about. by rewrite list_elem_of_filter. Qed.

(** C5.  In one [update], the body of the loop tests expiry first: when
    the advanced projectile has reached its range or outlived its
    lifetime, it is deactivated there, the enemy manager is neither
    queried nor changed, and no hit is reported.  Hence, for every
    projectile that was active when [update] was called: the events
    about it are exactly those of one of three fates (expired; queried
    and still flying; queried, hit and deactivated); it is deactivated at
    most once; it is deactivated for expiry exactly when the test of
    line 66 holds; and if it expired, no impact query and no hit were
    made for it. *)
Theorem one_reason_per_tick (h : Host) (calls : list Call) (delta : Q)
    (em : option EnemyManager.t) :
  (∀ i w r p,
     projectiles (system w) !! i = Some r →
     store (system w) !! r = Some p → active p = true →
     expired (advanced delta p) = true →
     enemies (updateProjectile delta i w) = enemies w
     ∧ trace (updateProjectile delta i w)
       = trace w ++ [Deactivated r Expiry])
  ∧ let s := run h calls in
    let T := trace (update delta em s) in
    ∀ r p, r ∈ projectiles s → store s !! r = Some p →
      fate delta em r p (update delta em s)
      ∧ (deactivations r T ≤ 1)%nat
      ∧ (Deactivated r Expiry ∈ T ↔ expired (advanced delta p) = true)
      ∧ (Deactivated r Expiry ∈ T →
         (ImpactQuery r ∉ T) ∧ ∀ im, EnemyHit r im ∉ T).
Proof.
  split.
  - intros i w r p Hi Hs Ha He.
    destruct (updateProjectile_cases delta i w r p Hi Hs Ha)
      as [[_ ->]|[(He' & _)|(He' & _)]]; [done|congruence..].
  - intros s T r p Hin Hs.
    pose proof (update_fate delta em s r p (run_wf h calls) Hin Hs) as Hf.
    split; [done|].
    assert (Hab : ∀ ev, subject ev = r → ev ∈ T ↔ ev ∈ about r T).
    { intros ev E. rewrite elem_of_about. tauto. }
    unfold deactivations. rewrite !(Hab (Deactivated r Expiry)) by done.
    rewrite (Hab (ImpactQuery r)) by done.
    assert (Hhit : ∀ im, EnemyHit r im ∉ T ↔ EnemyHit r im ∉ about r T).
    { intros im. by rewrite (Hab (EnemyHit r im)). }
    setoid_rewrite Hhit.
    unfold fate in Hf. cbv zeta in Hf. fold T in Hf.
    destruct (expired (advanced delta p)).
    + destruct Hf as [-> _]. split_and!.
      * simpl. lia.
      * split; [done|]. intros _. left.
      * intros _. split; [|intros im]; rewrite list_elem_of_singleton; done.
    + destruct Hf as [(-> & _)|(_ & (im & ->) & _)].
      * destruct em; simpl; split_and!; try lia;
          try (split; [|done]);
          rewrite ?list_elem_of_singleton; try done;
          intros Hx; by apply elem_of_nil in Hx.
      * destruct em; simpl; split_and!; try lia;
          try (split; [|done]); intros Hx;
          repeat (apply elem_of_cons in Hx as [Hx|Hx]; [done|]);
          by apply elem_of_nil in Hx.
Qed.

End Loop.

(** ** Rounding to the nearest double *)

Section Doubles.

Import Binary64.

Lemma nearest_cases x :
  (nearest x = Qfloor x ∧ x - inject_Z (Qfloor x) <= 1 # 2)
  ∨ (nearest x = (Qfloor x + 1)%Z ∧ 1 # 2 <= x - inject_Z (Qfloor x)).
Proof.
  unfold nearest.
  destruct (Qcompare_spec (x - inject_Z (Qfloor x)) (1 # 2)) as [E|E|E].
  - destruct (Z.even (Qfloor x)); [left|right]; (split; [done|]);
      rewrite E; lra.
  - left. split; [done|lra].
  - right. split; [done|lra].
Qed.

Lemma nearest_error x : Qabs (inject_Z (nearest x) - x) <= 1 # 2.
Proof.
  pose proof (Qfloor_le x) as Hlo. pose proof (Qlt_floor x) as Hhi.
  rewrite inject_Z_plus in Hhi. change (inject_Z 1) with 1 in Hhi.
  apply Qabs_Qle_condition.
  destruct (nearest_cases x) as [[-> H]|[-> H]];
    rewrite ?inject_Z_plus; change (inject_Z 1) with 1; split; lra.
Qed.

Lemma nearest_nonneg x : 0 <= x → (0 ≤ nearest x)%Z.
Proof.
  intros Hx. assert (0 ≤ Qfloor x)%Z.
  { change 0%Z with (Qfloor 0). by apply Qfloor_resp_le. }
  destruct (nearest_cases x) as [[-> _]|[-> _]]; lia.
Qed.

(** An integer above [x] is above the integer nearest to [x]. *)
Lemma nearest_le x (n : Z) : x <= inject_Z n → (nearest x ≤ n)%Z.
Proof.
  intros Hx. pose proof (Qfloor_le x) as Hlo.
  assert (Hf : (Qfloor x ≤ n)%Z).
  { rewrite <- (Qfloor_Z n). by apply Qfloor_resp_le. }
  destruct (nearest_cases x) as [[-> _]|[-> H]]; [done|].
  destruct (decide (Qfloor x = n)) as [E|E]; [|lia].
  rewrite E in H. lra.
Qed.

Lemma nearest_nonpos x : x <= 0 → (nearest x ≤ 0)%Z.
Proof. intros Hx. by apply nearest_le. Qed.

Lemma pow2_pos (e : Z) : 0 < 2 ^ e.
Proof. by apply Qpower_0_lt. Qed.

Lemma Qabs_fraction x :
  Qabs x == inject_Z (Z.abs (Qnum x)) / inject_Z (Z.pos (Qden x)).
Proof. destruct x as [a b]. simpl. apply Qmake_Qdiv. Qed.

Lemma numerator_pos x : ¬ x == 0 → (0 < Z.abs (Qnum x))%Z.
Proof.
  intros Hx. destruct x as [[|a|a] b]; [|done..]. destruct Hx. reflexivity.
Qed.

(** [binade x] is the exponent of [x]. *)
Lemma binade_le x : ¬ x == 0 → 2 ^ binade x <= Qabs x.
Proof.
  intros Hx. unfold binade. cbv zeta.
  pose proof (numerator_pos x Hx) as Hn. rewrite (Qabs_fraction x).
  set (n := Z.abs (Qnum x)) in *. set (d := Z.pos (Qden x)).
  destruct (Qle_bool (2 ^ (Z.log2 n - Z.log2 d))
              (inject_Z n / inject_Z d)) eqn:E.
  { by apply Qle_bool_iff. }
  clear E. assert (Hd : (0 < d)%Z) by done.
  destruct (Z.log2_spec n Hn) as [Hn1 _].
  destruct (Z.log2_spec d Hd) as [_ Hd2].
  pose proof (Z.log2_nonneg n). pose proof (Z.log2_nonneg d).
  replace (Z.log2 n - Z.log2 d - 1)%Z
    with (Z.log2 n - Z.succ (Z.log2 d))%Z by lia.
  rewrite Qpower_minus by done.
  rewrite <- !(Zpower_Qpower 2) by lia.
  assert (H1 : inject_Z (2 ^ Z.log2 n) <= inject_Z n)
    by (by rewrite <- Zle_Qle).
  assert (H2 : inject_Z d <= inject_Z (2 ^ Z.succ (Z.log2 d)))
    by (rewrite <- Zle_Qle; lia).
  assert (H3 : 0 < inject_Z d) by (by rewrite <- (Zlt_Qlt 0)).
  assert (H4 : 0 < inject_Z (2 ^ Z.log2 n)).
  { rewrite <- (Zlt_Qlt 0). lia. }
  set (A := inject_Z (2 ^ Z.log2 n)) in *.
  set (B := inject_Z (2 ^ Z.succ (Z.log2 d))) in *.
  set (N := inject_Z n) in *. set (D := inject_Z d) in *.
  apply Qle_shift_div_l; [lra|].
  assert (E : A / B * D == A * D / B) by (field; lra). rewrite E.
  apply Qle_shift_div_r; [lra|]. nra.
Qed.

Lemma binade_lt x : ¬ x == 0 → Qabs x < 2 ^ (binade x + 1).
Proof.
  intros Hx. unfold binade. cbv zeta.
  pose proof (numerator_pos x Hx) as Hn. rewrite (Qabs_fraction x).
  set (n := Z.abs (Qnum x)) in *. set (d := Z.pos (Qden x)).
  destruct (Qle_bool (2 ^ (Z.log2 n - Z.log2 d))
              (inject_Z n / inject_Z d)) eqn:E.
  2:{ replace (Z.log2 n - Z.log2 d - 1 + 1)%Z
        with (Z.log2 n - Z.log2 d)%Z by lia.
      apply Qnot_le_lt. intros Hle. apply Qle_bool_iff in Hle. congruence. }
  clear E. assert (Hd : (0 < d)%Z) by done.
  destruct (Z.log2_spec n Hn) as [_ Hn2].
  destruct (Z.log2_spec d Hd) as [Hd1 _].
  pose proof (Z.log2_nonneg n). pose proof (Z.log2_nonneg d).
  replace (Z.log2 n - Z.log2 d + 1)%Z
    with (Z.succ (Z.log2 n) - Z.log2 d)%Z by lia.
  rewrite Qpower_minus by done.
  rewrite <- !(Zpower_Qpower 2) by lia.
  assert (H1 : inject_Z n < inject_Z (2 ^ Z.succ (Z.log2 n)))
    by (by rewrite <- Zlt_Qlt).
  assert (H2 : inject_Z (2 ^ Z.log2 d) <= inject_Z d)
    by (by rewrite <- Zle_Qle).
  assert (H3 : 0 < inject_Z n) by (by rewrite <- (Zlt_Qlt 0)).
  assert (H4 : 0 < inject_Z (2 ^ Z.log2 d)).
  { rewrite <- (Zlt_Qlt 0). lia. }
  set (A := inject_Z (2 ^ Z.succ (Z.log2 n))) in *.
  set (B := inject_Z (2 ^ Z.log2 d)) in *.
  set (N := inject_Z n) in *. set (D := inject_Z d) in *.
  apply Qlt_shift_div_l; [lra|].
  assert (E : N / D * B == N * B / D) by (field; lra). rewrite E.
  apply Qlt_shift_div_r; [lra|]. nra.
Qed.

Lemma ulp_pos x : 0 < ulp x.
Proof. apply pow2_pos. Qed.

Lemma round_eq x :
  ¬ x == 0 → round x == inject_Z (nearest (x / ulp x)) * ulp x.
Proof.
  intros Hx. unfold round.
  destruct (Qeq_bool x 0) eqn:E; [by apply Qeq_bool_iff in E|].
  apply Qred_correct.
Qed.

Lemma round_0 x : x == 0 → round x = 0.
Proof.
  intros Hx. unfold round. apply Qeq_bool_iff in Hx. by rewrite Hx.
Qed.

Lemma ulp_le x :
  ¬ x == 0 → ulp x * (1 # 2) <= unitRoundoff * Qabs x + tiny.
Proof.
  intros Hx. pose proof (binade_le x Hx) as Hb. unfold ulp.
  pose proof (Qabs_nonneg x) as Ha.
  assert (Hu : 0 <= unitRoundoff) by done.
  assert (Ht : 0 <= tiny) by done.
  destruct (Z.max_spec (binade x - 52) (-1074)) as [[_ ->]|[_ ->]].
  - assert (E : 2 ^ (-1074) * (1 # 2) == tiny) by reflexivity.
    rewrite E. assert (0 <= unitRoundoff * Qabs x)
      by (by apply Qmult_le_0_compat). lra.
  - replace (binade x - 52)%Z with (binade x + -52)%Z by lia.
    rewrite Qpower_plus by done.
    assert (E : 2 ^ binade x * 2 ^ (-52) * (1 # 2)
                == unitRoundoff * 2 ^ binade x).
    { assert (E2 : 2 ^ (-52) * (1 # 2) == unitRoundoff) by reflexivity.
      rewrite <- E2. ring. }
    rewrite E.
    assert (unitRoundoff * 2 ^ binade x <= unitRoundoff * Qabs x).
    { rewrite !(Qmult_comm unitRoundoff). by apply Qmult_le_compat_r. }
    lra.
Qed.

(** The error of a rounding is at most half the distance between the
    doubles around the exact result. *)
Lemma round_error x :
  Qabs (round x - x) <= unitRoundoff * Qabs x + tiny.
Proof.
  destruct (Qeq_dec x 0) as [Hx|Hx].
  { rewrite (round_0 x Hx), Hx. by vm_compute. }
  rewrite (round_eq x Hx). pose proof (ulp_pos x) as HU.
  pose proof (nearest_error (x / ulp x)) as He.
  eapply Qle_trans; [|by apply ulp_le].
  set (U := ulp x) in *. set (m := inject_Z (nearest (x / U))) in *.
  assert (E : m * U - x == (m - x / U) * U) by (field; lra).
  rewrite E, Qabs_Qmult, (Qabs_pos U) by lra.
  rewrite (Qmult_comm U). apply Qmult_le_compat_r; [done|lra].
Qed.

Lemma round_nonneg x : 0 <= x → 0 <= round x.
Proof.
  intros Hx. destruct (Qeq_dec x 0) as [E|E].
  { by rewrite (round_0 x E). }
  rewrite (round_eq x E). pose proof (ulp_pos x).
  apply Qmult_le_0_compat; [|lra].
  rewrite <- (Zle_Qle 0). apply nearest_nonneg.
  apply Qle_shift_div_l; [done|lra].
Qed.

Lemma round_nonpos x : x <= 0 → round x <= 0.
Proof.
  intros Hx. destruct (Qeq_dec x 0) as [E|E].
  { by rewrite (round_0 x E). }
  rewrite (round_eq x E). pose proof (ulp_pos x) as HU.
  assert (Hn : inject_Z (nearest (x / ulp x)) <= 0).
  { rewrite <- (Zle_Qle _ 0). apply nearest_nonpos.
    apply Qle_shift_div_r; [done|lra]. }
  set (m := inject_Z _) in *. nra.
Qed.

(** A rounding does not cross a double: what is at most the double
    [m * 2^k] rounds to at most that double. *)
Lemma round_le (m k : Z) x :
  (-1074 ≤ k)%Z → (0 ≤ m)%Z → inject_Z m * 2 ^ k < 2 ^ (k + 53) →
  x <= inject_Z m * 2 ^ k → round x <= inject_Z m * 2 ^ k.
Proof.
  intros Hk H0 Hm Hx.
  assert (Hc : 0 <= inject_Z m * 2 ^ k).
  { apply Qmult_le_0_compat; [by rewrite <- (Zle_Qle 0)|].
    apply Qlt_le_weak, pow2_pos. }
  set (c := inject_Z m * 2 ^ k) in *.
  destruct (Qlt_le_dec 0 x) as [Hpos|Hneg];
    [|by eapply Qle_trans; [apply round_nonpos|]].
  assert (E : ¬ x == 0) by lra.
  rewrite (round_eq x E). pose proof (ulp_pos x) as HU.
  pose proof (binade_le x E) as Hb. rewrite Qabs_pos in Hb by lra.
  assert (Hlt : (binade x < k + 53)%Z).
  { apply (Qpower_lt_compat_l_inv 2); [lra|done]. }
  set (q := Z.max (binade x - 52) (-1074)).
  assert (Hq : (q ≤ k)%Z) by lia.
  assert (Ec : c == inject_Z (m * 2 ^ (k - q)) * ulp x).
  { unfold c, ulp. fold q. rewrite inject_Z_mult, Zpower_Qpower by lia.
    rewrite <- Qmult_assoc, <- Qpower_plus by done.
    by replace (k - q + q)%Z with k by lia. }
  rewrite Ec. apply Qmult_le_compat_r; [|lra].
  rewrite <- Zle_Qle. apply nearest_le.
  apply Qle_shift_div_r; [done|]. by rewrite <- Ec.
Qed.

Lemma unitRoundoff_range : 0 <= unitRoundoff ∧ unitRoundoff <= 1 # 64.
Proof. by split. Qed.

Lemma tiny_range : 0 <= tiny ∧ tiny <= 1 # 64.
Proof. by split. Qed.

(** 2.5 is the double [5 * 2^(-1)]. *)
Lemma round_lifetime x : x <= 25 # 10 → round x <= 25 # 10.
Proof.
  intros Hx. assert (E : 25 # 10 == inject_Z 5 * 2 ^ (-1)) by reflexivity.
  rewrite E in *. by apply round_le.
Qed.

End Doubles.

(** ** The flight of a projectile under a rounding *)

Lemma ticksOf_S n : ticksOf (S n) == ticksOf n + 1.
Proof.
  unfold ticksOf. rewrite Nat2Z.inj_succ, <- Z.add_1_r.
  by rewrite inject_Z_plus.
Qed.

Lemma ticksOf_nonneg n : 0 <= ticksOf n.
Proof. unfold ticksOf. rewrite <- (Zle_Qle 0). lia. Qed.

Lemma tickTime_nonneg ticks :
  Forall (λ delta, 0 <= delta) ticks → 0 <= tickTime ticks.
Proof.
  induction 1 as [|delta ticks Hd _ IH]; [done|].
  change (tickTime (delta :: ticks)) with (delta + tickTime ticks). lra.
Qed.

Lemma slack_le (n c k : Q) : 0 <= n → c <= k → n * c <= n * k.
Proof.
  intros Hn Hc. rewrite !(Qmult_comm n). by apply Qmult_le_compat_r.
Qed.

Section RoundedFlight.

Import Projectile.

(** A rounding [rnd] whose error is at most [u * |x| + eta], which keeps
    the sign, and which does not cross 2.5. *)
Variables (rnd : Q → Q) (u eta : Q).

Hypothesis u_range : 0 <= u ∧ u <= 1 # 64.
Hypothesis eta_range : 0 <= eta ∧ eta <= 1 # 64.
Hypothesis rnd_error : ∀ x, Qabs (rnd x - x) <= u * Qabs x + eta.
Hypothesis rnd_nonneg : ∀ x, 0 <= x → 0 <= rnd x.
Hypothesis rnd_nonpos : ∀ x, x <= 0 → rnd x <= 0.
Hypothesis rnd_lifetime : ∀ x, x <= 25 # 10 → rnd x <= 25 # 10.

Lemma rnd_near x c :
  Qabs x <= c → x - (u * c + eta) <= rnd x ∧ rnd x <= x + (u * c + eta).
Proof using rnd_error u_range.
  intros Hc. pose proof (rnd_error x) as He.
  assert (u * Qabs x <= u * c).
  { rewrite !(Qmult_comm u). apply Qmult_le_compat_r; [done|].
    by destruct u_range. }
  apply Qabs_Qle_condition in He. split; lra.
Qed.

Lemma rnd_most x : 0 <= x → x * (63 # 64) - (1 # 64) <= rnd x.
Proof using rnd_error u_range eta_range.
  intros Hx. destruct (rnd_near x x) as [H _].
  { rewrite Qabs_pos; lra. }
  assert (0 <= ((1 # 64) - u) * x) by (apply Qmult_le_0_compat; lra).
  nra.
Qed.

Lemma flight_cons delta ticks p p' :
  Rounded.flight rnd (delta :: ticks) p = Some p' →
  ProjectileSystem.expired (Rounded.advanced rnd delta p) = false
  ∧ Rounded.flight rnd ticks (Rounded.advanced rnd delta p) = Some p'.
Proof.
  simpl. by destruct (ProjectileSystem.expired _).
Qed.

(** The distance of a projectile of speed [v] and range [M] that is
    still flying: what the roundings have taken from [v] times the tick
    time is at most [3 * u * c + 2 * eta] a tick, for any [c] a little
    above [M]. *)
Lemma flight_distance (v M c : Q) ticks p p' :
  0 <= v → 1 <= c → (M + (1 # 32)) * (64 # 63) <= c →
  Forall (λ delta, 0 <= delta) ticks →
  speed p == v → maxDistance p == M →
  0 <= distanceTravelled p → distanceTravelled p < M →
  Rounded.flight rnd ticks p = Some p' →
  distanceTravelled p + v * tickTime ticks
  - ticksOf (length ticks) * (3 * (u * c) + 2 * eta)
  <= distanceTravelled p'
  ∧ 0 <= distanceTravelled p' ∧ distanceTravelled p' < M
  ∧ speed p' == v ∧ maxDistance p' == M.
Proof using rnd_error rnd_nonneg u_range eta_range.
  intros Hv Hc HM Hall. revert p.
  induction Hall as [|delta ticks Hd _ IH]; intros p Hs Hm H0 H10 Hf.
  { injection Hf as <-. change (tickTime []) with 0.
    change (ticksOf (length [])) with 0. split_and!; [lra|done..]. }
  apply flight_cons in Hf as [He Hf].
  apply expired_false in He as [He _]. simpl in He.
  specialize (IH (Rounded.advanced rnd delta p)). simpl in IH.
  remember (speed p * delta) as x eqn:Ex.
  assert (Ex' : x == v * delta) by (rewrite Ex; by rewrite Hs).
  assert (Hx0 : 0 <= x).
  { rewrite Ex'. by apply Qmult_le_0_compat. }
  pose proof (rnd_nonneg x Hx0) as Ht.
  remember (rnd x) as t eqn:Et.
  remember (distanceTravelled p + t) as y eqn:Ey.
  assert (Ey' : y == distanceTravelled p + t) by (by rewrite Ey).
  assert (Hy : y < c).
  { destruct (Qlt_le_dec y c) as [?|Hge]; [done|].
    pose proof (rnd_most y ltac:(lra)). lra. }
  assert (Hx : x < 2 * c).
  { destruct (Qlt_le_dec x (2 * c)) as [?|Hge]; [done|].
    pose proof (rnd_most x Hx0) as H. rewrite <- Et in H. lra. }
  destruct (rnd_near x (2 * c)) as [Hxl _]; [rewrite Qabs_pos; lra|].
  destruct (rnd_near y c) as [Hyl _]; [rewrite Qabs_pos; lra|].
  rewrite <- Et in Hxl.
  destruct IH as (IH1 & IH2); [done|done|apply rnd_nonneg; lra|lra|done|].
  split; [|done]. cbn [length]. rewrite ticksOf_S.
  change (tickTime (delta :: ticks)) with (delta + tickTime ticks).
  set (N := ticksOf (length ticks)) in *. set (uc := u * c) in *.
  assert (E2 : u * (2 * c) == 2 * uc) by (unfold uc; ring).
  rewrite E2 in Hxl. lra.
Qed.

(** The lifetime of a projectile that is still flying: the roundings
    have moved it by at most [2.5 * u + eta] a tick. *)
Lemma flight_lifetime ticks p p' :
  Forall (λ delta, 0 <= delta) ticks →
  0 < timeToLive p → timeToLive p <= 25 # 10 →
  Rounded.flight rnd ticks p = Some p' →
  Qabs (timeToLive p' - (timeToLive p - tickTime ticks))
  <= ticksOf (length ticks) * ((25 # 10) * u + eta)
  ∧ 0 < timeToLive p' ∧ timeToLive p' <= 25 # 10.
Proof using rnd_error rnd_nonpos rnd_lifetime u_range.
  intros Hall. revert p.
  induction Hall as [|delta ticks Hd _ IH]; intros p H0 H25 Hf.
  { injection Hf as <-. change (tickTime []) with 0.
    change (ticksOf (length [])) with 0.
    split; [|done]. apply Qabs_Qle_condition. split; lra. }
  apply flight_cons in Hf as [He Hf].
  apply expired_false in He as [_ He]. simpl in He.
  specialize (IH (Rounded.advanced rnd delta p)).
  change (timeToLive (Rounded.advanced rnd delta p))
    with (rnd (timeToLive p - delta)) in IH.
  remember (timeToLive p - delta) as x eqn:Ex.
  assert (Ex' : x == timeToLive p - delta) by (by rewrite Ex).
  assert (Hx0 : 0 < x).
  { destruct (Qlt_le_dec 0 x) as [?|Hle]; [done|].
    pose proof (rnd_nonpos x Hle). lra. }
  pose proof (rnd_lifetime x ltac:(lra)) as Hle.
  destruct (rnd_near x (25 # 10)) as [Hlo Hhi]; [rewrite Qabs_pos; lra|].
  destruct IH as (IH1 & IH2); [done..|]. split; [|done].
  apply Qabs_Qle_condition in IH1. apply Qabs_Qle_condition.
  cbn [length]. rewrite ticksOf_S.
  change (tickTime (delta :: ticks)) with (delta + tickTime ticks).
  set (N := ticksOf (length ticks)) in *. clear Hle.
  split; lra.
Qed.

(** A projectile of speed 62 and range 70, fresh from the muzzle: when
    a frame brings its lifetime to 0, it has by then flown its range. *)
Lemma flight_outruns_lifetime ticks delta p p' :
  Forall (λ delta, 0 <= delta) ticks → 0 <= delta →
  ticksOf (length ticks) * (371 * u + 64 * eta) <= 70 →
  speed p == 62 → maxDistance p == 70 → distanceTravelled p == 0 →
  timeToLive p == 25 # 10 →
  Rounded.flight rnd ticks p = Some p' →
  timeToLive (Rounded.advanced rnd delta p') <= 0 →
  maxDistance p' <= distanceTravelled (Rounded.advanced rnd delta p').
Proof using rnd_error rnd_nonneg rnd_nonpos rnd_lifetime u_range eta_range.
  intros Hall Hd Hn Hs Hm Hd0 Httl Hf Hout.
  destruct (flight_distance 62 70 72 ticks p p')
    as (Hdist & H0 & _ & Hs' & Hm');
    [lra|lra|lra|done|done|done|lra|lra|done|].
  destruct (flight_lifetime ticks p p') as (Hlife & Hpos & Hle);
    [done|lra|lra|done|].
  apply Qabs_Qle_condition in Hlife as [Hlife _].
  pose proof (tickTime_nonneg ticks Hall) as HT.
  simpl in Hout |- *.
  remember (timeToLive p' - delta) as z eqn:Ez.
  assert (Ez' : z == timeToLive p' - delta) by (by rewrite Ez).
  assert (Hz : z < 1 # 8).
  { destruct (Qlt_le_dec z (1 # 8)) as [?|Hge]; [done|].
    pose proof (rnd_most z ltac:(lra)). lra. }
  remember (speed p' * delta) as x eqn:Ex.
  assert (Ex' : x == 62 * delta) by (rewrite Ex; by rewrite Hs').
  pose proof (rnd_most x ltac:(lra)) as Ht.
  pose proof (rnd_nonneg x ltac:(lra)) as Ht0.
  remember (rnd x) as t eqn:Et.
  remember (distanceTravelled p' + t) as y eqn:Ey.
  assert (Ey' : y == distanceTravelled p' + t) by (by rewrite Ey).
  pose proof (rnd_most y ltac:(lra)) as Hy.
  set (N := ticksOf (length ticks)) in *. set (T := tickTime ticks) in *.
  assert (0 <= N * u).
  { apply Qmult_le_0_compat; [apply ticksOf_nonneg|by destruct u_range]. }
  assert (0 <= N * eta).
  { apply Qmult_le_0_compat; [apply ticksOf_nonneg|by destruct eta_range]. }
  lra.
Qed.

End RoundedFlight.

(** ** Range expiry without enemies *)

Section RangeExpiry.

Import Projectile ProjectileSystem.

(** Without a rounding, [Rounded.flight] is what the frames of a system
    do to each of its projectiles when no enemy is about. *)
Lemma flight_frames r p s ticks :
  wellFormed s → r ∈ projectiles s → store s !! r = Some p →
  Forall (λ tick, noEnemies tick.2) ticks →
  match Rounded.flight (λ x, x) ticks.*1 p with
  | Some p' =>
      r ∈ projectiles (frames ticks s)
      ∧ store (frames ticks s) !! r = Some p'
  | None => (r ∉ projectiles (frames ticks s)) ∧ r ∈ pool (frames ticks s)
  end.
Proof.
  intros Hwf Hin Hs Hall. revert s p Hwf Hin Hs.
  induction Hall as [|[delta em] ticks Hq _ IH]; intros s p Hwf Hin Hs.
  { done. }
  change (frames ((delta, em) :: ticks) s)
    with (frames ticks (system (update delta em s))).
  change (Rounded.flight (λ x, x) ((delta, em) :: ticks).*1 p)
    with (if expired (advanced delta p) then None
          else Rounded.flight (λ x, x) ticks.*1 (advanced delta p)).
  pose proof (update_fate delta em s r p Hwf Hin Hs) as Hf.
  pose proof (update_wf delta em s Hwf) as Hwf1.
  unfold fate in Hf. cbv zeta in Hf.
  destruct (expired (advanced delta p)).
  - destruct Hf as (_ & Hpool & _ & _).
    assert (Hkeep : ∀ s1, wellFormed s1 → r ∈ pool s1 →
              wellFormed (frames ticks s1) ∧ r ∈ pool (frames ticks s1)).
    { clear. induction ticks as [|[d e] ticks IH]; intros s1 Hw Hp; [done|].
      apply IH; [by apply update_wf|by apply update_pool]. }
    destruct (Hkeep _ Hwf1 Hpool) as [Hw Hp]. split; [|done].
    intros Hin'. by apply (wellFormed_disjoint _ _ Hw Hin').
  - destruct Hf as [(_ & Hin1 & Hs1)|(Hno & _)]; [|done].
    by apply IH.
Qed.

(** C8.  A projectile is fired with speed 10 and range 10, and frames
    with positive deltas follow in which no enemy is hit; the arithmetic
    is that of the doubles.  Once the deltas of these frames, [n] of
    them, add up to 1 s and [n * 2^(-51)] s more, the projectile has been
    deactivated: the test of line 66 has fired in one of the frames.  So
    the projectile is deactivated by the first frame at whose end the
    accumulated tick time has reached 1 s and that allowance for the
    roundings, a frame that may end long after 1 s. *)
Theorem range_expiry_rounded (h : Host) (a : SpawnArgs)
    (s : ProjectileSystem.t) (ticks : list Q) (p : Projectile.t) :
  arg_speed a == 10 → default 60 (arg_maxDistance a) == 10 →
  Forall (λ delta, 0 < delta) ticks →
  store (spawnProjectile h a s).2 !! (spawnProjectile h a s).1 = Some p →
  1 + ticksOf (length ticks) * 2 ^ (-51) <= tickTime ticks →
  Rounded.flight Binary64.round ticks p = None.
Proof.
  intros Hsp Hmd Hall Hp HT.
  destruct (spawn_store h a s) as (_ & p0 & Hp0 & _ & Es & Em & Ed & _).
  assert (p0 = p) as -> by congruence.
  destruct (Rounded.flight Binary64.round ticks p) as [p'|] eqn:Hf; [|done].
  exfalso.
  destruct (flight_distance Binary64.round Binary64.unitRoundoff
              Binary64.tiny unitRoundoff_range tiny_range round_error
              round_nonneg 10 10 11 ticks p p')
    as (Hd & _ & Hlt & _); try done; try lra.
  { eapply Forall_impl; [done|]. intros delta. cbv beta. lra. }
  { by rewrite Es. }
  { by rewrite Em. }
  { rewrite Ed. lra. }
  { rewrite Ed. lra. }
  rewrite Ed in Hd.
  pose proof (slack_le (ticksOf (length ticks))
                (3 * (Binary64.unitRoundoff * 11) + 2 * Binary64.tiny)
                (10 * 2 ^ (-51)) (ticksOf_nonneg _) ltac:(done)) as Hs.
  set (N := ticksOf (length ticks)) in *.
  set (c := 3 * (Binary64.unitRoundoff * 11) + 2 * Binary64.tiny) in *.
  set (k := 2 ^ (-51)) in *. lra.
Qed.

End RangeExpiry.

(** Frames of 0.3 s: the shot is still flying after three of them and
    gone after the fourth. *)
Lemma range_expiry_rounded_witness :
  let fire := ProjectileSystem.spawnProjectile reversing_host slow_shot
                ProjectileSystem.constructor in
  let ticks := replicate 4 (double (3 # 10)) in
  ∃ p, ProjectileSystem.store fire.2 !! fire.1 = Some p
    ∧ Rounded.flight Binary64.round (take 3 ticks) p ≠ None
    ∧ Rounded.flight Binary64.round ticks p = None.
Proof.
  intros fire ticks. eexists. split; [vm_compute; reflexivity|].
  split; [by vm_compute|].
  apply (range_expiry_rounded reversing_host slow_shot
           ProjectileSystem.constructor ticks).
  - reflexivity.
  - reflexivity.
  - by repeat constructor.
  - vm_compute. reflexivity.
  - by vm_compute.
Defined.

(** C8 as stated fails, and twice over.  With the five deltas of
    [ticks_to_one_second], which add up to 1 s exactly, the roundings
    leave the projectile at a distance of [10 - 2^(-49)]: at 1.0 s of
    accumulated tick time it is still active, and only a later frame
    deactivates it.  And in exact arithmetic too, frames of 0.3 s find
    the projectile active at 0.9 s, the last time a frame ends at or
    before 1.0 s; the frame that deactivates it ends at 1.2 s. *)
Lemma range_expiry_late :
  (let fire := ProjectileSystem.spawnProjectile reversing_host slow_shot
                 ProjectileSystem.constructor in
   Forall (λ delta, 0 < delta) ticks_to_one_second
   ∧ tickTime ticks_to_one_second == 1
   ∧ ∃ p p', ProjectileSystem.store fire.2 !! fire.1 = Some p
       ∧ Rounded.flight Binary64.round ticks_to_one_second p = Some p'
       ∧ Projectile.active p' = true
       ∧ Projectile.distanceTravelled p' == 10 - 2 ^ (-49))
  ∧ (let fire := ProjectileSystem.spawnProjectile reversing_host slow_shot
                   ProjectileSystem.constructor in
     let ticks := replicate 4 (3 # 10, None) in
     Forall (λ tick, 0 < tick.1 ∧ noEnemies tick.2) ticks
     ∧ accumulated (take 3 ticks) == 9 # 10
     ∧ fire.1 ∈ ProjectileSystem.projectiles (frames (take 3 ticks) fire.2)
     ∧ accumulated ticks == 12 # 10
     ∧ fire.1 ∉ ProjectileSystem.projectiles (frames ticks fire.2)).
Proof.
  split.
  - intros fire. split; [by repeat constructor|]. split; [by vm_compute|].
    eexists. eexists. split; [vm_compute; reflexivity|].
    split; [vm_compute; reflexivity|]. split; [done|]. by vm_compute.
  - intros fire ticks. split; [by repeat constructor|].
    split; [by vm_compute|]. split; [vm_compute; apply list_elem_of_here|].
    split; [by vm_compute|]. vm_compute. apply not_elem_of_nil.
Qed.

(** A slow shot and a frame of 2 s: the projectile expires, once, and no
    impact is looked for. *)
Lemma one_reason_per_tick_witness :
  let s := ProjectileSystem.run reversing_host
             [ProjectileSystem.CallSpawn slow_shot] in
  let T := ProjectileSystem.trace (ProjectileSystem.update 2 None s) in
  (deactivations 0 T ≤ 1)%nat
  ∧ (ProjectileSystem.Deactivated 0 ProjectileSystem.Expiry ∈ T →
     (ProjectileSystem.ImpactQuery 0 ∉ T)
     ∧ ∀ im, ProjectileSystem.EnemyHit 0 im ∉ T).
Proof.
  intros s T.
  destruct (proj2 (one_reason_per_tick reversing_host
                     [ProjectileSystem.CallSpawn slow_shot] 2 None)
              0%nat
              {| Projectile.position := Vector3.zero;
                 Projectile.direction :=
                   Vector3.normalize reversing_host (Vector3.mk 0 0 1);
                 Projectile.speed := 10;
                 Projectile.damage := 22;
                 Projectile.maxDistance := 10;
                 Projectile.distanceTravelled := 0;
                 Projectile.timeToLive := 25 # 10;
                 Projectile.active := true |})
    as (_ & Hone & _ & Hexp).
  - left.
  - vm_compute. reflexivity.
  - split; [exact Hone | exact Hexp].
Defined.

(** * Further properties *)

(** ** The projectile pool *)

Section Pool.

Import Projectile ProjectileSystem.

Lemma deactivated_twice p : deactivated (deactivated p) = deactivated p.
Proof. done. Qed.

Lemma resetLoop_flush (l : list nat) : ∀ s,
  projectiles s = l →
  let s' := resetLoop (length l) s in
  projectiles s' = [] ∧ pool s' = pool s ++ reverse l
  ∧ nextRef s' = nextRef s
  ∧ ∀ r, store s' !! r
         = if decide (r ∈ l) then deactivated <$> store s !! r
           else store s !! r.
Proof.
  induction l as [|x l IH] using rev_ind; intros s E; cbv zeta.
  - simpl. rewrite app_nil_r. by split_and!.
  - rewrite length_app, Nat.add_comm. simpl. rewrite E, length_app. simpl.
    replace (length l + 1)%nat with (S (length l)) by lia. simpl.
    replace (length l - 0)%nat with (length l) by lia.
    assert (Hx : projectiles s !! length l = Some x)
      by (rewrite E; by apply list_lookup_middle).
    rewrite (deactivate_at _ _ x Hx).
    match goal with
    | |- context [resetLoop _ ?s1] =>
        destruct (IH s1) as (Hp & Hpool & Hn & Hst)
    end.
    { simpl. rewrite E. by rewrite delete_middle, app_nil_r. }
    simpl in *. split_and!; try done.
    + rewrite Hpool, reverse_app.
      by rewrite <- (app_assoc (pool s) [x] (reverse l)).
    + intros r. rewrite Hst.
      destruct (decide (r = x)) as [->|Hne].
      * rewrite lookup_alter_eq.
        rewrite (decide_True (P := x ∈ l ++ [x]))
          by (apply elem_of_app; right; left).
        destruct (store s !! x) as [p|]; by case_decide.
      * rewrite lookup_alter_ne by done.
        destruct (decide (r ∈ l)) as [Hin|Hin].
        -- by rewrite decide_True by (apply elem_of_app; by left).
        -- rewrite decide_False; [done|].
           rewrite elem_of_app, list_elem_of_singleton. tauto.
Qed.

(** X1.  [reset] always ends with an empty active list: every projectile
    that was active is appended to the pool, the last one first, with its
    motion fields reset; nothing else changes and no object is created. *)
Theorem reset_flushes (s : ProjectileSystem.t) :
  projectiles (reset s) = []
  ∧ pool (reset s) = pool s ++ reverse (projectiles s)
  ∧ nextRef (reset s) = nextRef s
  ∧ ∀ r, store (reset s) !! r
         = if decide (r ∈ projectiles s) then deactivated <$> store s !! r
           else store s !! r.
Proof. unfold reset. by apply resetLoop_flush. Qed.

(** The number of objects in the two arrays, and the allocator. *)
Lemma updateProjectile_counts delta i w :
  nextRef (system (updateProjectile delta i w)) = nextRef (system w)
  ∧ (length (projectiles (system (updateProjectile delta i w)))
     + length (pool (system (updateProjectile delta i w))))%nat
    = (length (projectiles (system w)) + length (pool (system w)))%nat
  ∧ projectiles (system (updateProjectile delta i w))
    `sublist_of` projectiles (system w).
Proof.
  assert (Hd : ∀ s r, projectiles s !! i = Some r →
    nextRef (_deactivateProjectileAtIndex i s) = nextRef s
    ∧ (length (projectiles (_deactivateProjectileAtIndex i s))
       + length (pool (_deactivateProjectileAtIndex i s)))%nat
      = (length (projectiles s) + length (pool s))%nat
    ∧ projectiles (_deactivateProjectileAtIndex i s)
      `sublist_of` projectiles s).
  { intros s r Hi. rewrite (deactivate_at i s r Hi). simpl.
    split_and!; [done| |apply sublist_delete].
    rewrite length_app, length_delete by eauto.
    apply lookup_lt_Some in Hi. simpl. lia. }
  unfold updateProjectile.
  destruct (projectiles (system w) !! i) as [r|] eqn:Hi; [|done].
  destruct (store (system w) !! r) as [p|]; [|done].
  destruct (negb (active p)); [by apply (Hd _ r)|].
  destruct (expired (advanced delta p));
    [exact (Hd (write r (advanced delta p) (system w)) r Hi)|].
  destruct (queryImpact _ _) as [em' [im|]]; [|done].
  exact (Hd (write r (advanced delta p) (system w)) r Hi).
Qed.

Lemma update_counts delta em s :
  nextRef (system (update delta em s)) = nextRef s
  ∧ (length (projectiles (system (update delta em s)))
     + length (pool (system (update delta em s))))%nat
    = (length (projectiles s) + length (pool s))%nat
  ∧ projectiles (system (update delta em s)) `sublist_of` projectiles s.
Proof.
  unfold update.
  apply (forDown_ind (λ w,
    nextRef (system w) = nextRef s
    ∧ (length (projectiles (system w)) + length (pool (system w)))%nat
      = (length (projectiles s) + length (pool s))%nat
    ∧ projectiles (system w) `sublist_of` projectiles s)); [done|].
  intros i w _ (Hn & Hc & Hs).
  destruct (updateProjectile_counts delta i w) as (Hn' & Hc' & Hs').
  split_and!; [congruence|lia|by etrans].
Qed.

Lemma spawn_counts h a s :
  let s' := (spawnProjectile h a s).2 in
  length (projectiles s') = S (length (projectiles s))
  ∧ ((pool s = [] ∧ nextRef s' = S (nextRef s) ∧ pool s' = []
      ∧ (spawnProjectile h a s).1 = nextRef s)
     ∨ (nextRef s' = nextRef s
        ∧ pool s = pool s' ++ [(spawnProjectile h a s).1])).
Proof.
  unfold spawnProjectile.
  destruct (getProjectile_cases s) as [(rest & Ep & Es)|(Ep & Er & Es)];
    destruct (_getProjectile s) as [r s1]; simpl in *; subst s1; simpl;
    rewrite length_app; simpl.
  - split; [lia|]. right. done.
  - split; [lia|]. left. done.
Qed.

Lemma call_counts h c s :
  (length (projectiles s) + length (pool s))%nat = nextRef s →
  (length (projectiles (call h c s)) + length (pool (call h c s)))%nat
  = nextRef (call h c s)
  ∧ (nextRef s ≤ nextRef (call h c s))%nat
  ∧ (nextRef (call h c s) = nextRef s
     ∨ length (projectiles (call h c s)) = nextRef (call h c s)).
Proof.
  intros Hc. destruct c as [a|delta em|]; simpl.
  - destruct (spawn_counts h a s) as (Hl & [(Hp & Hn & Hp' & _)|(Hn & Hp)]).
    + rewrite Hp in Hc. simpl in Hc. rewrite Hl, Hn, Hp'. simpl.
      split_and!; [lia|lia|right; lia].
    + rewrite Hp, length_app in Hc. simpl in Hc. rewrite Hl, Hn.
      split_and!; [lia|lia|by left].
  - destruct (update_counts delta em s) as (Hn & Hl & _).
    rewrite Hn, Hl. split_and!; [done|lia|by left].
  - unfold reset.
    destruct (resetLoop_flush (projectiles s) s eq_refl)
      as (Hp & Hpool & Hn & _).
    rewrite Hp, Hpool, Hn, length_app, length_reverse. simpl.
    split_and!; [lia|lia|by left].
Qed.

Lemma run_counts h calls :
  (length (projectiles (run h calls)) + length (pool (run h calls)))%nat
  = nextRef (run h calls).
Proof.
  induction calls as [|c calls IH] using rev_ind; [done|].
  rewrite run_snoc_projectiles. by apply call_counts.
Qed.

(** X2.  In every session the two arrays together hold each projectile
    object ever created exactly once: they are a permutation of the
    references handed out so far.  No object is lost, none is in both
    arrays, and each one has its record in the store. *)
Theorem objects_conserved (h : Host) (calls : list Call) :
  let s := run h calls in
  projectiles s ++ pool s ≡ₚ seq 0 (nextRef s)
  ∧ ∀ r, (r < nextRef s)%nat → is_Some (store s !! r).
Proof.
  cbv zeta. pose proof (run_wf h calls) as (Hnd & Hlt & Hact & Hpool).
  pose proof (run_counts h calls) as Hc.
  assert (Hperm : projectiles (run h calls) ++ pool (run h calls)
                  ≡ₚ seq 0 (nextRef (run h calls))).
  { apply submseteq_length_Permutation.
    - apply NoDup_submseteq; [done|].
      intros r Hr. apply elem_of_seq. specialize (Hlt r Hr). lia.
    - rewrite length_seq, length_app. lia. }
  split; [done|]. intros r Hr.
  assert (Hin : r ∈ projectiles (run h calls) ++ pool (run h calls)).
  { rewrite Hperm. apply elem_of_seq. lia. }
  apply elem_of_app in Hin as [Hin|Hin].
  - destruct (Hact r Hin) as (p & -> & _). eauto.
  - destruct (Hpool r Hin) as (p & -> & _). eauto.
Qed.

(** X3.  The number of projectile objects created in a session is the
    largest number of projectiles that were active at the same time: at
    no point of the session were more projectiles active, and at some
    point that many were.  An object is created only when the pool is
    empty. *)
Theorem pool_high_water (h : Host) (calls : list Call) :
  (∀ k, (length (projectiles (run h (take k calls)))
         ≤ nextRef (run h calls))%nat)
  ∧ ∃ k, length (projectiles (run h (take k calls))) = nextRef (run h calls).
Proof.
  induction calls as [|c calls [IHle [k IHk]]] using rev_ind.
  - split; [intros k; by rewrite take_nil|]. exists 0%nat. done.
  - rewrite run_snoc_projectiles.
    destruct (call_counts h c (run h calls) (run_counts h calls))
      as (Hc & Hmono & Hcase).
    split.
    + intros j. destruct (decide (j ≤ length calls)%nat) as [Hj|Hj].
      * rewrite take_app_le by done. specialize (IHle j). lia.
      * rewrite take_ge by (rewrite length_app; simpl; lia).
        rewrite run_snoc_projectiles. lia.
    + destruct Hcase as [Hsame|Hfull].
      * destruct (decide (k ≤ length calls)%nat) as [Hk|Hk].
        -- exists k. rewrite take_app_le by done. congruence.
        -- exists (length calls). rewrite take_app_le by done.
           rewrite take_ge in IHk by lia. rewrite take_ge by lia. congruence.
      * exists (S (length calls)).
        rewrite take_ge by (rewrite length_app; simpl; lia).
        by rewrite run_snoc_projectiles.
Qed.

(** X4.  [spawnProjectile] never touches a projectile in flight: the
    object it initialises is not in the active list, the active list only
    gains that object, at its end, and the records of the projectiles
    already in it are unchanged. *)
Theorem spawn_spares_active (h : Host) (calls : list Call) (a : SpawnArgs) :
  let s := run h calls in
  let r := (spawnProjectile h a s).1 in
  let s' := (spawnProjectile h a s).2 in
  (r ∉ projectiles s)
  ∧ projectiles s' = projectiles s ++ [r]
  ∧ ∀ r', r' ∈ projectiles s → store s' !! r' = store s !! r'.
Proof.
  cbv zeta. pose proof (run_wf h calls) as Hwf.
  set (s := run h calls) in *.
  pose proof Hwf as (Hnd & Hlt & _).
  assert (Hfresh : (spawnProjectile h a s).1 ∉ projectiles s).
  { destruct (spawn_counts h a s) as (_ & [(_ & _ & _ & ->)|(_ & Hp)]).
    - intros Hin. specialize (Hlt (nextRef s)).
      rewrite elem_of_app in Hlt. specialize (Hlt (or_introl Hin)). lia.
    - intros Hin. apply (wellFormed_disjoint s _ Hwf Hin).
      rewrite Hp. apply elem_of_app. right. left. }
  split; [done|]. revert Hfresh. unfold spawnProjectile.
  destruct (getProjectile_cases s) as [(rest & Ep & Es)|(Ep & Er & Es)];
    destruct (_getProjectile s) as [r s1]; simpl in *; subst s1; simpl;
    intros Hfresh; (split; [done|]); intros r' Hin;
    assert (r ≠ r') by (by intros ->).
  - by rewrite lookup_insert_ne.
  - subst r. by rewrite !lookup_insert_ne.
Qed.

End Pool.

(** ** Projectiles in flight *)

Section Flight.

Import Projectile ProjectileSystem.

(** X5.  One [update] of a session's system: every projectile that was
    active is afterwards either still active, moved by [speed * delta]
    along its direction, its distance grown and its lifetime shortened by
    as much, and then it has neither reached its range nor outlived its
    lifetime; or it is out of the active list and in the pool, inactive,
    its distance and lifetime reset.  The active list keeps its order and
    gains nothing; pooled objects stay pooled, untouched; no object is
    created. *)
Theorem update_moves_or_retires (h : Host) (calls : list Call) (delta : Q)
    (em : option EnemyManager.t) :
  let s := run h calls in
  let s' := system (update delta em s) in
  projectiles s' `sublist_of` projectiles s
  ∧ nextRef s' = nextRef s
  ∧ (∀ r, r ∈ pool s → r ∈ pool s' ∧ store s' !! r = store s !! r)
  ∧ ∀ r p, r ∈ projectiles s → store s !! r = Some p →
      (r ∈ projectiles s' ∧ store s' !! r = Some (advanced delta p)
       ∧ expired (advanced delta p) = false)
      ∨ ((r ∉ projectiles s') ∧ r ∈ pool s'
         ∧ store s' !! r = Some (deactivated (advanced delta p))).
Proof.
  cbv zeta. pose proof (run_wf h calls) as Hwf.
  destruct (update_counts delta em (run h calls)) as (Hn & _ & Hsub).
  split_and!; [done..| |].
  - intros r Hr. by apply update_pool.
  - intros r p Hr Hs.
    pose proof (update_fate delta em _ r p Hwf Hr Hs) as Hf.
    unfold fate, retired in Hf. cbv zeta in Hf.
    destruct (expired (advanced delta p)).
    + right. tauto.
    + destruct Hf as [(_ & ? & ?)|(_ & _ & ?)]; [by left|right; tauto].
Qed.

(** X6.  No projectile outlives its lifetime, in the arithmetic of the
    doubles.  Fire a projectile, whatever its speed and its range, and
    let frames with non-negative deltas follow.  Once the deltas of
    these frames, [n] of them, add up to 2.5 s and [n * 2^(-51)] s more,
    the projectile has been deactivated: the test of line 66 has fired
    in one of the frames, if no enemy was hit before. *)
Theorem lifetime_bound (h : Host) (a : SpawnArgs) (s : ProjectileSystem.t)
    (ticks : list Q) (p : Projectile.t) :
  Forall (λ delta, 0 <= delta) ticks →
  store (spawnProjectile h a s).2 !! (spawnProjectile h a s).1 = Some p →
  DEFAULT_PROJECTILE_LIFETIME + ticksOf (length ticks) * 2 ^ (-51)
  <= tickTime ticks →
  Rounded.flight Binary64.round ticks p = None.
Proof.
  intros Hall Hp HT.
  destruct (spawn_store h a s) as (_ & p0 & Hp0 & _ & _ & _ & _ & Et).
  assert (p0 = p) as -> by congruence.
  destruct (Rounded.flight Binary64.round ticks p) as [p'|] eqn:Hf; [|done].
  exfalso. unfold DEFAULT_PROJECTILE_LIFETIME in *.
  destruct (flight_lifetime Binary64.round Binary64.unitRoundoff
              Binary64.tiny unitRoundoff_range round_error round_nonpos
              round_lifetime ticks p p')
    as (Hl & Hpos & _); [done|rewrite Et; lra|rewrite Et; lra|done|].
  apply Qabs_Qle_condition in Hl as [_ Hl]. rewrite Et in Hl.
  pose proof (slack_le (ticksOf (length ticks))
                ((25 # 10) * Binary64.unitRoundoff + Binary64.tiny)
                (2 ^ (-51)) (ticksOf_nonneg _) ltac:(done)) as Hs.
  set (N := ticksOf (length ticks)) in *.
  set (c := (25 # 10) * Binary64.unitRoundoff + Binary64.tiny) in *.
  set (k := 2 ^ (-51)) in *. lra.
Qed.

End Flight.

(** A crawling shot and the deltas 0.9 s, 0.9 s and 0.7 s, which add up
    to 2.5 s: the roundings leave a lifetime of [2^(-53)] s, so the shot
    is still flying.  One more millisecond, and it is gone. *)
Lemma lifetime_bound_witness :
  let fire := ProjectileSystem.spawnProjectile reversing_host crawling_shot
                ProjectileSystem.constructor in
  ∃ p, ProjectileSystem.store fire.2 !! fire.1 = Some p
    ∧ tickTime ticks_to_lifetime == 25 # 10
    ∧ (∃ p', Rounded.flight Binary64.round ticks_to_lifetime p = Some p'
         ∧ Projectile.timeToLive p' == 2 ^ (-53))
    ∧ Rounded.flight Binary64.round (ticks_to_lifetime ++ [1 # 1000]) p
      = None.
Proof.
  intros fire. eexists. split; [vm_compute; reflexivity|].
  split; [by vm_compute|]. split.
  { eexists. split; [vm_compute; reflexivity|]. by vm_compute. }
  apply (lifetime_bound reversing_host crawling_shot
           ProjectileSystem.constructor (ticks_to_lifetime ++ [1 # 1000])).
  - unfold ticks_to_lifetime. cbn [app].
    repeat (apply Forall_cons_2; [by vm_compute|]). apply Forall_nil_2.
  - vm_compute. reflexivity.
  - by vm_compute.
Defined.

(** ** The wave scheduler over a session *)

Section Waves.

Import EnemyManager.

Context (h : Host) (Hh : HostOk h).

Lemma composition_known w :
  Forall (λ type, is_Some (enemyDefinitions !! type)) (composition w).
Proof.
  unfold composition.
  repeat (apply Forall_app; split);
    repeat case_match; try apply Forall_nil_2;
    apply Forall_replicate; eexists; reflexivity.
Qed.

Lemma composition_nonempty w : (1 ≤ w)%Z → composition w ≠ [].
Proof.
  intros Hw. unfold composition.
  destruct (Z.to_nat (5 + w * 2)) eqn:E; [lia|done].
Qed.

Lemma orderly_scheduling s1 s2 :
  scheduling s1 = scheduling s2 → orderly s1 → orderly s2.
Proof.
  intros E. injection E as _ Ew _ _ Eq Ep _ _.
  unfold orderly. by rewrite Ew, Eq, Ep.
Qed.

Lemma maybeSchedule_orderly s :
  orderly s → orderly (_maybeScheduleNewWave h s).
Proof using Hh.
  intros Ho. pose proof Ho as (Hw & Hq & Hk). unfold _maybeScheduleNewWave.
  destruct (waveInProgress s) eqn:Ewip; [exact Ho|].
  destruct (enemyEntries s), (spawnQueue s) eqn:Eq; simpl; try exact Ho.
  unfold orderly. simpl. rewrite Eq. simpl.
  pose proof (Hh (randomDraws s) (composition (wave s))) as Hp.
  split_and!; [done| |].
  - split; [|done]. intros _ E. rewrite E in Hp.
    apply Permutation_nil_l in Hp. by apply (composition_nonempty (wave s)).
  - rewrite Hp. apply composition_known.
Qed.

Lemma handleSpawning_orderly pp s :
  orderly s → orderly (_handleSpawning h pp s).
Proof.
  intros Ho. pose proof Ho as (Hw & Hq & Hk).
  destruct (handleSpawning_cases h pp s)
    as [->|(t & rest & Hwip & Eq & Ht & Hn)]; [exact Ho|].
  rewrite (handleSpawning_open h pp s t rest) by done.
  set (s1 := set_spawnQueue rest (set_spawnTimer 0 s)).
  destruct (getSpawnPosition_frame h pp s1)
    as (_ & _ & Fw & _ & _ & Fq & Fp & _).
  destruct (spawnEnemy_frame h t
              (Some (_getSpawnPositionRelativeTo h pp s1).1)
              (_getSpawnPositionRelativeTo h pp s1).2)
    as (_ & _ & Gw & _ & _ & Gq & Gp).
  rewrite Eq in Hk. apply Forall_cons in Hk as [_ Hk].
  destruct rest; unfold orderly; simpl; rewrite ?Gw, ?Fw, ?Gq, ?Fq, ?Gp, ?Fp;
    simpl; split_and!; try done; lia.
Qed.

Lemma call_orderly c s : orderly s → orderly (call h c s).
Proof using Hh.
  intros Ho. destruct c as [delta pp|point damage|type pos|k loaded|]; simpl.
  - apply (orderly_scheduling _ _ (eq_sym (update_scheduling h delta pp s))).
    apply handleSpawning_orderly, maybeSchedule_orderly. exact Ho.
  - apply (orderly_scheduling s); [|done].
    symmetry. apply impact_scheduling.
  - destruct Ho as (Hw & Hq & Hk).
    destruct (spawnEnemy_frame h type pos s) as (_ & _ & Gw & _ & _ & Gq & Gp).
    unfold orderly. by rewrite Gw, Gq, Gp.
  - unfold settleSpawn. by destruct (pendingSpawns s !! k).
  - unfold orderly. simpl. split_and!; [lia|done|done].
Qed.

Lemma run_orderly calls : orderly (run h calls).
Proof using Hh.
  induction calls as [|c calls IH] using rev_ind.
  - unfold orderly. simpl. split_and!; [lia|done|done].
  - rewrite run_snoc. by apply call_orderly.
Qed.

(** X7.  Whenever the host's [sort] keeps the array's elements, every
    session keeps the wave scheduler in order: the wave number is at
    least 1, the spawn queue is non-empty exactly while a wave is in
    progress, and every queued type has a definition.  So the branch of
    [spawnEnemy] for unknown types is never taken by the scheduler: each
    entry that [_handleSpawning] takes off the queue puts exactly one
    enemy in the making. *)
Theorem scheduler_in_order (calls : list Call) :
  let s := run h calls in
  (1 ≤ wave s)%Z
  ∧ (waveInProgress s = true ↔ spawnQueue s ≠ [])
  ∧ Forall (λ type, is_Some (enemyDefinitions !! type)) (spawnQueue s)
  ∧ ∀ pp, spawnQueue (_handleSpawning h pp s) ≠ spawnQueue s →
      length (pendingSpawns (_handleSpawning h pp s))
      = S (length (pendingSpawns s)).
Proof using Hh.
  cbv zeta. destruct (run_orderly calls) as (Hw & Hq & Hk).
  split_and!; [done..|]. intros pp Hne.
  destruct (handleSpawning_cases h pp (run h calls))
    as [E|(t & rest & Hwip & Eq & Ht & Hn)]; [by rewrite E in Hne|].
  rewrite (handleSpawning_open h pp _ t rest) by done.
  set (s1 := set_spawnQueue rest (set_spawnTimer 0 (run h calls))).
  destruct (getSpawnPosition_frame h pp s1)
    as (_ & _ & _ & _ & _ & _ & _ & Fp).
  rewrite Eq in Hk. apply Forall_cons in Hk as [[def Hdef] _].
  set (ps := _getSpawnPositionRelativeTo h pp s1) in *.
  assert (Hlen : length (pendingSpawns (spawnEnemy h t (Some ps.1) ps.2))
                 = S (length (pendingSpawns (run h calls)))).
  { rewrite (spawnEnemy_pending h t ps.1 ps.2 def Hdef), length_app, Fp.
    simpl. lia. }
  by destruct rest.
Qed.

End Waves.

(** The first frame of a game composes wave 1 and spawns its first
    grunt. *)
Lemma scheduler_in_order_witness :
  let s := EnemyManager.run reversing_host
             [EnemyManager.CallUpdate (16 # 1000) None] in
  (EnemyManager.waveInProgress s = true ↔ EnemyManager.spawnQueue s ≠ [])
  ∧ length (EnemyManager.spawnQueue s) = 6%nat.
Proof.
  intros s. split; [|reflexivity].
  apply (scheduler_in_order reversing_host reversing_host_ok
           [EnemyManager.CallUpdate (16 # 1000) None]).
Defined.

(** ** Enemies over a session *)

Section Enemies.

Import EnemyManager.

Context (h : Host).

Lemma Enemy_update_frame delta pp e :
  let e' := (Enemy.update h delta pp e).1 in
  Enemy.config e' = Enemy.config e ∧ Enemy.health e' = Enemy.health e
  ∧ Enemy.isAlive e' = Enemy.isAlive e
  ∧ Enemy.boundingRadius e' = Enemy.boundingRadius e
  ∧ Enemy.height e' = Enemy.height e.
Proof.
  unfold Enemy.update. destruct (Enemy.isAlive e) eqn:Ea; simpl; [|done].
  destruct pp as [player|]; [|done]. by repeat case_cmp.
Qed.

Lemma Enemy_init_frame loaded e :
  Enemy.config (Enemy.init loaded e) = Enemy.config e
  ∧ Enemy.health (Enemy.init loaded e) = Enemy.health e
  ∧ Enemy.isAlive (Enemy.init loaded e) = Enemy.isAlive e
  ∧ Enemy.position (Enemy.init loaded e) = Enemy.position e.
Proof. by destruct loaded. Qed.

Lemma definitions_cases type def :
  enemyDefinitions !! type = Some def →
  def = definition "grunt" 60 (55 # 10) 10 60 (19 # 10) (14 # 10) (105 # 100)
  ∨ def = definition "runner" 40 (85 # 10) 8 80 (16 # 10) 1 (95 # 100)
  ∨ def = definition "brute" 140 (36 # 10) 18 150 (26 # 10) (22 # 10)
            (135 # 100).
Proof.
  unfold enemyDefinitions. intros E.
  apply lookup_insert_Some in E as [ [_ <-] | [_ E] ]; [by left|].
  apply lookup_insert_Some in E as [ [_ <-] | [_ E] ]; [by right; left|].
  apply lookup_insert_Some in E as [ [_ <-] | [_ E] ]; [by right; right|].
  by rewrite lookup_empty in E.
Qed.

Lemma defined_positive e :
  defined e →
  0 < Enemy.maxHealth (Enemy.config e) ∧ 60 <= Enemy.reward (Enemy.config e)
  ∧ 0 < Enemy.damage (Enemy.config e).
Proof.
  intros (type & def & pos & Hdef & ->).
  destruct (definitions_cases type def Hdef) as [-> | [-> | ->] ]; simpl;
    split_and!; lra.
Qed.

Lemma constructor_pending type def pos :
  enemyDefinitions !! type = Some def →
  soundPending (Enemy.constructor (withSpawnPosition def pos)).
Proof. intros Hdef. split_and!; [|done..]. by exists type, def, pos. Qed.

Lemma spawnEnemy_pending_cases type pos s :
  pendingSpawns (spawnEnemy h type pos s) = pendingSpawns s
  ∨ ∃ e, soundPending e
      ∧ pendingSpawns (spawnEnemy h type pos s) = pendingSpawns s ++ [e].
Proof.
  unfold spawnEnemy.
  destruct (enemyDefinitions !! type) as [def|] eqn:Hdef; [|by left].
  right. destruct pos as [p|]; simpl;
    eexists; (split; [by eapply constructor_pending|done]).
Qed.

Lemma handleSpawning_pending pp s :
  pendingSpawns (_handleSpawning h pp s) = pendingSpawns s
  ∨ ∃ e, soundPending e
      ∧ pendingSpawns (_handleSpawning h pp s) = pendingSpawns s ++ [e]
      ∧ spawnTimer (_handleSpawning h pp s) = 0.
Proof.
  destruct (handleSpawning_cases h pp s)
    as [->|(t & rest & Hwip & Eq & Ht & Hn)]; [by left|].
  rewrite (handleSpawning_open h pp s t rest) by done.
  set (s1 := set_spawnQueue rest (set_spawnTimer 0 s)).
  destruct (getSpawnPosition_frame h pp s1)
    as (_ & Ft & _ & _ & _ & _ & _ & Fp).
  set (ps := _getSpawnPositionRelativeTo h pp s1) in *.
  destruct (spawnEnemy_frame h t (Some ps.1) ps.2) as (_ & Gt & _).
  destruct (spawnEnemy_pending_cases t (Some ps.1) ps.2)
    as [E|(e & He & E)]; [left|right; exists e; split; [done|]];
    destruct rest; simpl; rewrite ?E, ?Fp, ?Gt, ?Ft; done.
Qed.

Lemma update_pending delta pp s :
  pendingSpawns (update h delta pp s).1 = pendingSpawns s
  ∨ ∃ e, soundPending e
      ∧ pendingSpawns (update h delta pp s).1 = pendingSpawns s ++ [e]
      ∧ spawnTimer (update h delta pp s).1 = 0.
Proof.
  pose proof (update_scheduling h delta pp s) as E.
  injection E as Et _ _ _ _ _ Ep _. rewrite Ep, Et.
  destruct (maybeSchedule_frame h (advanceClocks delta s))
    as (_ & _ & _ & _ & Mp).
  destruct (handleSpawning_pending pp
              (_maybeScheduleNewWave h (advanceClocks delta s)))
    as [E|(e & He & E & Et')]; rewrite Mp in E; [by left|right; eauto].
Qed.

(** X8.  In one frame, however long, [update] hands at most one enemy to
    [spawnEnemy]; when it does, the spawn timer restarts from 0 and the
    enemy in the making is alive, at full health, built from one of the
    definitions. *)
Theorem one_spawn_per_frame (delta : Q) (pp : option Vector3.t)
    (s : EnemyManager.t) :
  let s' := (update h delta pp s).1 in
  pendingSpawns s' = pendingSpawns s
  ∨ ∃ e, pendingSpawns s' = pendingSpawns s ++ [e]
      ∧ spawnTimer s' = 0
      ∧ Enemy.isAlive e = true
      ∧ Enemy.health e = Enemy.maxHealth (Enemy.config e)
      ∧ ∃ type def pos, enemyDefinitions !! type = Some def
          ∧ Enemy.config e = withSpawnPosition def pos.
Proof.
  cbv zeta. destruct (update_pending delta pp s)
    as [E|(e & (Hd & Ha & Hh) & E & Et)]; [by left|right].
  exists e. split_and!; done.
Qed.

Lemma entryAfter_sound delta pp entry entry' :
  0 <= delta → soundEntry entry →
  entryAfter h delta pp entry = Some entry' → soundEntry entry'.
Proof.
  intros Hd [Hdef Hs]. unfold entryAfter, soundEntry in *. cbv zeta in *.
  destruct (Enemy_update_frame delta pp (enemy entry))
    as (Hc & Hh & Ha & _).
  destruct (Enemy.isAlive (enemy entry)) eqn:Ealive.
  - intros [= <-]. simpl. rewrite Ha, ?Ealive, Hh, Hc.
    split; [|done]. destruct Hdef as (type & def & pos & ? & ?).
    exists type, def, pos. by rewrite Hc.
  - case_cmp; [done|]. intros [= <-]. simpl. rewrite Ealive.
    split; [done|]. split_and!; [tauto|lra|lra].
Qed.

Lemma takeDamage_sound damage entry :
  0 <= damage → soundEntry entry →
  soundEntry {| enemy := (Enemy.takeDamage damage (enemy entry)).1;
                deathTimer := deathTimer entry |}.
Proof.
  intros Hd [Hdef Hs]. unfold soundEntry in *. cbv zeta in *. simpl.
  destruct (takeDamage_frame damage (enemy entry)) as (Hc & _).
  split.
  { destruct Hdef as (type & def & pos & ? & ?).
    exists type, def, pos. by rewrite Hc. }
  rewrite Hc. unfold Enemy.takeDamage.
  destruct (Enemy.isAlive (enemy entry)) eqn:Ealive; simpl;
    [|by rewrite ?Ealive].
  destruct Hs as (Hpos & Hmax & Ht).
  case_cmp; simpl.
  - rewrite Ht. unfold DEATH_CLEANUP_DELAY. split_and!; [done|lra|lra].
  - rewrite ?Ealive. split_and!; [lra|lra|done].
Qed.

Lemma impact_effect point damage s :
  handleProjectileImpact point damage s = (s, None)
  ∨ ∃ i entry,
      enemyEntries s !! i = Some entry
      ∧ Enemy.isAlive (enemy entry) = true
      ∧ handleProjectileImpact point damage s
        = (set_enemyEntries
             (<[i := {| enemy := (Enemy.takeDamage damage (enemy entry)).1;
                        deathTimer := deathTimer entry |}]> (enemyEntries s))
             s,
           Some {| Impact.enemy := i;
                   Impact.wasFatal :=
                     (Enemy.takeDamage damage (enemy entry)).2;
                   Impact.reward :=
                     if (Enemy.takeDamage damage (enemy entry)).2
                     then Enemy.reward (Enemy.config (enemy entry)) else 0;
                   Impact.damage := damage |}).
Proof.
  unfold handleProjectileImpact.
  pose proof (scan_scanned point (enemyEntries s)) as Hs.
  destruct (forEachFrom _ _ _ _) as [[i|] [d|]]; try done; [|by left..].
  destruct Hs as (_ & entry & He & [Ha _] & _).
  right. exists i, entry. rewrite He. split_and!; [done..|].
  destruct (takeDamage_frame damage (enemy entry)) as (Hcfg & _).
  destruct (Enemy.takeDamage damage (enemy entry)) as [e' fatal].
  simpl in *. by rewrite Hcfg.
Qed.

Lemma call_sound c s :
  gentle c →
  Forall soundEntry (enemyEntries s) → Forall soundPending (pendingSpawns s) →
  Forall soundEntry (enemyEntries (call h c s))
  ∧ Forall soundPending (pendingSpawns (call h c s)).
Proof.
  intros Hg He Hp. destruct c as [delta pp|point damage|type pos|k loaded|];
    simpl in *.
  - split.
    + rewrite update_entries. apply Forall_forall. intros entry' Hin.
      apply list_elem_of_omap in Hin as (entry & Hin & Hafter).
      rewrite Forall_forall in He.
      by apply (entryAfter_sound delta pp entry entry' Hg (He _ Hin)).
    + destruct (update_pending delta pp s) as [->|(e & Hs & -> & _)];
        [done|]. apply Forall_app. split; [done|]. by apply Forall_singleton.
  - pose proof (impact_scheduling point damage s) as E.
    injection E as _ _ _ _ _ _ Ep _. rewrite Ep. split; [|done].
    destruct (impact_effect point damage s)
      as [->|(i & entry & Hi & Ha & ->)]; [done|]. simpl.
    apply Forall_insert; [done|]. apply takeDamage_sound; [done|].
    rewrite Forall_forall in He. apply He.
    by eapply list_elem_of_lookup_2.
  - destruct (spawnEnemy_frame h type pos s) as (-> & _). split; [done|].
    destruct (spawnEnemy_pending_cases type pos s) as [->|(e & Hs & ->)];
      [done|]. apply Forall_app. split; [done|]. by apply Forall_singleton.
  - unfold settleSpawn.
    destruct (pendingSpawns s !! k) as [e|] eqn:Hk; [|done]. simpl.
    rewrite Forall_forall in Hp.
    destruct (Hp e) as (Hd & Ha & Hh); [by eapply list_elem_of_lookup_2|].
    destruct (Enemy_init_frame loaded e) as (Ic & Ih & Ia & _).
    split.
    + apply Forall_app. split; [done|]. apply Forall_singleton.
      unfold soundEntry. cbv zeta. simpl. rewrite Ia, Ha, Ih, Ic, Hh.
      destruct (defined_positive e Hd) as (Hpos & _).
      split; [|split_and!; [done|lra|done]].
      destruct Hd as (type & def & pos & ? & ?).
      exists type, def, pos. by rewrite Ic.
    + apply Forall_delete. by apply Forall_forall.
  - split; [apply Forall_nil_2|done].
Qed.

Lemma run_sound calls :
  Forall gentle calls →
  Forall soundEntry (enemyEntries (run h calls))
  ∧ Forall soundPending (pendingSpawns (run h calls)).
Proof.
  induction calls as [|c calls IH] using rev_ind; intros Hall.
  - split; apply Forall_nil_2.
  - apply Forall_app in Hall as [Hall Hc]. apply Forall_inv in Hc.
    rewrite run_snoc. destruct (IH Hall). by apply call_sound.
Qed.

(** X9.  In a session whose frame deltas and damage values are not
    negative and whose calls of [spawnEnemy] name one of the three enemy
    types, every enemy of the roster was built from one of the three
    definitions, is alive exactly when its health is positive, and has a
    health between 0 and its [maxHealth].  An alive enemy's death timer
    has not started; a dead enemy's health is 0 and it has waited less
    than the 1.8 s cleanup delay. *)
Theorem roster_sound (calls : list Call) (entry : Entry) :
  Forall gentle calls → Forall known calls →
  entry ∈ enemyEntries (run h calls) →
  let e := enemy entry in
  (∃ type def pos, enemyDefinitions !! type = Some def
     ∧ Enemy.config e = withSpawnPosition def pos)
  ∧ (Enemy.isAlive e = true ↔ 0 < Enemy.health e)
  ∧ 0 <= Enemy.health e
  ∧ Enemy.health e <= Enemy.maxHealth (Enemy.config e)
  ∧ (Enemy.isAlive e = true → deathTimer entry = 0)
  ∧ (Enemy.isAlive e = false →
     Enemy.health e = 0 ∧ 0 <= deathTimer entry
     ∧ deathTimer entry < DEATH_CLEANUP_DELAY).
Proof.
  intros Hall _ Hin. destruct (run_sound calls Hall) as [He _].
  rewrite Forall_forall in He. destruct (He entry Hin) as [Hd Hs].
  cbv zeta in *. destruct (defined_positive _ Hd) as (Hpos & _).
  destruct (Enemy.isAlive (enemy entry)).
  - destruct Hs as (? & ? & ?). split_and!; try done; try lra.
  - destruct Hs as (Hz & ? & ?). rewrite Hz.
    split_and!; try done; try lra.
Qed.

End Enemies.

(** The first grunt of a game, on the roster with its fallback model,
    and a runner asked for after it. *)
Lemma roster_sound_witness :
  let s := EnemyManager.run reversing_host grunt_and_runner in
  Forall known grunt_and_runner
  ∧ ∃ entry, entry ∈ EnemyManager.enemyEntries s
      ∧ (Enemy.isAlive (EnemyManager.enemy entry) = true
         ↔ 0 < Enemy.health (EnemyManager.enemy entry))
      ∧ Enemy.health (EnemyManager.enemy entry) <= 60.
Proof.
  intros s.
  assert (Hknown : Forall known grunt_and_runner).
  { repeat constructor. by eexists. }
  split; [exact Hknown|].
  assert (Hin : {| EnemyManager.enemy :=
                     grunt_at (Vector3.mk (68 # 2) 0 (0 # 2));
                   EnemyManager.deathTimer := 0 |}
                ∈ EnemyManager.enemyEntries s).
  { vm_compute. apply list_elem_of_here. }
  eexists. split; [exact Hin|].
  destruct (roster_sound reversing_host grunt_and_runner _
              ltac:(repeat constructor; simpl; lra) Hknown Hin)
    as (_ & Hiff & _ & Hmax & _).
  split; [exact Hiff | exact Hmax].
Defined.

(** ** The roster during one frame, continued *)

Section Living.

Import EnemyManager.

Context (h : Host).

Lemma alive_after delta pp (l : list Entry) :
  enemy <$> filter (λ entry, Enemy.isAlive (enemy entry) = true)
                   (omap (entryAfter h delta pp) l)
  = (λ e, (Enemy.update h delta pp e).1)
    <$> (enemy <$> filter (λ entry, Enemy.isAlive (enemy entry) = true) l).
Proof.
  induction l as [|entry l IH]; [done|]. csimpl.
  unfold entryAfter at 1. cbv zeta.
  destruct (Enemy_update_frame h delta pp (enemy entry)) as (_ & _ & Ha & _).
  destruct (Enemy.isAlive (enemy entry)) eqn:Ealive.
  - rewrite !filter_cons_True by (simpl; congruence).
    csimpl. by rewrite IH.
  - case_cmp; rewrite !filter_cons_False by (simpl; congruence); done.
Qed.

Lemma omap_removed delta pp (l : list Entry) :
  (length (omap (entryAfter h delta pp) l)
   + length (filter (λ entry, cleanedUp delta entry = true) l))%nat
  = length l.
Proof.
  induction l as [|entry l IH]; [done|]. csimpl.
  unfold entryAfter at 1. cbv zeta.
  destruct (Enemy.isAlive (enemy entry)) eqn:Ealive.
  - rewrite filter_cons_False by (unfold cleanedUp; by rewrite Ealive).
    simpl. lia.
  - destruct (Qleb DEATH_CLEANUP_DELAY (deathTimer entry + delta)) eqn:Ec.
    + rewrite filter_cons_True by (unfold cleanedUp; by rewrite Ealive, Ec).
      simpl. lia.
    + rewrite filter_cons_False
        by (unfold cleanedUp; by rewrite Ealive, Ec).
      simpl. lia.
Qed.

(** X10.  A frame neither kills nor revives: the alive enemies after
    [update] are the alive enemies before it, each advanced by
    [Enemy.update], in the same order, so their number is unchanged.  The
    dead entries that remain are those of before, their enemy untouched
    and their timer advanced by the delta and still below 1.8 s; the
    roster loses exactly the dead entries whose timer has reached
    1.8 s. *)
Theorem frame_spares_the_living (delta : Q) (pp : option Vector3.t)
    (s : EnemyManager.t) :
  let s' := (update h delta pp s).1 in
  getAliveEnemies s'
  = (λ e, (Enemy.update h delta pp e).1) <$> getAliveEnemies s
  ∧ _countActiveEnemies s' = _countActiveEnemies s
  ∧ (length (enemyEntries s')
     + length (filter (λ old, cleanedUp delta old = true)
                      (enemyEntries s)))%nat
    = length (enemyEntries s)
  ∧ ∀ entry, entry ∈ enemyEntries s' →
      Enemy.isAlive (enemy entry) = false →
      deathTimer entry < DEATH_CLEANUP_DELAY
      ∧ ∃ old, old ∈ enemyEntries s ∧ enemy old = enemy entry
          ∧ deathTimer entry = deathTimer old + delta.
Proof.
  cbv zeta.
  assert (Halive : getAliveEnemies (update h delta pp s).1
    = (λ e, (Enemy.update h delta pp e).1) <$> getAliveEnemies s).
  { unfold getAliveEnemies. rewrite update_entries. apply alive_after. }
  split_and!.
  - done.
  - by rewrite !countActive_alive, Halive, length_fmap.
  - rewrite update_entries. apply omap_removed.
  - intros entry Hin Hdead. rewrite update_entries in Hin.
    apply list_elem_of_omap in Hin as (old & Hold & Hafter).
    unfold entryAfter in Hafter. cbv zeta in Hafter.
    destruct (Enemy_update_frame h delta pp (enemy old)) as (_ & _ & Ha & _).
    destruct (Enemy.isAlive (enemy old)) eqn:Ealive.
    + injection Hafter as <-. simpl in Hdead. congruence.
    + revert Hafter. case_cmp; [done|]. intros [= <-]. simpl.
      split; [lra|]. by exists old.
Qed.

(** *** Attacks *)

Lemma attackCalls_app delta pp i (l1 l2 : list Entry) :
  attackCalls h delta pp i (l1 ++ l2)
  = attackCalls h delta pp (i + length l1) l2 ++ attackCalls h delta pp i l1.
Proof.
  revert i. induction l1 as [|entry l1 IH]; intros i; simpl.
  - by rewrite Nat.add_0_r, app_nil_r.
  - rewrite IH, <- app_assoc. do 2 f_equal. lia.
Qed.

Lemma updateEntry_calls delta pp s calls l entry suffix :
  enemyEntries s = l ++ entry :: suffix →
  (updateEntry h delta pp (length l) (s, calls)).2
  = calls ++ attackCalls h delta pp (length l) [entry].
Proof.
  intros E. unfold updateEntry.
  rewrite E, list_lookup_middle by done. simpl.
  destruct (Enemy_update_frame h delta pp (enemy entry)) as (Hc & _).
  destruct (Enemy.isAlive (enemy entry)); simpl.
  - destruct (Enemy.update h delta pp (enemy entry)) as [e' att]. simpl in *.
    rewrite Hc. by destruct att; rewrite ?app_nil_r.
  - case_cmp; by rewrite app_nil_r.
Qed.

Lemma updateLoop_calls delta pp l : ∀ suffix s calls,
  enemyEntries s = l ++ suffix →
  (forDown (length l) (updateEntry h delta pp) (s, calls)).2
  = calls ++ attackCalls h delta pp 0 l.
Proof.
  induction l as [|entry l IH] using rev_ind; intros suffix s calls E.
  - simpl. by rewrite app_nil_r.
  - rewrite length_app, Nat.add_comm.
    change (1 + length l)%nat with (S (length l)). rewrite forDown_S.
    rewrite <- app_assoc in E. simpl in E.
    pose proof (updateEntry_at h delta pp s calls l entry suffix E) as Hstep.
    pose proof (updateEntry_calls delta pp s calls l entry suffix E) as Hc.
    destruct (updateEntry h delta pp (length l) (s, calls)) as [s' calls'].
    simpl in Hstep, Hc. rewrite (IH _ _ _ Hstep), Hc.
    rewrite attackCalls_app, <- app_assoc. done.
Qed.

Lemma update_calls delta pp s :
  (update h delta pp s).2 = attackCalls h delta pp 0 (enemyEntries s).
Proof.
  unfold update.
  set (s2 := _handleSpawning h pp
               (_maybeScheduleNewWave h (advanceClocks delta s))).
  cbv zeta.
  assert (E : enemyEntries s2 = enemyEntries s).
  { unfold s2. rewrite handleSpawning_entries.
    by destruct (maybeSchedule_frame h (advanceClocks delta s)) as (M & _). }
  rewrite E.
  rewrite (updateLoop_calls delta pp (enemyEntries s) [] s2 []);
    [done|by rewrite app_nil_r].
Qed.

Lemma Enemy_attacks delta pp e :
  (Enemy.isAlive e && (Enemy.update h delta pp e).2)%bool = true
  ↔ Enemy.isAlive e = true
    ∧ ∃ player, pp = Some player
        ∧ distanceToPlayer h player e <= Enemy.attackRange (Enemy.config e)
        ∧ Enemy.attackCooldown (Enemy.config e)
          <= Enemy.timeSinceLastAttack e + delta.
Proof.
  unfold Enemy.update, distanceToPlayer.
  destruct (Enemy.isAlive e); simpl; [|by split; [|intros [? _]]].
  destruct pp as [player|];
    [|by split; [|intros [_ (? & ? & _)]]].
  repeat case_cmp; simpl; split; try done;
    try (intros [_ (? & [= <-] & ? & ?)]; lra);
    intros _; (split; [done|]); exists player; split_and!; done || lra.
Qed.

Lemma attackCalls_elem delta pp i0 (l : list Entry) d i :
  (d, i) ∈ attackCalls h delta pp i0 l
  ↔ ∃ entry, (i0 ≤ i)%nat ∧ l !! (i - i0)%nat = Some entry
      ∧ (Enemy.isAlive (enemy entry)
         && (Enemy.update h delta pp (enemy entry)).2)%bool = true
      ∧ d = Enemy.damage (Enemy.config (enemy entry)).
Proof.
  revert i0. induction l as [|entry l IH]; intros i0; simpl.
  - split; [by intros ?%elem_of_nil|by intros (? & _ & ? & _)].
  - rewrite elem_of_app, IH. split.
    + intros [(e & Hle & Hl & Ha & Hd)|Hin].
      * exists e. split_and!; [lia| |done..].
        replace (i - i0)%nat with (S (i - S i0)) by lia. done.
      * destruct (_ && _)%bool eqn:Ea; [|by apply elem_of_nil in Hin].
        apply list_elem_of_singleton in Hin as [= -> ->].
        exists entry. rewrite Nat.sub_diag. done.
    + intros (e & Hle & Hl & Ha & Hd).
      destruct (decide (i = i0)) as [->|Hne].
      * right. rewrite Nat.sub_diag in Hl. simpl in Hl.
        injection Hl as ->. rewrite Ha, Hd. left.
      * left. exists e. split_and!; [lia| |done..].
        replace (i - i0)%nat with (S (i - S i0)) in Hl by lia. done.
Qed.

Lemma attackCalls_sorted delta pp i0 (l : list Entry) :
  StronglySorted (λ a b : Q * nat, (b.2 < a.2)%nat)
                 (attackCalls h delta pp i0 l).
Proof.
  revert i0. induction l as [|entry l IH]; intros i0; simpl.
  - constructor.
  - apply StronglySorted_app_2; [|apply IH|].
    + intros [d i] [d' i'] Hin Hin'.
      apply attackCalls_elem in Hin as (_ & Hle & _).
      destruct (_ && _)%bool; [|by apply elem_of_nil in Hin'].
      apply list_elem_of_singleton in Hin' as [= -> ->]. simpl. lia.
    + destruct (_ && _)%bool; repeat constructor.
Qed.

(** X11.  The calls [onPlayerDamaged(damage, enemy)] of one frame: an
    enemy of the roster strikes exactly when it is alive, the player is
    there and within its attack range, and its cooldown has elapsed; the
    call carries the damage of its definition.  Each enemy strikes at
    most once per frame, the last entry of the roster first; without a
    player nobody strikes. *)
Theorem strikes_of_a_frame (delta : Q) (pp : option Vector3.t)
    (s : EnemyManager.t) :
  let calls := (update h delta pp s).2 in
  (∀ d i, (d, i) ∈ calls
     ↔ ∃ entry player,
         enemyEntries s !! i = Some entry ∧ pp = Some player
         ∧ Enemy.isAlive (enemy entry) = true
         ∧ distanceToPlayer h player (enemy entry)
           <= Enemy.attackRange (Enemy.config (enemy entry))
         ∧ Enemy.attackCooldown (Enemy.config (enemy entry))
           <= Enemy.timeSinceLastAttack (enemy entry) + delta
         ∧ d = Enemy.damage (Enemy.config (enemy entry)))
  ∧ StronglySorted (λ a b : Q * nat, (b.2 < a.2)%nat) calls
  ∧ (pp = None → calls = []).
Proof.
  cbv zeta. rewrite update_calls. split_and!.
  - intros d i. rewrite attackCalls_elem. rewrite Nat.sub_0_r. split.
    + intros (entry & _ & Hl & Ha & Hd).
      apply Enemy_attacks in Ha as (Ha & player & Hp & Hr & Hc).
      exists entry, player. done.
    + intros (entry & player & Hl & Hp & Ha & Hr & Hc & Hd).
      exists entry. split_and!; [lia|done| |done].
      apply Enemy_attacks. eauto.
  - apply attackCalls_sorted.
  - intros ->. destruct (attackCalls h delta None 0 (enemyEntries s))
      as [|[d i] rest] eqn:E; [done|].
    assert (Hin : (d, i) ∈ attackCalls h delta None 0 (enemyEntries s))
      by (rewrite E; left).
    apply attackCalls_elem in Hin as (entry & _ & _ & Ha & _).
    apply Enemy_attacks in Ha as (_ & player & ? & _). done.
Qed.

End Living.

(** ** Hits and the spawn gate *)

Section Hits.

Import EnemyManager.

Context (h : Host).

Lemma takeDamage_survivor damage e :
  Enemy.isAlive e = true →
  Enemy.isAlive (Enemy.takeDamage damage e).1
  = negb (Enemy.takeDamage damage e).2.
Proof.
  intros Ha. unfold Enemy.takeDamage. rewrite Ha. simpl. by case_cmp.
Qed.

Lemma alive_count_insert (l : list Entry) i old new :
  l !! i = Some old →
  (length (filter (λ entry, Enemy.isAlive (enemy entry) = true) l)
   + (if Enemy.isAlive (enemy new) then 1 else 0))%nat
  = (length (filter (λ entry, Enemy.isAlive (enemy entry) = true)
                    (<[i := new]> l))
     + (if Enemy.isAlive (enemy old) then 1 else 0))%nat.
Proof.
  intros Hi. rewrite insert_take_drop by (by eapply lookup_lt_Some).
  rewrite <- (take_drop_middle l i old Hi) at 1.
  rewrite !filter_app, !length_app.
  destruct (Enemy.isAlive (enemy old)) eqn:Eo,
           (Enemy.isAlive (enemy new)) eqn:En;
    rewrite ?(filter_cons_True _ old), ?(filter_cons_False _ old),
            ?(filter_cons_True _ new), ?(filter_cons_False _ new)
      by congruence; simpl; lia.
Qed.

(** X12.  A hit and the number of alive enemies, which the spawn gate
    compares with the cap: [handleProjectileImpact] never changes the
    length of the roster; a fatal hit lowers [_countActiveEnemies] by
    exactly one, any other outcome leaves it as it was.  The enemy that
    is hit was alive, and after a fatal hit it is dead. *)
Theorem hit_and_alive_count (point : Vector3.t) (damage : Q)
    (s : EnemyManager.t) :
  let s' := (handleProjectileImpact point damage s).1 in
  length (enemyEntries s') = length (enemyEntries s)
  ∧ match (handleProjectileImpact point damage s).2 with
    | None => s' = s
    | Some im =>
        (∃ entry, enemyEntries s !! Impact.enemy im = Some entry
           ∧ Enemy.isAlive (enemy entry) = true)
        ∧ _countActiveEnemies s
          = (_countActiveEnemies s'
             + (if Impact.wasFatal im then 1 else 0))%nat
    end.
Proof.
  cbv zeta. split; [apply impact_roster_length|].
  destruct (impact_effect point damage s)
    as [->|(i & entry & Hi & Ha & ->)]; [done|]. simpl.
  split; [eauto|]. rewrite !countActive_filter. simpl.
  pose proof (alive_count_insert (enemyEntries s) i entry
    {| enemy := (Enemy.takeDamage damage (enemy entry)).1;
       deathTimer := deathTimer entry |} Hi) as Hc.
  simpl in Hc. rewrite (takeDamage_survivor damage _ Ha), Ha in Hc.
  destruct (Enemy.takeDamage damage (enemy entry)).2; simpl in Hc; lia.
Qed.

(** X13.  [spawnEnemy] for one of the three enemy types, and the
    resumption of its [await].  Once the enemy's [init] has settled, the
    roster has gained one entry, at its end: an alive enemy at full
    health, at the requested position, its death timer at 0; the number
    of alive enemies has grown by one and nothing is left in the making.
    Until then the roster is unchanged. *)
Theorem spawn_then_settle (type : string) (def : Enemy.Config)
    (pos : Vector3.t) (loaded : option Vector3.t) (s : EnemyManager.t) :
  enemyDefinitions !! type = Some def →
  let s1 := spawnEnemy h type (Some pos) s in
  let s2 := settleSpawn (length (pendingSpawns s)) loaded s1 in
  enemyEntries s1 = enemyEntries s
  ∧ pendingSpawns s2 = pendingSpawns s
  ∧ _countActiveEnemies s2 = S (_countActiveEnemies s)
  ∧ ∃ e, enemyEntries s2
         = enemyEntries s ++ [{| enemy := e; deathTimer := 0 |}]
      ∧ Enemy.isAlive e = true
      ∧ Enemy.health e = Enemy.maxHealth def
      ∧ Enemy.position e = pos
      ∧ Enemy.reward (Enemy.config e) = Enemy.reward def.
Proof.
  intros Hdef. cbv zeta.
  destruct (spawnEnemy_frame h type (Some pos) s) as (He & _).
  pose proof (spawnEnemy_pending h type pos s def Hdef) as Hp.
  unfold settleSpawn. rewrite Hp.
  rewrite list_lookup_middle by done. simpl. rewrite He.
  rewrite delete_middle, app_nil_r.
  destruct (Enemy_init_frame loaded
              (Enemy.constructor (withSpawnPosition def pos)))
    as (Ic & Ih & Ia & Ip).
  split_and!; [done..| |].
  - rewrite !countActive_filter. simpl.
    rewrite filter_app, length_app.
    rewrite filter_cons_True by (simpl; by rewrite Ia). simpl. lia.
  - eexists. split; [done|]. rewrite Ia, Ih, Ip, Ic. done.
Qed.

End Hits.

(** A grunt asked for at the origin. *)
Lemma spawn_then_settle_witness :
  let s1 := EnemyManager.spawnEnemy reversing_host "grunt"
              (Some Vector3.zero) EnemyManager.constructor in
  (∃ def, EnemyManager.enemyDefinitions !! "grunt" = Some def)
  ∧ EnemyManager._countActiveEnemies
      (EnemyManager.settleSpawn 0 None s1) = 1%nat.
Proof.
  intros s1.
  assert (Hdef : EnemyManager.enemyDefinitions !! "grunt"
                 = Some (EnemyManager.definition "grunt" 60 (55 # 10) 10 60
                           (19 # 10) (14 # 10) (105 # 100)))
    by reflexivity.
  split; [by eexists|].
  by destruct (spawn_then_settle reversing_host "grunt" _ Vector3.zero None
                 EnemyManager.constructor Hdef) as (_ & _ & Hc & _).
Defined.

(** ** The attack cooldown *)

Section Cooldown.

Context (h : Host).





End Cooldown.


(** ** The game: pistol rounds in the projectile system *)

Section Rounds.

Context (h : Host).

Import Projectile ProjectileSystem.

Lemma spawn_effect a s :
  wellFormed s →
  let r := (spawnProjectile h a s).1 in
  let s' := (spawnProjectile h a s).2 in
  (r ∉ projectiles s) ∧ projectiles s' = projectiles s ++ [r]
  ∧ store s' !! r
    = Some {| position := arg_position a;
              direction := Vector3.normalize h (arg_direction a);
              speed := arg_speed a;
              damage := arg_damage a;
              maxDistance := default 60 (arg_maxDistance a);
              distanceTravelled := 0;
              timeToLive := DEFAULT_PROJECTILE_LIFETIME;
              active := true |}
  ∧ ∀ r', r' ≠ r → store s' !! r' = store s !! r'.
Proof.
  intros Hwf. cbv zeta. pose proof Hwf as (Hnd & Hlt & _).
  assert (Hfresh : (spawnProjectile h a s).1 ∉ projectiles s).
  { destruct (spawn_counts h a s) as (_ & [(_ & _ & _ & ->)|(_ & Hp)]).
    - intros Hin. specialize (Hlt (nextRef s)).
      rewrite elem_of_app in Hlt. specialize (Hlt (or_introl Hin)). lia.
    - intros Hin. apply (wellFormed_disjoint s _ Hwf Hin).
      rewrite Hp. apply elem_of_app. right. left. }
  split; [done|]. clear Hfresh. unfold spawnProjectile.
  destruct (getProjectile_cases s) as [(rest & Ep & Es)|(Ep & Er & Es)];
    destruct (_getProjectile s) as [r s1]; simpl in *; subst s1; simpl.
  - split_and!; [done|by rewrite lookup_insert_eq|].
    intros r' Hne. by rewrite lookup_insert_ne.
  - subst r. split_and!; [done|by rewrite lookup_insert_eq|].
    intros r' Hne. by rewrite !lookup_insert_ne.
Qed.

Lemma update_survivors delta em s r p' :
  wellFormed s →
  r ∈ projectiles (system (update delta em s)) →
  store (system (update delta em s)) !! r = Some p' →
  ∃ p, r ∈ projectiles s ∧ store s !! r = Some p
    ∧ p' = advanced delta p ∧ expired p' = false.
Proof.
  intros Hwf Hin Hs.
  destruct (update_counts delta em s) as (_ & _ & Hsub).
  assert (Hr : r ∈ projectiles s) by (by eapply elem_of_sublist).
  pose proof Hwf as (_ & _ & Hact & _).
  destruct (Hact r Hr) as (p & Hp & _). exists p.
  pose proof (update_fate delta em s r p Hwf Hr Hp) as Hf.
  unfold fate, retired in Hf. cbv zeta in Hf.
  destruct (expired (advanced delta p)) eqn:He.
  - destruct Hf as (_ & _ & Hout & _). done.
  - destruct Hf as [(_ & _ & Hs')|(_ & _ & _ & Hout & _)]; [|done].
    rewrite Hs in Hs'. injection Hs' as ->. done.
Qed.

Lemma update_empty delta em s :
  projectiles s = [] →
  update delta em s = {| system := s; enemies := em; trace := [] |}.
Proof. intros E. unfold update. by rewrite E. Qed.

Lemma reset_empty s : projectiles (reset s) = [].
Proof.
  unfold reset.
  by destruct (resetLoop_flush (projectiles s) s eq_refl) as (? & _).
Qed.

Lemma update_stocked delta em s :
  wellFormed s → stocked s → stocked (system (update delta em s)).
Proof.
  intros Hwf Hst r p' Hin Hs.
  destruct (update_survivors delta em s r p' Hwf Hin Hs)
    as (p & Hr & Hp & -> & _).
  apply (Hst r p Hr Hp).
Qed.

Lemma update_cruising delta em s :
  0 <= delta → wellFormed s → stocked s → cruising s →
  cruising (system (update delta em s)).
Proof.
  intros Hd Hwf Hst Hc r p' Hin Hs.
  destruct (update_survivors delta em s r p' Hwf Hin Hs)
    as (p & Hr & Hp & -> & He).
  apply expired_false in He as [He1 He2].
  destruct (Hc r p Hr Hp) as (Ha & H0 & _ & _ & Httl).
  destruct (Hst r p Hr Hp) as (Hsp & _ & _).
  unfold inFlight, DEFAULT_PROJECTILE_LIFETIME in *. simpl in *.
  rewrite Hsp in *. simpl in *.
  split_and!; [done|nra|lra|lra|lra].
Qed.

Lemma spawn_pistol a s :
  wellFormed s → stocked s →
  arg_speed a = Game.projectileSpeed Game.pistol →
  arg_damage a = Game.damage Game.pistol →
  arg_maxDistance a = Some (Game.maxDistance Game.pistol) →
  stocked (spawnProjectile h a s).2
  ∧ (cruising s → cruising (spawnProjectile h a s).2).
Proof.
  intros Hwf Hst Hsp Hdm Hmx.
  destruct (spawn_effect a s Hwf) as (Hfresh & Hl & Hnew & Hold).
  split.
  - intros r p. rewrite Hl, elem_of_app, list_elem_of_singleton.
    intros [Hin| ->] Hs.
    + rewrite Hold in Hs by (by intros ->). by apply (Hst r).
    + rewrite Hnew in Hs. injection Hs as <-. simpl.
      rewrite Hmx. done.
  - intros Hc r p. rewrite Hl, elem_of_app, list_elem_of_singleton.
    intros [Hin| ->] Hs.
    + rewrite Hold in Hs by (by intros ->). by apply (Hc r).
    + rewrite Hnew in Hs. injection Hs as <-. unfold inFlight. simpl.
      rewrite Hmx. simpl. unfold DEFAULT_PROJECTILE_LIFETIME.
      split_and!; [done|lra..].
Qed.

End Rounds.

(** ** The game: one frame, system by system *)

Section GameLoop.

Context (h : Host).

Import Game.

Ltac steady_parts H :=
  destruct H as (Hpl & Hem & (ps & Hps & Hwf & Hst & Hover) & Hmax & Harm
                 & Hh0 & Hh1 & Hiff & Hw & Hcd & Hmir).

Lemma init_steady : steady (init constructor).
Proof.
  unfold steady, mirrored. simpl. split_and!; try done.
  exists ProjectileSystem.constructor. split_and!; try done.
  apply constructor_wf.
Qed.

Lemma refreshHUD_mirrored g :
  0 <= health (playerStats g) → maxHealth (playerStats g) = 140 →
  name (currentWeapon g) ≠ EmptyString →
  mirrored (_refreshHUD g).
Proof.
  intros Hh Hm Hn. unfold mirrored, _refreshHUD. simpl.
  rewrite Hm. split_and!; try done.
  - by rewrite Q.max_r.
  - by destruct (decide _).
Qed.

Lemma resetGameState_steady g : steady g → steady (_resetGameState g).
Proof.
  intros Hs. steady_parts Hs. destruct Hem as [em Hem].
  unfold steady. split_and!.
  - done.
  - simpl. rewrite Hem. by eexists.
  - exists (ProjectileSystem.reset ps). simpl. rewrite Hps. simpl.
    destruct (reset_keeps ps Hwf) as [_ Hwf'].
    split_and!; [done|done| |intros _; apply reset_empty].
    intros r p Hin. rewrite reset_empty in Hin.
    by apply elem_of_nil in Hin.
  - done.
  - done.
  - simpl. rewrite Hmax. done.
  - simpl. rewrite Hmax. apply Qle_refl.
  - simpl. rewrite Hmax. split; [done|]. intros Hle.
    by apply Qle_bool_iff in Hle.
  - done.
  - simpl. apply Qle_refl.
  - apply refreshHUD_mirrored; simpl; rewrite ?Hmax, ?Hw; done.
Qed.

Lemma start_steady g : steady g → steady (start g).
Proof.
  intros Hs. unfold start.
  destruct (isRunning g && negb (isGameOver g))%bool; [done|].
  apply resetGameState_steady in Hs. exact Hs.
Qed.

Lemma stop_steady g : steady g → steady (stop g).
Proof.
  intros Hs. unfold stop. destruct (negb (isRunning g)); [done|].
  exact Hs.
Qed.

Lemma settle_steady k loaded g :
  steady g →
  steady (set_enemyManager
            (EnemyManager.settleSpawn k loaded <$> enemyManager g) g).
Proof.
  intros Hs. steady_parts Hs. destruct Hem as [em Hem].
  unfold steady. simpl. rewrite Hem. simpl.
  split_and!; try done; by eexists.
Qed.

Lemma elapse_steady time g : steady g → steady (set_elapsedTime time g).
Proof. intros Hs. exact Hs. Qed.

(** *** The weapon *)

Lemma handleWeapons_cases f g ps :
  projectileSystem g = Some ps → player g = true →
  currentWeapon g = pistol →
  let c := Qmax 0 (weaponCooldown g - delta f) in
  let ps' := (ProjectileSystem.spawnProjectile h (round h pistol f) ps).2 in
  _handleWeapons h f g = set_weaponCooldown c g
  ∨ (shootingPrimary f = true ∧ weaponCooldown g - delta f <= 0
     ∧ _handleWeapons h f g
       = set_weaponCooldown (1 / fireRate pistol)
           (set_shots (shots g ++ [elapsedTime g])
              (set_projectileSystem (Some ps')
                 (set_weaponCooldown c g)))).
Proof.
  intros Hps Hpl Hw. cbv zeta. unfold _handleWeapons. rewrite Hps.
  cbn [weaponCooldown set_weaponCooldown].
  destruct (shootingPrimary f); [|by left].
  cbn [andb]. case_cmp; [|by left]. right.
  split; [done|]. split.
  { pose proof (Q.le_max_r 0 (weaponCooldown g - delta f)). lra. }
  unfold _fireCurrentWeapon.
  cbn [player projectileSystem currentWeapon set_weaponCooldown].
  rewrite Hpl, Hps, Hw. cbn [negb].
  destruct (ProjectileSystem.spawnProjectile h (round h pistol f) ps)
    as [r ps']. reflexivity.
Qed.

Lemma weaponStep_cases f g :
  steady g →
  let g1 := weaponStep h f g in
  steady g1 ∧ besidesWeapons g1 = besidesWeapons g
  ∧ (∃ ps ps1, projectileSystem g = Some ps
       ∧ projectileSystem g1 = Some ps1
       ∧ (ps1 = ps
          ∨ ps1 = (ProjectileSystem.spawnProjectile h (round h pistol f)
                     ps).2))
  ∧ ((shots g1 = shots g
      ∧ (weaponCooldown g1 = weaponCooldown g
         ∨ weaponCooldown g1 = Qmax 0 (weaponCooldown g - delta f)))
     ∨ (isGameOver g = false
        ∧ shots g1 = shots g ++ [elapsedTime g]
        ∧ weaponCooldown g1 = 1 / fireRate pistol
        ∧ weaponCooldown g - delta f <= 0)).
Proof.
  intros Hs. pose proof Hs as Hs'. steady_parts Hs'. cbv zeta.
  unfold weaponStep. destruct (isGameOver g) eqn:Eover.
  { split_and!; [done|done| |left; split; [done|by left]].
    exists ps, ps. split_and!; [done..|by left]. }
  destruct (handleWeapons_cases f g ps Hps Hpl Hw) as [->|(Hsh & Hc & ->)].
  - split_and!.
    + unfold steady. simpl. rewrite Eover. split_and!; try done.
      * exists ps. done.
      * apply Q.le_max_l.
    + done.
    + exists ps, ps. split_and!; [done..|by left].
    + left. split; [done|by right].
  - destruct (spawn_pistol h (round h pistol f) ps Hwf Hst eq_refl eq_refl
                eq_refl) as [Hst' Hcr'].
    split_and!.
    + unfold steady. simpl. rewrite Eover. split_and!; try done.
      eexists. split; [done|].
      split_and!; [by apply spawn_wf|done|done].
    + done.
    + eexists _, _. simpl. split_and!; [done..|by right].
    + right. done.
Qed.

(** *** The player's health *)

Lemma handlePlayerDamage_cases amount g :
  steady g →
  let g' := _handlePlayerDamage amount g in
  steady g' ∧ besidesDamage g' = besidesDamage g
  ∧ health (playerStats g') <= health (playerStats g)
  ∧ ((isGameOver g' = isGameOver g ∧ dispatched g' = dispatched g
      ∧ projectileSystem g' = projectileSystem g
      ∧ (isGameOver g = true → playerStats g' = playerStats g))
     ∨ (isGameOver g = false ∧ isGameOver g' = true
        ∧ projectileSystem g'
          = ProjectileSystem.reset <$> projectileSystem g
        ∧ dispatched g'
          = dispatched g
            ++ [{| detail_score := score g;
                   wavesCleared :=
                     Z.max 0 (match enemyManager g with
                              | Some em => EnemyManager.wave em
                              | None => 1%Z
                              end - 1);
                   timeSurvived := elapsedTime g |}])).
Proof.
  intros Hs. pose proof Hs as Hs'. steady_parts Hs'. cbv zeta.
  unfold _handlePlayerDamage. destruct (isGameOver g) eqn:Eover.
  { split_and!; [done|done|apply Qle_refl|]. left. done. }
  cbn [health playerStats set_health set_hud maxHealth].
  set (m := Qmax 1 (amount - armor (playerStats g))).
  assert (Hm : 1 <= m) by apply Q.le_max_l.
  set (hp := Qmax 0 (health (playerStats g) - m)).
  assert (Hhp0 : 0 <= hp) by apply Q.le_max_l.
  assert (Hhp1 : hp <= 140).
  { unfold hp. apply Q.max_lub; lra. }
  assert (Hhp2 : hp <= health (playerStats g)).
  { unfold hp. apply Q.max_lub; lra. }
  case_cmp.
  - (* the player dies *)
    unfold _onPlayerDeath.
    cbn [isGameOver set_hud set_health set_isGameOver set_projectileSystem
         set_dispatched projectileSystem playerStats maxHealth hud
         dispatched enemyManager score elapsedTime].
    rewrite Eover. split_and!.
    + unfold steady. simpl. rewrite Hps. simpl.
      destruct (reset_keeps ps Hwf) as [_ Hwf'].
      split_and!; try done.
      * exists (ProjectileSystem.reset ps).
        split_and!; [done|done| |intros _; apply reset_empty].
        intros r p Hin. rewrite reset_empty in Hin.
        by apply elem_of_nil in Hin.
      * unfold mirrored in *. simpl. rewrite Hmax.
        destruct Hmir as (? & ? & ? & ? & ?).
        split_and!; try done. fold hp. rewrite Q.max_l by lra. lra.
    + done.
    + done.
    + right. done.
  - (* the player survives *)
    split_and!.
    + unfold steady. simpl. rewrite Eover, Hps.
      split_and!; try done.
      * exists ps. done.
      * fold m hp. split; [done|]. intros Hle. lra.
      * unfold mirrored in *. simpl. rewrite Hmax.
        destruct Hmir as (? & ? & ? & ? & ?).
        split_and!; try done. fold m hp. by rewrite Q.max_r.
    + done.
    + done.
    + left. simpl. rewrite Eover. done.
Qed.

Lemma damage_fold (calls : list (Q * nat)) : ∀ g,
  steady g →
  let g' := foldl (λ g call, _handlePlayerDamage call.1 g) g calls in
  steady g' ∧ besidesDamage g' = besidesDamage g
  ∧ health (playerStats g') <= health (playerStats g)
  ∧ ((isGameOver g' = isGameOver g ∧ dispatched g' = dispatched g
      ∧ projectileSystem g' = projectileSystem g
      ∧ (isGameOver g = true → playerStats g' = playerStats g))
     ∨ (isGameOver g = false ∧ isGameOver g' = true
        ∧ projectileSystem g'
          = ProjectileSystem.reset <$> projectileSystem g
        ∧ dispatched g'
          = dispatched g
            ++ [{| detail_score := score g;
                   wavesCleared :=
                     Z.max 0 (match enemyManager g with
                              | Some em => EnemyManager.wave em
                              | None => 1%Z
                              end - 1);
                   timeSurvived := elapsedTime g |}])).
Proof.
  induction calls as [|[amount i] calls IH]; intros g Hs; cbv zeta.
  { simpl. split_and!; [done|done|apply Qle_refl|]. left. done. }
  cbn [foldl fst].
  destruct (handlePlayerDamage_cases amount g Hs)
    as (Hs1 & Hb1 & Hle1 & Hc1).
  destruct (IH _ Hs1) as (Hs2 & Hb2 & Hle2 & Hc2).
  split; [done|]. split; [congruence|]. split; [lra|].
  unfold besidesDamage in Hb1. injection Hb1 as _ _ Hem Hsc Hel _ _ _ _ _.
  destruct Hc1 as [(Ho1 & Hd1 & Hp1 & Hk1)|(Ho1 & Ho1' & Hp1 & Hd1)];
    destruct Hc2 as [(Ho2 & Hd2 & Hp2 & Hk2)|(Ho2 & Ho2' & Hp2 & Hd2)].
  - left. split_and!; [congruence..|].
    intros Hov. rewrite Hk2, Hk1; [done|done|congruence].
  - right. rewrite Hd2, Hp2, Hd1, Hp1, Hem, Hsc, Hel.
    split_and!; [congruence|done..].
  - right. rewrite Hd2, Hp2, Hd1, Hp1. split_and!; [done|congruence|done..].
  - congruence.
Qed.

(** *** The enemies' turn *)

Lemma enemyStep_cases f g em :
  steady g → enemyManager g = Some em →
  let em' := (EnemyManager.update h (delta f) (Some (playerPosition f))
                em).1 in
  let g' := enemyStep h f g in
  steady g'
  ∧ besidesDamage g' = besidesDamage (set_enemyManager (Some em') g)
  ∧ health (playerStats g') <= health (playerStats g)
  ∧ (∃ ps ps', projectileSystem g = Some ps
       ∧ projectileSystem g' = Some ps'
       ∧ (ps' = ps ∨ ps' = ProjectileSystem.reset ps))
  ∧ ((isGameOver g' = isGameOver g ∧ dispatched g' = dispatched g
      ∧ projectileSystem g' = projectileSystem g
      ∧ (isGameOver g = true → playerStats g' = playerStats g))
     ∨ (isGameOver g = false ∧ isGameOver g' = true
        ∧ projectileSystem g'
          = ProjectileSystem.reset <$> projectileSystem g
        ∧ dispatched g'
          = dispatched g
            ++ [{| detail_score := score g;
                   wavesCleared := Z.max 0 (EnemyManager.wave em' - 1);
                   timeSurvived := elapsedTime g |}])).
Proof.
  intros Hs Hem0. pose proof Hs as Hs'. steady_parts Hs'. cbv zeta.
  unfold enemyStep. rewrite Hem0, Hpl.
  destruct (EnemyManager.update h (delta f) (Some (playerPosition f)) em)
    as [em' calls]. cbn [fst].
  assert (Hs1 : steady (set_enemyManager (Some em') g)).
  { unfold steady. simpl. split_and!; try done. by exists ps. }
  assert (Hcr : ∀ g', (projectileSystem g' = projectileSystem g
                       ∨ projectileSystem g'
                         = ProjectileSystem.reset <$> projectileSystem g) →
            ∃ ps0 ps', projectileSystem g = Some ps0
              ∧ projectileSystem g' = Some ps'
              ∧ (ps' = ps0 ∨ ps' = ProjectileSystem.reset ps0)).
  { intros g' [E|E]; rewrite E, Hps; simpl.
    - exists ps, ps. split_and!; [done..|by left].
    - exists ps, (ProjectileSystem.reset ps).
      split_and!; [done..|by right]. }
  destruct (isGameOver g) eqn:Eover.
  - split_and!; [done|done|apply Qle_refl|apply Hcr; by left|].
    left. simpl. done.
  - destruct (damage_fold calls _ Hs1) as (Hs2 & Hb2 & Hle2 & Hc2).
    cbn [isGameOver dispatched projectileSystem set_enemyManager score
         elapsedTime enemyManager] in Hc2.
    rewrite Eover in Hc2.
    split_and!; [done|done|done| |].
    + apply Hcr. destruct Hc2 as [(_ & _ & E & _)|(_ & _ & E & _)]; tauto.
    + destruct Hc2 as [(? & ? & ? & ?)|(? & ? & ? & ?)];
        [left|right]; done.
Qed.

(** *** The projectiles' turn *)

Lemma handleEnemyHit_fold (impacts : list Impact.t) : ∀ g,
  mirrored g →
  let g' := foldl (λ g impact, _handleEnemyHit impact g) g impacts in
  besidesScore g' = besidesScore g ∧ mirrored g'
  ∧ score g' == score g + bounty impacts.
Proof.
  induction impacts as [|impact impacts IH]; intros g Hm; cbv zeta.
  { simpl. split_and!; [done|done|lra]. }
  cbn [foldl].
  assert (Hstep : besidesScore (_handleEnemyHit impact g) = besidesScore g
    ∧ mirrored (_handleEnemyHit impact g)
    ∧ score (_handleEnemyHit impact g)
      = score g
        + (if (Impact.wasFatal impact && Qltb 0 (Impact.reward impact))%bool
           then Impact.reward impact else 0)
      ∨ (Impact.wasFatal impact && Qltb 0 (Impact.reward impact))%bool
        = false ∧ _handleEnemyHit impact g = g).
  { unfold _handleEnemyHit.
    destruct (Impact.wasFatal impact && Qltb 0 (Impact.reward impact))%bool;
      [left|by right].
    split_and!; [done| |done].
    unfold mirrored in *. simpl. tauto. }
  destruct Hstep as [(Hb & Hm1 & Hsc)|[E ->]].
  - destruct (IH _ Hm1) as (Hb2 & Hm2 & Hsc2).
    split_and!; [congruence|done|]. rewrite Hsc2, Hsc. simpl. lra.
  - destruct (IH _ Hm) as (Hb2 & Hm2 & Hsc2).
    split_and!; [done|done|]. rewrite Hsc2. simpl. rewrite E. lra.
Qed.

Lemma steady_besidesScore g g' :
  besidesScore g' = besidesScore g → mirrored g' → steady g → steady g'.
Proof.
  unfold besidesScore. intros Hb Hm Hs.
  injection Hb as _ Hpl Hem Hps Hov _ Hw Hcd _ Hst _.
  unfold steady in *. rewrite Hpl, Hem, Hps, Hov, Hw, Hcd, Hst. tauto.
Qed.

Lemma update_manager delta em ps :
  wellFormed ps →
  is_Some (ProjectileSystem.enemies
             (ProjectileSystem.update delta (Some em) ps)).
Proof.
  intros Hwf.
  destruct (update_turns delta (Some em) ps Hwf) as (_ & Hq & _).
  specialize (Hq 0%nat).
  destruct (ProjectileSystem.enemies _); [by eexists|done].
Qed.

Lemma projectileStep_cases f g ps0 :
  steady g → projectileSystem g = Some ps0 →
  let w := ProjectileSystem.update (delta f) (enemyManager g) ps0 in
  let g' := projectileStep f g in
  steady g'
  ∧ besidesScore g'
    = besidesScore
        (set_enemyManager (ProjectileSystem.enemies w)
           (set_projectileSystem (Some (ProjectileSystem.system w)) g))
  ∧ score g' == score g + bounty (enemyHits (ProjectileSystem.trace w)).
Proof.
  intros Hs Hps0. pose proof Hs as Hs'. steady_parts Hs'. cbv zeta.
  rewrite Hps in Hps0. injection Hps0 as <-.
  unfold projectileStep. rewrite Hps.
  set (w := ProjectileSystem.update (delta f) (enemyManager g) ps).
  set (g1 := set_enemyManager _ _).
  assert (Hs1 : steady g1).
  { unfold steady, g1. simpl. split_and!; try done.
    - destruct Hem as [em Hem]. unfold w. rewrite Hem.
      by apply update_manager.
    - exists (ProjectileSystem.system w). unfold w.
      split_and!; [done|by apply update_wf|by apply update_stocked|].
      intros Hov. specialize (Hover Hov).
      by rewrite update_empty. }
  pose proof Hs1 as (_ & _ & _ & _ & _ & _ & _ & _ & _ & _ & Hm1).
  destruct (handleEnemyHit_fold (enemyHits (ProjectileSystem.trace w)) g1 Hm1)
    as (Hb & Hm & Hsc).
  split_and!; [|done|done].
  by apply (steady_besidesScore g1).
Qed.

(** *** The frame *)

Lemma update_steady f g : steady g → steady (update h f g).
Proof.
  intros Hs. unfold update.
  apply (elapse_steady (elapsedTime g + delta f)) in Hs.
  destruct (weaponStep_cases f _ Hs) as (Hs1 & _).
  pose proof Hs1 as (_ & [em Hem] & _).
  destruct (enemyStep_cases f _ em Hs1 Hem) as (Hs2 & _).
  pose proof Hs2 as (_ & _ & (ps & Hps & _) & _).
  by destruct (projectileStep_cases f _ _ Hs2 Hps) as (Hs3 & _).
Qed.

Lemma call_steady c g : steady g → steady (call h c g).
Proof.
  intros Hs. destruct c as [| |f|k loaded]; simpl.
  - by apply start_steady.
  - by apply stop_steady.
  - destruct (isRunning g); [by apply update_steady|done].
  - by apply settle_steady.
Qed.

Lemma game_run_snoc calls c : run h (calls ++ [c]) = call h c (run h calls).
Proof. unfold run. by rewrite foldl_app. Qed.

Lemma run_steady calls : steady (run h calls).
Proof.
  induction calls as [|c calls IH] using rev_ind.
  - apply init_steady.
  - rewrite game_run_snoc. by apply call_steady.
Qed.

Lemma projectileStep_empty f g ps :
  projectileSystem g = Some ps → ProjectileSystem.projectiles ps = [] →
  projectileStep f g
  = set_enemyManager (enemyManager g) (set_projectileSystem (Some ps) g).
Proof.
  intros Hps He. unfold projectileStep. rewrite Hps.
  by rewrite (update_empty _ _ _ He).
Qed.

Lemma update_frame f g :
  steady g →
  let g' := update h f g in
  steady g'
  ∧ isRunning g' = isRunning g
  ∧ elapsedTime g' = elapsedTime g + delta f
  ∧ health (playerStats g') <= health (playerStats g)
  ∧ ((shots g' = shots g
      ∧ (weaponCooldown g' = weaponCooldown g
         ∨ weaponCooldown g' = Qmax 0 (weaponCooldown g - delta f)))
     ∨ (isGameOver g = false
        ∧ shots g' = shots g ++ [elapsedTime g + delta f]
        ∧ weaponCooldown g' = 1 / fireRate pistol
        ∧ weaponCooldown g - delta f <= 0))
  ∧ ((isGameOver g' = isGameOver g ∧ dispatched g' = dispatched g
      ∧ (isGameOver g = true →
         playerStats g' = playerStats g ∧ score g' = score g
         ∧ shots g' = shots g ∧ weaponCooldown g' = weaponCooldown g
         ∧ projectileSystem g' = projectileSystem g))
     ∨ (isGameOver g = false ∧ isGameOver g' = true ∧ score g' = score g
        ∧ ∃ d, dispatched g' = dispatched g ++ [d]
            ∧ detail_score d = score g ∧ (0 ≤ wavesCleared d)%Z
            ∧ timeSurvived d = elapsedTime g'))
  ∧ (0 <= delta f → ∀ ps, projectileSystem g = Some ps → cruising ps →
     ∃ ps', projectileSystem g' = Some ps' ∧ cruising ps').
Proof.
  intros Hs. cbv zeta. unfold update.
  set (g0 := set_elapsedTime (elapsedTime g + delta f) g).
  assert (Hs0 : steady g0) by (by apply elapse_steady).
  destruct (weaponStep_cases f g0 Hs0) as (Hs1 & Hb1 & Hfl1 & Hsh1).
  set (g1 := weaponStep h f g0) in *.
  pose proof Hs1 as (_ & [em Hem] & _).
  destruct (enemyStep_cases f g1 em Hs1 Hem)
    as (Hs2 & Hb2 & Hle2 & Hfl2 & Hov2).
  set (em1 := (EnemyManager.update h (delta f) (Some (playerPosition f))
                 em).1) in *.
  set (g2 := enemyStep h f g1) in *.
  pose proof Hs2 as (_ & _ & (ps2 & Hps2 & Hwf2 & Hst2 & Hover2) & _).
  destruct (projectileStep_cases f g2 ps2 Hs2 Hps2) as (Hs3 & Hb3 & _).
  set (g3 := projectileStep f g2) in *.
  unfold besidesWeapons in Hb1.
  injection Hb1 as Hrun1 Hpl1 Hem1 Hhud1 Hsc1 Hover1 Hel1 Hst1 Hw1 Hdi1.
  unfold besidesDamage in Hb2. cbn [isRunning player enemyManager score
    elapsedTime currentWeapon weaponCooldown shots playerStats
    set_enemyManager] in Hb2.
  injection Hb2 as Hrun2 _ Hem2 Hsc2 Hel2 _ Hcd2 Hsh2 _ _.
  unfold besidesScore in Hb3. cbn [isRunning player enemyManager
    projectileSystem isGameOver elapsedTime currentWeapon weaponCooldown
    shots playerStats dispatched set_enemyManager set_projectileSystem]
    in Hb3.
  injection Hb3 as Hrun3 _ Hem3 Hps3 Hover3 Hel3 _ Hcd3 Hsh3 Hst3 Hdi3.
  cbn [isRunning elapsedTime playerStats shots weaponCooldown isGameOver
       dispatched projectileSystem score set_elapsedTime g0] in *.
  split; [done|]. split; [congruence|]. split; [congruence|].
  split; [rewrite Hst3, <- Hst1; done|].
  split.
  { rewrite Hsh3, Hsh2, Hcd3, Hcd2.
    destruct Hsh1 as [(? & ?)|(? & ? & ? & ?)]; [left|right]; done. }
  split.
  { rewrite Hover3, Hdi3, Hst3.
    destruct Hov2 as [(Ho & Hd & Hp & Hk)|(Ho & Ho' & Hp & Hd)].
    - left. split; [congruence|]. split; [congruence|].
      intros Hov. rewrite Hover1 in Hk, Ho. rewrite Ho in Hover2.
      assert (E1 : g1 = g0).
      { unfold g1, weaponStep.
        cbn [isGameOver set_elapsedTime g0]. by rewrite Hov. }
      assert (E3 : g3 = set_enemyManager (enemyManager g2)
                         (set_projectileSystem (Some ps2) g2)).
      { apply projectileStep_empty; [done|]. by apply Hover2. }
      rewrite Hsh3, Hsh2, Hcd3, Hcd2, E3, E1.
      cbn [score projectileSystem shots weaponCooldown set_enemyManager
           set_projectileSystem set_elapsedTime g0].
      rewrite Hk by done. rewrite Hsc2.
      split_and!; try done; [by rewrite E1..|].
      rewrite <- Hps2, Hp, E1. done.
    - right. rewrite Hover1 in Ho.
      assert (E3 : g3 = set_enemyManager (enemyManager g2)
                         (set_projectileSystem (Some ps2) g2)).
      { apply projectileStep_empty; [done|]. by apply Hover2. }
      split; [done|]. split; [done|]. split.
      { rewrite E3. cbn [score set_enemyManager set_projectileSystem].
        congruence. }
      eexists. rewrite Hd, Hdi1. split; [done|].
      cbn [detail_score wavesCleared timeSurvived].
      split_and!; [congruence|lia|congruence]. }
  intros Hd ps Hps Hc.
  destruct Hfl1 as (ps0 & ps1 & Hps0 & Hps1 & Hc1).
  destruct Hfl2 as (ps1' & ps2' & Hps1' & Hps2' & Hc2).
  cbn [projectileSystem set_elapsedTime g0] in Hps0.
  assert (ps0 = ps) as -> by congruence.
  assert (ps1' = ps1) as -> by congruence.
  assert (ps2' = ps2) as -> by congruence.
  eexists. split; [exact Hps3|].
  apply update_cruising; [done..|].
  assert (Hcr1 : cruising ps1).
  { destruct Hc1 as [->| ->]; [done|].
    pose proof Hs0 as (_ & _ & (ps' & Hps' & Hwf' & Hst' & _) & _).
    cbn [projectileSystem set_elapsedTime g0] in Hps'.
    assert (ps' = ps) as -> by congruence.
    by apply (spawn_pistol h (round h pistol f) ps Hwf' Hst'). }
  destruct Hc2 as [->| ->]; [done|].
  intros r p Hin. rewrite reset_empty in Hin. by apply elem_of_nil in Hin.
Qed.

(** The two systems across a frame: the weapon may spawn a round, the
    player's death resets the projectiles, and then both systems are
    updated. *)
Lemma update_systems f g :
  steady g →
  ∃ em ps ps1 ps2,
    enemyManager g = Some em ∧ projectileSystem g = Some ps
    ∧ (ps1 = ps
       ∨ ps1 = (ProjectileSystem.spawnProjectile h (round h pistol f) ps).2)
    ∧ (ps2 = ps1 ∨ ps2 = ProjectileSystem.reset ps1)
    ∧ wellFormed ps2 ∧ stocked ps2
    ∧ let em1 := (EnemyManager.update h (delta f)
                    (Some (playerPosition f)) em).1 in
      let w := ProjectileSystem.update (delta f) (Some em1) ps2 in
      enemyManager (update h f g) = ProjectileSystem.enemies w
      ∧ projectileSystem (update h f g)
        = Some (ProjectileSystem.system w).
Proof.
  intros Hs. unfold update.
  set (g0 := set_elapsedTime (elapsedTime g + delta f) g).
  assert (Hs0 : steady g0) by (by apply elapse_steady).
  destruct (weaponStep_cases f g0 Hs0) as (Hs1 & Hb1 & Hfl1 & _).
  set (g1 := weaponStep h f g0) in *.
  pose proof Hs as (_ & [em Hem] & _).
  unfold besidesWeapons in Hb1.
  injection Hb1 as _ _ Hem1 _ _ _ _ _ _ _.
  cbn [enemyManager set_elapsedTime g0] in Hem1. rewrite Hem in Hem1.
  destruct (enemyStep_cases f g1 em Hs1 Hem1) as (Hs2 & Hb2 & _ & Hfl2 & _).
  set (g2 := enemyStep h f g1) in *.
  unfold besidesDamage in Hb2.
  injection Hb2 as _ _ Hem2 _ _ _ _ _ _ _.
  cbn [enemyManager set_enemyManager] in Hem2.
  destruct Hfl1 as (ps & ps1 & Hps & Hps1 & Hc1).
  destruct Hfl2 as (ps1' & ps2 & Hps1' & Hps2 & Hc2).
  assert (ps1' = ps1) as -> by congruence.
  cbn [projectileSystem set_elapsedTime g0] in Hps.
  pose proof Hs2 as (_ & _ & (ps2' & Hps2' & Hwf2 & Hst2 & _) & _).
  assert (ps2' = ps2) as -> by congruence.
  destruct (projectileStep_cases f g2 ps2 Hs2 Hps2) as (_ & Hb3 & _).
  unfold besidesScore in Hb3.
  injection Hb3 as _ _ Hem3 Hps3 _ _ _ _ _ _ _.
  cbn [enemyManager projectileSystem set_enemyManager set_projectileSystem]
    in Hem3, Hps3.
  rewrite Hem2 in Hem3, Hps3.
  exists em, ps, ps1, ps2. split_and!; done.
Qed.

(** *** Sessions *)

Lemma frame_call f g :
  call h (CallFrame f) g = g
  ∨ (isRunning g = true ∧ call h (CallFrame f) g = update h f g).
Proof. simpl. destruct (isRunning g); [by right|by left]. Qed.

Lemma play_snoc fs f g :
  play h (fs ++ [f]) g = call h (CallFrame f) (play h fs g).
Proof. unfold play. by rewrite foldl_app. Qed.

Lemma play_steady fs g : steady g → steady (play h fs g).
Proof.
  intros Hs. induction fs as [|f fs IH] using rev_ind; [done|].
  rewrite play_snoc. by apply call_steady.
Qed.

(** X16.  The player's vital signs in every session: the maximum health
    is 140 and the armour 0, the health stays between 0 and 140, the game
    is over exactly when the health is down to 0, and no call but
    [start] ever raises the health. *)
Theorem vital_signs (calls : list Call) :
  let g := run h calls in
  maxHealth (playerStats g) = 140 ∧ armor (playerStats g) = 0
  ∧ 0 <= health (playerStats g) ∧ health (playerStats g) <= 140
  ∧ (isGameOver g = true ↔ health (playerStats g) <= 0)
  ∧ ∀ c, c ≠ CallStart →
      health (playerStats (call h c g)) <= health (playerStats g).
Proof.
  cbv zeta. pose proof (run_steady calls) as Hs.
  pose proof Hs as Hs'. steady_parts Hs'.
  split_and!; try done.
  intros c Hc. destruct c as [| |f|k loaded]; [done| | |].
  - simpl. unfold stop. destruct (negb _); apply Qle_refl.
  - destruct (frame_call f (run h calls)) as [->|[_ ->]]; [apply Qle_refl|].
    by destruct (update_frame f _ Hs) as (_ & _ & _ & Hle & _).
  - simpl. apply Qle_refl.
Qed.

(** X17.  A frame of a game that is over: the game stays over, and the
    score, the player's health, the [game:over] events, the shots, the
    weapon's cooldown and the projectile system are what they were; the
    projectile system has no projectile in flight. *)
Theorem after_game_over (calls : list Call) (f : Frame) :
  let g := run h calls in
  let g' := call h (CallFrame f) g in
  isGameOver g = true →
  isGameOver g' = true ∧ score g' = score g
  ∧ playerStats g' = playerStats g ∧ dispatched g' = dispatched g
  ∧ shots g' = shots g ∧ weaponCooldown g' = weaponCooldown g
  ∧ projectileSystem g' = projectileSystem g
  ∧ ∃ ps, projectileSystem g = Some ps
      ∧ ProjectileSystem.projectiles ps = [].
Proof.
  cbv zeta. intros Hov. pose proof (run_steady calls) as Hs.
  pose proof Hs as Hs'. steady_parts Hs'.
  assert (Hempty : ∃ ps, projectileSystem (run h calls) = Some ps
                     ∧ ProjectileSystem.projectiles ps = []).
  { exists ps. split; [done|]. by apply Hover. }
  destruct (frame_call f (run h calls)) as [->|[_ ->]]; [done|].
  destruct (update_frame f _ Hs) as (_ & _ & _ & _ & _ & Hcases & _).
  destruct Hcases as [(Ho & Hd & Hk)|(Ho & _)]; [|congruence].
  destruct (Hk Hov) as (? & ? & ? & ? & ?).
  split_and!; try done. congruence.
Qed.

Lemma play_over fs g :
  steady g →
  let g' := play h fs g in
  (isGameOver g = true →
   isGameOver g' = true ∧ dispatched g' = dispatched g
   ∧ score g' = score g)
  ∧ (isGameOver g = false →
     (isGameOver g' = false ∧ dispatched g' = dispatched g)
     ∨ (isGameOver g' = true
        ∧ ∃ d, dispatched g' = dispatched g ++ [d]
            ∧ detail_score d = score g' ∧ (0 ≤ wavesCleared d)%Z)).
Proof.
  intros Hs. cbv zeta.
  induction fs as [|f fs IH] using rev_ind.
  { simpl. split; [done|]. intros ?. by left. }
  rewrite play_snoc. pose proof (play_steady fs g Hs) as Hs1.
  set (g1 := play h fs g) in *.
  assert (Hstep :
    (isGameOver g1 = true →
     isGameOver (call h (CallFrame f) g1) = true
     ∧ dispatched (call h (CallFrame f) g1) = dispatched g1
     ∧ score (call h (CallFrame f) g1) = score g1)
    ∧ (isGameOver g1 = false →
       (isGameOver (call h (CallFrame f) g1) = false
        ∧ dispatched (call h (CallFrame f) g1) = dispatched g1)
       ∨ (isGameOver (call h (CallFrame f) g1) = true
          ∧ ∃ d, dispatched (call h (CallFrame f) g1) = dispatched g1 ++ [d]
              ∧ detail_score d = score (call h (CallFrame f) g1)
              ∧ (0 ≤ wavesCleared d)%Z))).
  { destruct (frame_call f g1) as [->|[_ ->]].
    { split; [done|]. intros ?. by left. }
    destruct (update_frame f _ Hs1) as (_ & _ & _ & _ & _ & Hcases & _).
    destruct Hcases as [(Ho & Hd & Hk)|(Ho & Ho' & Hsc & d & Hd & Hds & Hw & _)].
    - split.
      + intros Hov. destruct (Hk Hov) as (_ & ? & _).
        split_and!; [congruence|done|done].
      + intros Hov. left. split; [congruence|done].
    - split; [congruence|]. intros _. right. split; [done|].
      exists d. split_and!; [done|congruence|done]. }
  destruct IH as [IH1 IH2], Hstep as [St1 St2]. split.
  - intros Hov. destruct (IH1 Hov) as (Ho1 & Hd1 & Hsc1).
    destruct (St1 Ho1) as (? & ? & ?). split_and!; congruence.
  - intros Hov. destruct (IH2 Hov) as [(Ho1 & Hd1)|(Ho1 & d & Hd1 & Hsc1 & Hw1)].
    + destruct (St2 Ho1) as [(? & ?)|(? & d & ? & ? & ?)].
      * left. split; congruence.
      * right. split; [done|]. exists d. split_and!; congruence.
    + destruct (St1 Ho1) as (? & ? & ?). right. split; [done|].
      exists d. split_and!; congruence.
Qed.

(** X18.  However many frames follow, the window receives at most one
    more [game:over] event: none while the player lives, none if the game
    was over already, and exactly one once the player has died, whose
    score is the score of the game from then on. *)
Theorem game_over_once (calls : list Call) (fs : list Frame) :
  let g := run h calls in
  let g' := play h fs g in
  (isGameOver g' = false ∧ dispatched g' = dispatched g)
  ∨ (isGameOver g' = true
     ∧ ((isGameOver g = true ∧ dispatched g' = dispatched g)
        ∨ (isGameOver g = false
           ∧ ∃ d, dispatched g' = dispatched g ++ [d]
               ∧ detail_score d = score g' ∧ (0 ≤ wavesCleared d)%Z))).
Proof.
  cbv zeta. destruct (play_over fs _ (run_steady calls)) as [H1 H2].
  destruct (isGameOver (run h calls)) eqn:Hov.
  - destruct (H1 eq_refl) as (? & ? & ?). right. split; [done|]. by left.
  - destruct (H2 eq_refl) as [(? & ?)|(? & ?)]; [by left|].
    right. split; [done|]. by right.
Qed.

Lemma call_cruising c g :
  calm c → steady g →
  (∃ ps, projectileSystem g = Some ps ∧ cruising ps) →
  ∃ ps, projectileSystem (call h c g) = Some ps ∧ cruising ps.
Proof.
  intros Hc Hs (ps & Hps & Hcr).
  destruct c as [| |f|k loaded].
  - simpl. unfold start.
    destruct (isRunning g && negb (isGameOver g))%bool; [by exists ps|].
    simpl. rewrite Hps. simpl. eexists. split; [done|].
    intros r p Hin. rewrite reset_empty in Hin. by apply elem_of_nil in Hin.
  - simpl. unfold stop. destruct (negb _); by exists ps.
  - destruct (frame_call f g) as [->|[_ ->]]; [by exists ps|].
    destruct (update_frame f _ Hs) as (_ & _ & _ & _ & _ & _ & Hfl).
    by apply (Hfl Hc ps).
  - simpl. by exists ps.
Qed.

(** X20.  Between two calls of a session whose frames have non-negative
    deltas, every projectile in flight is a pistol round (speed 62,
    damage 22, range 70) that is active, has travelled less than its
    range and has some of its 2.5 s left. *)
Theorem bullets_in_flight (calls : list Call) :
  Forall calm calls →
  ∃ ps, projectileSystem (run h calls) = Some ps
    ∧ wellFormed ps
    ∧ ∀ r p, r ∈ ProjectileSystem.projectiles ps →
        ProjectileSystem.store ps !! r = Some p →
        Projectile.speed p = 62 ∧ Projectile.damage p = 22
        ∧ Projectile.maxDistance p = 70
        ∧ Projectile.active p = true
        ∧ 0 <= Projectile.distanceTravelled p
        ∧ Projectile.distanceTravelled p < 70
        ∧ 0 < Projectile.timeToLive p
        ∧ Projectile.timeToLive p <= 25 # 10.
Proof.
  intros Hall.
  assert (Hcr : ∃ ps, projectileSystem (run h calls) = Some ps
                  ∧ cruising ps).
  { induction calls as [|c calls IH] using rev_ind.
    - eexists. split; [reflexivity|]. intros r p Hin.
      by apply elem_of_nil in Hin.
    - apply Forall_app in Hall as [Hall Hc].
      apply Forall_inv in Hc. rewrite game_run_snoc.
      apply call_cruising; [done|apply run_steady|by apply IH]. }
  destruct Hcr as (ps1 & Hps1 & Hcr). exists ps1. split; [done|].
  pose proof (run_steady calls) as Hs. steady_parts Hs.
  assert (ps = ps1) as -> by congruence. split; [done|].
  intros r p Hin Hp.
  destruct (Hst r p Hin Hp) as (Hsp & Hdm & Hmx).
  destruct (Hcr r p Hin Hp) as (Ha & H0 & H1 & H2 & H3).
  rewrite Hmx in H1. split_and!; done.
Qed.

(** X21.  The HUD of every session shows the game: its score is the
    integer part of the game's score, its health and maximum health are
    the player's, the fill ratio of the health bar is health / 140, in
    [[0, 1]], and the weapon shown is the pistol with unlimited
    ammunition. *)
Theorem hud_mirrors (calls : list Call) :
  let g := run h calls in
  HUDController.currentScore (hud g) = Z.max 0 (Qfloor (score g))
  ∧ HUDController.currentHealth (hud g) == health (playerStats g)
  ∧ HUDController.maxHealth (hud g) = 140
  ∧ HUDController.ratio (hud g) == health (playerStats g) / 140
  ∧ 0 <= HUDController.ratio (hud g) ∧ HUDController.ratio (hud g) <= 1
  ∧ HUDController.weaponName (hud g) = "Pistolet"
  ∧ HUDController.ammoDisplay (hud g) = HUDController.Unlimited.
Proof.
  cbv zeta. pose proof (run_steady calls) as Hs. steady_parts Hs.
  destruct Hmir as (Hsc & Hhp & Hmx & Hnm & Ham).
  rewrite Hw in Hnm, Ham. rewrite Hmax in Hmx.
  assert (Hr : HUDController.ratio (hud (run h calls))
               == health (playerStats (run h calls)) / 140).
  { unfold HUDController.ratio. rewrite Hmx, Hhp.
    apply Q.min_r. apply Qle_shift_div_r; lra. }
  split_and!; try done.
  - rewrite Hr. apply Qle_shift_div_l; lra.
  - rewrite Hr. apply Qle_shift_div_r; lra.
Qed.

(** *** Kills and rewards *)

Lemma defined_config e e' :
  Enemy.config e' = Enemy.config e → defined e → defined e'.
Proof.
  intros Hc (type & def & pos & Hdef & He).
  exists type, def, pos. by rewrite Hc.
Qed.

Lemma defined_reward e :
  defined e →
  60 <= Enemy.reward (Enemy.config e) ∧ Enemy.reward (Enemy.config e) <= 150.
Proof.
  intros (type & def & pos & Hdef & ->).
  destruct (definitions_cases type def Hdef) as [-> | [-> | ->] ]; simpl;
    split; lra.
Qed.

Lemma update_listed delta pp em :
  listed em → listed (EnemyManager.update h delta pp em).1.
Proof.
  intros [He Hp]. split.
  - rewrite update_entries. apply Forall_forall. intros entry' Hin.
    apply list_elem_of_omap in Hin as (entry & Hin & Hafter).
    rewrite Forall_forall in He. specialize (He _ Hin).
    unfold entryAfter in Hafter. cbv zeta in Hafter.
    destruct (Enemy.isAlive (EnemyManager.enemy entry)).
    + injection Hafter as <-. simpl.
      destruct (Enemy_update_frame h delta pp (EnemyManager.enemy entry))
        as (Hc & _).
      by apply (defined_config (EnemyManager.enemy entry)).
    + destruct (Qleb _ _); [done|]. by injection Hafter as <-.
  - destruct (update_pending h delta pp em) as [->|(e & Hs & -> & _)];
      [done|]. apply Forall_app. split; [done|].
    apply Forall_singleton. by destruct Hs.
Qed.

Lemma settle_listed k loaded em :
  listed em → listed (EnemyManager.settleSpawn k loaded em).
Proof.
  intros [He Hp]. unfold EnemyManager.settleSpawn.
  destruct (EnemyManager.pendingSpawns em !! k) as [e|] eqn:Hk; [|done].
  split; simpl.
  - apply Forall_app. split; [done|]. apply Forall_singleton. simpl.
    destruct (Enemy_init_frame loaded e) as (Ic & _).
    apply (defined_config e); [done|].
    rewrite Forall_forall in Hp. apply Hp.
    by eapply list_elem_of_lookup_2.
  - by apply Forall_delete.
Qed.

Lemma update_alive_count delta pp em :
  EnemyManager._countActiveEnemies (EnemyManager.update h delta pp em).1
  = EnemyManager._countActiveEnemies em.
Proof.
  rewrite !countActive_filter, update_entries.
  pose proof (alive_after h delta pp (EnemyManager.enemyEntries em)) as E.
  apply (f_equal length) in E. by rewrite !length_fmap in E.
Qed.

Lemma enemyHits_quiet T ev :
  (∀ r impact, ev ≠ ProjectileSystem.EnemyHit r impact) →
  enemyHits (T ++ [ev]) = enemyHits T.
Proof.
  intros Hev. unfold enemyHits. rewrite omap_app. simpl.
  destruct ev; try by rewrite app_nil_r. by destruct (Hev r impact).
Qed.

Lemma kills_snoc impacts impact :
  kills (impacts ++ [impact])
  = (kills impacts + (if Impact.wasFatal impact then 1 else 0))%nat.
Proof.
  unfold kills. rewrite filter_app, length_app. f_equal.
  destruct (Impact.wasFatal impact) eqn:E.
  - by rewrite filter_cons_True.
  - by rewrite filter_cons_False by (by rewrite E).
Qed.

Lemma update_kills delta em ps :
  listed em →
  let w := ProjectileSystem.update delta (Some em) ps in
  ∃ em', ProjectileSystem.enemies w = Some em' ∧ listed em'
    ∧ EnemyManager._countActiveEnemies em
      = (EnemyManager._countActiveEnemies em'
         + kills (enemyHits (ProjectileSystem.trace w)))%nat
    ∧ Forall rewarded (enemyHits (ProjectileSystem.trace w)).
Proof.
  intros Hl. cbv zeta. unfold ProjectileSystem.update.
  apply (forDown_ind
    (λ w, ∃ em', ProjectileSystem.enemies w = Some em' ∧ listed em'
       ∧ EnemyManager._countActiveEnemies em
         = (EnemyManager._countActiveEnemies em'
            + kills (enemyHits (ProjectileSystem.trace w)))%nat
       ∧ Forall rewarded (enemyHits (ProjectileSystem.trace w)))).
  { exists em. simpl. split_and!; [done|done|unfold kills; simpl; lia|done]. }
  intros i w _ (em' & Hem & Hl' & Hcount & Hrew).
  unfold ProjectileSystem.updateProjectile.
  destruct (ProjectileSystem.projectiles (ProjectileSystem.system w) !! i)
    as [r|]; [|by exists em'].
  destruct (ProjectileSystem.store (ProjectileSystem.system w) !! r)
    as [p|]; [|by exists em'].
  destruct (negb (Projectile.active p)).
  { exists em'. simpl. rewrite enemyHits_quiet by done. done. }
  destruct (ProjectileSystem.expired (ProjectileSystem.advanced delta p)).
  { exists em'. simpl. rewrite enemyHits_quiet by done. done. }
  rewrite Hem. unfold ProjectileSystem.queryImpact.
  set (point := Projectile.position (ProjectileSystem.advanced delta p)).
  set (dmg := Projectile.damage (ProjectileSystem.advanced delta p)).
  destruct (impact_effect point dmg em')
    as [->|(j & entry & Hj & Ha & ->)].
  { exists em'. simpl. rewrite enemyHits_quiet by done. done. }
  destruct Hl' as [He Hp].
  assert (Hd : defined (EnemyManager.enemy entry)).
  { rewrite Forall_forall in He. apply He.
    by eapply list_elem_of_lookup_2. }
  eexists. simpl. split; [reflexivity|].
  replace (ProjectileSystem.trace w
           ++ [ProjectileSystem.ImpactQuery r;
               ProjectileSystem.EnemyHit r _;
               ProjectileSystem.Deactivated r ProjectileSystem.Hit])
    with ((ProjectileSystem.trace w ++ [ProjectileSystem.ImpactQuery r])
          ++ [ProjectileSystem.EnemyHit r
                {| Impact.enemy := j;
                   Impact.wasFatal :=
                     (Enemy.takeDamage dmg (EnemyManager.enemy entry)).2;
                   Impact.reward :=
                     if (Enemy.takeDamage dmg (EnemyManager.enemy entry)).2
                     then Enemy.reward
                            (Enemy.config (EnemyManager.enemy entry))
                     else 0;
                   Impact.damage := dmg |};
              ProjectileSystem.Deactivated r ProjectileSystem.Hit])
    by (by rewrite <- app_assoc).
  set (im := {| Impact.enemy := j |}).
  assert (Ehits : enemyHits
            ((ProjectileSystem.trace w ++ [ProjectileSystem.ImpactQuery r])
             ++ [ProjectileSystem.EnemyHit r im;
                 ProjectileSystem.Deactivated r ProjectileSystem.Hit])
          = enemyHits (ProjectileSystem.trace w) ++ [im]).
  { unfold enemyHits. rewrite !omap_app. simpl. by rewrite app_nil_r. }
  rewrite Ehits, kills_snoc. split_and!.
  - split; simpl; [|done]. apply Forall_insert; [done|]. simpl.
    destruct (takeDamage_frame dmg (EnemyManager.enemy entry)) as (Hc & _).
    by apply (defined_config (EnemyManager.enemy entry)).
  - rewrite Hcount, !countActive_filter. simpl.
    pose proof (alive_count_insert (EnemyManager.enemyEntries em') j entry
      {| EnemyManager.enemy :=
           (Enemy.takeDamage dmg (EnemyManager.enemy entry)).1;
         EnemyManager.deathTimer := EnemyManager.deathTimer entry |} Hj)
      as Hins.
    simpl in Hins.
    rewrite (takeDamage_survivor dmg _ Ha), Ha in Hins.
    destruct (Enemy.takeDamage dmg (EnemyManager.enemy entry)).2;
      simpl in Hins; lia.
  - apply Forall_app. split; [done|]. apply Forall_singleton.
    unfold rewarded, im. simpl.
    destruct (Enemy.takeDamage dmg (EnemyManager.enemy entry)).2; [|done].
    by apply defined_reward.
Qed.

Lemma bounty_bounds impacts :
  Forall rewarded impacts →
  60 * inject_Z (Z.of_nat (kills impacts)) <= bounty impacts
  ∧ bounty impacts <= 150 * inject_Z (Z.of_nat (kills impacts)).
Proof.
  induction 1 as [|impact impacts Hr _ IH].
  { split; by vm_compute. }
  unfold kills, bounty in *. simpl. unfold rewarded in Hr.
  destruct (Impact.wasFatal impact) eqn:E.
  - rewrite filter_cons_True by done. simpl length.
    rewrite Nat2Z.inj_succ, <- Z.add_1_r, inject_Z_plus.
    destruct Hr as [Hr1 Hr2].
    assert (Hpos : Qltb 0 (Impact.reward impact) = true)
      by (apply Qltb_true; lra).
    rewrite Hpos. simpl. change (inject_Z 1) with 1. lra.
  - rewrite filter_cons_False by (by rewrite E). simpl. lra.
Qed.

Lemma update_score f g em :
  steady g → enemyManager g = Some em → listed em →
  ∃ em', enemyManager (update h f g) = Some em' ∧ listed em'
    ∧ ∃ n, EnemyManager._countActiveEnemies em
           = (EnemyManager._countActiveEnemies em' + n)%nat
      ∧ score g + 60 * inject_Z (Z.of_nat n) <= score (update h f g)
      ∧ score (update h f g) <= score g + 150 * inject_Z (Z.of_nat n).
Proof.
  intros Hs Hem Hl. unfold update.
  set (g0 := set_elapsedTime (elapsedTime g + delta f) g).
  assert (Hs0 : steady g0) by (by apply elapse_steady).
  destruct (weaponStep_cases f g0 Hs0) as (Hs1 & Hb1 & _).
  set (g1 := weaponStep h f g0) in *.
  unfold besidesWeapons in Hb1.
  injection Hb1 as _ _ Hem1 _ Hsc1 _ _ _ _ _.
  cbn [enemyManager score set_elapsedTime g0] in Hem1, Hsc1.
  rewrite Hem in Hem1.
  destruct (enemyStep_cases f g1 em Hs1 Hem1) as (Hs2 & Hb2 & _).
  set (em1 := (EnemyManager.update h (delta f) (Some (playerPosition f))
                 em).1) in *.
  set (g2 := enemyStep h f g1) in *.
  unfold besidesDamage in Hb2.
  injection Hb2 as _ _ Hem2 Hsc2 _ _ _ _ _ _.
  cbn [enemyManager score set_enemyManager] in Hem2, Hsc2.
  pose proof Hs2 as (_ & _ & (ps2 & Hps2 & _) & _).
  destruct (projectileStep_cases f g2 ps2 Hs2 Hps2) as (_ & Hb3 & Hsc3).
  unfold besidesScore in Hb3.
  injection Hb3 as _ _ Hem3 _ _ _ _ _ _ _ _.
  cbn [enemyManager set_enemyManager] in Hem3.
  rewrite Hem2 in Hem3, Hsc3.
  assert (Hl1 : listed em1) by (by apply update_listed).
  destruct (update_kills (delta f) em1 ps2 Hl1)
    as (em' & Hw & Hl' & Hcount & Hrew).
  exists em'. split; [congruence|]. split; [done|].
  exists (kills (enemyHits (ProjectileSystem.trace
            (ProjectileSystem.update (delta f) (Some em1) ps2)))).
  split.
  { rewrite <- Hcount. unfold em1. by rewrite update_alive_count. }
  destruct (bounty_bounds _ Hrew) as [Hlo Hhi].
  rewrite Hsc3, Hsc2, Hsc1. split; lra.
Qed.

Lemma call_listed c g :
  steady g →
  (∃ em, enemyManager g = Some em ∧ listed em) →
  ∃ em, enemyManager (call h c g) = Some em ∧ listed em.
Proof.
  intros Hs (em & Hem & Hl). destruct c as [| |f|k loaded].
  - simpl. unfold start.
    destruct (isRunning g && negb (isGameOver g))%bool; [by exists em|].
    simpl. rewrite Hem. simpl. eexists. split; [done|].
    destruct Hl as [_ Hp]. split; [apply Forall_nil_2|done].
  - simpl. unfold stop. destruct (negb _); by exists em.
  - destruct (frame_call f g) as [->|[_ ->]]; [by exists em|].
    destruct (update_score f g em Hs Hem Hl) as (em' & ? & ? & _).
    by exists em'.
  - simpl. rewrite Hem. simpl. eexists. split; [done|].
    by apply settle_listed.
Qed.

Lemma run_listed calls :
  ∃ em, enemyManager (run h calls) = Some em ∧ listed em.
Proof.
  induction calls as [|c calls IH] using rev_ind.
  - eexists. split; [reflexivity|]. split; apply Forall_nil_2.
  - rewrite game_run_snoc. apply call_listed; [apply run_steady|done].
Qed.

(** X22.  Kills pay: in a frame of any session no enemy comes back to
    life, and the score grows by at least 60 and at most 150 points for
    each enemy that the frame's projectiles kill; a frame without a kill
    leaves the score as it is. *)
Theorem kill_rewards (calls : list Call) (f : Frame) :
  let g := run h calls in
  let g' := call h (CallFrame f) g in
  (aliveEnemies g' ≤ aliveEnemies g)%nat
  ∧ score g
    + 60 * inject_Z (Z.of_nat (aliveEnemies g - aliveEnemies g'))
    <= score g'
  ∧ score g'
    <= score g
       + 150 * inject_Z (Z.of_nat (aliveEnemies g - aliveEnemies g')).
Proof.
  cbv zeta. destruct (run_listed calls) as (em & Hem & Hl).
  destruct (frame_call f (run h calls)) as [->|[_ ->]].
  { rewrite Nat.sub_diag. change (inject_Z (Z.of_nat 0)) with 0.
    split; [done|]. split; lra. }
  destruct (update_score f _ em (run_steady calls) Hem Hl)
    as (em' & Hem' & _ & n & Hn & Hlo & Hhi).
  unfold aliveEnemies. rewrite Hem, Hem', Hn.
  replace (EnemyManager._countActiveEnemies em' + n
           - EnemyManager._countActiveEnemies em')%nat with n by lia.
  split; [lia|done].
Qed.

(** X23.  [start()] on a game that is not running or is over gives a
    fresh game: score 0, clock 0, full health, no cooldown, an empty
    roster, wave 1, an empty queue and no projectile in flight.  It keeps
    the enemy manager's spawn interval and cap, and it keeps the enemies
    whose models are still loading: when such a load settles after the
    restart, the enemy is the first of the new roster. *)
Theorem restart_keeps_pending (calls : list Call) (k : nat)
    (loaded : option Vector3.t) :
  let g := run h calls in
  let g' := call h CallStart g in
  isRunning g = false ∨ isGameOver g = true →
  score g' = 0 ∧ elapsedTime g' = 0 ∧ isGameOver g' = false
  ∧ isRunning g' = true ∧ health (playerStats g') = 140
  ∧ weaponCooldown g' = 0
  ∧ (∃ ps, projectileSystem g' = Some ps
       ∧ ProjectileSystem.projectiles ps = [])
  ∧ ∃ em em', enemyManager g = Some em ∧ enemyManager g' = Some em'
      ∧ EnemyManager.enemyEntries em' = [] ∧ EnemyManager.wave em' = 1%Z
      ∧ EnemyManager.spawnQueue em' = []
      ∧ EnemyManager.waveInProgress em' = false
      ∧ EnemyManager.spawnInterval em' = EnemyManager.spawnInterval em
      ∧ EnemyManager.maxActive em' = EnemyManager.maxActive em
      ∧ EnemyManager.pendingSpawns em' = EnemyManager.pendingSpawns em
      ∧ ∀ e, EnemyManager.pendingSpawns em !! k = Some e →
          EnemyManager.enemyEntries <$>
            enemyManager (call h (CallSettle k loaded) g')
          = Some [{| EnemyManager.enemy := Enemy.init loaded e;
                     EnemyManager.deathTimer := 0 |}].
Proof.
  cbv zeta. intros Hidle. pose proof (run_steady calls) as Hs.
  steady_parts Hs. destruct Hem as [em Hem].
  assert (E : call h CallStart (run h calls)
              = set_isRunning true (_resetGameState (run h calls))).
  { simpl. unfold start.
    destruct Hidle as [-> | ->]; [done|by rewrite andb_false_r]. }
  rewrite E. simpl. rewrite Hps, Hem, Hmax. simpl.
  split_and!; try done.
  - eexists. split; [done|]. apply reset_empty.
  - exists em. eexists. split; [done|]. split; [done|]. simpl.
    split_and!; try done.
    intros e He. unfold EnemyManager.settleSpawn. simpl. by rewrite He.
Qed.

(** *** The two systems as sessions of their own *)

Lemma armed_write r p ps :
  armed ps → (Projectile.active p = true → pistolRound p) →
  armed (ProjectileSystem.write r p ps).
Proof.
  intros Ha Hp r' p'. unfold ProjectileSystem.write. simpl.
  destruct (decide (r' = r)) as [->|Hne].
  - rewrite lookup_insert_eq. by intros [= <-].
  - rewrite lookup_insert_ne by done. apply Ha.
Qed.

Lemma armed_deactivate i ps :
  armed ps → armed (ProjectileSystem._deactivateProjectileAtIndex i ps).
Proof.
  intros Ha. unfold ProjectileSystem._deactivateProjectileAtIndex.
  destruct (ProjectileSystem.projectiles ps !! i) as [r|]; [|done].
  intros r' p'. simpl. destruct (decide (r' = r)) as [->|Hne].
  - rewrite lookup_alter_eq.
    destruct (ProjectileSystem.store ps !! r); simpl; [|done].
    by intros [= <-].
  - rewrite lookup_alter_ne by done. apply Ha.
Qed.

Lemma armed_advanced delta p :
  pistolRound p → pistolRound (ProjectileSystem.advanced delta p).
Proof.
  intros (Hsp & Hdm & Hmx & Hage). unfold pistolRound. simpl.
  split_and!; [done..|]. rewrite Hage. ring.
Qed.

Lemma armed_reset ps : armed ps → armed (ProjectileSystem.reset ps).
Proof.
  unfold ProjectileSystem.reset.
  generalize (length (ProjectileSystem.projectiles ps)). intros fuel.
  revert ps. induction fuel as [|fuel IH]; intros ps Ha; [done|].
  simpl. destruct (Nat.ltb 0 _); [|done].
  by apply IH, armed_deactivate.
Qed.

Lemma armed_spawn f ps :
  armed ps →
  armed (ProjectileSystem.spawnProjectile h (round h pistol f) ps).2.
Proof.
  intros Ha. unfold ProjectileSystem.spawnProjectile.
  destruct (ProjectileSystem._getProjectile ps) as [r ps1] eqn:Eg.
  assert (Ha1 : armed ps1).
  { unfold ProjectileSystem._getProjectile in Eg.
    destruct (last (ProjectileSystem.pool ps)).
    - injection Eg as _ <-. exact Ha.
    - injection Eg as _ <-. intros r' p'. simpl.
      destruct (decide (r' = ProjectileSystem.nextRef ps)) as [->|Hne].
      + rewrite lookup_insert_eq. by intros [= <-].
      + rewrite lookup_insert_ne by done. apply Ha. }
  simpl. intros r' p'. simpl.
  destruct (decide (r' = r)) as [->|Hne].
  - rewrite lookup_insert_eq. intros [= <-] _.
    unfold pistolRound, ProjectileSystem.DEFAULT_PROJECTILE_LIFETIME. simpl.
    split_and!; [done..|]. ring.
  - rewrite lookup_insert_ne by done. apply Ha1.
Qed.

Lemma update_impacts delta em ps :
  armed ps →
  let w := ProjectileSystem.update delta (Some em) ps in
  armed (ProjectileSystem.system w)
  ∧ ∃ cs, ProjectileSystem.enemies w
          = Some (foldl (λ m c, EnemyManager.call h c m) em cs)
      ∧ Forall gentle cs.
Proof.
  intros Ha. cbv zeta. unfold ProjectileSystem.update.
  apply (forDown_ind
    (λ w, armed (ProjectileSystem.system w)
       ∧ ∃ cs, ProjectileSystem.enemies w
               = Some (foldl (λ m c, EnemyManager.call h c m) em cs)
           ∧ Forall gentle cs)).
  { split; [done|]. by exists []. }
  intros i w _ (Haw & cs & Hem & Hg).
  unfold ProjectileSystem.updateProjectile.
  destruct (ProjectileSystem.projectiles (ProjectileSystem.system w) !! i)
    as [r|]; [|by eauto].
  destruct (ProjectileSystem.store (ProjectileSystem.system w) !! r)
    as [p|] eqn:Hp; [|by eauto].
  destruct (Projectile.active p) eqn:Hact; simpl.
  2:{ split; [by apply armed_deactivate|by eauto]. }
  pose proof (Haw r p Hp Hact) as Hround.
  assert (Haw1 : armed (ProjectileSystem.write r
                          (ProjectileSystem.advanced delta p)
                          (ProjectileSystem.system w))).
  { apply armed_write; [done|]. intros _. by apply armed_advanced. }
  destruct (ProjectileSystem.expired (ProjectileSystem.advanced delta p)).
  { simpl. split; [by apply armed_deactivate|by eauto]. }
  rewrite Hem. unfold ProjectileSystem.queryImpact.
  set (point := Projectile.position (ProjectileSystem.advanced delta p)).
  set (dmg := Projectile.damage (ProjectileSystem.advanced delta p)).
  set (m := foldl (λ m c, EnemyManager.call h c m) em cs).
  assert (Hcs : ∃ cs', Some (EnemyManager.handleProjectileImpact point dmg
                               m).1
                       = Some (foldl (λ m c, EnemyManager.call h c m) em cs')
                  ∧ Forall gentle cs').
  { exists (cs ++ [EnemyManager.CallImpact point dmg]).
    rewrite foldl_app. split; [done|].
    apply Forall_app. split; [done|]. apply Forall_singleton. simpl.
    unfold dmg. simpl. destruct Hround as (_ & -> & _). simpl. lra. }
  destruct (EnemyManager.handleProjectileImpact point dmg m)
    as [m' [im|] ]; simpl in *.
  - split; [by apply armed_deactivate|done].
  - split; [done|done].
Qed.

Lemma emrun_app cs cs' :
  EnemyManager.run h (cs ++ cs')
  = foldl (λ m c, EnemyManager.call h c m) (EnemyManager.run h cs) cs'.
Proof. unfold EnemyManager.run. by rewrite foldl_app. Qed.

Lemma psrun_snoc cs c :
  ProjectileSystem.run h (cs ++ [c])
  = ProjectileSystem.call h c (ProjectileSystem.run h cs).
Proof. unfold ProjectileSystem.run. by rewrite foldl_app. Qed.

Lemma run_sessions calls :
  ∃ emcalls pscalls,
    enemyManager (run h calls) = Some (EnemyManager.run h emcalls)
    ∧ projectileSystem (run h calls)
      = Some (ProjectileSystem.run h pscalls)
    ∧ armed (ProjectileSystem.run h pscalls)
    ∧ (Forall calm calls →
       Forall gentle emcalls ∧ Forall admissible pscalls).
Proof.
  induction calls as [|c calls IH] using rev_ind.
  { exists [], []. split_and!; done. }
  destruct IH as (emcalls & pscalls & Hem & Hps & Harm & Hcalm).
  rewrite game_run_snoc. pose proof (run_steady calls) as Hs.
  set (g := run h calls) in *.
  assert (Hsame : ∀ g', enemyManager g' = enemyManager g →
            projectileSystem g' = projectileSystem g →
            ∃ emcalls' pscalls',
              enemyManager g' = Some (EnemyManager.run h emcalls')
              ∧ projectileSystem g' = Some (ProjectileSystem.run h pscalls')
              ∧ armed (ProjectileSystem.run h pscalls')
              ∧ (Forall calm (calls ++ [c]) →
                 Forall gentle emcalls' ∧ Forall admissible pscalls')).
  { intros g' E1 E2. exists emcalls, pscalls. rewrite E1, E2.
    split_and!; try done. intros Hall.
    apply Forall_app in Hall as [Hall _]. by apply Hcalm. }
  destruct c as [| |f|k loaded].
  - simpl. unfold start.
    destruct (isRunning g && negb (isGameOver g))%bool; [by apply Hsame|].
    exists (emcalls ++ [EnemyManager.CallReset]),
           (pscalls ++ [ProjectileSystem.CallReset]).
    simpl. rewrite Hem, Hps, emrun_app, psrun_snoc. simpl.
    split_and!; [done|done|by apply armed_reset|].
    intros Hall. apply Forall_app in Hall as [Hall _].
    destruct (Hcalm Hall) as [Hg Ha].
    split; apply Forall_app; (split; [done|]); by apply Forall_singleton.
  - apply Hsame; simpl; unfold stop; by destruct (negb _).
  - destruct (frame_call f g) as [->|[_ ->]]; [by apply Hsame|].
    destruct (update_systems f g Hs)
      as (em & ps & ps1 & ps2 & Hem0 & Hps0 & Hc1 & Hc2 & _ & _ & Hem' & Hps').
    rewrite Hem in Hem0. injection Hem0 as <-.
    rewrite Hps in Hps0. injection Hps0 as <-.
    assert (H1 : ∃ l1, ps1 = ProjectileSystem.run h (pscalls ++ l1)
                   ∧ armed ps1 ∧ Forall admissible l1).
    { destruct Hc1 as [->| ->].
      - exists []. by rewrite app_nil_r.
      - exists [ProjectileSystem.CallSpawn (round h pistol f)].
        rewrite psrun_snoc. split_and!; [done|by apply armed_spawn|].
        apply Forall_singleton. split; simpl; lra. }
    destruct H1 as (l1 & -> & Harm1 & Hadm1).
    assert (H2 : ∃ l2, ps2 = ProjectileSystem.run h (pscalls ++ l2)
                   ∧ armed ps2 ∧ Forall admissible l2).
    { destruct Hc2 as [->| ->].
      - by exists l1.
      - exists (l1 ++ [ProjectileSystem.CallReset]).
        rewrite app_assoc, psrun_snoc.
        split_and!; [done|by apply armed_reset|].
        apply Forall_app. split; [done|]. by apply Forall_singleton. }
    destruct H2 as (l2 & -> & Harm2 & Hadm2).
    set (em1 := (EnemyManager.update h (delta f) (Some (playerPosition f))
                   (EnemyManager.run h emcalls)).1) in *.
    destruct (update_impacts (delta f) em1 _ Harm2) as (Harm3 & cs & Hcs & Hg).
    exists (emcalls
            ++ EnemyManager.CallUpdate (delta f) (Some (playerPosition f))
               :: cs),
           ((pscalls ++ l2)
            ++ [ProjectileSystem.CallUpdate (delta f) (Some em1)]).
    rewrite Hem', Hps', Hcs, emrun_app, psrun_snoc. simpl.
    split_and!; [done|done|done|].
    intros Hall. apply Forall_app in Hall as [Hall Hf].
    apply Forall_inv in Hf. simpl in Hf.
    destruct (Hcalm Hall) as [Hge Hadm].
    split.
    + apply Forall_app. split; [done|]. by apply Forall_cons.
    + apply Forall_app. split; [by apply Forall_app|].
      apply Forall_singleton. split; simpl; done.
  - exists (emcalls ++ [EnemyManager.CallSettle k loaded]), pscalls.
    simpl. rewrite Hem, Hps, emrun_app. simpl.
    split_and!; [done|done|done|].
    intros Hall. apply Forall_app in Hall as [Hall _].
    destruct (Hcalm Hall) as [Hg Ha]. split; [|done].
    apply Forall_app. split; [done|]. by apply Forall_singleton.
Qed.

(** X29.  The game drives its two systems through their own calls only:
    at every point of a game its enemy manager is the result of a session
    of [EnemyManager] calls and its projectile system the result of a
    session of [ProjectileSystem] calls, so what holds of every such
    session holds in the game; and when the frames of the game have
    non-negative deltas, those sessions use non-negative deltas, damage,
    speeds and ranges. *)
Theorem game_drives_sessions (calls : list Call) :
  ∃ emcalls pscalls,
    enemyManager (run h calls) = Some (EnemyManager.run h emcalls)
    ∧ projectileSystem (run h calls)
      = Some (ProjectileSystem.run h pscalls)
    ∧ (Forall calm calls →
       Forall gentle emcalls ∧ Forall admissible pscalls).
Proof.
  destruct (run_sessions calls) as (emcalls & pscalls & ? & ? & _ & ?).
  by exists emcalls, pscalls.
Qed.

(** *** What the strikes of a frame cost *)

Lemma defined_damage e :
  defined e →
  8 <= Enemy.damage (Enemy.config e) ∧ Enemy.damage (Enemy.config e) <= 18.
Proof.
  intros (type & def & pos & Hdef & ->).
  destruct (definitions_cases type def Hdef) as [-> | [-> | ->] ]; simpl;
    split; lra.
Qed.

Lemma handlePlayerDamage_health amount g :
  health (playerStats (_handlePlayerDamage amount g))
  = if isGameOver g then health (playerStats g)
    else Qmax 0 (health (playerStats g)
                 - Qmax 1 (amount - armor (playerStats g))).
Proof.
  unfold _handlePlayerDamage. destruct (isGameOver g) eqn:Eover; [done|].
  cbn [health playerStats set_health set_hud].
  destruct (Qleb _ 0); [|done].
  unfold _onPlayerDeath. cbn [isGameOver set_hud set_health].
  by rewrite Eover.
Qed.

Lemma toll_nonneg (strikes : list (Q * nat)) :
  Forall (λ strike, 1 <= strike.1) strikes → 0 <= toll strikes.
Proof.
  induction 1 as [|strike strikes Hs _ IH]; unfold toll in *; simpl; lra.
Qed.

Lemma damage_fold_health (strikes : list (Q * nat)) : ∀ g,
  steady g → Forall (λ strike, 1 <= strike.1) strikes →
  health (playerStats
            (foldl (λ g strike, _handlePlayerDamage strike.1 g) g strikes))
  == Qmax 0 (health (playerStats g) - toll strikes).
Proof.
  induction strikes as [|[amount i] strikes IH]; intros g Hs Hall.
  { pose proof Hs as (_ & _ & _ & _ & _ & Hh0 & _).
    unfold toll. simpl. rewrite Q.max_r; lra. }
  apply Forall_cons in Hall as [Ha Hall]. simpl in Ha.
  pose proof (toll_nonneg strikes Hall) as Hnn.
  destruct (handlePlayerDamage_cases amount g Hs) as (Hs1 & _).
  cbn [foldl fst]. rewrite (IH _ Hs1 Hall), handlePlayerDamage_health.
  pose proof Hs as (_ & _ & _ & _ & Harm & Hh0 & _ & Hiff & _).
  unfold toll in *. simpl. rewrite Harm.
  destruct (isGameOver g) eqn:Eover.
  - assert (Hz : health (playerStats g) <= 0) by (by apply Hiff).
    rewrite !Q.max_l by lra. reflexivity.
  - assert (Hm : Qmax 1 (amount - 0) == amount)
      by (rewrite Q.max_r; lra).
    destruct (Q.max_spec 0 (health (playerStats g) - Qmax 1 (amount - 0)))
      as [[Hlt ->]|[Hle ->]].
    + destruct (Q.max_spec 0 (health (playerStats g)
                              - Qmax 1 (amount - 0)
                              - foldr (λ strike total, strike.1 + total) 0
                                      strikes))
        as [[Hlt' ->]|[Hle' ->]];
      destruct (Q.max_spec 0 (health (playerStats g)
                              - (amount
                                 + foldr (λ strike total, strike.1 + total)
                                         0 strikes)))
        as [[Hlt2 ->]|[Hle2 ->]]; lra.
    + destruct (Q.max_spec 0 (0 - foldr (λ strike total, strike.1 + total)
                                        0 strikes))
        as [[Hlt' ->]|[Hle' ->]];
      destruct (Q.max_spec 0 (health (playerStats g)
                              - (amount
                                 + foldr (λ strike total, strike.1 + total)
                                         0 strikes)))
        as [[Hlt2 ->]|[Hle2 ->]]; lra.
Qed.

(** X27.  What a frame costs the player of a running game that is not
    over: each enemy that strikes in the frame takes its damage, between
    8 and 18, off the player's health, which stops at 0; the game is
    over after the frame exactly when the strikes add up to the health
    or more. *)
Theorem strikes_cost_health (calls : list Call) (f : Frame) :
  let g := run h calls in
  let g' := call h (CallFrame f) g in
  isRunning g = true → isGameOver g = false →
  ∃ em, enemyManager g = Some em
    ∧ let strikes := (EnemyManager.update h (delta f)
                        (Some (playerPosition f)) em).2 in
      Forall (λ strike, 8 <= strike.1 ∧ strike.1 <= 18) strikes
      ∧ health (playerStats g')
        == Qmax 0 (health (playerStats g) - toll strikes)
      ∧ (isGameOver g' = true ↔ health (playerStats g) <= toll strikes).
Proof.
  cbv zeta. intros Hrun Hover.
  destruct (run_listed calls) as (em & Hem & Hl).
  pose proof (run_steady calls) as Hs.
  set (g := run h calls) in *.
  exists em. split; [done|].
  assert (Hstrikes : Forall (λ strike, 8 <= strike.1 ∧ strike.1 <= 18)
            (EnemyManager.update h (delta f) (Some (playerPosition f))
               em).2).
  { rewrite update_calls. apply Forall_forall. intros [d i] Hin.
    apply attackCalls_elem in Hin as (entry & _ & Hlook & _ & ->).
    simpl. apply defined_damage. destruct Hl as [He _].
    rewrite Forall_forall in He. apply He.
    by eapply list_elem_of_lookup_2. }
  split; [done|].
  assert (Hcall : call h (CallFrame f) g = update h f g)
    by (simpl; by rewrite Hrun).
  rewrite Hcall. pose proof (update_steady f g Hs) as Hs'.
  unfold update in *.
  set (g0 := set_elapsedTime (elapsedTime g + delta f) g) in *.
  assert (Hs0 : steady g0) by (by apply elapse_steady).
  destruct (weaponStep_cases f g0 Hs0) as (Hs1 & Hb1 & _).
  set (g1 := weaponStep h f g0) in *.
  unfold besidesWeapons in Hb1.
  injection Hb1 as _ Hpl1 Hem1 _ _ Hov1 _ Hst1 _ _.
  cbn [player enemyManager isGameOver playerStats set_elapsedTime g0]
    in Hpl1, Hem1, Hov1, Hst1.
  pose proof Hs1 as (_ & _ & (ps1 & Hps1 & _) & _).
  assert (Hs2 : steady (enemyStep h f g1)).
  { by destruct (enemyStep_cases f g1 em Hs1 ltac:(congruence)) as (? & _). }
  pose proof Hs2 as (_ & _ & (ps2 & Hps2 & _) & _).
  destruct (projectileStep_cases f _ ps2 Hs2 Hps2) as (_ & Hb3 & _).
  unfold besidesScore in Hb3.
  injection Hb3 as _ _ _ _ Hov3 _ _ _ _ Hst3 _.
  cbn [isGameOver playerStats set_enemyManager set_projectileSystem]
    in Hov3, Hst3.
  assert (Hhealth :
    health (playerStats (enemyStep h f g1))
    == Qmax 0 (health (playerStats g)
               - toll (EnemyManager.update h (delta f)
                         (Some (playerPosition f)) em).2)).
  { unfold enemyStep. rewrite Hem1, Hem.
    pose proof Hs as (Hpl & _). rewrite Hpl1, Hpl.
    destruct (EnemyManager.update h (delta f) (Some (playerPosition f)) em)
      as [em' strikes] eqn:Eu. cbn [snd] in *.
    rewrite Hov1, Hover.
    assert (Hs1' : steady (set_enemyManager (Some em') g1)).
    { pose proof Hs1 as Hs1c. unfold steady in Hs1c |- *. simpl.
      destruct Hs1c as (? & _ & ?). split; [done|]. split; [by eexists|done]. }
    rewrite damage_fold_health; [|done|].
    - cbn [playerStats set_enemyManager]. by rewrite Hst1.
    - eapply Forall_impl; [exact Hstrikes|]. simpl. intros ? [? _]. lra. }
  split.
  - rewrite Hst3. exact Hhealth.
  - pose proof Hs' as (_ & _ & _ & _ & _ & Hh0 & _ & Hiff & _).
    rewrite Hiff, Hst3, Hhealth.
    pose proof (toll_nonneg _ ltac:(eapply Forall_impl;
      [exact Hstrikes|simpl; intros ? [? _]; lra])) as Hnn.
    destruct (Q.max_spec 0 (health (playerStats g)
      - toll (EnemyManager.update h (delta f) (Some (playerPosition f))
                em).2)) as [[Hlt ->]|[Hle ->]]; split; intros; lra.
Qed.


End GameLoop.

(** The lost game is over, and one more frame with the trigger held
    changes neither the state of the game nor the shots. *)
Lemma after_game_over_witness :
  Game.isGameOver (Game.run still_host lost_game) = true
  ∧ Game.isGameOver
      (Game.call still_host (Game.CallFrame (frame_of 1 true))
         (Game.run still_host lost_game)) = true
  ∧ Game.shots
      (Game.call still_host (Game.CallFrame (frame_of 1 true))
         (Game.run still_host lost_game))
    = Game.shots (Game.run still_host lost_game).
Proof.
  assert (Hover : Game.isGameOver (Game.run still_host lost_game) = true)
    by (vm_compute; reflexivity).
  destruct (after_game_over still_host lost_game (frame_of 1 true) Hover)
    as (H1 & _ & _ & _ & H5 & _).
  split; [exact Hover|]. split; [exact H1|exact H5].
Defined.

(** A started game and one frame with the trigger held. *)
Lemma bullets_in_flight_witness :
  Forall calm [Game.CallStart; Game.CallFrame (frame_of (1 # 10) true)]
  ∧ ∃ ps,
      Game.projectileSystem
        (Game.run still_host
           [Game.CallStart; Game.CallFrame (frame_of (1 # 10) true)])
      = Some ps
      ∧ wellFormed ps.
Proof.
  assert (Hall : Forall calm
            [Game.CallStart; Game.CallFrame (frame_of (1 # 10) true)]).
  { repeat constructor; simpl; lra. }
  split; [exact Hall|].
  destruct (bullets_in_flight still_host _ Hall) as (ps & Hps & Hwf & _).
  exists ps. split; [exact Hps|exact Hwf].
Defined.

(** A game that is stopped while its first grunt is loading, and started
    again: when the load fails after the restart, the grunt joins the
    roster of the new game. *)
Lemma restart_keeps_pending_witness :
  let g := Game.run still_host stopped_game in
  let g' := Game.call still_host Game.CallStart g in
  (Game.isRunning g = false ∨ Game.isGameOver g = true)
  ∧ Game.isRunning g' = true
  ∧ ∃ em e, Game.enemyManager g = Some em
      ∧ EnemyManager.pendingSpawns em !! 0%nat = Some e
      ∧ EnemyManager.enemyEntries <$>
          Game.enemyManager
            (Game.call still_host (Game.CallSettle 0 None) g')
        = Some [{| EnemyManager.enemy := Enemy.init None e;
                   EnemyManager.deathTimer := 0 |}].
Proof.
  intros g g'.
  assert (Hidle : Game.isRunning g = false ∨ Game.isGameOver g = true)
    by (left; vm_compute; reflexivity).
  split; [exact Hidle|].
  destruct (restart_keeps_pending still_host stopped_game 0 None Hidle)
    as (_ & _ & _ & Hrun & _ & _ & _ & em & em' & Hem & _ & _ & _ & _ & _
        & _ & _ & _ & Hsettle).
  split; [exact Hrun|].
  assert (Hp : ∃ e, (Game.enemyManager g
                     ≫= λ m, EnemyManager.pendingSpawns m !! 0%nat) = Some e)
    by (vm_compute; eexists; reflexivity).
  destruct Hp as [e He]. fold g in Hem. rewrite Hem in He. simpl in He.
  exists em, e. split; [exact Hem|]. split; [exact He|].
  exact (Hsettle e He).
Defined.

(** The first grunt has joined the roster of a running game. *)
Lemma strikes_cost_health_witness :
  Game.isRunning (Game.run still_host (take 3 lost_game)) = true
  ∧ Game.isGameOver (Game.run still_host (take 3 lost_game)) = false
  ∧ ∃ em, Game.enemyManager (Game.run still_host (take 3 lost_game))
          = Some em.
Proof.
  assert (Hrun : Game.isRunning (Game.run still_host (take 3 lost_game))
                 = true) by (vm_compute; reflexivity).
  assert (Hover : Game.isGameOver (Game.run still_host (take 3 lost_game))
                  = false) by (vm_compute; reflexivity).
  split; [exact Hrun|]. split; [exact Hover|].
  destruct (strikes_cost_health still_host (take 3 lost_game)
              (frame_of (14 # 10) false) Hrun Hover) as (em & Hem & _).
  exists em. exact Hem.
Defined.

(** ** The cooldown of the weapon *)

(** Without a rounding, [RoundedWeapon._handleWeapons] is the cooldown
    and the shot of [Game._handleWeapons]. *)
Lemma handleWeapons_exact (h : Host) (f : Game.Frame) (g : Game.t)
    (ps : ProjectileSystem.t) :
  Game.projectileSystem g = Some ps → Game.player g = true →
  let step := RoundedWeapon._handleWeapons (λ x, x) (Game.currentWeapon g)
                (Game.delta f) (Game.shootingPrimary f)
                (Game.weaponCooldown g) in
  Game.weaponCooldown (Game._handleWeapons h f g) = step.1
  ∧ Game.shots (Game._handleWeapons h f g)
    = Game.shots g ++ (if step.2 then [Game.elapsedTime g] else []).
Proof.
  intros Hps Hpl. cbv zeta.
  unfold Game._handleWeapons, RoundedWeapon._handleWeapons. rewrite Hps.
  cbn [Game.weaponCooldown Game.set_weaponCooldown].
  destruct (Game.shootingPrimary f
            && Qleb (Qmax 0 (Game.weaponCooldown g - Game.delta f)) 0)%bool.
  2:{ simpl. by rewrite app_nil_r. }
  unfold Game._fireCurrentWeapon.
  cbn [Game.player Game.projectileSystem Game.currentWeapon
       Game.set_weaponCooldown].
  rewrite Hpl, Hps. cbn [negb].
  destruct (ProjectileSystem.spawnProjectile h _ ps) as [r ps'].
  by destruct (Game.ammo (Game.currentWeapon g)).
Qed.

Section FireRate.

Import Binary64.

(** The cooldown of the pistol is the double [3275345183542179 * 2^(-54)],
    a little above 2/11. *)
Lemma round_cooldown x :
  x <= round (1 / Game.fireRate Game.pistol) →
  round x <= round (1 / Game.fireRate Game.pistol).
Proof.
  assert (E : round (1 / Game.fireRate Game.pistol)
              == inject_Z 3275345183542179 * 2 ^ (-54))
    by (vm_compute; reflexivity).
  rewrite E. by apply round_le.
Qed.

Lemma volley_quiet frames cd :
  Forall (λ f : Q * bool, 0 <= f.1) frames →
  cd <= round (1 / Game.fireRate Game.pistol) →
  tickTime frames.*1 + ticksOf (length frames) * 2 ^ (-54) < cd →
  Forall (λ fired, fired = false)
         (RoundedWeapon.volley round Game.pistol frames cd).
Proof.
  intros Hall. revert cd.
  induction Hall as [|[delta shooting] frames Hd Hrest IH]; intros cd Hle Hlt.
  { apply Forall_nil_2. }
  simpl in Hd.
  change (tickTime ((delta, shooting) :: frames).*1)
    with (delta + tickTime frames.*1) in Hlt.
  cbn [length] in Hlt. rewrite ticksOf_S in Hlt.
  assert (HT : 0 <= tickTime frames.*1).
  { apply tickTime_nonneg. apply Forall_fmap.
    eapply Forall_impl; [exact Hrest|]. intros [d b] H. exact H. }
  pose proof (ticksOf_nonneg (length frames)) as HN.
  assert (Hk : 0 < 2 ^ (-54)) by done.
  assert (Hc : round (1 / Game.fireRate Game.pistol) <= 1 # 4)
    by (by vm_compute).
  assert (He : unitRoundoff * (1 # 4) + tiny <= 2 ^ (-54)) by done.
  assert (HNk : 0 <= ticksOf (length frames) * 2 ^ (-54)).
  { apply Qmult_le_0_compat; [done|lra]. }
  set (N := ticksOf (length frames)) in *. set (k := 2 ^ (-54)) in *.
  set (T := tickTime frames.*1) in *.
  set (c0 := round (1 / Game.fireRate Game.pistol)) in *.
  remember (cd - delta) as x eqn:Ex.
  assert (Ex' : x == cd - delta) by (by rewrite Ex).
  pose proof (round_error x) as Herr.
  assert (Hx : Qabs x <= 1 # 4) by (rewrite Qabs_pos; lra).
  assert (unitRoundoff * Qabs x <= unitRoundoff * (1 # 4)).
  { apply slack_le; [done|done]. }
  apply Qabs_Qle_condition in Herr as [Hlo _].
  pose proof (round_cooldown x ltac:(fold c0; lra)) as Hhi. fold c0 in Hhi.
  pose proof (Q.le_max_r 0 (round x)) as Hmax.
  assert (Emax : Qmax 0 (round x) == round x) by (apply Q.max_r; lra).
  cbn [RoundedWeapon.volley]. unfold RoundedWeapon._handleWeapons.
  rewrite <- Ex. cbv zeta.
  assert (Hq : Qleb (Qmax 0 (round x)) 0 = false).
  { apply Qleb_false. lra. }
  rewrite Hq, andb_false_r. apply Forall_cons_2; [done|].
  apply IH; [fold c0; lra|]. fold N k T. lra.
Qed.

(** X19.  The fire rate, in the arithmetic of the doubles.  A shot
    leaves the cooldown at the double of [1 / fireRate].  In the frames
    that follow it, [n] of them with non-negative deltas and the trigger
    in any state, no shot is fired as long as their deltas add up to at
    most [1 / fireRate] less [n * 2^(-54)] s, which is 2/11 s less that
    allowance for the pistol. *)
Theorem fire_rate (frames : list (Q * bool)) :
  Forall (λ f : Q * bool, 0 <= f.1) frames →
  tickTime frames.*1 + ticksOf (length frames) * 2 ^ (-54)
  <= 1 / Game.fireRate Game.pistol →
  Forall (λ fired, fired = false)
    (RoundedWeapon.volley round Game.pistol frames
       (round (1 / Game.fireRate Game.pistol))).
Proof.
  intros Hall HT. apply volley_quiet; [done|lra|].
  assert (1 / Game.fireRate Game.pistol
          < round (1 / Game.fireRate Game.pistol)) by (by vm_compute).
  set (c0 := round _) in *. lra.
Qed.

End FireRate.

(** Frames of 0.1 s and 0.05 s after a shot: no shot.  Frames of
    0.13415355745874388 s and 0.04766462435943794 s after a shot: the
    second one fires. *)
Lemma fire_rate_witness :
  Forall (λ fired, fired = false)
    (RoundedWeapon.volley Binary64.round Game.pistol quick_ticks
       (Binary64.round (1 / Game.fireRate Game.pistol)))
  ∧ RoundedWeapon.volley Binary64.round Game.pistol reload_ticks
      (Binary64.round (1 / Game.fireRate Game.pistol)) = [false; true].
Proof.
  split; [|vm_compute; reflexivity].
  apply (fire_rate quick_ticks).
  - repeat (apply Forall_cons_2; [by vm_compute|]). apply Forall_nil_2.
  - by vm_compute.
Defined.

(** ** Pistol rounds and their lifetime *)

(** X28.  A pistol round, fired by [_fireCurrentWeapon] with the
    pistol's speed of 62 and range of 70, flies through at most [2^50]
    frames with non-negative deltas without hitting an enemy; the
    arithmetic is that of the doubles.  If the next frame brings its
    lifetime to 0 or below, it brings its distance to the range or
    beyond as well: the lifetime never retires a round that the range
    would have kept. *)
Theorem rounds_expire_by_range (h : Host) (f : Game.Frame)
    (s : ProjectileSystem.t) (ticks : list Q) (delta : Q)
    (p p' : Projectile.t) :
  let fire :=
    ProjectileSystem.spawnProjectile h (Game.round h Game.pistol f) s in
  Forall (λ delta, 0 <= delta) ticks → 0 <= delta →
  ticksOf (length ticks) <= 2 ^ 50 →
  ProjectileSystem.store fire.2 !! fire.1 = Some p →
  Rounded.flight Binary64.round ticks p = Some p' →
  Projectile.timeToLive (Rounded.advanced Binary64.round delta p') <= 0 →
  Projectile.maxDistance p'
  <= Projectile.distanceTravelled (Rounded.advanced Binary64.round delta p').
Proof.
  intros fire Hall Hd Hn Hp Hf Hout.
  destruct (spawn_store h (Game.round h Game.pistol f) s)
    as (_ & p0 & Hp0 & _ & Es & Em & Ed & Et).
  assert (p0 = p) as -> by (unfold fire in Hp; congruence).
  apply (flight_outruns_lifetime Binary64.round Binary64.unitRoundoff
           Binary64.tiny unitRoundoff_range tiny_range round_error
           round_nonneg round_nonpos round_lifetime ticks delta p p');
    try done.
  - eapply Qle_trans.
    + apply (slack_le _ _ (2 ^ (-44)) (ticksOf_nonneg _)). done.
    + assert (E : 70 == 2 ^ 50 * 2 ^ (-44) + 6) by reflexivity.
      set (N := ticksOf (length ticks)) in *. set (k := 2 ^ (-44)) in *.
      assert (0 <= k) by done.
      assert (N * k <= 2 ^ 50 * k) by (by apply Qmult_le_compat_r).
      set (K := 2 ^ 50) in *. lra.
  - by rewrite Es.
  - by rewrite Em.
  - by rewrite Ed.
  - by rewrite Et.
Qed.

(** A round that has flown for 0.1 s and a frame of 3 s: the lifetime
    is over, and so is the range. *)
Lemma rounds_expire_by_range_witness :
  let fire := ProjectileSystem.spawnProjectile still_host
                (Game.round still_host Game.pistol (frame_of 1 true))
                ProjectileSystem.constructor in
  ∃ p p', ProjectileSystem.store fire.2 !! fire.1 = Some p
    ∧ Rounded.flight Binary64.round [double (1 # 10)] p = Some p'
    ∧ Projectile.timeToLive (Rounded.advanced Binary64.round 3 p') <= 0
    ∧ Projectile.maxDistance p'
      <= Projectile.distanceTravelled
           (Rounded.advanced Binary64.round 3 p').
Proof.
  intros fire.
  pose (p := default ProjectileSystem.freshProjectile
               (ProjectileSystem.store fire.2 !! fire.1)).
  pose (p' := default p
                (Rounded.flight Binary64.round [double (1 # 10)] p)).
  assert (Hp : ProjectileSystem.store fire.2 !! fire.1 = Some p)
    by (vm_compute; reflexivity).
  assert (Hf : Rounded.flight Binary64.round [double (1 # 10)] p = Some p')
    by (vm_compute; reflexivity).
  assert (Hout : Projectile.timeToLive
                   (Rounded.advanced Binary64.round 3 p') <= 0)
    by (by vm_compute).
  exists p, p'. split; [exact Hp|]. split; [exact Hf|]. split; [exact Hout|].
  exact (rounds_expire_by_range still_host (frame_of 1 true)
           ProjectileSystem.constructor [double (1 # 10)] 3 p p'
           ltac:(by repeat constructor) ltac:(done) ltac:(by vm_compute)
           Hp Hf Hout).
Defined.

(** ** The input manager *)

Section Input.

Import InputManager.

Lemma latest_snoc pick events ev :
  latest pick (events ++ [ev])
  = match pick ev with
    | Some b => b
    | None => latest pick events
    end.
Proof.
  unfold latest. rewrite omap_app. simpl.
  destruct (pick ev) as [b|]; [by rewrite last_snoc|by rewrite app_nil_r].
Qed.

Lemma input_run_snoc events ev :
  run (events ++ [ev]) = dispatch ev (run events).
Proof. unfold run. by rewrite foldl_app. Qed.

Lemma run_attached events : attached (run events) = true.
Proof.
  induction events as [|ev events IH] using rev_ind; [done|].
  rewrite input_run_snoc. unfold dispatch. rewrite IH. simpl.
  destruct ev; simpl; try done; unfold _handleKey;
    by destruct (MOVEMENT_KEYS !! code).
Qed.

Lemma run_keys events name :
  name ∈ movements →
  movementState (run events) !! name = Some (latest (keyFor name) events).
Proof.
  intros Hin. induction events as [|ev events IH] using rev_ind.
  - unfold movements in Hin.
    repeat (apply elem_of_cons in Hin as [-> |Hin]; [by vm_compute|]).
    by apply elem_of_nil in Hin.
  - rewrite input_run_snoc, latest_snoc.
    unfold dispatch. rewrite run_attached. simpl.
    destruct ev; simpl; try done; unfold _handleKey;
      (destruct (MOVEMENT_KEYS !! code) as [action|] eqn:Hc; simpl;
       [destruct (decide (Some action = Some name)) as [[= ->]|Hne];
        [by rewrite lookup_insert_eq
        |by rewrite lookup_insert_ne by congruence]
       |by destruct (decide (None = Some name))]).
Qed.

Lemma run_buttons events :
  isShootingPrimary (run events) = latest (buttonFor 0) events
  ∧ isShootingSecondary (run events) = latest (buttonFor 2) events.
Proof.
  induction events as [|ev events [IH1 IH2]] using rev_ind; [done|].
  rewrite input_run_snoc, !latest_snoc.
  unfold dispatch. rewrite run_attached. simpl.
  unfold isShootingPrimary, isShootingSecondary in *.
  destruct ev; simpl; try done.
  - unfold _handleKey. by destruct (MOVEMENT_KEYS !! code).
  - unfold _handleKey. by destruct (MOVEMENT_KEYS !! code).
  - by repeat destruct (decide _).
  - by repeat destruct (decide _).
Qed.

(** X24.  What the input manager reports after any sequence of events:
    each movement is on exactly when the last key event of a key bound to
    it was a press, whichever of its two keys that was, so releasing one
    of two held keys of a movement turns the movement off; each mouse
    button is down exactly when its last pointer event was a press;
    and both components of the axis are -1, 0 or 1, opposite movements
    cancelling. *)
Theorem input_follows_last_event (events : list DomEvent) :
  let s := run events in
  (∀ name, name ∈ movements →
     movementState s !! name = Some (latest (keyFor name) events))
  ∧ isShootingPrimary s = latest (buttonFor 0) events
  ∧ isShootingSecondary s = latest (buttonFor 2) events
  ∧ getAxis s
    = ((Z.b2z (latest (keyFor "right") events)
        - Z.b2z (latest (keyFor "left") events))%Z,
       (Z.b2z (latest (keyFor "forward") events)
        - Z.b2z (latest (keyFor "backward") events))%Z).
Proof.
  cbv zeta. destruct (run_buttons events) as [Hb1 Hb2].
  split; [intros name; apply run_keys|].
  split; [done|]. split; [done|].
  unfold getAxis, moving.
  rewrite !run_keys by (unfold movements; set_solver). simpl.
  by repeat destruct (latest _ _).
Qed.

End Input.

(** ** The clock of the status overlay *)

Section Clock.

Import Main.

Lemma two_digits (n : Z) :
  (0 ≤ n < 100)%Z → String.length (padStart 2 "0"%char (pretty n)) = 2%nat.
Proof.
  intros Hn.
  assert (Hall : Forall (λ n : Z,
            String.length (padStart 2 "0"%char (pretty n)) = 2%nat)
            (seqZ 0 100)).
  { apply (bool_decide_unpack _). vm_compute. reflexivity. }
  rewrite Forall_forall in Hall. apply Hall, elem_of_seqZ. lia.
Qed.

Lemma two_digits_inj (n m : Z) :
  (0 ≤ n < 100)%Z → (0 ≤ m < 100)%Z →
  padStart 2 "0"%char (pretty n) = padStart 2 "0"%char (pretty m) → n = m.
Proof.
  intros Hn Hm.
  assert (Hall : Forall (λ n : Z, Forall (λ m : Z,
            padStart 2 "0"%char (pretty n) = padStart 2 "0"%char (pretty m) → n = m)
            (seqZ 0 100)) (seqZ 0 100)).
  { apply (bool_decide_unpack _). vm_compute. reflexivity. }
  rewrite Forall_forall in Hall.
  specialize (Hall n). rewrite Forall_forall in Hall.
  apply Hall; apply elem_of_seqZ; lia.
Qed.

Lemma two_chars s :
  String.length s = 2%nat → ∃ a b, s = String a (String b EmptyString).
Proof.
  destruct s as [|a [|b [|c s]]]; try done. intros _. by exists a, b.
Qed.

(** X25.  For times below 100 minutes [formatTime] writes five
    characters: two for the minutes, a colon and two for the seconds;
    two times get the same text exactly when they have the same whole
    number of seconds, negative times counting as 0. *)
Theorem formatTime_whole_seconds (a b : Q) :
  a < 6000 → b < 6000 →
  (∃ m1 m2 s1 s2,
     formatTime a
     = String m1 (String m2 (String ":" (String s1 (String s2 EmptyString)))))
  ∧ (formatTime a = formatTime b ↔ shownSeconds a = shownSeconds b).
Proof.
  intros Ha Hb.
  assert (Hrange : ∀ q, q < 6000 → (0 ≤ shownSeconds q < 6000)%Z).
  { intros q Hq. unfold shownSeconds. split; [lia|].
    apply Z.max_lub_lt; [lia|].
    assert (Hfl : inject_Z (Qfloor q) <= q) by apply Qfloor_le.
    assert (Hlt : inject_Z (Qfloor q) < inject_Z 6000)
      by (change (inject_Z 6000) with 6000; lra).
    by rewrite <- Zlt_Qlt in Hlt. }
  assert (Hshape : ∀ q, q < 6000 →
    ∃ m1 m2 s1 s2,
      padStart 2 "0"%char (pretty (shownSeconds q `div` 60)%Z)
      = String m1 (String m2 EmptyString)
      ∧ padStart 2 "0"%char (pretty (shownSeconds q `mod` 60)%Z)
        = String s1 (String s2 EmptyString)).
  { intros q Hq. specialize (Hrange q Hq).
    destruct (two_chars _ (two_digits (shownSeconds q `div` 60)%Z
      ltac:(split; [apply Z.div_pos; lia
                   |apply Z.div_lt_upper_bound; lia]))) as (m1 & m2 & Em).
    destruct (two_chars _ (two_digits (shownSeconds q `mod` 60)%Z
      ltac:(pose proof (Z.mod_pos_bound (shownSeconds q) 60); lia)))
      as (s1 & s2 & Es).
    by exists m1, m2, s1, s2. }
  unfold formatTime. fold (shownSeconds a) (shownSeconds b).
  destruct (Hshape a Ha) as (m1 & m2 & s1 & s2 & Em & Es).
  destruct (Hshape b Hb) as (m1' & m2' & s1' & s2' & Em' & Es').
  split; [exists m1, m2, s1, s2; by rewrite Em, Es|]. split.
  - rewrite Em, Es, Em', Es'. simpl. intros [= -> -> -> ->].
    rewrite <- Em' in Em. rewrite <- Es' in Es.
    pose proof (Hrange a Ha). pose proof (Hrange b Hb).
    apply two_digits_inj in Em;
      [|split; [apply Z.div_pos; lia|apply Z.div_lt_upper_bound; lia]..].
    apply two_digits_inj in Es;
      [|pose proof (Z.mod_pos_bound (shownSeconds a) 60);
        pose proof (Z.mod_pos_bound (shownSeconds b) 60); lia..].
    rewrite (Z.div_mod (shownSeconds a) 60),
            (Z.div_mod (shownSeconds b) 60) by lia.
    congruence.
  - by intros ->.
Qed.

End Clock.

(** 75.4 s and 75.9 s are both shown as 01:15. *)
Lemma formatTime_whole_seconds_witness :
  754 # 10 < 6000 ∧ 759 # 10 < 6000
  ∧ Main.formatTime (754 # 10) = Main.formatTime (759 # 10).
Proof.
  assert (Ha : 754 # 10 < 6000) by lra.
  assert (Hb : 759 # 10 < 6000) by lra.
  split; [exact Ha|]. split; [exact Hb|].
  apply (proj2 (formatTime_whole_seconds (754 # 10) (759 # 10) Ha Hb)).
  vm_compute. reflexivity.
Defined.

(** ** The pool of floating texts *)

Section Texts.

Import FloatingTextManager.

Lemma get_Some e v m : get e m = Some v → (e, v) ∈ m.
Proof.
  induction m as [|[k w] m IH]; simpl; [done|].
  destruct (decide (k = e)) as [->|Hne].
  - intros [= ->]. left.
  - intros Hg. right. by apply IH.
Qed.

Lemma get_elem e v m : NoDup m.*1 → (e, v) ∈ m → get e m = Some v.
Proof.
  induction m as [|[k w] m IH]; simpl; intros Hnd Hin.
  { by apply elem_of_nil in Hin. }
  apply NoDup_cons in Hnd as [Hk Hnd].
  apply elem_of_cons in Hin as [[= -> ->]|Hin].
  - by rewrite decide_True.
  - destruct (decide (k = e)) as [->|Hne]; [|by apply IH].
    destruct Hk. apply list_elem_of_fmap. by exists (e, v).
Qed.

Lemma set_fresh e v m : e ∉ m.*1 → set e v m = m ++ [(e, v)].
Proof.
  induction m as [|[k w] m IH]; simpl; intros Hout; [done|].
  apply not_elem_of_cons in Hout as [Hne Hout].
  rewrite decide_False by done. by rewrite IH.
Qed.

Lemma elem_of_remove e m entry :
  entry ∈ remove e m ↔ entry ∈ m ∧ entry.1 ≠ e.
Proof. unfold remove. rewrite list_elem_of_filter. tauto. Qed.

Lemma remove_keys e v m :
  NoDup m.*1 → (e, v) ∈ m → m.*1 ≡ₚ e :: (remove e m).*1.
Proof.
  induction m as [|[k w] m IH]; simpl; intros Hnd Hin.
  { by apply elem_of_nil in Hin. }
  apply NoDup_cons in Hnd as [Hk Hnd]. unfold remove in *.
  apply elem_of_cons in Hin as [[= <- <-]|Hin].
  - rewrite filter_cons_False by (simpl; tauto).
    assert (E : filter (λ entry : nat * nat, entry.1 ≠ e) m = m).
    { clear IH Hnd. induction m as [|[k' w'] m IH']; [done|].
      simpl in Hk. apply not_elem_of_cons in Hk as [Hne Hk].
      rewrite filter_cons_True by (simpl; congruence).
      by rewrite IH'. }
    by rewrite E.
  - assert (Hne : k ≠ e).
    { intros ->. destruct Hk. apply list_elem_of_fmap. by exists (e, v). }
    rewrite filter_cons_True by done. simpl.
    rewrite (IH Hnd Hin). apply Permutation_swap.
Qed.

Lemma remove_head e v m :
  e ∉ m.*1 → remove e ((e, v) :: m) = m.
Proof.
  intros Hout. unfold remove.
  rewrite filter_cons_False by (simpl; tauto).
  induction m as [|[k w] m IH]; [done|].
  simpl in Hout. apply not_elem_of_cons in Hout as [Hne Hout].
  rewrite filter_cons_True by (simpl; congruence). by rewrite IH.
Qed.

Lemma getElement_cases s :
  (∃ rest, pool s = rest ++ [(_getElement s).1]
     ∧ (_getElement s).2
       = {| container := container s; elements := elements s;
            pool := rest; active := active s; timers := timers s;
            nextElement := nextElement s; nextTimer := nextTimer s |})
  ∨ (pool s = [] ∧ (_getElement s).1 = nextElement s
     ∧ (_getElement s).2
       = {| container := container s;
            elements := <[nextElement s := createElement]> (elements s);
            pool := []; active := active s; timers := timers s;
            nextElement := S (nextElement s);
            nextTimer := nextTimer s |}).
Proof.
  unfold _getElement. destruct (pool s) as [|e0 l] eqn:Ep using rev_ind.
  - right. done.
  - left. rewrite last_snoc. simpl. exists l.
    by rewrite removelast_last.
Qed.

Lemma constructor_tidy c : tidy (constructor c).
Proof.
  unfold tidy. simpl. split_and!; try done.
  - apply NoDup_nil_2.
  - intros e He. by apply elem_of_nil in He.
  - intros id e. rewrite lookup_empty. split; [done|].
    intros He. by apply elem_of_nil in He.
  - intros e id He. by apply elem_of_nil in He.
  - intros e He. by apply elem_of_nil in He.
  - intros e He. by apply elem_of_nil in He.
Qed.

Lemma spawn_tidy a s : tidy s → tidy (spawnFromWorldPosition a s).
Proof.
  intros Ht. unfold spawnFromWorldPosition.
  destruct (negb (container s) || negb (arg_given a))%bool; [done|].
  destruct Ht as (Hnd & Hlen & Hlt & Htim & Hid & Hpool & Hact & Hnt).
  assert (Hfresh : ∀ e, (nextTimer s, e) ∉ (λ p, (p.2, p.1)) <$> active s).
  { intros e Hin. apply list_elem_of_fmap in Hin as ([e' id] & [= <- ->] & Hin).
    specialize (Hid _ _ Hin). lia. }
  assert (Htfresh : ∀ e, (e, nextTimer s) ∉ active s).
  { intros e Hin. specialize (Hid _ _ Hin). lia. }
  destruct (getElement_cases s) as [(rest & Ep & Es)|(Ep & Ee & Es)];
    destruct (_getElement s) as [e s1]; simpl in *; subst s1; simpl.
  - rewrite Ep in *.
    assert (Hout : e ∉ (active s).*1).
    { intros Hin. apply NoDup_app in Hnd as (_ & Hdis & _).
      apply (Hdis e); [|done]. apply elem_of_app. right. left. }
    assert (Hnr : e ∉ rest).
    { intros Hin. apply NoDup_app in Hnd as (Hnd & _).
      apply NoDup_app in Hnd as (_ & Hdis & _).
      apply (Hdis e Hin). left. }
    destruct (Hpool e) as (el & Hel & _);
      [apply elem_of_app; right; left|].
    rewrite set_fresh by done. unfold tidy. simpl.
    rewrite fmap_app, length_app in *. simpl in *.
    split_and!.
    + assert (Hp : rest ++ (active s).*1 ++ [e]
                   ≡ₚ (rest ++ [e]) ++ (active s).*1).
      { rewrite <- app_assoc.
        apply Permutation_app_head, Permutation_app_comm. }
      by rewrite Hp.
    + lia.
    + intros x. rewrite !elem_of_app, list_elem_of_singleton.
      intros [Hx|[Hx| ->]].
      * apply Hlt. rewrite !elem_of_app. tauto.
      * apply Hlt. rewrite !elem_of_app. tauto.
      * apply Hlt. rewrite !elem_of_app, list_elem_of_singleton. tauto.
    + intros id e'. rewrite elem_of_app, list_elem_of_singleton.
      destruct (decide (id = nextTimer s)) as [->|Hne].
      * rewrite lookup_insert_eq. split.
        -- intros [= ->]. by right.
        -- intros [Hin|[= ->]]; [by destruct (Htfresh e')|done].
      * rewrite lookup_insert_ne by done. rewrite Htim. split.
        -- by left.
        -- intros [Hin|[= _ ?]]; [done|congruence].
    + intros e' id. rewrite elem_of_app, list_elem_of_singleton.
      intros [Hin|[= -> ->]]; [|lia]. specialize (Hid _ _ Hin). lia.
    + intros x Hx. destruct (Hpool x) as (el' & Hel' & Hat);
        [apply elem_of_app; by left|].
      exists el'. rewrite lookup_alter_ne by (by intros ->). done.
    + intros x. rewrite elem_of_app, list_elem_of_singleton.
      intros [Hx| ->].
      * destruct (Hact x Hx) as (el' & Hel' & Hat).
        exists el'. rewrite lookup_alter_ne by (by intros ->). done.
      * eexists. rewrite lookup_alter_eq, Hel. simpl. done.
    + lia.
  - rewrite Ep in *. simpl in *. subst e.
    assert (Hout : nextElement s ∉ (active s).*1).
    { intros Hin. specialize (Hlt _ Hin). lia. }
    rewrite set_fresh by done. unfold tidy. simpl.
    rewrite fmap_app, length_app in *. simpl in *.
    split_and!.
    + apply NoDup_app. split_and!; [done| |apply NoDup_singleton].
      intros x Hx Hx'. apply list_elem_of_singleton in Hx' as ->. done.
    + lia.
    + intros x. rewrite elem_of_app, list_elem_of_singleton.
      intros [Hx| ->]; [|lia]. specialize (Hlt _ Hx). lia.
    + intros id e'. rewrite elem_of_app, list_elem_of_singleton.
      destruct (decide (id = nextTimer s)) as [->|Hne].
      * rewrite lookup_insert_eq. split.
        -- intros [= ->]. by right.
        -- intros [Hin|[= ->]]; [by destruct (Htfresh e')|done].
      * rewrite lookup_insert_ne by done. rewrite Htim. split.
        -- by left.
        -- intros [Hin|[= _ ?]]; [done|congruence].
    + intros e' id. rewrite elem_of_app, list_elem_of_singleton.
      intros [Hin|[= -> ->]]; [|lia]. specialize (Hid _ _ Hin). lia.
    + intros x Hx. by apply elem_of_nil in Hx.
    + intros x. rewrite elem_of_app, list_elem_of_singleton.
      intros [Hx| ->].
      * destruct (Hact x Hx) as (el' & Hel' & Hat).
        exists el'.
        rewrite lookup_alter_ne, lookup_insert_ne
          by (intros E; apply Hout; by rewrite E).
        done.
      * eexists. rewrite lookup_alter_eq, lookup_insert_eq. simpl. done.
    + lia.
Qed.

(** Recycling an element of the map whose timeout is no longer pending
    or is cancelled first. *)
Lemma recycle_tidy e id s timers0 :
  tidy s → (e, id) ∈ active s → timers0 = delete id (timers s) →
  let s' := _recycleElement e
              {| container := container s; elements := elements s;
                 pool := pool s; active := active s; timers := timers0;
                 nextElement := nextElement s; nextTimer := nextTimer s |} in
  tidy s' ∧ active s' = remove e (active s)
  ∧ pool s' = pool s ++ [e] ∧ nextElement s' = nextElement s.
Proof.
  intros (Hnd & Hlen & Hlt & Htim & Hid & Hpool & Hact & Hnt) Hin ->.
  cbv zeta.
  assert (Hkeys : NoDup (active s).*1)
    by (by apply NoDup_app in Hnd as (_ & _ & ?)).
  unfold _recycleElement. simpl.
  rewrite (get_elem e id _ Hkeys Hin).
  destruct (Hid _ _ Hin) as [Hid1 _].
  rewrite decide_False by lia. simpl.
  split; [|done].
  pose proof (remove_keys e id _ Hkeys Hin) as Hperm.
  assert (Hek : e ∈ (active s).*1).
  { apply list_elem_of_fmap. by exists (e, id). }
  assert (Hrem : e ∉ (remove e (active s)).*1).
  { intros Hx. apply list_elem_of_fmap in Hx as ([e' id'] & ? & Hx).
    apply elem_of_remove in Hx as [_ Hx]. simpl in *. congruence. }
  unfold tidy. simpl. split_and!.
  - rewrite <- app_assoc. simpl.
    revert Hnd. by rewrite Hperm.
  - rewrite length_app. simpl.
    apply Permutation_length in Hperm. simpl in Hperm.
    rewrite !length_fmap in Hperm. lia.
  - intros x Hx. apply Hlt. rewrite Hperm.
    rewrite <- app_assoc in Hx. simpl in Hx. done.
  - intros id' e'. rewrite elem_of_remove. simpl.
    rewrite delete_delete_eq.
    destruct (decide (id' = id)) as [->|Hne].
    + rewrite lookup_delete_eq. split; [done|]. intros [Hin' Hne'].
      apply Htim in Hin, Hin'. congruence.
    + rewrite lookup_delete_ne by done. rewrite Htim. split.
      * intros Hin'. split; [done|]. intros ->.
        pose proof (get_elem e id' _ Hkeys Hin') as E1.
        pose proof (get_elem e id _ Hkeys Hin) as E2. congruence.
      * tauto.
  - intros e' id' Hx. apply elem_of_remove in Hx as [Hx _].
    by apply (Hid e').
  - intros x. rewrite elem_of_app, list_elem_of_singleton.
    intros [Hx| ->].
    + destruct (Hpool x Hx) as (el & Hel & Hat). exists el.
      rewrite lookup_alter_ne; [done|]. intros ->.
      apply NoDup_app in Hnd as (_ & Hdis & _). by apply (Hdis x).
    + destruct (Hact e Hek) as (el & Hel & _).
      eexists. rewrite lookup_alter_eq, Hel. simpl. done.
  - intros x Hx.
    assert (Hx' : x ∈ (active s).*1) by (rewrite Hperm; by right).
    destruct (Hact x Hx') as (el & Hel & Hat). exists el.
    rewrite lookup_alter_ne; [done|]. by intros ->.
  - done.
Qed.

Lemma timeout_tidy id s : tidy s → tidy (timeout id s).
Proof.
  intros Ht. unfold timeout.
  destruct (timers s !! id) as [e|] eqn:Hlook; [|done].
  assert (Hin : (e, id) ∈ active s).
  { destruct Ht as (_ & _ & _ & Htim & _). by apply Htim. }
  by destruct (recycle_tidy e id s _ Ht Hin eq_refl) as (? & _).
Qed.

Lemma clearLoop_tidy (l : list (nat * nat)) : ∀ s,
  tidy s → active s = l →
  let s' := foldl clearEntry s l in
  tidy s' ∧ active s' = [] ∧ pool s' = pool s ++ l.*1
  ∧ nextElement s' = nextElement s.
Proof.
  induction l as [|[e id] l IH]; intros s Ht Ha; cbv zeta.
  { simpl. by rewrite app_nil_r. }
  simpl. unfold clearEntry at 2. simpl.
  assert (Hin : (e, id) ∈ active s) by (rewrite Ha; left).
  destruct (recycle_tidy e id s _ Ht Hin eq_refl) as (Ht1 & Ha1 & Hp1 & Hn1).
  assert (Hout : e ∉ l.*1).
  { destruct Ht as (Hnd & _). rewrite Ha in Hnd. simpl in Hnd.
    apply NoDup_app in Hnd as (_ & _ & Hnd).
    by apply NoDup_cons in Hnd as [? _]. }
  assert (Hrem : remove e (active s) = l)
    by (rewrite Ha; by apply remove_head).
  rewrite Hrem in Ha1.
  destruct (IH _ Ht1 Ha1) as (Ht2 & Ha2 & Hp2 & Hn2).
  split_and!; [exact Ht2|exact Ha2| |etrans; [exact Hn2|exact Hn1]].
  etrans; [exact Hp2|]. rewrite Hp1, <- app_assoc. done.
Qed.

Lemma clear_tidy s :
  tidy s →
  tidy (clear s) ∧ active (clear s) = [] ∧ timers (clear s) = ∅
  ∧ pool (clear s) = pool s ++ (active s).*1
  ∧ nextElement (clear s) = nextElement s.
Proof.
  intros Ht. unfold clear.
  destruct (clearLoop_tidy (active s) s Ht eq_refl)
    as (Ht1 & Ha1 & Hp1 & Hn1).
  set (s1 := foldl clearEntry s (active s)) in *. simpl.
  assert (E : {| container := container s1; elements := elements s1;
                 pool := pool s1; active := []; timers := timers s1;
                 nextElement := nextElement s1;
                 nextTimer := nextTimer s1 |} = s1).
  { destruct s1. simpl in *. by rewrite Ha1. }
  rewrite E. split_and!; try done.
  destruct Ht1 as (_ & _ & _ & Htim & _).
  apply map_eq. intros id. rewrite lookup_empty.
  destruct (timers s1 !! id) as [e|] eqn:Hlook; [|done].
  apply Htim in Hlook. rewrite Ha1 in Hlook.
  by apply elem_of_nil in Hlook.
Qed.

Lemma texts_run_snoc c calls x :
  run c (calls ++ [x]) = call x (run c calls).
Proof. unfold run. by rewrite foldl_app. Qed.

Lemma run_tidy c calls : tidy (run c calls).
Proof.
  induction calls as [|x calls IH] using rev_ind.
  - apply constructor_tidy.
  - rewrite texts_run_snoc. destruct x as [a|id|]; simpl.
    + by apply spawn_tidy.
    + by apply timeout_tidy.
    + by apply clear_tidy.
Qed.

(** X26.  The floating texts recycle their elements without losing or
    sharing one: in every session the pool and the map of active texts
    together hold each element ever created exactly once; the pending
    timeouts are exactly those recorded in the map, one per active
    text; pooled elements are out of the page and active ones are on
    it; and [clear()] empties the map, leaves no timeout pending and
    puts every element in the pool. *)
Theorem texts_recycled (c : bool) (calls : list Call) :
  let s := run c calls in
  pool s ++ (active s).*1 ≡ₚ seq 0 (nextElement s)
  ∧ (∀ id e, timers s !! id = Some e ↔ (e, id) ∈ active s)
  ∧ (∀ e, e ∈ pool s →
       ∃ el, elements s !! e = Some el ∧ attached el = false)
  ∧ (∀ e, e ∈ (active s).*1 →
       ∃ el, elements s !! e = Some el ∧ attached el = true)
  ∧ active (clear s) = [] ∧ timers (clear s) = ∅
  ∧ pool (clear s) ≡ₚ seq 0 (nextElement s).
Proof.
  cbv zeta. pose proof (run_tidy c calls) as Ht.
  destruct (clear_tidy _ Ht) as (_ & Ha & Htm & Hp & _).
  destruct Ht as (Hnd & Hlen & Hlt & Htim & _ & Hpool & Hact & _).
  assert (Hperm : pool (run c calls) ++ (active (run c calls)).*1
                  ≡ₚ seq 0 (nextElement (run c calls))).
  { apply submseteq_length_Permutation.
    - apply NoDup_submseteq; [done|].
      intros r Hr. apply elem_of_seq. specialize (Hlt r Hr). lia.
    - rewrite length_seq, length_app, length_fmap. lia. }
  split_and!; try done. by rewrite Hp.
Qed.

End Texts.
